(** * Boolean search engine (mai-ir): text analysis, index builder, query engine

    A shallow embedding of the C++ sources under [search_engine/src]:
    [tokenizer.cpp], [stemmer.cpp], the index builder ([IndexBuilder]), and
    [search_engine.cpp].

    Conventions.
    - [std::string] is [string]; a [char] is an [ascii]; the character
      classes are those of the default "C" locale.
    - [int] and [size_t] values are [Z] and [nat]; the sizes handled here
      stay far below [2^31], so no wrap-around is reachable.
    - [DynamicArray<T>] is [list T]; [HashMap<K,V>] is a finite map [gmap];
      its iteration order (the slot order of the hash table) is the order of
      [map_to_list], which is fixed but otherwise unspecified.
    - [double] is the binary64 type [float]; [std::log] is not part of the
      repository and is a parameter of the scoring functions. *)

From Stdlib Require Import ZArith NArith Ascii String List Bool Lia DecimalString DecimalNat.
From Stdlib Require Import Floats Uint63.
From stdpp Require Import gmap strings list fin_maps sorting.

Local Open Scope string_scope.
Local Open Scope list_scope.
Local Open Scope Z_scope.

(** The literals 0.35 and 0.15 stand for the nearest binary64 values, as in
    the C++ source. *)
#[local] Set Warnings "-inexact-float".

(** ** Characters *)

Module Chars.

Definition code (c : ascii) : N := N_of_ascii c.

Definition is_upper (c : ascii) : bool := ((65 <=? code c) && (code c <=? 90))%N.
Definition is_lower (c : ascii) : bool := ((97 <=? code c) && (code c <=? 122))%N.
Definition is_digit (c : ascii) : bool := ((48 <=? code c) && (code c <=? 57))%N.

(** [std::isalpha], [std::isalnum], [std::isspace] and [std::tolower]. *)
Definition isalpha (c : ascii) : bool := is_upper c || is_lower c.
Definition isalnum (c : ascii) : bool := isalpha c || is_digit c.
Definition isspace (c : ascii) : bool :=
  ((9 <=? code c) && (code c <=? 13))%N || (code c =? 32)%N.
Definition tolower (c : ascii) : ascii :=
  if is_upper c then ascii_of_N (code c + 32) else c.

Definition apostrophe : ascii := "'"%char.
Definition tab : ascii := ascii_of_N 9.
Definition newline : ascii := ascii_of_N 10.
Definition carriage_return : ascii := ascii_of_N 13.
Definition nul : ascii := ascii_of_N 0.
Definition dquote : ascii := ascii_of_N 34.
Definition backslash : ascii := ascii_of_N 92.

End Chars.

(** ** Strings *)

Module Str.

Definition empty (s : string) : bool :=
  match s with EmptyString => true | String _ _ => false end.

Definition push (s : string) (c : ascii) : string := s ++ String c EmptyString.

Fixpoint map (f : ascii -> ascii) (s : string) : string :=
  match s with
  | EmptyString => EmptyString
  | String c r => String (f c) (map f r)
  end.

Fixpoint all (p : ascii -> bool) (s : string) : bool :=
  match s with
  | EmptyString => true
  | String c r => p c && all p r
  end.

(** [s[i]] for a signed index.  [std::string::operator[]] is unchecked: the
    position [size()] holds the terminating NUL, and a read outside the
    buffer yields whatever byte lies there; the model returns NUL. *)
Definition at_ (s : string) (i : Z) : ascii :=
  if i <? 0 then Chars.nul
  else match String.get (Z.to_nat i) s with
       | Some c => c
       | None => Chars.nul
       end.

(** [s.substr(pos, len)] for [pos <= s.size()]. *)
Definition substr (s : string) (pos len : Z) : string :=
  String.substring (Z.to_nat pos) (Z.to_nat len) s.

Definition size (s : string) : Z := Z.of_nat (String.length s).

(** [s.replace(pos, len, t)] for [pos <= s.size()]. *)
Definition replace (s : string) (pos len : Z) (t : string) : string :=
  substr s 0 pos ++ t ++ substr s (pos + len) (size s - (pos + len)).

(** [s.find(t, pos)]: the first position [>= pos] at which [t] occurs. *)
Fixpoint find_from (t s : string) (here : nat) : option nat :=
  if String.prefix t s then Some here
  else match s with
       | EmptyString => None
       | String _ r => find_from t r (S here)
       end.

Fixpoint drop (n : nat) (s : string) : string :=
  match n, s with
  | O, _ => s
  | S n', String _ r => drop n' r
  | S _, EmptyString => EmptyString
  end.

Definition find (s t : string) (pos : nat) : option nat :=
  if (pos <=? String.length s)%nat then find_from t (drop pos s) pos else None.

Definition contains (s t : string) : bool :=
  match find s t 0 with Some _ => true | None => false end.

End Str.

(** ** Tokenizer ([tokenizer.cpp]) *)

Module Tokenizer.

Definition stop_words_ : list string :=
  [ "a"; "an"; "and"; "are"; "as"; "at"; "be"; "by"; "for"; "from";
    "has"; "he"; "in"; "is"; "it"; "its"; "of"; "on"; "that"; "the";
    "to"; "was"; "were"; "will"; "with"; "this"; "but"; "they"; "have";
    "had"; "what"; "when"; "where"; "who"; "which"; "why"; "how"; "all";
    "each"; "every"; "both"; "few"; "more"; "most"; "other"; "some"; "such";
    "no"; "nor"; "not"; "only"; "own"; "same"; "so"; "than"; "too"; "very";
    "can"; "just"; "should"; "now";
    "you"; "your"; "we"; "our"; "us"; "or"; "if"; "do"; "did"; "does";
    "about"; "up"; "out"; "would"; "could"; "may"; "might"; "been";
    "also"; "into"; "over"; "after"; "before"; "through"; "between";
    "her"; "him"; "his"; "she"; "them"; "their"; "my"; "me";
    "any"; "there"; "then"; "these"; "those"; "am"; "been"; "being";
    "here"; "while"; "during"; "under"; "again"; "once" ].

Definition is_stop_word (word : string) : bool :=
  existsb (String.eqb word) stop_words_.

Definition to_lower (str : string) : string := Str.map Chars.tolower str.

Definition is_alpha (c : ascii) : bool := Chars.isalpha c.

(** The block that closes a surface token (it occurs twice in [tokenize]). *)
Definition flush (current_token : string) (tokens : list string) : list string :=
  let lower_token := to_lower current_token in
  if (2 <=? String.length lower_token)%nat && negb (is_stop_word lower_token)
  then tokens ++ [lower_token]
  else tokens.

Fixpoint tokenize_loop (text : string) (current_token : string)
    (tokens : list string) : list string :=
  match text with
  | EmptyString =>
      if negb (Str.empty current_token) then flush current_token tokens else tokens
  | String c rest =>
      if is_alpha c || (Ascii.eqb c Chars.apostrophe && negb (Str.empty current_token))
      then tokenize_loop rest (Str.push current_token c) tokens
      else if negb (Str.empty current_token)
           then tokenize_loop rest EmptyString (flush current_token tokens)
           else tokenize_loop rest current_token tokens
  end.

Definition tokenize (text : string) : list string :=
  tokenize_loop text EmptyString [].

End Tokenizer.

(** ** Porter stemmer ([stemmer.cpp]) *)

Module PorterStemmer.

(** The object's fields: the buffer [word_], the end index [k_], and the
    stem end [j_] left by the last successful [ends]. *)
Record t : Type := mk { word_ : string; k_ : Z; j_ : Z }.

Definition set_k (st : t) (k : Z) : t := mk (word_ st) k (j_ st).
Definition set_j (st : t) (j : Z) : t := mk (word_ st) (k_ st) j.
Definition set_word (st : t) (w : string) : t := mk w (k_ st) (j_ st).

(** The constructor: [k_(0), j_(0)]. *)
Definition init : t := mk EmptyString 0 0.

Definition is_vowel_letter (ch : ascii) : bool :=
  Ascii.eqb ch "a" || Ascii.eqb ch "e" || Ascii.eqb ch "i" ||
  Ascii.eqb ch "o" || Ascii.eqb ch "u".

Fixpoint is_consonant_at (w : string) (i : nat) : bool :=
  let ch := Str.at_ w (Z.of_nat i) in
  if is_vowel_letter ch then false
  else if Ascii.eqb ch "y"
       then match i with
            | O => true
            | S i' => negb (is_consonant_at w i')
            end
       else true.

Definition is_consonant (st : t) (i : Z) : bool :=
  is_consonant_at (word_ st) (Z.to_nat i).

(** [measure] scans [i = 0 .. j_] through three loops: the leading
    consonants, then alternately a vowel run and a consonant run.  Every
    iteration of every loop advances [i] by one, so [j_ + 2] iterations always
    reach the exit [i > j_]. *)
Inductive scan : Type := Leading | VowelRun | ConsonantRun.

Fixpoint measure_loop (st : t) (fuel : nat) (ph : scan) (i n : Z) : Z :=
  match fuel with
  | O => n
  | S fuel' =>
      if j_ st <? i then n
      else match ph with
           | Leading =>
               if negb (is_consonant st i)
               then measure_loop st fuel' VowelRun (i + 1) n
               else measure_loop st fuel' Leading (i + 1) n
           | VowelRun =>
               if is_consonant st i
               then measure_loop st fuel' ConsonantRun (i + 1) (n + 1)
               else measure_loop st fuel' VowelRun (i + 1) n
           | ConsonantRun =>
               if negb (is_consonant st i)
               then measure_loop st fuel' VowelRun (i + 1) n
               else measure_loop st fuel' ConsonantRun (i + 1) n
           end
  end.

Definition measure (st : t) : Z :=
  measure_loop st (Z.to_nat (j_ st + 2)) Leading 0 0.

Definition vowel_in_stem (st : t) : bool :=
  existsb (fun i => negb (is_consonant st (Z.of_nat i)))
          (seq 0 (Z.to_nat (j_ st + 1))).

Definition double_consonant (st : t) (i : Z) : bool :=
  if i <? 1 then false
  else if negb (Ascii.eqb (Str.at_ (word_ st) i) (Str.at_ (word_ st) (i - 1))) then false
  else is_consonant st i.

Definition cvc (st : t) (i : Z) : bool :=
  if (i <? 2) || negb (is_consonant st i) || is_consonant st (i - 1)
     || negb (is_consonant st (i - 2))
  then false
  else let ch := Str.at_ (word_ st) i in
       if Ascii.eqb ch "w" || Ascii.eqb ch "x" || Ascii.eqb ch "y" then false
       else true.

(** [ends(s)]: [Some st'] when it returns true (with [j_] moved),
    [None] when it returns false (nothing is changed then). *)
Definition ends (s : string) (st : t) : option t :=
  let length := Str.size s in
  if negb (Ascii.eqb (Str.at_ s (length - 1)) (Str.at_ (word_ st) (k_ st))) then None
  else if k_ st + 1 <? length then None
  else if negb (String.eqb (Str.substr (word_ st) (k_ st - length + 1) length) s) then None
  else Some (set_j st (k_ st - length)).

Definition set_to (s : string) (st : t) : t :=
  let length := Str.size s in
  let w := Str.replace (word_ st) (j_ st + 1) (k_ st - j_ st) s in
  mk w (j_ st + length) (j_ st).

Definition r (s : string) (st : t) : t :=
  if 0 <? measure st then set_to s st else st.

Definition step1ab (st : t) : t :=
  let st :=
    if Ascii.eqb (Str.at_ (word_ st) (k_ st)) "s" then
      match ends "sses" st with
      | Some st => set_k st (k_ st - 2)
      | None =>
          match ends "ies" st with
          | Some st => set_to "i" st
          | None =>
              if negb (Ascii.eqb (Str.at_ (word_ st) (k_ st - 1)) "s")
              then set_k st (k_ st - 1)
              else st
          end
      end
    else st in
  match ends "eed" st with
  | Some st => if 0 <? measure st then set_k st (k_ st - 1) else st
  | None =>
      let ed_or_ing :=
        match ends "ed" st with
        | Some st => Some st
        | None => ends "ing" st
        end in
      match ed_or_ing with
      | None => st
      | Some st =>
          if vowel_in_stem st then
            let st := set_k st (j_ st) in
            match ends "at" st with
            | Some st => set_to "ate" st
            | None =>
            match ends "bl" st with
            | Some st => set_to "ble" st
            | None =>
            match ends "iz" st with
            | Some st => set_to "ize" st
            | None =>
                if double_consonant st (k_ st) then
                  let st := set_k st (k_ st - 1) in
                  let ch := Str.at_ (word_ st) (k_ st) in
                  if Ascii.eqb ch "l" || Ascii.eqb ch "s" || Ascii.eqb ch "z"
                  then set_k st (k_ st + 1)
                  else st
                else if (measure st =? 1) && cvc st (k_ st)
                     then set_to "e" st
                     else st
            end end end
          else st
      end
  end.

(** [word_[k_] = 'i'] *)
Definition poke (st : t) (c : ascii) : t :=
  set_word st (Str.replace (word_ st) (k_ st) 1 (String c EmptyString)).

Definition step1c (st : t) : t :=
  match ends "y" st with
  | Some st => if vowel_in_stem st then poke st "i" else st
  | None => st
  end.

(** A run of [if (ends(s)) { r(t); break; }] lines inside one [case]. *)
Fixpoint rules (l : list (string * string)) (st : t) : t :=
  match l with
  | [] => st
  | (s, t) :: l' =>
      match ends s st with
      | Some st => r t st
      | None => rules l' st
      end
  end.

Definition step2 (st : t) : t :=
  if k_ st =? 0 then st else
  let c := Str.at_ (word_ st) (k_ st - 1) in
  if Ascii.eqb c "a" then rules [("ational", "ate"); ("tional", "tion")] st
  else if Ascii.eqb c "c" then rules [("enci", "ence"); ("anci", "ance")] st
  else if Ascii.eqb c "e" then rules [("izer", "ize")] st
  else if Ascii.eqb c "l" then
    rules [("bli", "ble"); ("alli", "al"); ("entli", "ent"); ("eli", "e");
           ("ousli", "ous")] st
  else if Ascii.eqb c "o" then
    rules [("ization", "ize"); ("ation", "ate"); ("ator", "ate")] st
  else if Ascii.eqb c "s" then
    rules [("alism", "al"); ("iveness", "ive"); ("fulness", "ful");
           ("ousness", "ous")] st
  else if Ascii.eqb c "t" then
    rules [("aliti", "al"); ("iviti", "ive"); ("biliti", "ble")] st
  else if Ascii.eqb c "g" then rules [("logi", "log")] st
  else st.

Definition step3 (st : t) : t :=
  let c := Str.at_ (word_ st) (k_ st) in
  if Ascii.eqb c "e" then
    rules [("icate", "ic"); ("ative", EmptyString); ("alize", "al")] st
  else if Ascii.eqb c "i" then rules [("iciti", "ic")] st
  else if Ascii.eqb c "l" then rules [("ical", "ic"); ("ful", EmptyString)] st
  else if Ascii.eqb c "s" then rules [("ness", EmptyString)] st
  else st.

(** A run of [if (ends(s)) break;] lines closed by [return]: [(true, st')]
    stands for [break], [(false, st)] for [return]. *)
Fixpoint suffixes (l : list string) (st : t) : bool * t :=
  match l with
  | [] => (false, st)
  | s :: l' =>
      match ends s st with
      | Some st => (true, st)
      | None => suffixes l' st
      end
  end.

(** The [switch] of [step4] on the byte [c = word_[k_ - 1]]. *)
Definition step4_switch (c : ascii) (st : t) : bool * t :=
  if Ascii.eqb c "a" then suffixes ["al"] st
  else if Ascii.eqb c "c" then suffixes ["ance"; "ence"] st
  else if Ascii.eqb c "e" then suffixes ["er"] st
  else if Ascii.eqb c "i" then suffixes ["ic"] st
  else if Ascii.eqb c "l" then suffixes ["able"; "ible"] st
  else if Ascii.eqb c "n" then suffixes ["ant"; "ement"; "ment"; "ent"] st
  else if Ascii.eqb c "o" then
    match ends "ion" st with
    | Some st =>
        if (0 <=? j_ st) &&
           (Ascii.eqb (Str.at_ (word_ st) (j_ st)) "s" ||
            Ascii.eqb (Str.at_ (word_ st) (j_ st)) "t")
        then (true, st)
        else suffixes ["ou"] st
    | None => suffixes ["ou"] st
    end
  else if Ascii.eqb c "s" then suffixes ["ism"] st
  else if Ascii.eqb c "t" then suffixes ["ate"; "iti"] st
  else if Ascii.eqb c "u" then suffixes ["ous"] st
  else if Ascii.eqb c "v" then suffixes ["ive"] st
  else if Ascii.eqb c "z" then suffixes ["ize"] st
  else (false, st).

(** [step4] has no guard for [k_ = 0] (unlike [step2]): for a one-letter
    remainder such as the one [step1ab] leaves of "ies", it reads
    [word_[-1]].  See [step4_switch_short] below: every arm fails then,
    whatever byte is read. *)
Definition step4 (st : t) : t :=
  match step4_switch (Str.at_ (word_ st) (k_ st - 1)) st with
  | (true, st) => if 1 <? measure st then set_k st (j_ st) else st
  | (false, st) => st
  end.

Definition step5 (st : t) : t :=
  let st := set_j st (k_ st) in
  let st :=
    if Ascii.eqb (Str.at_ (word_ st) (k_ st)) "e" then
      let a := measure st in
      if (1 <? a) || ((a =? 1) && negb (cvc st (k_ st - 1)))
      then set_k st (k_ st - 1)
      else st
    else st in
  if Ascii.eqb (Str.at_ (word_ st) (k_ st)) "l" && double_consonant st (k_ st)
     && (1 <? measure st)
  then set_k st (k_ st - 1)
  else st.

(** [stem(word)] run on an object in state [st0]: the state it leaves and
    the string it returns. *)
Definition stem_from (st0 : t) (word : string) : t * string :=
  let st := mk word (Str.size word - 1) (j_ st0) in
  if k_ st <=? 1 then (st, word_ st)
  else
    let st := step5 (step4 (step3 (step2 (step1c (step1ab st))))) in
    (st, Str.substr (word_ st) 0 (k_ st + 1)).

Definition stem (word : string) : string := snd (stem_from init word).

End PorterStemmer.


(** ** Postings

    [TermPosting] ([index_builder.h]) and [SearchPosting]
    ([search_engine.h]) are the same pair of [int]s. *)

Record Posting : Type := mkPosting { doc_id : Z; tf : Z }.

Global Instance Posting_eq_dec : EqDecision Posting.
Proof. solve_decision. Defined.

(** ** Stream input and output used by [save_index] and [load_index] *)

Module Stream.

(** [os << n] for a non-negative integer, and for an [int]. *)
Definition put_nat (n : nat) : string := NilZero.string_of_uint (Nat.to_uint n).

Definition put_int (z : Z) : string :=
  if z <? 0 then String "-" (put_nat (Z.to_nat (- z))) else put_nat (Z.to_nat z).

Fixpoint skip_ws (s : string) : string :=
  match s with
  | String c r => if Chars.isspace c then skip_ws r else s
  | EmptyString => s
  end.

Definition digit_value (c : ascii) : Z := Z.of_N (Chars.code c) - 48.

Fixpoint get_digits (s : string) (acc : Z) : Z * string :=
  match s with
  | String c r =>
      if Chars.is_digit c then get_digits r (10 * acc + digit_value c) else (acc, s)
  | EmptyString => (acc, s)
  end.

Definition starts_with_digit (s : string) : bool :=
  match s with
  | String c _ => Chars.is_digit c
  | EmptyString => false
  end.

(** [is >> n] for an [int n]: leading white space, an optional sign, then
    digits.  [None] when the extraction fails (no digit to read). *)
Definition get_int (s : string) : option (Z * string) :=
  let s := skip_ws s in
  match s with
  | String c r =>
      if Ascii.eqb c "-" then
        if starts_with_digit r
        then let '(v, rest) := get_digits r 0 in Some (- v, rest)
        else None
      else if Ascii.eqb c "+" then
        if starts_with_digit r then Some (get_digits r 0) else None
      else if Chars.is_digit c then Some (get_digits s 0)
      else None
  | EmptyString => None
  end.

Fixpoint get_word_loop (s : string) (word : string) : string * string :=
  match s with
  | String c r =>
      if Chars.isspace c then (word, s) else get_word_loop r (Str.push word c)
  | EmptyString => (word, s)
  end.

(** [is >> word] for a [std::string]: leading white space is skipped and the
    characters up to the next white space are taken. *)
Definition get_word (s : string) : string * string :=
  get_word_loop (skip_ws s) EmptyString.

(** [std::getline(is, line, delim)]: the characters before the first
    [delim] and [Some] of what follows it; without a [delim], the rest of
    the input and [None] (the stream is at its end: a later [getline] on it
    fails and leaves its string as it was). *)
Fixpoint getline_loop (delim : ascii) (s : string) (line : string)
    : string * option string :=
  match s with
  | String c r =>
      if Ascii.eqb c delim then (line, Some r)
      else getline_loop delim r (Str.push line c)
  | EmptyString => (line, None)
  end.

Definition getline (delim : ascii) (s : string) : string * option string :=
  getline_loop delim s EmptyString.

(** The lines [while (std::getline(file, line))] goes through: a last line
    without a newline counts when it is not empty. *)
Fixpoint lines_loop (s : string) (line : string) : list string :=
  match s with
  | String c r =>
      if Ascii.eqb c Chars.newline then line :: lines_loop r EmptyString
      else lines_loop r (Str.push line c)
  | EmptyString => if Str.empty line then [] else [line]
  end.

Definition lines (s : string) : list string := lines_loop s EmptyString.

(** The values [while (is >> n)] goes through. *)
Fixpoint get_ints (fuel : nat) (s : string) : list Z :=
  match fuel with
  | O => []
  | S fuel' =>
      match get_int s with
      | Some (v, rest) => v :: get_ints fuel' rest
      | None => []
      end
  end.

End Stream.

(** ** The four files of an index directory *)

Record IndexFiles : Type := mkFiles {
  vocabulary_txt : string;
  (** [index.bin]: a sequence of raw [int]s, each written and read back as
      one [sizeof(int)]-byte unit on the same machine. *)
  index_bin : list Z;
  documents_txt : string;
  (** [doc_lengths.txt] may be missing when an index is loaded. *)
  doc_lengths_txt : option string
}.

Definition concat_strings (l : list string) : string :=
  fold_right String.append EmptyString l.

(** Growing the three document arrays of the builder or the engine:
    [while (doc_urls_.size() <= doc_id) { push_back ... }] pushes
    [doc_id + 1 - size] empty rows (none when the row exists). *)
Definition missing_rows (size : nat) (doc_id : Z) : nat :=
  (Z.to_nat (doc_id + 1) - size)%nat.

(** ** Index builder *)

Module IndexBuilder.

Record t : Type := mk {
  inverted_index_ : gmap string (list Posting);
  doc_urls_ : list string;
  doc_titles_ : list string;
  doc_lengths_ : list Z
}.

(** The constructor.  The counters [stats_] and the Zipf collaborator
    [zipf_] are written by the builder but never read by it; they are left
    out. *)
Definition new : t := mk ∅ [] [] [].

(** The loop over [tokens] that fills [term_freqs]. *)
Definition count_stem (term_freqs : gmap string Z) (token : string) : gmap string Z :=
  let stem := PorterStemmer.stem token in
  if Str.empty stem then term_freqs
  else match term_freqs !! stem with
       | Some current_tf => <[stem := current_tf + 1]> term_freqs
       | None => <[stem := 1]> term_freqs
       end.

Definition term_freqs_of (tokens : list string) : gmap string Z :=
  foldl count_stem ∅ tokens.

(** The loop over [term_freqs] that appends one posting per stem. *)
Definition append_posting (doc_id : Z) (stem : string) (tf : Z)
    (index : gmap string (list Posting)) : gmap string (list Posting) :=
  let posting_list := default [] (index !! stem) in
  <[stem := posting_list ++ [mkPosting doc_id tf]]> index.

(** [add_document]; [None] when [doc_id < 0]: the cast to [size_t] then asks
    the growing loop for some [2^64] rows and the call never returns
    normally. *)
Definition add_document (b : t) (doc_id : Z) (url title text : string) : option t :=
  if doc_id <? 0 then None
  else
    let k := missing_rows (length (doc_urls_ b)) doc_id in
    let i := Z.to_nat doc_id in
    let urls := <[i := url]> (doc_urls_ b ++ replicate k EmptyString) in
    let titles := <[i := title]> (doc_titles_ b ++ replicate k EmptyString) in
    let tokens := Tokenizer.tokenize text in
    let lengths :=
      <[i := Z.of_nat (length tokens)]> (doc_lengths_ b ++ replicate k 0) in
    let term_freqs := term_freqs_of tokens in
    let index := map_fold (append_posting doc_id) (inverted_index_ b) term_freqs in
    Some (mk index urls titles lengths).

(** The escape loop of [extract_json_field], from the character after the
    opening quote. *)
Fixpoint unescape (json : string) : string :=
  match json with
  | EmptyString => EmptyString
  | String c rest =>
      if Ascii.eqb c Chars.backslash then
        match rest with
        | String d rest' =>
            let out :=
              if Ascii.eqb d "n" then Chars.newline
              else if Ascii.eqb d "t" then Chars.tab
              else if Ascii.eqb d "r" then Chars.carriage_return
              else d in
            String out (unescape rest')
        | EmptyString => String c EmptyString
        end
      else if Ascii.eqb c Chars.dquote then EmptyString
      else String c (unescape rest)
  end.

Fixpoint skip_blanks (s : string) (value_start : nat) : nat :=
  match s with
  | String c r =>
      if Ascii.eqb c " " || Ascii.eqb c Chars.tab then skip_blanks r (S value_start)
      else value_start
  | EmptyString => value_start
  end.

Definition quote : string := String Chars.dquote EmptyString.

Definition extract_json_field (json field_name : string) (start_pos : nat) : string :=
  match Str.find json (quote ++ field_name ++ quote ++ ":") start_pos with
  | None => EmptyString
  | Some field_pos =>
      let value_start :=
        match Str.find json ":" field_pos with
        | Some p => S p
        | None => O
        end in
      let value_start := skip_blanks (Str.drop value_start json) value_start in
      if negb (Ascii.eqb (Str.at_ json (Z.of_nat value_start)) Chars.dquote) then
        let value_end :=
          match Str.find json "," value_start with
          | Some e => Some e
          | None => Str.find json "}" value_start
          end in
        match value_end with
        | Some e => String.substring value_start (e - value_start) json
        | None => Str.drop value_start json
        end
      else unescape (Str.drop (S value_start) json)
  end.

(** [std::stoi(str)]: white space, an optional sign, decimal digits; what
    follows the digits is ignored.  It throws [std::invalid_argument] when
    there is no digit and [std::out_of_range] when the value is no [int]. *)
Inductive stoi_result : Type :=
| stoi_value (n : Z)
| stoi_invalid_argument
| stoi_out_of_range.

Definition stoi (str : string) : stoi_result :=
  match Stream.get_int str with
  | None => stoi_invalid_argument
  | Some (v, _) =>
      if (- 2147483648 <=? v) && (v <=? 2147483647) then stoi_value v
      else stoi_out_of_range
  end.

(** How a run of [build_from_jsonl] ends: it returns, or an exception leaves
    it.  Nothing in the builder or in its [main] catches exceptions. *)
Inductive outcome : Type :=
| Returned (b : t)
| Thrown (b : t) (line : string).

(** What the loop body does with one line. *)
Inductive line_action : Type :=
| Skip
| Add (doc_id : Z) (url title text : string)
| Throw.

Definition process_line (line : string) : line_action :=
  if Str.empty line || (String.length line <? 50)%nat then Skip
  else
    let doc_id_str := extract_json_field line "doc_id" 0 in
    if Str.empty doc_id_str then Skip
    else match stoi doc_id_str with
         | stoi_value doc_id =>
             let url := extract_json_field line "url" 0 in
             let title := extract_json_field line "title" 0 in
             let text := extract_json_field line "text" 0 in
             if Str.empty text || (String.length text <? 50)%nat then Skip
             else Add doc_id url title text
         | stoi_invalid_argument | stoi_out_of_range => Throw
         end.

Fixpoint build_lines (b : t) (lines : list string) : outcome :=
  match lines with
  | [] => Returned b
  | line :: rest =>
      match process_line line with
      | Skip => build_lines b rest
      | Throw => Thrown b line
      | Add doc_id url title text =>
          match add_document b doc_id url title text with
          | Some b' => build_lines b' rest
          | None => Thrown b line
          end
      end
  end.

(** [build_from_jsonl] on the contents of the input file. *)
Definition build_from_jsonl (b : t) (input : string) : outcome :=
  build_lines b (Stream.lines input).

(** The sequence of [(term, posting_list)] the iterator of [save_index]
    goes through. *)
Definition saved_entries (b : t) : list (string * list Posting) :=
  map_to_list (inverted_index_ b).

Definition vocabulary_line (term_id : nat) (entry : string * list Posting) : string :=
  Stream.put_nat term_id ++ " " ++ fst entry ++ " "
    ++ Stream.put_nat (length (snd entry)) ++ String Chars.newline EmptyString.

Definition posting_words (posting_list : list Posting) : list Z :=
  Z.of_nat (length posting_list)
    :: flat_map (fun p => [doc_id p; tf p]) posting_list.

Definition document_line (titles : list string) (i : nat) (url : string) : string :=
  Stream.put_nat i ++ String Chars.tab url
    ++ String Chars.tab (nth i titles EmptyString)
    ++ String Chars.newline EmptyString.

Definition length_line (n : Z) : string :=
  Stream.put_int n ++ String Chars.newline EmptyString.

Definition index_bin_of (b : t) : list Z :=
  flat_map (fun entry => posting_words (snd entry)) (saved_entries b).

(** [save_index], when the four files can be opened for writing. *)
Definition save_index (b : t) : IndexFiles :=
  let entries := saved_entries b in
  mkFiles
    (concat_strings (imap vocabulary_line entries))
    (index_bin_of b)
    (concat_strings (imap (document_line (doc_titles_ b)) (doc_urls_ b)))
    (Some (concat_strings (map length_line (doc_lengths_ b)))).

End IndexBuilder.

(** ** Query engine ([search_engine.cpp]) *)

Module SearchEngine.

Record t : Type := mk {
  inverted_index_ : gmap string (list Posting);
  doc_urls_ : list string;
  doc_titles_ : list string;
  doc_lengths_ : list Z
}.

Definition new : t := mk ∅ [] [] [].

Record SearchResult : Type := mkResult {
  result_doc_id : Z;
  result_url : string;
  result_title : string
}.

(** *** [load_index] *)

(** The inner loop that reads [actual_size] pairs from [index.bin]; [None]
    when the file ends early (the values read are indeterminate then). *)
Fixpoint read_postings (actual_size : nat) (words : list Z)
    : option (list Posting * list Z) :=
  match actual_size with
  | O => Some ([], words)
  | S n =>
      match words with
      | d :: f :: rest =>
          match read_postings n rest with
          | Some (posting_list, rest') => Some (mkPosting d f :: posting_list, rest')
          | None => None
          end
      | _ => None
      end
  end.

(** [iss >> term_id >> term >> doc_freq]: only [term] is used afterwards; it
    stays empty when the extraction of [term_id] fails. *)
Definition vocabulary_term (line : string) : string :=
  match Stream.get_int line with
  | Some (_, rest) => fst (Stream.get_word rest)
  | None => EmptyString
  end.

Fixpoint load_vocabulary (lines : list string) (words : list Z)
    (index : gmap string (list Posting)) : option (gmap string (list Posting)) :=
  match lines with
  | [] => Some index
  | line :: lines' =>
      let term := vocabulary_term line in
      match words with
      | [] => None
      | actual_size :: words' =>
          match read_postings (Z.to_nat actual_size) words' with
          | Some (posting_list, words'') =>
              load_vocabulary lines' words'' (<[term := posting_list]> index)
          | None => None
          end
      end
  end.

(** One line of [documents.txt]: [iss >> doc_id], a [getline] up to the
    first tab whose result is overwritten, a [getline] up to the next tab
    into [url], and a [getline] of the rest into [title].  [None] when the
    extraction of [doc_id] fails ([doc_id] is then zero or indeterminate,
    which is not modelled). *)
Definition document_fields (line : string) : option (Z * string * string) :=
  match Stream.get_int line with
  | None => None
  | Some (doc_id, rest) =>
      match Stream.getline Chars.tab rest with
      | (first, None) => Some (doc_id, first, EmptyString)
      | (_, Some rest1) =>
          match Stream.getline Chars.tab rest1 with
          | (url, None) => Some (doc_id, url, EmptyString)
          | (url, Some rest2) =>
              Some (doc_id, url, fst (Stream.getline Chars.newline rest2))
          end
      end
  end.

Fixpoint load_documents (lines : list string) (e : t) : option t :=
  match lines with
  | [] => Some e
  | line :: lines' =>
      match document_fields line with
      | None => None
      | Some (doc_id, url, title) =>
          if doc_id <? 0 then None
          else
            let k := missing_rows (length (doc_urls_ e)) doc_id in
            let i := Z.to_nat doc_id in
            load_documents lines'
              (mk (inverted_index_ e)
                  (<[i := url]> (doc_urls_ e ++ replicate k EmptyString))
                  (<[i := title]> (doc_titles_ e ++ replicate k EmptyString))
                  (doc_lengths_ e ++ replicate k 0))
      end
  end.

Fixpoint load_lengths (values : list Z) (length_idx : nat) (lengths : list Z) : list Z :=
  match values with
  | [] => lengths
  | doc_length :: values' =>
      let k := missing_rows (length lengths) (Z.of_nat length_idx) in
      load_lengths values' (S length_idx)
        (<[length_idx := doc_length]> (lengths ++ replicate k 0))
  end.

(** [load_index] on an index directory whose three mandatory files exist. *)
Definition load_index (e : t) (files : IndexFiles) : option t :=
  match load_vocabulary (Stream.lines (vocabulary_txt files)) (index_bin files)
          (inverted_index_ e) with
  | None => None
  | Some index =>
      match load_documents (Stream.lines (documents_txt files))
              (mk index (doc_urls_ e) (doc_titles_ e) (doc_lengths_ e)) with
      | None => None
      | Some e' =>
          let lengths :=
            match doc_lengths_txt files with
            | Some text =>
                load_lengths (Stream.get_ints (String.length text) text) 0
                  (doc_lengths_ e')
            | None => doc_lengths_ e'
            end in
          Some (mk (inverted_index_ e') (doc_urls_ e') (doc_titles_ e') lengths)
      end
  end.

(** *** Sorted-merge set operations

    The two cursors [i] and [j] of the C++ loops are the two list arguments:
    what is still to be read of [list1] and of [list2]. *)

Fixpoint intersect (list1 : list Z) : list Z -> list Z :=
  fix walk (list2 : list Z) : list Z :=
    match list1, list2 with
    | x :: rest1, y :: rest2 =>
        if x =? y then x :: intersect rest1 rest2
        else if x <? y then intersect rest1 list2
        else walk rest2
    | _, _ => []
    end.

Fixpoint union_lists (list1 : list Z) : list Z -> list Z :=
  fix walk (list2 : list Z) : list Z :=
    match list1, list2 with
    | [], [] => []
    | x :: rest1, [] => x :: union_lists rest1 []
    | [], y :: rest2 => y :: walk rest2
    | x :: rest1, y :: rest2 =>
        if x <? y then x :: union_lists rest1 list2
        else if y <? x then y :: walk rest2
        else x :: union_lists rest1 rest2
    end.

Fixpoint difference (list1 : list Z) : list Z -> list Z :=
  fix walk (list2 : list Z) : list Z :=
    match list1 with
    | [] => []
    | x :: rest1 =>
        match list2 with
        | [] => x :: difference rest1 []
        | y :: rest2 =>
            if x =? y then difference rest1 rest2
            else if x <? y then x :: difference rest1 list2
            else walk rest2
        end
    end.

(** *** Index access *)

Fixpoint document_ids_from (i : nat) (urls : list string) : list Z :=
  match urls with
  | [] => []
  | url :: rest =>
      if negb (Str.empty url) then Z.of_nat i :: document_ids_from (S i) rest
      else document_ids_from (S i) rest
  end.

Definition all_document_ids (e : t) : list Z := document_ids_from 0 (doc_urls_ e).

Definition posting_doc_ids (e : t) (stemmed_term : string) : list Z :=
  match inverted_index_ e !! stemmed_term with
  | None => []
  | Some posting_list => map doc_id posting_list
  end.

Fixpoint contains_doc (posting_list : list Posting) (d : Z) : bool :=
  match posting_list with
  | [] => false
  | p :: rest => if doc_id p =? d then true else contains_doc rest d
  end.

Fixpoint term_tf_for_doc (posting_list : list Posting) (d : Z) : Z :=
  match posting_list with
  | [] => 0
  | p :: rest => if doc_id p =? d then tf p else term_tf_for_doc rest d
  end.

(** *** Query lexing and parsing *)

Definition is_operator_token (token : string) : bool :=
  String.eqb token "and" || String.eqb token "or" || String.eqb token "not".

Definition operator_precedence (op : string) : Z :=
  if String.eqb op "not" then 3
  else if String.eqb op "and" then 2
  else if String.eqb op "or" then 1
  else 0.

Definition is_left_associative (op : string) : bool := negb (String.eqb op "not").

Definition to_lower_ascii (text : string) : string := Str.map Chars.tolower text.

(** The characters the two trimming loops of [normalize_query_token] step
    over. *)
Definition trimmed (c : ascii) : bool :=
  negb (Chars.isalnum c) && negb (Ascii.eqb c Chars.apostrophe).

Fixpoint trim_left (lowered : string) (fuel : nat) (left_pos : Z) : Z :=
  match fuel with
  | O => left_pos
  | S fuel' =>
      if (left_pos <? Str.size lowered) && trimmed (Str.at_ lowered left_pos)
      then trim_left lowered fuel' (left_pos + 1)
      else left_pos
  end.

Fixpoint trim_right (lowered : string) (fuel : nat) (left_pos right_pos : Z) : Z :=
  match fuel with
  | O => right_pos
  | S fuel' =>
      if (left_pos <? right_pos) && trimmed (Str.at_ lowered (right_pos - 1))
      then trim_right lowered fuel' left_pos (right_pos - 1)
      else right_pos
  end.

(** Each loop moves its cursor by one per iteration and stays within the
    string, so [size] iterations are enough for both. *)
Definition normalize_query_token (token : string) : string :=
  if String.eqb token "(" || String.eqb token ")" then token
  else
    let lowered := to_lower_ascii token in
    if Str.empty lowered then lowered
    else
      let left_pos := trim_left lowered (String.length lowered) 0 in
      let right_pos :=
        trim_right lowered (String.length lowered) left_pos (Str.size lowered) in
      if right_pos <=? left_pos then EmptyString
      else Str.substr lowered left_pos (right_pos - left_pos).

(** The loop that puts spaces around parentheses. *)
Fixpoint prepare_query (query : string) : string :=
  match query with
  | EmptyString => EmptyString
  | String c rest =>
      if Ascii.eqb c "(" || Ascii.eqb c ")"
      then String " " (String c (String " " (prepare_query rest)))
      else String c (prepare_query rest)
  end.

(** The tokens [while (iss >> token)] goes through. *)
Fixpoint words_loop (s : string) (token : string) (tokens : list string) : list string :=
  match s with
  | EmptyString => if Str.empty token then tokens else tokens ++ [token]
  | String c rest =>
      if Chars.isspace c
      then words_loop rest EmptyString
             (if Str.empty token then tokens else tokens ++ [token])
      else words_loop rest (Str.push token c) tokens
  end.

Definition words (s : string) : list string := words_loop s EmptyString [].

(** [query_tokens] as [search] builds it. *)
Definition query_tokens_of (query : string) : list string :=
  filter (fun normalized => negb (Str.empty normalized) = true)
         (map normalize_query_token (words (prepare_query query))).

(** The operator stack of [to_rpn] is a list whose head is the top. *)
Fixpoint pop_to_paren (op_stack output : list string) : list string * list string :=
  match op_stack with
  | top :: below =>
      if negb (String.eqb top "(") then pop_to_paren below (output ++ [top])
      else (op_stack, output)
  | [] => ([], output)
  end.

Fixpoint pop_operators (tok : string) (op_stack output : list string)
    : list string * list string :=
  match op_stack with
  | top :: below =>
      if is_operator_token top then
        let top_prec := operator_precedence top in
        let cur_prec := operator_precedence tok in
        let should_pop :=
          (cur_prec <? top_prec) || ((top_prec =? cur_prec) && is_left_associative tok) in
        if should_pop then pop_operators tok below (output ++ [top])
        else (op_stack, output)
      else (op_stack, output)
  | [] => ([], output)
  end.

Definition rpn_step (state : list string * list string) (tok : string)
    : list string * list string :=
  let '(op_stack, output) := state in
  if Str.empty tok then state
  else if String.eqb tok "(" then (tok :: op_stack, output)
  else if String.eqb tok ")" then
    let '(op_stack, output) := pop_to_paren op_stack output in
    match op_stack with
    | top :: below => if String.eqb top "(" then (below, output) else (op_stack, output)
    | [] => (op_stack, output)
    end
  else if negb (is_operator_token tok) then (op_stack, output ++ [tok])
  else
    let '(op_stack, output) := pop_operators tok op_stack output in
    (tok :: op_stack, output).

Fixpoint drain (op_stack output : list string) : list string :=
  match op_stack with
  | top :: below =>
      drain below (if negb (String.eqb top "(") then output ++ [top] else output)
  | [] => output
  end.

Definition to_rpn (tokens : list string) : list string :=
  let '(op_stack, output) := foldl rpn_step ([], []) tokens in
  drain op_stack output.

(** *** Evaluation

    The evaluation stack is a list whose head is the top. *)
Definition eval_token (e : t) (stack : list (list Z)) (tok : string) : list (list Z) :=
  if negb (is_operator_token tok) then
    posting_doc_ids e (PorterStemmer.stem tok) :: stack
  else if String.eqb tok "not" then
    match stack with
    | [] => stack
    | right_list :: below =>
        match below with
        | left_list :: below' => difference left_list right_list :: below'
        | [] => difference (all_document_ids e) right_list :: below
        end
    end
  else
    match stack with
    | right_list :: left_list :: below =>
        if String.eqb tok "and" then intersect left_list right_list :: below
        else if String.eqb tok "or" then union_lists left_list right_list :: below
        else below
    | _ => stack
    end.

Definition eval_stack (e : t) (rpn_tokens : list string) : list (list Z) :=
  foldl (eval_token e) [] rpn_tokens.

Definition eval_rpn (e : t) (rpn_tokens : list string) : list Z :=
  match eval_stack e rpn_tokens with
  | [] => []
  | top :: _ => top
  end.

Definition extract_term (unique_terms : list string) (token : string) : list string :=
  if Str.empty token || is_operator_token token
     || String.eqb token "(" || String.eqb token ")"
  then unique_terms
  else
    let stem := PorterStemmer.stem token in
    if Str.empty stem then unique_terms
    else if existsb (fun u => String.eqb u stem) unique_terms then unique_terms
    else unique_terms ++ [stem].

Definition extract_query_terms (tokens : list string) : list string :=
  foldl extract_term [] tokens.

(** *** Scoring and ranking *)

Definition double_of_Z (n : Z) : float := PrimFloat.of_uint63 (Uint63.of_Z n).

Section Scoring.

(** [std::log]. *)
Variable log : float -> float.

(** The body of the loop over [query_terms] in [compute_doc_score]. *)
Definition score_term (e : t) (d : Z) (title_lower url_lower : string)
    (score : float) (term : string) : float :=
  match inverted_index_ e !! term with
  | None => score
  | Some posting_list =>
      let tf := term_tf_for_doc posting_list d in
      if tf <=? 0 then score
      else
        let total_docs := double_of_Z (Z.of_nat (length (doc_urls_ e))) in
        let df := double_of_Z (Z.of_nat (length posting_list)) in
        let tf_weight := (1 + log (double_of_Z tf))%float in
        let idf := (log ((total_docs + 1) / (df + 1)) + 1)%float in
        let score := (score + tf_weight * idf)%float in
        let score :=
          if Str.contains title_lower term then (score + 0.35)%float else score in
        if Str.contains url_lower term then (score + 0.15)%float else score
  end.

Definition in_range (e : t) (d : Z) : bool :=
  (0 <=? d) && (d <? Z.of_nat (length (doc_urls_ e))).

Definition compute_doc_score (e : t) (d : Z) (query_terms : list string) : float :=
  if negb (in_range e d) then (-1)%float
  else
    let title_lower := to_lower_ascii (nth (Z.to_nat d) (doc_titles_ e) EmptyString) in
    let url_lower := to_lower_ascii (nth (Z.to_nat d) (doc_urls_ e) EmptyString) in
    let score := foldl (score_term e d title_lower url_lower) 0%float query_terms in
    match doc_lengths_ e !! Z.to_nat d with
    | Some len =>
        if 0 <? len then (score / PrimFloat.sqrt (double_of_Z len))%float else score
    | None => score
    end.

(** The comparison of the selection loop: does row [j] go before row
    [best_idx]? *)
Definition goes_before (doc_ids : list Z) (scores : list float) (j best_idx : nat) : bool :=
  let sj := nth j scores 0%float in
  let sb := nth best_idx scores 0%float in
  (sb <? sj)%float || ((sj =? sb)%float && (nth j doc_ids 0 <? nth best_idx doc_ids 0)).

(** The inner loop, for [j] and the [remaining = size - j] rows from it on. *)
Fixpoint select_best (doc_ids : list Z) (scores : list float)
    (remaining j best_idx : nat) : nat :=
  match remaining with
  | O => best_idx
  | S remaining' =>
      select_best doc_ids scores remaining' (S j)
        (if goes_before doc_ids scores j best_idx then j else best_idx)
  end.

Definition swap {A : Type} (l : list A) (i j : nat) (d : A) : list A :=
  <[j := nth i l d]> (<[i := nth j l d]> l).

(** The outer loop, for [i] and the [remaining = size - i] rows from it on. *)
Fixpoint selection_loop (remaining i : nat) (doc_ids : list Z) (scores : list float)
    : list Z * list float :=
  match remaining with
  | O => (doc_ids, scores)
  | S remaining' =>
      let best_idx := select_best doc_ids scores remaining' (S i) i in
      if negb (best_idx =? i)%nat
      then selection_loop remaining' (S i)
             (swap doc_ids i best_idx 0) (swap scores i best_idx 0%float)
      else selection_loop remaining' (S i) doc_ids scores
  end.

Definition rank (doc_ids : list Z) (scores : list float) : list Z * list float :=
  selection_loop (length doc_ids) 0 doc_ids scores.

(** The last loop of [search]: the first 100 rows, those in range only. *)
Fixpoint collect (e : t) (doc_ids : list Z) : list SearchResult :=
  match doc_ids with
  | [] => []
  | d :: rest =>
      if in_range e d
      then mkResult d (nth (Z.to_nat d) (doc_urls_ e) EmptyString)
                      (nth (Z.to_nat d) (doc_titles_ e) EmptyString)
           :: collect e rest
      else collect e rest
  end.

(** [search]: the results, and the value stored through [total_matches]. *)
Definition search (e : t) (query : string) : list SearchResult * nat :=
  let query_tokens := query_tokens_of query in
  match query_tokens with
  | [] => ([], O)
  | _ =>
      let rpn := to_rpn query_tokens in
      let doc_ids := eval_rpn e rpn in
      let total_matches := length doc_ids in
      let query_terms := extract_query_terms query_tokens in
      let scores := map (fun d => compute_doc_score e d query_terms) doc_ids in
      let '(doc_ids, scores) := rank doc_ids scores in
      (collect e (take 100 doc_ids), total_matches)
  end.

End Scoring.

End SearchEngine.

(** ** Predicates of the data model *)

(** A list of [int]s strictly ascending (adjacent elements increase). *)
Fixpoint strictly_ascending (l : list Z) : bool :=
  match l with
  | x :: rest =>
      match rest with
      | y :: _ => (x <? y) && strictly_ascending rest
      | [] => true
      end
  | [] => true
  end.

(** A slot of the document table whose URL is not empty: what the engine
    takes for a slot that holds a document ([all_document_ids]). *)
Definition non_hole (e : SearchEngine.t) (d : Z) : Prop :=
  0 <= d /\
  exists url, SearchEngine.doc_urls_ e !! Z.to_nat d = Some url /\ url <> EmptyString.

(** ** The two analysis paths *)

(** Indexing ([add_document]): every token of [Tokenizer::tokenize] is
    handed to [PorterStemmer::stem]. *)
Definition index_stems (text : string) : list string :=
  map PorterStemmer.stem (Tokenizer.tokenize text).

(** Querying ([search]): of the normalized tokens, the ones that are neither
    an operator nor a parenthesis are handed to [PorterStemmer::stem] (by
    [eval_rpn] and by [extract_query_terms]). *)
Definition is_term_token (token : string) : bool :=
  negb (Str.empty token || SearchEngine.is_operator_token token
        || String.eqb token "(" || String.eqb token ")").

Definition query_stems (query : string) : list string :=
  map PorterStemmer.stem
      (filter (fun token => is_term_token token = true)
              (SearchEngine.query_tokens_of query)).

(** A plain word: ASCII letters only, at least two of them, and not a stop
    word once lower-cased. *)
Definition plain_word (w : string) : bool :=
  Str.all Chars.isalpha w && (2 <=? String.length w)%nat
  && negb (Tokenizer.is_stop_word (Tokenizer.to_lower w)).

(** Words joined by single spaces. *)
Fixpoint sentence (ws : list string) : string :=
  match ws with
  | [] => EmptyString
  | w :: rest =>
      match rest with
      | [] => w
      | _ :: _ => w ++ String " " (sentence rest)
      end
  end.

(** ** Building an index by a sequence of [add_document] calls *)

Record Document : Type := mkDocument {
  document_id : Z;
  document_url : string;
  document_title : string;
  document_text : string
}.

Fixpoint add_documents (b : IndexBuilder.t) (docs : list Document)
    : option IndexBuilder.t :=
  match docs with
  | [] => Some b
  | d :: rest =>
      match IndexBuilder.add_document b (document_id d) (document_url d)
              (document_title d) (document_text d) with
      | Some b' => add_documents b' rest
      | None => None
      end
  end.

(** The doc_ids of the calls are non-negative and strictly increasing. *)
Definition increasing_ids (docs : list Document) : bool :=
  strictly_ascending (map document_id docs)
  && forallb (fun d => 0 <=? document_id d) docs.

Definition ascending_postings (posting_list : list Posting) : bool :=
  strictly_ascending (map doc_id posting_list).

Definition positive_tfs (posting_list : list Posting) : bool :=
  forallb (fun p => 1 <=? tf p) posting_list.

(** ** Ranking order *)

(** The boolean matches of a query, as [search] computes them. *)
Definition candidates (e : SearchEngine.t) (query : string) : list Z :=
  SearchEngine.eval_rpn e (SearchEngine.to_rpn (SearchEngine.query_tokens_of query)).

(** [a] goes before [b]: its score is greater, or the scores are equal and
    its doc_id is smaller (the test of the selection loop in [search]). *)
Definition ranks_before (score : Z -> float) (a b : Z) : bool :=
  (score b <? score a)%float || ((score a =? score b)%float && (a <? b)).

(** No score is a NaN. *)
Definition comparable_scores (score : Z -> float) (l : list Z) : bool :=
  forallb (fun d => (score d =? score d)%float) l.

(** The binary64 order as a lexicographic order on integer triples; a NaN
    has no key. *)
Definition order_key (x : spec_float) : option (Z * Z * Z) :=
  match x with
  | S754_nan => None
  | S754_infinity true => Some (-2, 0, 0)
  | S754_infinity false => Some (2, 0, 0)
  | S754_zero _ => Some (0, 0, 0)
  | S754_finite true m e => Some (-1, - e, - Zpos m)
  | S754_finite false m e => Some (1, e, Zpos m)
  end.

Definition lex_compare (a b : Z * Z * Z) : comparison :=
  let '(a1, a2, a3) := a in
  let '(b1, b2, b3) := b in
  match a1 ?= b1 with
  | Eq => match a2 ?= b2 with
          | Eq => a3 ?= b3
          | c => c
          end
  | c => c
  end.

Definition float_key (x : float) : option (Z * Z * Z) := order_key (Prim2SF x).

(** ** The ranking formula, after the specification's words

    Nothing here is taken from the engine's functions: the linear search,
    the substring test, the case folding and the conversion of an integer to
    a [double] are defined anew, and the theorems relate them to the code. *)

(** The [double] nearest to the integer [n] (round to nearest, ties to
    even): the value of [static_cast<double>(n)]. *)
Definition nearest_double (n : Z) : float :=
  SF2Prim (binary_normalize prec emax n 0 false).

(** [t] is a substring of [s]: [t] is read at some position of [s]. *)
Definition substring_of (t s : string) : bool :=
  existsb (fun i => String.eqb (String.substring i (String.length t) s) t)
          (seq 0 (S (String.length s))).

(** [s] with every upper-case ASCII letter replaced by its lower-case
    letter. *)
Definition lowercase_letter (c : ascii) : ascii :=
  let n := nat_of_ascii c in
  if ((65 <=? n) && (n <=? 90))%nat then ascii_of_nat (n + 32) else c.

Definition lowercased (s : string) : string :=
  string_of_list_ascii (List.map lowercase_letter (list_ascii_of_string s)).

Definition int_range (n : Z) : bool := (- 2 ^ 31 <=? n) && (n <? 2 ^ 31).

(** The numbers of a loaded index are within their C++ types: every [tf]
    and every document length is an [int], and the document table and the
    posting lists have fewer than [2^63] entries. *)
Definition machine_sized (e : SearchEngine.t) : bool :=
  (Z.of_nat (length (SearchEngine.doc_urls_ e)) <? 2 ^ 63)
  && forallb int_range (SearchEngine.doc_lengths_ e)
  && forallb (fun entry : string * list Posting =>
                (Z.of_nat (length (snd entry)) <? 2 ^ 63)
                && forallb (fun p => int_range (tf p)) (snd entry))
             (map_to_list (SearchEngine.inverted_index_ e)).

Section Formula.

(** [std::log]. *)
Variable log : float -> float.

Variable e : SearchEngine.t.

(** The posting list of a term (empty for an unknown term). *)
Definition postings_of (t : string) : list Posting :=
  default [] (SearchEngine.inverted_index_ e !! t).

(** The linear search over [t]'s posting list for [doc_id = d]. *)
Definition first_posting (t : string) (d : Z) : option Posting :=
  List.find (fun p => doc_id p =? d) (postings_of t).

(** [t]'s posting list contains [d]. *)
Definition occurs_in (d : Z) (t : string) : bool :=
  match first_posting t d with Some _ => true | None => false end.

(** [tf(t,d)], 0 if absent; [df(t)]; [N]; [length(d)]. *)
Definition tf_of (t : string) (d : Z) : Z :=
  match first_posting t d with Some p => tf p | None => 0 end.
Definition df_of (t : string) : Z := Z.of_nat (length (postings_of t)).
Definition slots : Z := Z.of_nat (length (SearchEngine.doc_urls_ e)).
Definition length_of (d : Z) : Z := default 0 (SearchEngine.doc_lengths_ e !! Z.to_nat d).

Definition title_has (d : Z) (t : string) : bool :=
  substring_of t (lowercased (default EmptyString (SearchEngine.doc_titles_ e !! Z.to_nat d))).
Definition url_has (d : Z) (t : string) : bool :=
  substring_of t (lowercased (default EmptyString (SearchEngine.doc_urls_ e !! Z.to_nat d))).

(** [(1 + ln(tf(t,d))) * (ln((N+1)/(df(t)+1)) + 1)]. *)
Definition weight (d : Z) (t : string) : float :=
  ((1 + log (nearest_double (tf_of t d)))
   * (log ((nearest_double slots + 1) / (nearest_double (df_of t) + 1)) + 1))%float.

(** One summand: the weight, plus 0.35 and plus 0.15 where the term occurs
    in the title and in the URL.  The sum is taken from 0 in the order of
    the query terms, each summand added in this order. *)
Definition add_summand (d : Z) (sum : float) (t : string) : float :=
  let sum := (sum + weight d t)%float in
  let sum := if title_has d t then (sum + 0.35)%float else sum in
  if url_has d t then (sum + 0.15)%float else sum.

(** The sum over the terms chosen by [counted], divided by
    [sqrt(length(d))] when [length(d) > 0]. *)
Definition normalized_sum (counted : string -> bool) (d : Z) (terms : list string) : float :=
  let sum := foldl (add_summand d) 0%float (List.filter counted terms) in
  if 0 <? length_of d then (sum / PrimFloat.sqrt (nearest_double (length_of d)))%float
  else sum.

(** The score as the specification states it: over the terms whose posting list
    contains [d], for every candidate [d]. *)
Definition claimed_score (d : Z) (terms : list string) : float :=
  normalized_sum (occurs_in d) d terms.

(** The score as the code computes it: over the terms with [tf(t,d) >= 1],
    for a document slot [d]; [-1] for any other [d]. *)
Definition score_formula (d : Z) (terms : list string) : float :=
  if (0 <=? d) && (d <? slots)
  then normalized_sum (fun t => 1 <=? tf_of t d) d terms
  else (-1)%float.

End Formula.

(** ** Characters of terms *)

(** A character of a token: a lower-case letter or an apostrophe. *)
Definition term_char (c : ascii) : bool :=
  Chars.is_lower c || Ascii.eqb c Chars.apostrophe.

(** A term as the vocabulary file needs it: not empty, made of token
    characters (so without white space). *)
Definition term_ok (term : string) : bool :=
  negb (Str.empty term) && Str.all term_char term.

(** ** Documents whose fields survive the line format of [documents.txt] *)

Definition not_newline (c : ascii) : bool := negb (Ascii.eqb c Chars.newline).
Definition not_tab (c : ascii) : bool := negb (Ascii.eqb c Chars.tab).

(** A URL without tab and newline, a title without newline. *)
Definition url_ok (url : string) : bool :=
  Str.all (fun c => not_tab c && not_newline c) url.
Definition title_ok (title : string) : bool := Str.all not_newline title.

Definition storable (d : Document) : bool :=
  url_ok (document_url d) && title_ok (document_title d).

(** The engine state that holds exactly what the builder holds. *)
Definition engine_of (b : IndexBuilder.t) : SearchEngine.t :=
  SearchEngine.mk (IndexBuilder.inverted_index_ b) (IndexBuilder.doc_urls_ b)
    (IndexBuilder.doc_titles_ b) (IndexBuilder.doc_lengths_ b).

(** The engine that loads what the builder saves after the [add_document]
    calls for [docs]. *)
Definition loaded_index (docs : list Document) : option SearchEngine.t :=
  match add_documents IndexBuilder.new docs with
  | Some b => SearchEngine.load_index SearchEngine.new (IndexBuilder.save_index b)
  | None => None
  end.

(** A slot with a recorded document: the doc_id of one of the documents
    added. *)
Definition recorded (docs : list Document) (d : Z) : Prop :=
  d ∈ map document_id docs.

(** Pure [not] as the specification states it, for the index of [docs] and a token
    sequence that leaves one list on the stack: [not] pushes the strictly
    ascending list of the recorded documents that are not in that list. *)
Definition pure_not_as_stated (docs : list Document) (e : SearchEngine.t)
    (rpn : list string) : Prop :=
  forall R,
    SearchEngine.eval_stack e rpn = [R] ->
    exists L,
      SearchEngine.eval_stack e (rpn ++ ["not"]) = [L] /\
      strictly_ascending L = true /\
      forall d, d ∈ L <-> recorded docs d /\ d ∉ R.

(** ** The read that opens [step4] *)

(** The state in which [stem] calls [step4], for a word of three characters
    or more. *)
Definition before_step4 (word : string) : PorterStemmer.t :=
  PorterStemmer.step3 (PorterStemmer.step2 (PorterStemmer.step1c (PorterStemmer.step1ab
    (PorterStemmer.mk word (Str.size word - 1) (PorterStemmer.j_ PorterStemmer.init))))).

(** [s[i]] reads inside the string: [i] is a position of [s] or that of its
    terminating NUL. *)
Definition in_string (s : string) (i : Z) : bool := (0 <=? i) && (i <=? Str.size s).

(** [word_[k_ - 1]], the byte [step4] switches on, is read inside
    [word_]. *)
Definition step4_read_in_string (st : PorterStemmer.t) : bool :=
  in_string (PorterStemmer.word_ st) (PorterStemmer.k_ st - 1).

(** ** The lines of the text files, without their newline *)

Definition vocabulary_body (term_id : nat) (entry : string * list Posting) : string :=
  (Stream.put_nat term_id ++ String " " (fst entry ++ String " "
     (Stream.put_nat (length (snd entry)))))%string.

Definition document_body (doc : nat) (url title : string) : string :=
  (Stream.put_nat doc ++ String Chars.tab (url ++ String Chars.tab title))%string.

(** What [load_vocabulary] does with the entries one after the other. *)
Definition insert_entry (index : gmap string (list Posting))
    (entry : string * list Posting) : gmap string (list Posting) :=
  <[fst entry := snd entry]> index.

(** ** A small loaded index used in the examples: three documents and a hole *)

Definition sample_engine : SearchEngine.t :=
  SearchEngine.mk
    (<["vault" := [mkPosting 0 2; mkPosting 2 2]]>
       (<["nuka" := [mkPosting 1 1]]>
          (<["raider" := [mkPosting 2 1]]> ∅)))
    ["u0"; "u1"; "u2"; EmptyString]
    ["Vault"; "Nuka"; "Raiders"; EmptyString]
    [6; 5; 6; 0].

(** ** The corpus of the specification's scenarios *)

Definition corpus : list Document :=
  [ mkDocument 0 "u0" "Vault" "The vault dweller found a pip-boy in the vault.";
    mkDocument 1 "u1" "Nuka" "Nuka-Cola Quantum glows in the dark.";
    mkDocument 2 "u2" "Raiders" "Raiders ambush the vault dweller near the vault." ].

Definition corpus_builder : IndexBuilder.t :=
  default IndexBuilder.new (add_documents IndexBuilder.new corpus).

(** Two documents sharing a word, added with decreasing doc_ids. *)
Definition out_of_order : list Document :=
  [ mkDocument 1 "u1" "One" "vault"; mkDocument 0 "u0" "Zero" "vault" ].

(** ** JSON lines *)

Definition json_string (s : string) : string :=
  (IndexBuilder.quote ++ s ++ IndexBuilder.quote)%string.

(** A record whose [doc_id] value is written as given. *)
Definition json_record (doc_id_value url title text : string) : string :=
  ("{" ++ json_string "doc_id" ++ ": " ++ doc_id_value ++ ", "
       ++ json_string "url" ++ ": " ++ json_string url ++ ", "
       ++ json_string "title" ++ ": " ++ json_string title ++ ", "
       ++ json_string "text" ++ ": " ++ json_string text ++ "}")%string.

Definition long_text : string :=
  "The vault dweller found a pip-boy in the vault, then went home.".

Definition end_of_line : string := String Chars.newline EmptyString.

(** An index whose posting list names doc_ids outside the document table. *)
Definition stray_engine : SearchEngine.t :=
  SearchEngine.mk
    (<["vault" := [mkPosting (-3) 1; mkPosting 0 2; mkPosting 7 1]]> ∅)
    ["u0"] ["Vault"] [6].

(** A stand-in for [std::log] in the examples.  The theorems hold for every
    function in its place. *)
Definition sample_log (x : float) : float := (x - 1)%float.

(** A document whose URL holds a tab. *)
Definition tabbed_url : string := ("a" ++ String Chars.tab "b")%string.

Definition tabbed : list Document := [ mkDocument 0 tabbed_url "t" "vault" ].

(** An index with a posting of [tf = 0]. *)
Definition zero_tf_engine : SearchEngine.t :=
  SearchEngine.mk (<["vault" := [mkPosting 0 0]]> ∅) ["u0"] ["Vault"] [6].

(** Two documents, the second recorded with an empty URL. *)
Definition unlisted_url : list Document :=
  [ mkDocument 0 "u0" "Zero" "raider";
    mkDocument 1 EmptyString "Vault" "The vault dweller went home." ].

(** ** Invariants used in the proofs *)

(** A character that is no parenthesis. *)
Definition no_paren (c : ascii) : bool := negb (Ascii.eqb c "(" || Ascii.eqb c ")").

(** A character the tokenizer takes into a surface token. *)
Definition raw_char (c : ascii) : bool := Chars.isalpha c || Ascii.eqb c Chars.apostrophe.

(** The stemmer's buffer holds token characters only. *)
Definition clean (st : PorterStemmer.t) : Prop :=
  Str.all term_char (PorterStemmer.word_ st) = true.

(** Every posting list is strictly ascending and names doc_ids below
    [bound]. *)
Definition postings_below (bound : Z) (index : gmap string (list Posting)) : Prop :=
  forall term posting_list,
    index !! term = Some posting_list ->
    StronglySorted Z.lt (map doc_id posting_list) /\
    Forall (fun p => doc_id p < bound) posting_list.

Definition postings_positive (index : gmap string (list Posting)) : Prop :=
  forall term posting_list,
    index !! term = Some posting_list -> Forall (fun p => 1 <= tf p) posting_list.

(** Every key of a map is a term the vocabulary file can hold. *)
Definition keys_ok {V : Type} (m : gmap string V) : Prop :=
  forall term v, m !! term = Some v -> term_ok term = true.

(** The invariant of the builder's state. *)
Record builder_ok (b : IndexBuilder.t) : Prop := {
  ok_titles :
    length (IndexBuilder.doc_titles_ b) = length (IndexBuilder.doc_urls_ b);
  ok_lengths :
    length (IndexBuilder.doc_lengths_ b) = length (IndexBuilder.doc_urls_ b);
  ok_urls_clean :
    Forall (fun url => url_ok url = true) (IndexBuilder.doc_urls_ b);
  ok_titles_clean :
    Forall (fun title => title_ok title = true) (IndexBuilder.doc_titles_ b);
  ok_lengths_nonneg : Forall (fun n => 0 <= n) (IndexBuilder.doc_lengths_ b);
  ok_terms : keys_ok (IndexBuilder.inverted_index_ b)
}.

(** Two states of the stemmer with the same buffer and the same end index
    (they may differ in the stale [j_]). *)
Definition same_buffer (st st' : PorterStemmer.t) : Prop :=
  PorterStemmer.word_ st = PorterStemmer.word_ st' /\
  PorterStemmer.k_ st = PorterStemmer.k_ st'.

(** Two runs of the [switch] of [step4]: a [break] leaves both objects in
    one state; a [return] leaves them with the same buffer. *)
Definition same_outcome (x y : bool * PorterStemmer.t) : Prop :=
  (x = y /\ fst x = true) \/
  (fst x = false /\ fst y = false /\ same_buffer (snd x) (snd y)).


(** ** Tokens *)

(** What [Tokenizer::tokenize] lets through: lower-case letters and
    apostrophes, a letter first, at least two characters, no stop word. *)
Definition starts_with_letter (s : string) : bool :=
  match s with
  | String c _ => Chars.is_lower c
  | EmptyString => false
  end.

Definition token_ok (token : string) : bool :=
  Str.all term_char token && starts_with_letter token
  && (2 <=? String.length token)%nat && negb (Tokenizer.is_stop_word token).

(** A character that ends a surface token wherever it stands. *)
Definition separator (c : ascii) : bool :=
  negb (Tokenizer.is_alpha c) && negb (Ascii.eqb c Chars.apostrophe).

(** The surface token under construction: empty, or a letter followed by
    letters and apostrophes. *)
Definition surface (current : string) : Prop :=
  match current with
  | EmptyString => True
  | String c r => Tokenizer.is_alpha c = true /\ Str.all raw_char r = true
  end.


(** The stemmer's end index stays inside the buffer and never passes
    [bound]. *)
Definition bounded (bound : Z) (st : PorterStemmer.t) : Prop :=
  0 <= PorterStemmer.k_ st <= bound /\
  PorterStemmer.k_ st < Str.size (PorterStemmer.word_ st).


(** ** Infix queries

    The token lists [to_rpn] is written for: operands, the binary operators
    [and], [or] and [not] ([a not b] is [a] without [b]), a leading [not],
    and parentheses. *)

Inductive operator : Type := OpAnd | OpOr | OpNot.

Definition operator_token (op : operator) : string :=
  match op with OpAnd => "and" | OpOr => "or" | OpNot => "not" end.

Inductive query : Type :=
| QTerm (word : string)
| QParen (q : query)
| QBinary (op : operator) (l r : query)
| QNot (q : query).

(** The tokens of a query as it is typed, and in postfix order. *)
Fixpoint infix (q : query) : list string :=
  match q with
  | QTerm word => [word]
  | QParen q => "(" :: infix q ++ [")"]
  | QBinary op l r => infix l ++ operator_token op :: infix r
  | QNot q => "not" :: infix q
  end.

Fixpoint postfix (q : query) : list string :=
  match q with
  | QTerm word => [word]
  | QParen q => postfix q
  | QBinary op l r => postfix l ++ postfix r ++ [operator_token op]
  | QNot q => postfix q ++ ["not"]
  end.

(** The lowest precedence an operand may show without parentheses: [and]
    and [or] group to the left, [not] to the right. *)
Definition left_level (op : operator) : Z :=
  match op with
  | OpNot => 4
  | _ => SearchEngine.operator_precedence (operator_token op)
  end.

Definition right_level (op : operator) : Z :=
  match op with
  | OpNot => 3
  | _ => SearchEngine.operator_precedence (operator_token op) + 1
  end.

(** [well_formed level q]: [q] reads as written where an operand of
    precedence [level] or more is expected; its words are operands. *)
Fixpoint well_formed (level : Z) (q : query) : bool :=
  match q with
  | QTerm word => is_term_token word
  | QParen q => well_formed 0 q
  | QBinary op l r =>
      (level <=? SearchEngine.operator_precedence (operator_token op))
      && well_formed (left_level op) l && well_formed (right_level op) r
  | QNot q => (level <=? 3) && well_formed 3 q
  end.

(** Every [not] of the query stands between two operands. *)
Fixpoint binary_only (q : query) : bool :=
  match q with
  | QTerm _ => true
  | QParen q => binary_only q
  | QBinary _ l r => binary_only l && binary_only r
  | QNot _ => false
  end.

(** The doc_ids a query stands for: the posting list of a word's stem, and
    the merges of [intersect], [union_lists] and [difference]. *)
Fixpoint matches (e : SearchEngine.t) (q : query) : list Z :=
  match q with
  | QTerm word => SearchEngine.posting_doc_ids e (PorterStemmer.stem word)
  | QParen q => matches e q
  | QBinary OpAnd l r => SearchEngine.intersect (matches e l) (matches e r)
  | QBinary OpOr l r => SearchEngine.union_lists (matches e l) (matches e r)
  | QBinary OpNot l r => SearchEngine.difference (matches e l) (matches e r)
  | QNot q => SearchEngine.difference (SearchEngine.all_document_ids e) (matches e q)
  end.

(** A token [to_rpn] hands on: not empty and no parenthesis. *)
Definition kept_token (tok : string) : bool :=
  negb (Str.empty tok) && negb (String.eqb tok "(") && negb (String.eqb tok ")").

(** An operator stack on which no operator of precedence [level] or more
    pops the top. *)
Definition guarded (level : Z) (op_stack : list string) : Prop :=
  match op_stack with
  | [] => True
  | top :: _ =>
      SearchEngine.is_operator_token top = true ->
      SearchEngine.operator_precedence top < level \/ (top = "not" /\ 3 <= level)
  end.

(** An operator waiting on the stack, of precedence [level] or more. *)
Definition pending (level : Z) (tok : string) : Prop :=
  SearchEngine.is_operator_token tok = true /\
  level <= SearchEngine.operator_precedence tok.

(** A query example: [vault and (raider or nuka) not nuka]. *)
Definition sample_query : query :=
  QBinary OpAnd (QTerm "vault")
    (QBinary OpNot (QParen (QBinary OpOr (QTerm "raider") (QTerm "nuka")))
                   (QTerm "nuka")).

(** What the operator stack of [to_rpn] holds: operators and opening
    parentheses. *)
Definition stack_tokens (op_stack : list string) : Prop :=
  Forall (fun tok => SearchEngine.is_operator_token tok = true \/ tok = "(") op_stack.

Definition is_operand (tok : string) : bool := negb (SearchEngine.is_operator_token tok).


(** ** Indexes with ascending posting lists *)

(** Every posting list of the engine is strictly ascending by doc_id. *)
Definition sorted_index (e : SearchEngine.t) : bool :=
  forallb (fun entry => ascending_postings (snd entry))
          (map_to_list (SearchEngine.inverted_index_ e)).


(** ** Queries as typed *)

(** A token of the query line that [iss >> token] reads as one token and
    [normalize_query_token] leaves as it is: no white space, no parenthesis,
    already normalized. *)
Definition solid (tok : string) : bool :=
  negb (Str.empty tok)
  && Str.all (fun c => negb (Chars.isspace c) && no_paren c) tok.

Definition typed_token (tok : string) : bool :=
  String.eqb tok "(" || String.eqb tok ")"
  || (solid tok && String.eqb (SearchEngine.normalize_query_token tok) tok).

(** The words of a query are typed as the engine keeps them. *)
Fixpoint typed (q : query) : bool :=
  match q with
  | QTerm word => typed_token word
  | QParen q => typed q
  | QBinary _ l r => typed l && typed r
  | QNot q => typed q
  end.


(** ** What an index should hold *)

(** How often [stem] occurs among the stems of a token list, and of a
    text. *)
Definition stem_count_in (stem : string) (tokens : list string) : Z :=
  Z.of_nat (length (List.filter (fun token => String.eqb (PorterStemmer.stem token) stem)
                                tokens)).

Definition stem_count (stem : string) (text : string) : Z :=
  stem_count_in stem (Tokenizer.tokenize text).

(** The postings of [stem] for a sequence of documents: one posting, in the
    order of the documents, for each document in which the stem occurs, with
    the number of occurrences. *)
Definition expected_postings (stem : string) (docs : list Document) : list Posting :=
  flat_map (fun d =>
              let n := stem_count stem (document_text d) in
              if 0 <? n then [mkPosting (document_id d) n] else [])
           docs.

(** The posting list the builder holds for a stem (empty when it holds
    none). *)
Definition builder_postings (b : IndexBuilder.t) (stem : string) : list Posting :=
  default [] (IndexBuilder.inverted_index_ b !! stem).

(** The doc_ids of the documents whose text has a token with the stem, in
    the order of the documents. *)
Definition documents_with (stem : string) (docs : list Document) : list Z :=
  map document_id
      (List.filter (fun d => 0 <? stem_count stem (document_text d)) docs).


(** ** Zipf statistics ([zipf_analysis.cpp]) *)

Module ZipfAnalyzer.

Record TermFrequency : Type := mkTermFrequency {
  term : string;
  frequency : Z;
  rank : Z
}.

(** The default constructor: [frequency(0), rank(0)]. *)
Definition default_entry : TermFrequency := mkTermFrequency EmptyString 0 0.

Record t : Type := mk {
  term_frequencies_ : gmap string Z;
  sorted_terms_ : list TermFrequency
}.

Definition new : t := mk ∅ [].

Definition add_term (z : t) (term : string) : t :=
  match term_frequencies_ z !! term with
  | Some freq => mk (<[term := freq + 1]> (term_frequencies_ z)) (sorted_terms_ z)
  | None => mk (<[term := 1]> (term_frequencies_ z)) (sorted_terms_ z)
  end.

(** The three assignments that exchange rows [i] and [j]. *)
Definition exchange (sorted : list TermFrequency) (i j : nat) : list TermFrequency :=
  <[j := nth i sorted default_entry]> (<[i := nth j sorted default_entry]> sorted).

(** The inner loop of [sort_by_frequency], for [j] and the
    [remaining = size - j] rows from it on. *)
Fixpoint inner_loop (remaining j i : nat) (sorted : list TermFrequency)
    : list TermFrequency :=
  match remaining with
  | O => sorted
  | S remaining' =>
      inner_loop remaining' (S j) i
        (if frequency (nth i sorted default_entry) <? frequency (nth j sorted default_entry)
         then exchange sorted i j
         else sorted)
  end.

(** The outer loop, for [i] and the [remaining = size - i] rows from it
    on. *)
Fixpoint outer_loop (remaining i : nat) (sorted : list TermFrequency)
    : list TermFrequency :=
  match remaining with
  | O => sorted
  | S remaining' => outer_loop remaining' (S i) (inner_loop remaining' (S i) i sorted)
  end.

(** The last loop: [sorted_terms_[i].rank = i + 1]. *)
Definition assign_ranks (sorted : list TermFrequency) : list TermFrequency :=
  imap (fun i entry => mkTermFrequency (term entry) (frequency entry) (Z.of_nat i + 1))
       sorted.

Definition sort_by_frequency (z : t) : t :=
  let entries :=
    map (fun entry => mkTermFrequency (fst entry) (snd entry) 0)
        (map_to_list (term_frequencies_ z)) in
  mk (term_frequencies_ z) (assign_ranks (outer_loop (length entries) 0 entries)).

Definition finalize (z : t) : t := sort_by_frequency z.

Definition csv_line (entry : TermFrequency) : string :=
  Stream.put_int (rank entry) ++ "," ++ Stream.put_int (frequency entry) ++ ","
    ++ term entry ++ String Chars.newline EmptyString.

(** [save_to_csv], when the file can be opened: what is written to it. *)
Definition save_to_csv (z : t) : string :=
  "rank,frequency,term" ++ String Chars.newline EmptyString
    ++ concat_strings (map csv_line (take (Z.to_nat 10000) (sorted_terms_ z))).

Definition vocabulary_size (z : t) : nat := length (sorted_terms_ z).

Definition total_terms (z : t) : Z :=
  foldl (fun total entry => total + frequency entry) 0 (sorted_terms_ z).

End ZipfAnalyzer.

(** ** The builder with its statistics

    [IndexBuilder] above leaves out the two members that the index does not
    depend on; here is the whole object. *)

Module BuildStats.

Record t : Type := mk {
  total_tokens : Z;
  total_stems : Z;
  total_token_chars : Z;
  total_stem_chars : Z;
  total_text_bytes : Z;
  doc_count : Z
}.

Definition zero : t := mk 0 0 0 0 0 0.

End BuildStats.

Module BuildReport.

Record t : Type := mk {
  index_ : IndexBuilder.t;
  zipf_ : ZipfAnalyzer.t;
  stats_ : BuildStats.t
}.

Definition new : t := mk IndexBuilder.new ZipfAnalyzer.new BuildStats.zero.

(** What the stemming loop of [add_document] does to [zipf_] and
    [stats_]. *)
Definition note_stem (state : ZipfAnalyzer.t * BuildStats.t) (token : string)
    : ZipfAnalyzer.t * BuildStats.t :=
  let '(zipf, stats) := state in
  let stem := PorterStemmer.stem token in
  if Str.empty stem then state
  else
    (ZipfAnalyzer.add_term zipf stem,
     BuildStats.mk (BuildStats.total_tokens stats)
                   (BuildStats.total_stems stats + 1)
                   (BuildStats.total_token_chars stats)
                   (BuildStats.total_stem_chars stats + Z.of_nat (String.length stem))
                   (BuildStats.total_text_bytes stats)
                   (BuildStats.doc_count stats)).

Definition token_chars (tokens : list string) : Z :=
  foldl (fun total token => total + Z.of_nat (String.length token)) 0 tokens.

(** [add_document] with all the members it writes. *)
Definition add_document (b : t) (doc_id : Z) (url title text : string) : option t :=
  match IndexBuilder.add_document (index_ b) doc_id url title text with
  | None => None
  | Some index =>
      let tokens := Tokenizer.tokenize text in
      let stats := stats_ b in
      let stats :=
        BuildStats.mk (BuildStats.total_tokens stats + Z.of_nat (length tokens))
                      (BuildStats.total_stems stats)
                      (BuildStats.total_token_chars stats + token_chars tokens)
                      (BuildStats.total_stem_chars stats)
                      (BuildStats.total_text_bytes stats + Z.of_nat (String.length text))
                      (BuildStats.doc_count stats) in
      let '(zipf, stats) := foldl note_stem (zipf_ b, stats) tokens in
      Some (mk index zipf stats)
  end.

Definition stats (b : t) : BuildStats.t := stats_ b.

Definition vocabulary_size (b : t) : nat := size (IndexBuilder.inverted_index_ (index_ b)).

Definition total_postings (b : t) : Z :=
  map_fold (fun _ posting_list total => total + Z.of_nat (length posting_list)) 0
           (IndexBuilder.inverted_index_ (index_ b)).

(** [save_zipf_analysis]: the object afterwards and the file written. *)
Definition save_zipf_analysis (b : t) : t * string :=
  let zipf := ZipfAnalyzer.finalize (zipf_ b) in
  (mk (index_ b) zipf (stats_ b), ZipfAnalyzer.save_to_csv zipf).

End BuildReport.

Fixpoint add_documents_report (b : BuildReport.t) (docs : list Document)
    : option BuildReport.t :=
  match docs with
  | [] => Some b
  | d :: rest =>
      match BuildReport.add_document b (document_id d) (document_url d)
              (document_title d) (document_text d) with
      | Some b' => add_documents_report b' rest
      | None => None
      end
  end.

(** The sum of the counts of a frequency table. *)
Definition table_total (table : gmap string Z) : Z :=
  foldr (fun entry total => snd entry + total) 0 (map_to_list table).

(** What the builder's members have in common: the terms counted are the
    terms indexed, every stem was counted once, a stem is no longer than its
    token. *)
Record report_ok (b : BuildReport.t) : Prop := {
  ok_terms_counted :
    dom (ZipfAnalyzer.term_frequencies_ (BuildReport.zipf_ b))
    = dom (IndexBuilder.inverted_index_ (BuildReport.index_ b));
  ok_stems_counted :
    table_total (ZipfAnalyzer.term_frequencies_ (BuildReport.zipf_ b))
    = BuildStats.total_stems (BuildReport.stats_ b);
  ok_stems_tokens :
    BuildStats.total_stems (BuildReport.stats_ b)
    = BuildStats.total_tokens (BuildReport.stats_ b);
  ok_stem_chars :
    0 <= BuildStats.total_stem_chars (BuildReport.stats_ b)
      <= BuildStats.total_token_chars (BuildReport.stats_ b);
  ok_not_sorted : ZipfAnalyzer.sorted_terms_ (BuildReport.zipf_ b) = []
}.

(** The characters of the stems of a token list. *)
Definition stem_chars (tokens : list string) : Z :=
  foldl (fun total token => total + Z.of_nat (String.length (PorterStemmer.stem token)))
        0 tokens.

(** The tokens of a sequence of documents. *)
Definition corpus_tokens (docs : list Document) : list string :=
  flat_map (fun d => Tokenizer.tokenize (document_text d)) docs.

(** The order [sort_by_frequency] establishes. *)
Definition by_frequency (a b : ZipfAnalyzer.TermFrequency) : Prop :=
  ZipfAnalyzer.frequency b <= ZipfAnalyzer.frequency a.

Definition corpus_report : BuildReport.t :=
  default BuildReport.new (add_documents_report BuildReport.new corpus).

(** The frequency in row [k]. *)
Definition frequency_at (sorted : list ZipfAnalyzer.TermFrequency) (k : nat) : Z :=
  ZipfAnalyzer.frequency (nth k sorted ZipfAnalyzer.default_entry).


(** ** JSON lines as the builder reads them *)

(** The escapes [extract_json_field] undoes: the quote, the backslash, and
    the control characters written as [\n], [\t] and [\r]. *)
Fixpoint escape (s : string) : string :=
  match s with
  | EmptyString => EmptyString
  | String c rest =>
      if Ascii.eqb c Chars.dquote
      then String Chars.backslash (String Chars.dquote (escape rest))
      else if Ascii.eqb c Chars.backslash
      then String Chars.backslash (String Chars.backslash (escape rest))
      else if Ascii.eqb c Chars.newline
      then String Chars.backslash (String "n" (escape rest))
      else if Ascii.eqb c Chars.tab
      then String Chars.backslash (String "t" (escape rest))
      else if Ascii.eqb c Chars.carriage_return
      then String Chars.backslash (String "r" (escape rest))
      else String c (escape rest)
  end.

(** What [extract_json_field] looks for: the name in quotes and a colon. *)
Definition json_key (name : string) : string :=
  (IndexBuilder.quote ++ name ++ IndexBuilder.quote ++ ":")%string.

(** The record of a document, on one line, and the file of a sequence of
    documents. *)
Definition json_line (d : Document) : string :=
  json_record (Stream.put_int (document_id d)) (escape (document_url d))
    (escape (document_title d)) (escape (document_text d)).

Definition jsonl (docs : list Document) : string :=
  concat_strings (map (fun d => (json_line d ++ end_of_line)%string) docs).

(** A document [build_from_jsonl] takes: a doc_id that is a non-negative
    [int], and a text of 50 bytes or more. *)
Definition indexable (d : Document) : bool :=
  (0 <=? document_id d) && (document_id d <=? 2147483647)
  && (50 <=? String.length (document_text d))%nat.

(** A character of a field name. *)
Definition name_char (c : ascii) : bool := Chars.isalnum c || Ascii.eqb c "_".

(** Two strings that differ at a position both have. *)
Fixpoint differs (t s : string) : bool :=
  match t, s with
  | String a t', String b s' => if Ascii.eqb a b then differs t' s' else true
  | _, _ => false
  end.

(** [t] is found nowhere in [p], whatever follows [p]. *)
Fixpoint clear_of (t p : string) : bool :=
  match p with
  | EmptyString => true
  | String _ rest => differs t p && clear_of t rest
  end.

(** A string in which a backslash takes the next character with it and no
    quote stands alone. *)
Fixpoint well_escaped (s : string) : bool :=
  match s with
  | EmptyString => true
  | String c rest =>
      if Ascii.eqb c Chars.backslash then
        match rest with
        | String _ rest' => well_escaped rest'
        | EmptyString => false
        end
      else negb (Ascii.eqb c Chars.dquote) && well_escaped rest
  end.

(** What follows a value in a record: a comma or the closing brace. *)
Definition closes_value (s : string) : bool :=
  match s with
  | String c _ => Ascii.eqb c "," || Ascii.eqb c "}"
  | EmptyString => false
  end.

Definition sample_document : Document :=
  mkDocument 3 "https://vault.example/a?b=1"
    ("Vault " ++ IndexBuilder.quote ++ "13" ++ IndexBuilder.quote ++ String Chars.tab "notes")
    ("The vault dweller found a pip-boy in the vault," ++ String Chars.newline
       "then went home.").

(** A character of a value written without quotes. *)
Definition bare_char (c : ascii) : bool :=
  negb (Ascii.eqb c Chars.dquote) && negb (Ascii.eqb c ",")
  && negb (Ascii.eqb c " ") && negb (Ascii.eqb c Chars.tab).

(** A string field of a record and what follows it. *)
Definition string_field (name value rest : string) : string :=
  (json_key name ++ String " " (String Chars.dquote (value ++ String Chars.dquote rest)))%string.

(** What follows the values of a record, from their comma on. *)
Definition after_title (text : string) : string :=
  String "," (String " " (string_field "text" text "}")).

Definition after_url (title text : string) : string :=
  String "," (String " " (string_field "title" title (after_title text))).

Definition after_doc_id (url title text : string) : string :=
  String "," (String " " (string_field "url" url (after_url title text))).

(** The record of a document with a doc_id that is not negative. *)
Definition record_line (n : nat) (url title text : string) : string :=
  json_record (Stream.put_nat n) (escape url) (escape title) (escape text).


(** ** The growable array of [data_structures.h]

    [DynamicArray<T>]: [data_] is the allocated block, a list as long as the
    allocation; [T()], with which [new T[n]] fills a block, is the
    inhabitant of [T].  A call returns, throws [std::out_of_range], or
    reads or writes outside the block (undefined behaviour). *)

Module DynamicArray.

Local Open Scope nat_scope.

Inductive result (A : Type) : Type :=
  | Returns (a : A)
  | Throws
  | Undefined.
Arguments Returns {A} a.
Arguments Throws {A}.
Arguments Undefined {A}.

Definition bind {A B : Type} (x : result A) (f : A -> result B) : result B :=
  match x with
  | Returns a => f a
  | Throws => Throws
  | Undefined => Undefined
  end.

Section Array.

Context {T : Type} {inhabited_T : Inhabited T}.

Record t : Type := mk {
  data_ : list T;
  size_ : nat;
  capacity_ : nat
}.

(** [DynamicArray()] and [DynamicArray(initial_capacity)] *)
Definition new : t := mk [] 0 0.
Definition with_capacity (initial_capacity : nat) : t :=
  mk (replicate initial_capacity inhabitant) 0 initial_capacity.

(** The loop [for (i = 0; i < count; ++i) target[i] = source[i]]. *)
Definition copy_loop (source target : list T) (count : nat) : result (list T) :=
  foldl (fun acc i =>
           bind acc (fun target =>
             if (i <? length source) && (i <? length target)
             then Returns (<[i := nth i source inhabitant]> target)
             else Undefined))
        (Returns target) (seq 0 count).

Definition resize (a : t) (new_capacity : nat) : result t :=
  bind (copy_loop (data_ a) (replicate new_capacity inhabitant) (size_ a))
       (fun new_data => Returns (mk new_data (size_ a) new_capacity)).

(** The copy constructor (and the assignment from another array). *)
Definition copy (other : t) : result t :=
  bind (copy_loop (data_ other) (replicate (capacity_ other) inhabitant) (size_ other))
       (fun data => Returns (mk data (size_ other) (capacity_ other))).

Definition push_back (a : t) (value : T) : result t :=
  bind (if size_ a =? capacity_ a
        then resize a (if capacity_ a =? 0 then 8 else capacity_ a * 2)
        else Returns a)
       (fun a =>
          if size_ a <? length (data_ a)
          then Returns (mk (<[size_ a := value]> (data_ a)) (size_ a + 1) (capacity_ a))
          else Undefined).

Definition pop_back (a : t) : t :=
  if 0 <? size_ a then mk (data_ a) (size_ a - 1) (capacity_ a) else a.

(** [operator[]] *)
Definition get (a : t) (index : nat) : result T :=
  if index <? length (data_ a) then Returns (nth index (data_ a) inhabitant)
  else Undefined.

(** [at] *)
Definition at_ (a : t) (index : nat) : result T :=
  if size_ a <=? index then Throws else get a index.

Definition size (a : t) : nat := size_ a.
Definition capacity (a : t) : nat := capacity_ a.
Definition empty (a : t) : bool := size_ a =? 0.

Definition clear (a : t) : t := mk (data_ a) 0 (capacity_ a).

Definition reserve (a : t) (new_capacity : nat) : result t :=
  if capacity_ a <? new_capacity then resize a new_capacity else Returns a.

(** The elements between [begin()] and [end()]. *)
Definition elements (a : t) : list T := take (size_ a) (data_ a).

(** Calls that change an array, and the same calls on a list. *)
Inductive operation : Type :=
  | PushBack (value : T)
  | PopBack
  | Clear
  | Reserve (new_capacity : nat)
  | Copy.

Definition apply (a : t) (op : operation) : result t :=
  match op with
  | PushBack value => push_back a value
  | PopBack => Returns (pop_back a)
  | Clear => Returns (clear a)
  | Reserve new_capacity => reserve a new_capacity
  | Copy => copy a
  end.

Definition run (a : t) (ops : list operation) : result t :=
  foldl (fun acc op => bind acc (fun a => apply a op)) (Returns a) ops.

Definition list_apply (l : list T) (op : operation) : list T :=
  match op with
  | PushBack value => l ++ [value]
  | PopBack => take (length l - 1) l
  | Clear => []
  | Reserve _ => l
  | Copy => l
  end.

(** The block is as large as [capacity_] says and holds the elements. *)
Definition holds (a : t) (l : list T) : Prop :=
  length (data_ a) = capacity_ a /\ size_ a <= capacity_ a /\ elements a = l.

End Array.

Arguments t : clear implicits.
Arguments operation : clear implicits.

End DynamicArray.


(** ** The hash table of [data_structures.h]

    [HashMap<K,V>] is an open-addressing table with linear probing and
    tombstones.  [table_] is the allocated block, a list of [capacity_]
    entries; [size_t] values are [nat] (a table of [2^63] entries cannot be
    allocated, so no wrap-around is reachable).  [K()] and [V()], which fill
    a fresh entry, are the inhabitants of [K] and [V]; [std::hash<K>] is the
    parameter [hasher].  A call has three outcomes: it returns, it divides
    by zero ([hash] on a table of capacity 0, made by [HashMap(0)]), or the
    model runs out of fuel ([insert] and [rehash] call each other). *)

Module HashMap.

Local Open Scope nat_scope.

Inductive outcome (A : Type) : Type :=
  | Returns (a : A)
  | Undefined
  | OutOfFuel.
Arguments Returns {A} a.
Arguments Undefined {A}.
Arguments OutOfFuel {A}.

Definition bind {A B : Type} (x : outcome A) (f : A -> outcome B) : outcome B :=
  match x with
  | Returns a => f a
  | Undefined => Undefined
  | OutOfFuel => OutOfFuel
  end.

(** [static_cast<double>(size_) / capacity_ > 0.7] *)
Definition load_factor_exceeded (size capacity : nat) : bool :=
  (0.7 <? SearchEngine.double_of_Z (Z.of_nat size)
          / SearchEngine.double_of_Z (Z.of_nat capacity))%float.

Section Table.

Context {K V : Type} `{EqDecision K} `{Inhabited K} `{Inhabited V}.

Record Entry : Type := mkEntry {
  key : K;
  value : V;
  occupied : bool;
  deleted : bool
}.

(** [Entry()] *)
Definition fresh : Entry := mkEntry inhabitant inhabitant false false.

Record t : Type := mk {
  table_ : list Entry;
  capacity_ : nat;
  size_ : nat
}.

(** [HashMap()] and [HashMap(initial_capacity)] *)
Definition with_capacity (initial_capacity : nat) : t :=
  mk (replicate initial_capacity fresh) initial_capacity 0.
Definition new : t := with_capacity 16.

(** [table_[index]] *)
Definition entry (m : t) (index : nat) : Entry := nth index (table_ m) fresh.

Definition store (m : t) (index : nat) (e : Entry) : t :=
  mk (<[index := e]> (table_ m)) (capacity_ m) (size_ m).

Definition size (m : t) : nat := size_ m.
Definition empty (m : t) : bool := size_ m =? 0.

Variable hasher : K -> nat.

Definition hash (m : t) (k : K) : outcome nat :=
  if capacity_ m =? 0 then Undefined else Returns (hasher k mod capacity_ m).

(** The loop of [find]; [steps] bounds the iterations, the loop leaves
    after at most [capacity_] of them, when the index is back at
    [original_index]. *)
Fixpoint find_loop (steps : nat) (m : t) (k : K) (original_index index : nat)
    : outcome (option V) :=
  match steps with
  | O => OutOfFuel
  | S steps =>
      if occupied (entry m index) then
        if negb (deleted (entry m index)) && bool_decide (key (entry m index) = k)
        then Returns (Some (value (entry m index)))
        else
          let index := (index + 1) mod capacity_ m in
          if index =? original_index then Returns None
          else find_loop steps m k original_index index
      else Returns None
  end.

(** [find] returns [Some value] for [true] with [value] written, [None] for
    [false]. *)
Definition find (m : t) (k : K) : outcome (option V) :=
  bind (hash m k) (fun index => find_loop (capacity_ m) m k index index).

Definition contains (m : t) (k : K) : outcome bool :=
  bind (find m k) (fun found => Returns (bool_decide (found <> None))).

(** The loop of [remove].  [--size_] is [size_ m - 1]: [size_] counts the
    live entries, so it is positive where a live entry is found. *)
Fixpoint remove_loop (steps : nat) (m : t) (k : K) (original_index index : nat)
    : outcome t :=
  match steps with
  | O => OutOfFuel
  | S steps =>
      if occupied (entry m index) then
        if negb (deleted (entry m index)) && bool_decide (key (entry m index) = k)
        then
          let e := entry m index in
          Returns (mk (<[index := mkEntry (key e) (value e) (occupied e) true]> (table_ m))
                      (capacity_ m) (size_ m - 1))
        else
          let index := (index + 1) mod capacity_ m in
          if index =? original_index then Returns m
          else remove_loop steps m k original_index index
      else Returns m
  end.

Definition remove (m : t) (k : K) : outcome t :=
  bind (hash m k) (fun index => remove_loop (capacity_ m) m k index index).

(** [rehash], over the [insert] it calls. *)
Definition rehash (insert : t -> K -> V -> outcome t) (m : t) (new_capacity : nat)
    : outcome t :=
  foldl (fun acc i =>
           bind acc (fun m' =>
             if occupied (entry m i) && negb (deleted (entry m i))
             then insert m' (key (entry m i)) (value (entry m i))
             else Returns m'))
        (Returns (with_capacity new_capacity))
        (seq 0 (capacity_ m)).

(** The loop of [insert] and what follows it. *)
Fixpoint insert_loop (insert : t -> K -> V -> outcome t) (steps : nat) (m : t)
    (k : K) (v : V) (original_index index : nat) : outcome t :=
  match steps with
  | O => OutOfFuel
  | S steps =>
      if occupied (entry m index) && negb (deleted (entry m index)) then
        if bool_decide (key (entry m index) = k) then
          let e := entry m index in
          Returns (store m index (mkEntry (key e) v (occupied e) (deleted e)))
        else
          let index := (index + 1) mod capacity_ m in
          if index =? original_index then
            bind (rehash insert m (capacity_ m * 2)) (fun m => insert m k v)
          else insert_loop insert steps m k v original_index index
      else
        Returns (mk (<[index := mkEntry k v true false]> (table_ m))
                    (capacity_ m) (size_ m + 1))
  end.

Fixpoint insert (fuel : nat) (m : t) (k : K) (v : V) : outcome t :=
  match fuel with
  | O => OutOfFuel
  | S fuel =>
      bind (if load_factor_exceeded (size_ m) (capacity_ m)
            then rehash (insert fuel) m (capacity_ m * 2)
            else Returns m)
           (fun m =>
              bind (hash m k) (fun index =>
                insert_loop (insert fuel) (capacity_ m) m k v index index))
  end.

(** The iterator: [advance], and the entries a loop
    [for (it = begin(); it != end(); ++it)] visits, as pairs of [it.key()]
    and [it.value()]. *)
Fixpoint advance (steps : nat) (m : t) (current : nat) : nat :=
  match steps with
  | O => current
  | S steps =>
      if (current <? capacity_ m)
         && (negb (occupied (entry m current)) || deleted (entry m current))
      then advance steps m (current + 1)
      else current
  end.

Definition iterator_at (m : t) (start : nat) : nat :=
  advance (capacity_ m - start) m start.

Fixpoint visit (steps : nat) (m : t) (current : nat) : list (K * V) :=
  match steps with
  | O => []
  | S steps =>
      if current =? iterator_at m (capacity_ m) then []
      else (key (entry m current), value (entry m current))
             :: visit steps m (iterator_at m (current + 1))
  end.

Definition items (m : t) : list (K * V) :=
  visit (capacity_ m) m (iterator_at m 0).

(** Two keys inserted, the first removed, the second inserted again and
    then removed. *)
Definition reinsert_after_remove (fuel : nat) (a b : K) (va vb vb' : V) : outcome t :=
  bind (insert fuel new a va) (fun m =>
  bind (insert fuel m b vb) (fun m =>
  bind (remove m a) (fun m =>
  bind (insert fuel m b vb') (fun m =>
  remove m b)))).

(** A sequence of [insert] calls, then a sequence of [remove] calls. *)
Definition insert_all (fuel : nat) (m : t) (pairs : list (K * V)) : outcome t :=
  foldl (fun acc kv => bind acc (fun m => insert fuel m kv.1 kv.2)) (Returns m) pairs.

Definition remove_all (m : t) (keys : list K) : outcome t :=
  foldl (fun acc k => bind acc (fun m => remove m k)) (Returns m) keys.

End Table.

Arguments Entry : clear implicits.
Arguments t : clear implicits.

(** *** Notions for the invariants of the table *)

Section Invariants.

Context {K V : Type} `{EqDecision K} `{Inhabited K} `{Inhabited V}.
Variable hasher : K -> nat.

Definition live (e : Entry K V) : bool := occupied e && negb (deleted e).

(** The slot reached [d] steps after slot [o]. *)
Definition slot (capacity o d : nat) : nat := (o + d) mod capacity.

(** The first [d] slots probed for [k] are occupied, none by [k]. *)
Definition passed (m : t K V) (k : K) (d : nat) : Prop :=
  forall d', d' < d ->
    let e := entry m (slot (capacity_ m) (hasher k) d') in
    occupied e = true /\ (live e = true -> key e <> k).

Definition well_formed (m : t K V) : Prop :=
  length (table_ m) = capacity_ m /\ 0 < capacity_ m.

(** Every live entry is reached by probing for its key. *)
Definition reachable (m : t K V) : Prop :=
  forall k d,
    d < capacity_ m ->
    live (entry m (slot (capacity_ m) (hasher k) d)) = true ->
    key (entry m (slot (capacity_ m) (hasher k) d)) = k ->
    passed m k d.

Definition counted (m : t K V) : Prop :=
  size_ m = length (List.filter live (table_ m)).

(** No tombstone. *)
Definition clean (m : t K V) : Prop :=
  forall i, deleted (entry m i) = false.

Record invariant (m : t K V) : Prop := {
  inv_well_formed : well_formed m;
  inv_reachable : reachable m;
  inv_counted : counted m
}.

(** The table holds [k] with value [v]. *)
Definition holds (m : t K V) (k : K) (v : V) : Prop :=
  exists i, i < capacity_ m /\ live (entry m i) = true /\
            key (entry m i) = k /\ value (entry m i) = v.

(** The probe that [find] and [remove] share: the index of the live entry
    of [k]. *)
Fixpoint locate (steps : nat) (m : t K V) (k : K) (original_index index : nat)
    : outcome (option nat) :=
  match steps with
  | O => OutOfFuel
  | S steps =>
      if occupied (entry m index) then
        if negb (deleted (entry m index)) && bool_decide (key (entry m index) = k)
        then Returns (Some index)
        else
          let index := (index + 1) mod capacity_ m in
          if index =? original_index then Returns None
          else locate steps m k original_index index
      else Returns None
  end.

Definition mark_deleted (m : t K V) (index : nat) : t K V :=
  let e := entry m index in
  mk (<[index := mkEntry (key e) (value e) (occupied e) true]> (table_ m))
     (capacity_ m) (size_ m - 1).

(** What a call [insert(k, v)] makes of the table [m]. *)
Definition inserted (m m' : t K V) (k : K) (v : V) : Prop :=
  invariant m' /\ clean m' /\ size_ m' <= size_ m + 1 /\
  forall k' v', holds m' k' v' <-> (k' = k /\ v' = v) \/ (k' <> k /\ holds m k' v').

Definition live_pairs (table : list (Entry K V)) : list (K * V) :=
  map (fun e => (key e, value e)) (List.filter live table).

End Invariants.

(** The finite map a table stands for, and the finite map made by a
    sequence of insertions followed by a sequence of removals. *)
Definition represents {K V : Type} `{Countable K} `{Inhabited K} `{Inhabited V}
    (m : t K V) (M : gmap K V) : Prop :=
  forall k v, holds m k v <-> M !! k = Some v.

Definition finite_map_of {K V : Type} `{Countable K}
    (pairs : list (K * V)) (keys : list K) : gmap K V :=
  foldl (fun M k => delete k M) (foldl (fun M kv => <[kv.1 := kv.2]> M) ∅ pairs) keys.

(** The load-factor test does not fire at or below half load, for the
    capacities up to [bound]; the boolean version checks the grid. *)
Definition half_load_safe (bound : nat) : Prop :=
  forall size capacity,
    0 < capacity <= bound -> 2 * size <= capacity ->
    load_factor_exceeded size capacity = false.

Definition half_load_checked (bound : nat) : bool :=
  forallb (fun capacity =>
             forallb (fun size => negb (load_factor_exceeded size capacity))
                     (seq 0 (capacity / 2 + 1)))
          (seq 1 bound).

(** A table of words hashed by their length, as an example. *)
Definition sample_pairs : list (string * Z) :=
  [("vault", 1); ("dweller", 2); ("wasteland", 3); ("radio", 4); ("atom", 5);
   ("nuka", 6); ("cola", 7); ("brahmin", 8); ("caps", 9); ("ghoul", 10);
   ("super", 11); ("mutant", 12); ("pip", 13); ("boy", 14); ("vault", 15)]%Z.

Definition sample_removed : list string := ["radio"; "caps"; "enclave"].

End HashMap.
(** The stems the repository's own tests expect ([test_stemmer.cpp]). *)
Example stem_running : PorterStemmer.stem "running" = "run".
Proof. vm_compute. reflexivity. Qed.
Example stem_ponies : PorterStemmer.stem "ponies" = "poni".
Proof. vm_compute. reflexivity. Qed.
Example stem_national : PorterStemmer.stem "national" = "nation".
Proof. vm_compute. reflexivity. Qed.
Example stem_generalization : PorterStemmer.stem "generalization" = "gener".
Proof. vm_compute. reflexivity. Qed.
Example stem_effective : PorterStemmer.stem "effective" = "effect".
Proof. vm_compute. reflexivity. Qed.

(** The five stems of [test_stemmer.cpp] in one statement. *)
Theorem stemmer_test_vectors :
  map PorterStemmer.stem
      ["running"; "ponies"; "national"; "generalization"; "effective"]
  = ["run"; "poni"; "nation"; "gener"; "effect"].
Proof. vm_compute. reflexivity. Qed.

(** * Facts about strings *)

Section StringFacts.

(** [append] is never unfolded by [simpl] and [cbn] once stdpp is loaded. *)
Lemma str_app_cons (x : ascii) (a b : string) :
  (String x a ++ b)%string = String x (a ++ b).
Proof. reflexivity. Qed.

Lemma str_app_nil_l (b : string) : (EmptyString ++ b)%string = b.
Proof. reflexivity. Qed.

Ltac app_step := rewrite ?str_app_cons, ?str_app_nil_l.

Lemma str_app_assoc (a b c : string) : ((a ++ b) ++ c = a ++ (b ++ c))%string.
Proof. induction a as [|x a IH]; app_step; [reflexivity|]. f_equal. exact IH. Qed.

Lemma str_app_nil_r (a : string) : (a ++ EmptyString)%string = a.
Proof. induction a as [|x a IH]; app_step; [reflexivity|]. f_equal. exact IH. Qed.

Lemma str_push_app (cur : string) (c : ascii) (w : string) :
  (Str.push cur c ++ w = cur ++ String c w)%string.
Proof. unfold Str.push. rewrite str_app_assoc. reflexivity. Qed.

Lemma str_length_app (a b : string) :
  String.length (a ++ b) = (String.length a + String.length b)%nat.
Proof. induction a as [|x a IH]; app_step; cbn; [reflexivity|]. f_equal. exact IH. Qed.

Lemma str_empty_iff (s : string) : Str.empty s = true <-> s = EmptyString.
Proof. destruct s; cbn; split; congruence. Qed.

Lemma str_empty_false_iff (s : string) : Str.empty s = false <-> s <> EmptyString.
Proof. destruct s; cbn; split; congruence. Qed.

Lemma str_empty_app (a b : string) : Str.empty (a ++ b) = Str.empty a && Str.empty b.
Proof. destruct a; reflexivity. Qed.

Lemma str_all_app (p : ascii -> bool) (a b : string) :
  Str.all p (a ++ b) = Str.all p a && Str.all p b.
Proof.
  induction a as [|x a IH]; app_step; cbn; [reflexivity|].
  rewrite IH. destruct (p x); reflexivity.
Qed.

Lemma str_all_impl (p q : ascii -> bool) (s : string) :
  (forall c, p c = true -> q c = true) -> Str.all p s = true -> Str.all q s = true.
Proof.
  intros Hpq. induction s as [|x s IH]; cbn; [reflexivity|].
  intros H. apply andb_prop in H as [Hx Hs]. rewrite (Hpq _ Hx), (IH Hs). reflexivity.
Qed.

Lemma str_all_map (p : ascii -> bool) (f : ascii -> ascii) (s : string) :
  Str.all p (Str.map f s) = Str.all (fun c => p (f c)) s.
Proof. induction s as [|x s IH]; cbn; [reflexivity|]. rewrite IH. reflexivity. Qed.

Lemma str_length_map (f : ascii -> ascii) (s : string) :
  String.length (Str.map f s) = String.length s.
Proof. induction s as [|x s IH]; cbn; [reflexivity|]. f_equal. exact IH. Qed.

Lemma str_map_app (f : ascii -> ascii) (a b : string) :
  (Str.map f (a ++ b) = Str.map f a ++ Str.map f b)%string.
Proof.
  induction a as [|x a IH]; app_step; cbn; app_step; [reflexivity|].
  f_equal. exact IH.
Qed.

Lemma str_all_get (p : ascii -> bool) (s : string) (i : nat) (c : ascii) :
  Str.all p s = true -> String.get i s = Some c -> p c = true.
Proof.
  revert i. induction s as [|x s IH]; intros i Hall Hget; cbn in *; [discriminate|].
  apply andb_prop in Hall as [Hx Hs]. destruct i as [|i].
  - congruence.
  - eapply IH; eassumption.
Qed.

Lemma str_get_in_range (s : string) (i : nat) :
  (i < String.length s)%nat -> exists c, String.get i s = Some c.
Proof.
  revert i. induction s as [|x s IH]; intros i Hi; cbn in *; [lia|].
  destruct i as [|i]; [eauto|]. apply IH. lia.
Qed.

Lemma str_all_at (p : ascii -> bool) (s : string) (i : Z) :
  Str.all p s = true -> 0 <= i < Str.size s -> p (Str.at_ s i) = true.
Proof.
  intros Hall Hi. unfold Str.at_, Str.size in *.
  destruct (Z.ltb_spec i 0); [lia|].
  destruct (str_get_in_range s (Z.to_nat i)) as [c Hc]; [lia|].
  rewrite Hc. eapply str_all_get; eassumption.
Qed.

Lemma str_substring_all (s : string) : String.substring 0 (String.length s) s = s.
Proof. induction s as [|x s IH]; cbn; [reflexivity|]. f_equal. exact IH. Qed.

Lemma isalpha_tolower (c : ascii) :
  Chars.isalpha c = true -> Chars.is_lower (Chars.tolower c) = true.
Proof.
  destruct c as [[] [] [] [] [] [] [] []]; vm_compute; intros H;
    first [reflexivity | discriminate H].
Qed.

Lemma is_lower_facts (c : ascii) :
  Chars.is_lower c = true ->
  Chars.isalpha c = true /\ Chars.isalnum c = true /\ Chars.isspace c = false
  /\ Ascii.eqb c "(" = false /\ Ascii.eqb c ")" = false.
Proof.
  destruct c as [[] [] [] [] [] [] [] []]; vm_compute; intros H;
    first [discriminate H | repeat split; reflexivity].
Qed.

Lemma isalpha_facts (c : ascii) :
  Chars.isalpha c = true ->
  Chars.isspace c = false /\ Ascii.eqb c "(" = false /\ Ascii.eqb c ")" = false.
Proof.
  destruct c as [[] [] [] [] [] [] [] []]; vm_compute; intros H;
    first [discriminate H | repeat split; reflexivity].
Qed.

End StringFacts.

(** * Sorted-merge set operations *)

Section SetOperations.

Import SearchEngine.

Lemma strictly_ascending_sorted (l : list Z) :
  strictly_ascending l = true <-> StronglySorted Z.lt l.
Proof.
  split.
  - induction l as [|x [|y r] IH]; intros H.
    + constructor.
    + repeat constructor.
    + change (((x <? y) && strictly_ascending (y :: r)) = true) in H.
      apply andb_prop in H as [Hxy Hr].
      specialize (IH Hr). constructor; [exact IH|].
      apply StronglySorted_inv in IH as [_ Hall].
      constructor; [lia|].
      eapply Forall_impl; [exact Hall|]. intros z Hz. cbn in Hz. lia.
  - induction 1 as [|x r Hr IH Hall]; [reflexivity|].
    destruct r as [|y r']; [reflexivity|].
    change (((x <? y) && strictly_ascending (y :: r')) = true). rewrite IH.
    apply Forall_inv in Hall. apply andb_true_intro. split; [lia|reflexivity].
Qed.

Lemma sorted_tail (x : Z) (l : list Z) :
  StronglySorted Z.lt (x :: l) -> StronglySorted Z.lt l.
Proof. intros H. apply StronglySorted_inv in H. tauto. Qed.

Lemma sorted_head_lt (x y : Z) (l : list Z) :
  StronglySorted Z.lt (x :: l) -> y ∈ l -> x < y.
Proof.
  intros H Hy. apply StronglySorted_inv in H as [_ Hall].
  rewrite Forall_forall in Hall. auto.
Qed.

Lemma sorted_cons_intro (x : Z) (l : list Z) :
  StronglySorted Z.lt l -> (forall y, y ∈ l -> x < y) ->
  StronglySorted Z.lt (x :: l).
Proof. intros Hl Hx. constructor; [exact Hl|]. apply Forall_forall. exact Hx. Qed.

(** The unfolding equations of the three merges. *)
Lemma intersect_nil_r (a : list Z) : intersect a [] = [].
Proof. destruct a; reflexivity. Qed.

Lemma intersect_cons (x y : Z) (a b : list Z) :
  intersect (x :: a) (y :: b) =
  if x =? y then x :: intersect a b
  else if x <? y then intersect a (y :: b)
  else intersect (x :: a) b.
Proof. reflexivity. Qed.

Lemma union_nil_r (a : list Z) : union_lists a [] = a.
Proof. induction a as [|x a IH]; [reflexivity|]. cbn. f_equal. exact IH. Qed.

Lemma union_nil_l (b : list Z) : union_lists [] b = b.
Proof. induction b as [|y b IH]; [reflexivity|]. cbn. f_equal. exact IH. Qed.

Lemma union_cons (x y : Z) (a b : list Z) :
  union_lists (x :: a) (y :: b) =
  if x <? y then x :: union_lists a (y :: b)
  else if y <? x then y :: union_lists (x :: a) b
  else x :: union_lists a b.
Proof. reflexivity. Qed.

Lemma difference_nil_r (a : list Z) : difference a [] = a.
Proof. induction a as [|x a IH]; [reflexivity|]. cbn. f_equal. exact IH. Qed.

Lemma difference_cons (x y : Z) (a b : list Z) :
  difference (x :: a) (y :: b) =
  if x =? y then difference a b
  else if x <? y then x :: difference a (y :: b)
  else difference (x :: a) b.
Proof. reflexivity. Qed.

Ltac merge_cases x y :=
  destruct (Z.ltb_spec x y); destruct (Z.eqb_spec x y); try lia.

Lemma intersect_spec (a b : list Z) :
  StronglySorted Z.lt a -> StronglySorted Z.lt b ->
  forall z, z ∈ intersect a b <-> z ∈ a /\ z ∈ b.
Proof.
  revert b. induction a as [|x a IHa]; intros b Ha Hb z.
  - cbn. destruct b; cbn; rewrite elem_of_nil; tauto.
  - induction b as [|y b IHb].
    + rewrite intersect_nil_r, !elem_of_nil. tauto.
    + rewrite intersect_cons.
      pose proof (sorted_tail _ _ Ha) as Ha'.
      pose proof (sorted_tail _ _ Hb) as Hb'.
      pose proof (sorted_head_lt x z a Ha) as Hxa.
      pose proof (sorted_head_lt y z b Hb) as Hyb.
      merge_cases x y.
      * rewrite (IHa (y :: b) Ha' Hb z), !elem_of_cons. intuition lia.
      * rewrite !elem_of_cons, (IHa b Ha' Hb' z). intuition lia.
      * rewrite (IHb Hb'), !elem_of_cons. intuition lia.
Qed.

Lemma union_spec (a b : list Z) :
  forall z, z ∈ union_lists a b <-> z ∈ a \/ z ∈ b.
Proof.
  revert b. induction a as [|x a IHa]; intros b z.
  - rewrite union_nil_l, elem_of_nil. tauto.
  - induction b as [|y b IHb].
    + rewrite union_nil_r, elem_of_nil. tauto.
    + rewrite union_cons.
      destruct (Z.ltb_spec x y); [|destruct (Z.ltb_spec y x)].
      * rewrite elem_of_cons, IHa, !elem_of_cons. tauto.
      * rewrite elem_of_cons, IHb, !elem_of_cons. tauto.
      * assert (x = y) by lia. subst y.
        rewrite elem_of_cons, IHa, !elem_of_cons. tauto.
Qed.

Lemma difference_spec (a b : list Z) :
  StronglySorted Z.lt a -> StronglySorted Z.lt b ->
  forall z, z ∈ difference a b <-> z ∈ a /\ z ∉ b.
Proof.
  revert b. induction a as [|x a IHa]; intros b Ha Hb z.
  - cbn. destruct b; cbn; rewrite elem_of_nil; tauto.
  - induction b as [|y b IHb].
    + rewrite difference_nil_r. rewrite elem_of_nil. tauto.
    + rewrite difference_cons.
      pose proof (sorted_tail _ _ Ha) as Ha'.
      pose proof (sorted_tail _ _ Hb) as Hb'.
      pose proof (sorted_head_lt x z a Ha) as Hxa.
      pose proof (sorted_head_lt y z b Hb) as Hyb.
      merge_cases x y.
      * rewrite elem_of_cons, (IHa (y :: b) Ha' Hb z), !elem_of_cons. intuition lia.
      * rewrite (IHa b Ha' Hb' z), !elem_of_cons. intuition lia.
      * rewrite (IHb Hb'), !elem_of_cons. intuition lia.
Qed.

Lemma intersect_sorted (a b : list Z) :
  StronglySorted Z.lt a -> StronglySorted Z.lt b ->
  StronglySorted Z.lt (intersect a b).
Proof.
  revert b. induction a as [|x a IHa]; intros b Ha Hb.
  - destruct b; constructor.
  - induction b as [|y b IHb].
    + rewrite intersect_nil_r. constructor.
    + rewrite intersect_cons.
      pose proof (sorted_tail _ _ Ha) as Ha'.
      pose proof (sorted_tail _ _ Hb) as Hb'.
      destruct (x =? y); [|destruct (x <? y)]; auto.
      apply sorted_cons_intro; [auto|].
      intros z Hz. apply intersect_spec in Hz as [Hz _]; [|assumption..].
      eapply sorted_head_lt; eassumption.
Qed.

Lemma union_sorted (a b : list Z) :
  StronglySorted Z.lt a -> StronglySorted Z.lt b ->
  StronglySorted Z.lt (union_lists a b).
Proof.
  revert b. induction a as [|x a IHa]; intros b Ha Hb.
  - rewrite union_nil_l. exact Hb.
  - induction b as [|y b IHb].
    + rewrite union_nil_r. exact Ha.
    + rewrite union_cons.
      pose proof (sorted_tail _ _ Ha) as Ha'.
      pose proof (sorted_tail _ _ Hb) as Hb'.
      pose proof (fun z => sorted_head_lt x z a Ha) as Hxa.
      pose proof (fun z => sorted_head_lt y z b Hb) as Hyb.
      destruct (Z.ltb_spec x y); [|destruct (Z.ltb_spec y x)].
      * apply sorted_cons_intro; [auto|].
        intros z Hz. apply union_spec in Hz as [Hz|Hz].
        -- auto.
        -- apply elem_of_cons in Hz as [->|Hz]; [lia|]. specialize (Hyb z Hz). lia.
      * apply sorted_cons_intro; [auto|].
        intros z Hz. apply union_spec in Hz as [Hz|Hz].
        -- apply elem_of_cons in Hz as [->|Hz]; [lia|]. specialize (Hxa z Hz). lia.
        -- auto.
      * assert (x = y) by lia. subst y.
        apply sorted_cons_intro; [auto|].
        intros z Hz. apply union_spec in Hz as [Hz|Hz]; auto.
Qed.

Lemma difference_sorted (a b : list Z) :
  StronglySorted Z.lt a -> StronglySorted Z.lt b ->
  StronglySorted Z.lt (difference a b).
Proof.
  revert b. induction a as [|x a IHa]; intros b Ha Hb.
  - destruct b; constructor.
  - induction b as [|y b IHb].
    + rewrite difference_nil_r. exact Ha.
    + rewrite difference_cons.
      pose proof (sorted_tail _ _ Ha) as Ha'.
      pose proof (sorted_tail _ _ Hb) as Hb'.
      destruct (x =? y); [|destruct (x <? y)]; auto.
      apply sorted_cons_intro; [auto|].
      intros z Hz. apply difference_spec in Hz as [Hz _]; [|assumption..].
      eapply sorted_head_lt; eassumption.
Qed.

End SetOperations.

(** C3. For strictly ascending [A] and [B], [intersect A B] has exactly the
    elements of both, [union_lists A B] exactly the elements of either (each
    once), [difference A B] exactly the elements of [A] that are not in [B],
    and the three results are strictly ascending. *)
Theorem set_operations_correct (A B : list Z) :
  strictly_ascending A = true -> strictly_ascending B = true ->
  (forall z, z ∈ SearchEngine.intersect A B <-> z ∈ A /\ z ∈ B) /\
  (forall z, z ∈ SearchEngine.union_lists A B <-> z ∈ A \/ z ∈ B) /\
  (forall z, z ∈ SearchEngine.difference A B <-> z ∈ A /\ z ∉ B) /\
  strictly_ascending (SearchEngine.intersect A B) = true /\
  strictly_ascending (SearchEngine.union_lists A B) = true /\
  strictly_ascending (SearchEngine.difference A B) = true.
Proof.
  rewrite !strictly_ascending_sorted. intros HA HB.
  split; [|split; [|split; [|split; [|split]]]].
  - apply intersect_spec; assumption.
  - apply union_spec.
  - apply difference_spec; assumption.
  - apply intersect_sorted; assumption.
  - apply union_sorted; assumption.
  - apply difference_sorted; assumption.
Qed.

Lemma set_operations_correct_witness :
  SearchEngine.intersect [1; 3; 5; 7] [3; 4; 7; 9] = [3; 7] /\
  SearchEngine.union_lists [1; 3; 5; 7] [3; 4; 7; 9] = [1; 3; 4; 5; 7; 9] /\
  SearchEngine.difference [1; 3; 5; 7] [3; 4; 7; 9] = [1; 5] /\
  strictly_ascending (SearchEngine.union_lists [1; 3; 5; 7] [3; 4; 7; 9]) = true.
Proof.
  split; [reflexivity|]. split; [reflexivity|]. split; [reflexivity|].
  apply (set_operations_correct [1; 3; 5; 7] [3; 4; 7; 9]); reflexivity.
Defined.

(** * The RPN evaluator *)

Section Evaluator.

Import SearchEngine.

Lemma eval_stack_snoc (e : t) (rpn : list string) (tok : string) :
  eval_stack e (rpn ++ [tok]) = eval_token e (eval_stack e rpn) tok.
Proof. unfold eval_stack. rewrite foldl_snoc. reflexivity. Qed.

Lemma document_ids_from_spec (urls : list string) (i : nat) (d : Z) :
  d ∈ document_ids_from i urls <->
  exists k url, d = Z.of_nat (i + k) /\ urls !! k = Some url /\ url <> EmptyString.
Proof.
  revert i. induction urls as [|u urls IH]; intros i; cbn [document_ids_from].
  - rewrite elem_of_nil. split; [tauto|]. intros (k & url & _ & H & _).
    rewrite lookup_nil in H. discriminate.
  - assert (Hshift : (exists k url, d = Z.of_nat (S i + k) /\ urls !! k = Some url
                       /\ url <> EmptyString) <->
                     (exists k url, d = Z.of_nat (i + S k) /\ (u :: urls) !! S k = Some url
                       /\ url <> EmptyString)).
    { split; intros (k & url & Hd & Hk & Hu); exists k, url;
        (split; [lia|split; assumption]). }
    destruct u as [|c u']; cbn [Str.empty negb].
    + rewrite IH, Hshift. split.
      * intros (k & url & H). exists (S k), url. exact H.
      * intros (k & url & Hd & Hk & Hu). destruct k as [|k].
        -- cbn in Hk. congruence.
        -- exists k, url. tauto.
    + rewrite elem_of_cons, IH, Hshift. split.
      * intros [->|(k & url & H)].
        -- exists O, (String c u'). split; [f_equal; lia|]. split; [reflexivity|discriminate].
        -- exists (S k), url. exact H.
      * intros (k & url & Hd & Hk & Hu). destruct k as [|k].
        -- left. subst d. f_equal. lia.
        -- right. exists k, url. tauto.
Qed.

Lemma document_ids_from_sorted (urls : list string) (i : nat) :
  StronglySorted Z.lt (document_ids_from i urls).
Proof.
  revert i. induction urls as [|u urls IH]; intros i; cbn [document_ids_from].
  - constructor.
  - destruct (negb (Str.empty u)); [|apply IH].
    apply sorted_cons_intro; [apply IH|].
    intros y Hy. apply document_ids_from_spec in Hy as (k & _ & -> & _). lia.
Qed.

Lemma all_document_ids_spec (e : t) (d : Z) :
  d ∈ all_document_ids e <-> non_hole e d.
Proof.
  unfold all_document_ids, non_hole. rewrite document_ids_from_spec. split.
  - intros (k & url & -> & Hk & Hu). split; [lia|].
    exists url. rewrite Nat.add_0_l, Nat2Z.id. tauto.
  - intros (Hd & url & Hk & Hu). exists (Z.to_nat d), url.
    split; [lia|tauto].
Qed.

End Evaluator.

(** The result of [eval_rpn] is the top of the final stack, or the empty
    list when that stack is empty; and an [and] or [or] met with fewer than
    two lists on the stack leaves the stack as it is. *)
Lemma eval_rpn_total (e : SearchEngine.t) (rpn : list string) :
  (exists docs,
      SearchEngine.eval_rpn e rpn = docs /\
      docs = match SearchEngine.eval_stack e rpn with
             | [] => []
             | top :: _ => top
             end) /\
  (forall tok,
      tok = "and" \/ tok = "or" ->
      (length (SearchEngine.eval_stack e rpn) < 2)%nat ->
      SearchEngine.eval_stack e (rpn ++ [tok]) = SearchEngine.eval_stack e rpn /\
      SearchEngine.eval_rpn e (rpn ++ [tok]) = SearchEngine.eval_rpn e rpn).
Proof.
  split.
  - eexists. split; reflexivity.
  - intros tok Htok Hlen.
    assert (Hstack : SearchEngine.eval_stack e (rpn ++ [tok])
                     = SearchEngine.eval_stack e rpn).
    { rewrite eval_stack_snoc.
      destruct (SearchEngine.eval_stack e rpn) as [|a [|b s]];
        [| |cbn in Hlen; lia];
        destruct Htok as [-> | ->]; reflexivity. }
    split; [exact Hstack|].
    unfold SearchEngine.eval_rpn. rewrite Hstack. reflexivity.
Qed.

(** C6 fails on an operand.  [eval_rpn] hands every operand to
    [PorterStemmer::stem], and [step4] opens with the read [word_[k_ - 1]]
    without the guard [k_ == 0] that [step2] has.  For the token sequence
    ["ied"] (the query [ied]) the stemmer reaches [step4] with [k_ = 0], so
    the read is at index -1, before the string; "ies", "aed" and "oing" do
    the same. *)
Theorem eval_rpn_reads_outside_the_word (e : SearchEngine.t) :
  SearchEngine.to_rpn (SearchEngine.query_tokens_of "ied") = ["ied"] /\
  SearchEngine.eval_rpn e ["ied"]
  = SearchEngine.posting_doc_ids e (PorterStemmer.stem "ied") /\
  PorterStemmer.stem "ied"
  = (let st := PorterStemmer.step5 (PorterStemmer.step4 (before_step4 "ied")) in
     Str.substr (PorterStemmer.word_ st) 0 (PorterStemmer.k_ st + 1)) /\
  PorterStemmer.k_ (before_step4 "ied") = 0 /\
  step4_read_in_string (before_step4 "ied") = false /\
  forallb (fun word => negb (step4_read_in_string (before_step4 word)))
          ["ied"; "ies"; "aed"; "oing"] = true.
Proof.
  split; [vm_compute; reflexivity|].
  split; [reflexivity|]. split; [reflexivity|]. split; [reflexivity|].
  split; vm_compute; reflexivity.
Qed.

(** C5, as the code has it.  When [not] is applied with exactly one list
    [R] on the stack, and [R] is strictly ascending, the stack becomes the
    single list of the doc_ids whose slot has a URL that is not empty and
    that are not in [R], strictly ascending; it is the result when [not] is
    the last token. *)
Theorem pure_not_semantics (e : SearchEngine.t) (rpn : list string) (R : list Z) :
  SearchEngine.eval_stack e rpn = [R] ->
  strictly_ascending R = true ->
  exists L,
    SearchEngine.eval_stack e (rpn ++ ["not"]) = [L] /\
    SearchEngine.eval_rpn e (rpn ++ ["not"]) = L /\
    strictly_ascending L = true /\
    forall d, d ∈ L <-> non_hole e d /\ d ∉ R.
Proof.
  intros Hstack HR.
  exists (SearchEngine.difference (SearchEngine.all_document_ids e) R).
  assert (Hnot : SearchEngine.eval_stack e (rpn ++ ["not"])
                 = [SearchEngine.difference (SearchEngine.all_document_ids e) R]).
  { rewrite eval_stack_snoc, Hstack. reflexivity. }
  assert (Hall : StronglySorted Z.lt (SearchEngine.all_document_ids e))
    by apply document_ids_from_sorted.
  apply strictly_ascending_sorted in HR.
  split; [exact Hnot|]. split; [|split].
  - unfold SearchEngine.eval_rpn. rewrite Hnot. reflexivity.
  - apply strictly_ascending_sorted, difference_sorted; assumption.
  - intros d. rewrite difference_spec by assumption.
    rewrite all_document_ids_spec. reflexivity.
Qed.

Lemma pure_not_semantics_witness :
  SearchEngine.eval_stack sample_engine ["vault"] = [[0; 2]] /\
  exists L,
    SearchEngine.eval_stack sample_engine (["vault"] ++ ["not"]) = [L] /\
    SearchEngine.eval_rpn sample_engine (["vault"] ++ ["not"]) = L /\
    strictly_ascending L = true /\
    forall d, d ∈ L <-> non_hole sample_engine d /\ d ∉ [0; 2].
Proof.
  split; [vm_compute; reflexivity|].
  apply (pure_not_semantics sample_engine ["vault"] [0; 2]).
  - vm_compute. reflexivity.
  - reflexivity.
Defined.

(** C5 as stated fails in two places, on indexes that [add_document],
    [save_index] and [load_index] produce.  After documents 1 and 0 are
    added in this order, the posting list of "vault" is [[1; 0]], and [not]
    leaves document 0 in its result although 0 is in the list; and a
    document recorded with an empty URL (document 1 here, which the query
    [vault] finds) is missing from the result of [not] over a list that does
    not hold it. *)
Lemma pure_not_counterexample :
  (exists e,
      loaded_index out_of_order = Some e /\
      SearchEngine.eval_stack e ["vault"] = [[1; 0]] /\
      SearchEngine.eval_rpn e (["vault"] ++ ["not"]) = [0] /\
      ~ pure_not_as_stated out_of_order e ["vault"]) /\
  (exists e,
      loaded_index unlisted_url = Some e /\
      SearchEngine.eval_rpn e ["vault"] = [1] /\
      SearchEngine.eval_stack e ["raider"] = [[0]] /\
      SearchEngine.eval_rpn e (["raider"] ++ ["not"]) = [] /\
      ~ pure_not_as_stated unlisted_url e ["raider"]).
Proof.
  split.
  - eexists. split; [vm_compute; reflexivity|].
    split; [vm_compute; reflexivity|]. split; [vm_compute; reflexivity|].
    intros Hclaim. destruct (Hclaim [1; 0]) as (L & HL & _ & Hmem);
      [vm_compute; reflexivity|].
    vm_compute in HL. injection HL as <-.
    destruct (Hmem 0) as [Hin _].
    destruct Hin as [_ Hout]; [apply list_elem_of_In; cbn; tauto|].
    apply Hout. apply list_elem_of_In. cbn. tauto.
  - eexists. split; [vm_compute; reflexivity|].
    split; [vm_compute; reflexivity|]. split; [vm_compute; reflexivity|].
    split; [vm_compute; reflexivity|].
    intros Hclaim. destruct (Hclaim [0]) as (L & HL & _ & Hmem);
      [vm_compute; reflexivity|].
    vm_compute in HL. injection HL as <-.
    destruct (Hmem 1) as [_ Hin].
    assert (Hone : 1 ∈ ([] : list Z)).
    { apply Hin. split.
      - unfold recorded. apply list_elem_of_In. cbn. tauto.
      - intros Hzero. apply list_elem_of_In in Hzero. cbn in Hzero.
        destruct Hzero as [Hzero | []]. discriminate. }
    apply elem_of_nil in Hone. exact Hone.
Qed.

(** The query [NOT vault] of the specification's scenario 5. *)
Example pure_not_query :
  SearchEngine.to_rpn (SearchEngine.query_tokens_of "NOT vault") = ["vault"; "not"] /\
  SearchEngine.eval_rpn sample_engine ["vault"; "not"] = [1].
Proof. split; vm_compute; reflexivity. Qed.

(** * The two analysis paths: indexing and querying *)

Section Analyzer.

Import Tokenizer SearchEngine.

Lemma plain_word_inv (w : string) :
  plain_word w = true ->
  Str.all Chars.isalpha w = true /\ (2 <= String.length w)%nat /\
  is_stop_word (to_lower w) = false.
Proof.
  unfold plain_word. intros H.
  apply andb_prop in H as [H Hstop]. apply andb_prop in H as [Halpha Hlen].
  apply Nat.leb_le in Hlen. apply negb_true_iff in Hstop. tauto.
Qed.

Lemma plain_word_nonempty (w : string) : plain_word w = true -> Str.empty w = false.
Proof.
  intros H. apply plain_word_inv in H as (_ & Hlen & _).
  destruct w; [cbn in Hlen; lia|reflexivity].
Qed.

Lemma lower_all_lower (w : string) :
  Str.all Chars.isalpha w = true -> Str.all Chars.is_lower (to_lower w) = true.
Proof.
  intros H. unfold to_lower. rewrite str_all_map.
  eapply str_all_impl; [|exact H]. apply isalpha_tolower.
Qed.

(** ** Indexing side *)

Lemma tokenize_loop_alpha (w rest cur : string) (toks : list string) :
  Str.all Chars.isalpha w = true ->
  tokenize_loop (w ++ rest) cur toks = tokenize_loop rest (cur ++ w) toks.
Proof.
  revert cur. induction w as [|c w IH]; intros cur H.
  - rewrite str_app_nil_l, str_app_nil_r. reflexivity.
  - cbn in H. apply andb_prop in H as [Hc Hw].
    rewrite str_app_cons. cbn [tokenize_loop]. unfold is_alpha. rewrite Hc. cbn [orb].
    rewrite (IH _ Hw), str_push_app. reflexivity.
Qed.

Lemma flush_plain (w : string) (toks : list string) :
  plain_word w = true -> flush w toks = toks ++ [to_lower w].
Proof.
  intros H. apply plain_word_inv in H as (_ & Hlen & Hstop).
  unfold flush. rewrite Hstop. unfold to_lower. rewrite str_length_map.
  destruct (Nat.leb_spec 2 (String.length w)); [reflexivity|lia].
Qed.

Lemma tokenize_loop_sentence (ws : list string) (toks : list string) :
  forallb plain_word ws = true ->
  tokenize_loop (sentence ws) EmptyString toks = toks ++ map to_lower ws.
Proof.
  revert toks. induction ws as [|w ws IH]; intros toks H.
  - cbn. rewrite app_nil_r. reflexivity.
  - cbn [forallb] in H. apply andb_prop in H as [Hw Hws].
    pose proof (plain_word_inv _ Hw) as (Halpha & _ & _).
    pose proof (plain_word_nonempty _ Hw) as Hne.
    destruct ws as [|w' ws'].
    + cbn [sentence map]. rewrite <- (str_app_nil_r w) at 1.
      rewrite tokenize_loop_alpha by exact Halpha. rewrite str_app_nil_l.
      cbn [tokenize_loop]. rewrite Hne. cbn [negb]. apply flush_plain. exact Hw.
    + change (sentence (w :: w' :: ws'))
        with (w ++ String " " (sentence (w' :: ws')))%string.
      rewrite tokenize_loop_alpha by exact Halpha. rewrite str_app_nil_l.
      cbn [tokenize_loop]. change (is_alpha " ") with false.
      change (Ascii.eqb " " Chars.apostrophe) with false. cbn [orb andb].
      rewrite Hne. cbn [negb]. rewrite (IH _ Hws), flush_plain by exact Hw.
      rewrite <- app_assoc. reflexivity.
Qed.

Lemma index_stems_sentence (ws : list string) :
  forallb plain_word ws = true ->
  index_stems (sentence ws) = map (fun w => PorterStemmer.stem (to_lower w)) ws.
Proof.
  intros H. unfold index_stems, tokenize.
  rewrite tokenize_loop_sentence by exact H. rewrite app_nil_l, map_map. reflexivity.
Qed.

(** ** Query side *)

Lemma prepare_query_no_paren (s : string) :
  Str.all no_paren s = true -> prepare_query s = s.
Proof.
  induction s as [|c s IH]; cbn; [reflexivity|]. intros H.
  apply andb_prop in H as [Hc Hs]. unfold no_paren in Hc.
  apply negb_true_iff in Hc. rewrite Hc, (IH Hs). reflexivity.
Qed.

Lemma alpha_no_paren (w : string) :
  Str.all Chars.isalpha w = true -> Str.all no_paren w = true.
Proof.
  apply str_all_impl. intros c Hc. apply isalpha_facts in Hc as (_ & H1 & H2).
  unfold no_paren. rewrite H1, H2. reflexivity.
Qed.

Lemma sentence_no_paren (ws : list string) :
  forallb plain_word ws = true -> Str.all no_paren (sentence ws) = true.
Proof.
  induction ws as [|w ws IH]; intros H; [reflexivity|].
  cbn [forallb] in H. apply andb_prop in H as [Hw Hws].
  pose proof (plain_word_inv _ Hw) as (Halpha & _ & _).
  destruct ws as [|w' ws'].
  - cbn [sentence]. apply alpha_no_paren. exact Halpha.
  - change (sentence (w :: w' :: ws'))
      with (w ++ String " " (sentence (w' :: ws')))%string.
    rewrite str_all_app, (alpha_no_paren _ Halpha). cbn [andb Str.all].
    rewrite (IH Hws). reflexivity.
Qed.

Lemma words_loop_alpha (w rest cur : string) (toks : list string) :
  Str.all Chars.isalpha w = true ->
  words_loop (w ++ rest) cur toks = words_loop rest (cur ++ w) toks.
Proof.
  revert cur. induction w as [|c w IH]; intros cur H.
  - rewrite str_app_nil_l, str_app_nil_r. reflexivity.
  - cbn in H. apply andb_prop in H as [Hc Hw].
    rewrite str_app_cons. cbn [words_loop].
    apply isalpha_facts in Hc as (Hsp & _). rewrite Hsp.
    rewrite (IH _ Hw), str_push_app. reflexivity.
Qed.

Lemma words_loop_sentence (ws : list string) (toks : list string) :
  forallb plain_word ws = true ->
  words_loop (sentence ws) EmptyString toks = toks ++ ws.
Proof.
  revert toks. induction ws as [|w ws IH]; intros toks H.
  - cbn. rewrite app_nil_r. reflexivity.
  - cbn [forallb] in H. apply andb_prop in H as [Hw Hws].
    pose proof (plain_word_inv _ Hw) as (Halpha & _ & _).
    pose proof (plain_word_nonempty _ Hw) as Hne.
    destruct ws as [|w' ws'].
    + cbn [sentence]. rewrite <- (str_app_nil_r w) at 1.
      rewrite words_loop_alpha by exact Halpha. rewrite str_app_nil_l.
      cbn [words_loop]. rewrite Hne. reflexivity.
    + change (sentence (w :: w' :: ws'))
        with (w ++ String " " (sentence (w' :: ws')))%string.
      rewrite words_loop_alpha by exact Halpha. rewrite str_app_nil_l.
      cbn [words_loop]. change (Chars.isspace " ") with true. cbv iota.
      rewrite Hne, (IH _ Hws), <- app_assoc. reflexivity.
Qed.

Lemma lower_char_kept (lowered : string) (i : Z) :
  Str.all Chars.is_lower lowered = true -> 0 <= i < Str.size lowered ->
  trimmed (Str.at_ lowered i) = false.
Proof.
  intros Hall Hi. pose proof (str_all_at _ _ _ Hall Hi) as Hc.
  apply is_lower_facts in Hc as (_ & Hnum & _).
  unfold trimmed. rewrite Hnum. reflexivity.
Qed.

Lemma normalize_plain (w : string) :
  plain_word w = true -> normalize_query_token w = to_lower w.
Proof.
  intros Hw. pose proof (plain_word_inv _ Hw) as (Halpha & Hlen & _).
  pose proof (lower_all_lower _ Halpha) as Hlow.
  unfold normalize_query_token.
  assert (Hopen : String.eqb w "(" = false).
  { apply String.eqb_neq. intros ->. cbn in Hlen. lia. }
  assert (Hclose : String.eqb w ")" = false).
  { apply String.eqb_neq. intros ->. cbn in Hlen. lia. }
  rewrite Hopen, Hclose. cbn [orb].
  change (to_lower_ascii w) with (to_lower w). set (lowered := to_lower w) in *.
  assert (Hsize : Str.size lowered = Z.of_nat (String.length w)).
  { unfold Str.size, lowered, to_lower. rewrite str_length_map. reflexivity. }
  assert (Hlen' : String.length lowered = String.length w).
  { unfold lowered, to_lower. apply str_length_map. }
  destruct (Str.empty lowered) eqn:He.
  { apply str_empty_iff in He. rewrite He in Hlen'. cbn in Hlen'. lia. }
  rewrite Hlen'. destruct (String.length w) as [|n] eqn:Hn; [lia|].
  cbn [trim_left].
  rewrite (lower_char_kept lowered 0 Hlow) by lia.
  rewrite andb_false_r. cbn [trim_right].
  rewrite (lower_char_kept lowered (Str.size lowered - 1) Hlow) by lia.
  rewrite andb_false_r.
  destruct (Z.leb_spec (Str.size lowered) 0); [lia|].
  unfold Str.substr. rewrite Z.sub_0_r. unfold Str.size. rewrite Nat2Z.id.
  change (Z.to_nat 0) with O. apply str_substring_all.
Qed.

Lemma stop_word_operator (token : string) :
  is_operator_token token = true -> is_stop_word token = true.
Proof.
  unfold is_operator_token. intros H.
  apply orb_prop in H as [H|H]; [apply orb_prop in H as [H|H]|];
    apply String.eqb_eq in H; subst token; reflexivity.
Qed.

Lemma lower_plain_is_term (w : string) :
  plain_word w = true -> is_term_token (to_lower w) = true.
Proof.
  intros Hw. pose proof (plain_word_inv _ Hw) as (Halpha & Hlen & Hstop).
  unfold is_term_token.
  assert (Hlen' : String.length (to_lower w) = String.length w)
    by apply str_length_map.
  assert (He : Str.empty (to_lower w) = false).
  { apply str_empty_false_iff. intros E. rewrite E in Hlen'. cbn in Hlen'. lia. }
  assert (Hop : is_operator_token (to_lower w) = false).
  { destruct (is_operator_token (to_lower w)) eqn:E; [|reflexivity].
    apply stop_word_operator in E. congruence. }
  assert (Hopen : String.eqb (to_lower w) "(" = false).
  { apply String.eqb_neq. intros E. rewrite E in Hlen'. cbn in Hlen'. lia. }
  assert (Hclose : String.eqb (to_lower w) ")" = false).
  { apply String.eqb_neq. intros E. rewrite E in Hlen'. cbn in Hlen'. lia. }
  rewrite He, Hop, Hopen, Hclose. reflexivity.
Qed.

Lemma query_tokens_sentence (ws : list string) :
  forallb plain_word ws = true ->
  query_tokens_of (sentence ws) = map to_lower ws.
Proof.
  intros H. unfold query_tokens_of, words.
  rewrite prepare_query_no_paren by (apply sentence_no_paren; exact H).
  rewrite words_loop_sentence by exact H. rewrite app_nil_l.
  induction ws as [|w ws IH]; [reflexivity|].
  cbn [forallb] in H. apply andb_prop in H as [Hw Hws].
  cbn [map]. rewrite normalize_plain by exact Hw.
  pose proof (lower_plain_is_term _ Hw) as Hterm.
  unfold is_term_token in Hterm. apply negb_true_iff in Hterm.
  apply orb_false_elim in Hterm as [Hterm _].
  apply orb_false_elim in Hterm as [Hterm _].
  apply orb_false_elim in Hterm as [Hterm _].
  rewrite filter_cons_True by (rewrite Hterm; reflexivity).
  rewrite (IH Hws). reflexivity.
Qed.

Lemma query_stems_sentence (ws : list string) :
  forallb plain_word ws = true ->
  query_stems (sentence ws) = map (fun w => PorterStemmer.stem (to_lower w)) ws.
Proof.
  intros H. unfold query_stems. rewrite query_tokens_sentence by exact H.
  rewrite <- (map_map to_lower PorterStemmer.stem). f_equal.
  induction ws as [|w ws IH]; [reflexivity|].
  cbn [forallb] in H. apply andb_prop in H as [Hw Hws].
  cbn [map]. rewrite filter_cons_True by (apply lower_plain_is_term; exact Hw).
  rewrite (IH Hws). reflexivity.
Qed.

End Analyzer.

(** Where the two paths agree.  For a text made of plain words (ASCII letters
    only, two letters or more, not a stop word) separated by single spaces,
    the indexing path and the query path hand the same lower-cased words to
    the same stemmer, and so produce the same stems. *)
Theorem analyzer_parity_plain_words (ws : list string) :
  forallb plain_word ws = true ->
  index_stems (sentence ws) = query_stems (sentence ws) /\
  index_stems (sentence ws)
  = map (fun w => PorterStemmer.stem (Tokenizer.to_lower w)) ws.
Proof.
  intros H. rewrite index_stems_sentence, query_stems_sentence by exact H.
  split; reflexivity.
Qed.

Lemma analyzer_parity_plain_words_witness :
  index_stems "Vault dweller RUNNING" = query_stems "Vault dweller RUNNING" /\
  index_stems "Vault dweller RUNNING" = ["vault"; "dweller"; "run"].
Proof.
  exact (analyzer_parity_plain_words ["Vault"; "dweller"; "RUNNING"] eq_refl).
Defined.

(** C1 fails where a word holds a character that is neither a letter nor
    white space.  The indexing path splits "pip-boy" into two tokens and
    indexes their stems; the query path keeps it as one token and looks up
    the stem of the whole.  So for the index of a document that contains the
    word, the query [pip] finds the document and the query [pip-boy] (the
    operand of the example query the program prints) finds nothing. *)
Theorem query_misses_indexed_word :
  index_stems "pip-boy" = ["pip"; "boi"] /\
  query_stems "pip-boy" = ["pip-boi"] /\
  index_stems "pip-boy" <> query_stems "pip-boy" /\
  exists e,
    loaded_index corpus = Some e /\
    candidates e "pip" = [0] /\
    candidates e "pip-boy" = [] /\
    SearchEngine.search sample_log e "pip-boy" = ([], 0%nat).
Proof.
  split; [vm_compute; reflexivity|]. split; [vm_compute; reflexivity|].
  split; [vm_compute; discriminate|].
  eexists. split; [vm_compute; reflexivity|].
  split; [vm_compute; reflexivity|]. split; vm_compute; reflexivity.
Qed.

(** The query path keeps stop words and one-letter words, the indexing path
    drops them. *)
Example analyzer_stop_word :
  index_stems "the" = [] /\ query_stems "the" = ["the"].
Proof. split; vm_compute; reflexivity. Qed.

(** * The index builder *)

Section Builder.

Import IndexBuilder.

(** What the loop over [term_freqs] leaves under each stem. *)
Lemma append_postings_lookup (d : Z) (index : gmap string (list Posting))
    (term_freqs : gmap string Z) (stem : string) :
  map_fold (append_posting d) index term_freqs !! stem =
  match term_freqs !! stem with
  | Some n => Some (default [] (index !! stem) ++ [mkPosting d n])
  | None => index !! stem
  end.
Proof.
  revert stem.
  apply (map_fold_weak_ind
           (fun r m => forall stem,
                r !! stem = match m !! stem with
                            | Some n => Some (default [] (index !! stem) ++ [mkPosting d n])
                            | None => index !! stem
                            end)).
  - intros stem. rewrite lookup_empty. reflexivity.
  - intros i x m r Hi IH stem. unfold append_posting.
    destruct (decide (i = stem)) as [->|Hne].
    + rewrite !lookup_insert_eq. rewrite IH, Hi. reflexivity.
    + rewrite !lookup_insert_ne by exact Hne. apply IH.
Qed.

Lemma count_stem_positive (term_freqs : gmap string Z) (token : string) :
  map_Forall (fun _ n => 1 <= n) term_freqs ->
  map_Forall (fun _ n => 1 <= n) (count_stem term_freqs token).
Proof.
  intros H. unfold count_stem.
  destruct (Str.empty (PorterStemmer.stem token)); [exact H|].
  destruct (term_freqs !! PorterStemmer.stem token) as [n|] eqn:E.
  - apply map_Forall_insert_2; [|exact H]. specialize (H _ _ E). cbn in H. lia.
  - apply map_Forall_insert_2; [lia|exact H].
Qed.

Lemma term_freqs_positive (tokens : list string) :
  map_Forall (fun _ n => 1 <= n) (term_freqs_of tokens).
Proof.
  unfold term_freqs_of.
  assert (G : forall m, map_Forall (fun _ n => 1 <= n) m ->
                        map_Forall (fun _ n => 1 <= n) (foldl count_stem m tokens)).
  { induction tokens as [|tok tokens IH]; intros m Hm; [exact Hm|].
    cbn [foldl]. apply IH, count_stem_positive, Hm. }
  apply G, map_Forall_empty.
Qed.

Lemma sorted_snoc (l : list Z) (x : Z) :
  StronglySorted Z.lt l -> Forall (fun y => y < x) l -> StronglySorted Z.lt (l ++ [x]).
Proof.
  induction l as [|y l IH]; intros Hs Hall; cbn.
  - repeat constructor.
  - apply StronglySorted_inv in Hs as [Hs Hy].
    apply Forall_cons in Hall as [Hyx Hall].
    constructor; [apply IH; assumption|].
    apply Forall_app. split; [exact Hy|]. constructor; [exact Hyx|constructor].
Qed.

Lemma add_document_index (b b' : t) (d : Z) (url title text : string) :
  add_document b d url title text = Some b' ->
  0 <= d /\
  inverted_index_ b' =
  map_fold (append_posting d) (inverted_index_ b)
           (term_freqs_of (Tokenizer.tokenize text)).
Proof.
  unfold add_document. destruct (Z.ltb_spec d 0); [discriminate|].
  intros [= <-]. split; [assumption|reflexivity].
Qed.

Lemma add_document_positive (b b' : t) (d : Z) (url title text : string) :
  add_document b d url title text = Some b' ->
  postings_positive (inverted_index_ b) -> postings_positive (inverted_index_ b').
Proof.
  intros Hadd Hpos. apply add_document_index in Hadd as [_ ->].
  intros term pl. rewrite append_postings_lookup.
  destruct (term_freqs_of (Tokenizer.tokenize text) !! term) as [n|] eqn:E.
  - intros [= <-]. apply Forall_app. split.
    + destruct (inverted_index_ b !! term) as [old|] eqn:E'; cbn; [|constructor].
      eapply Hpos. exact E'.
    + constructor; [|constructor]. cbn.
      exact (term_freqs_positive _ _ _ E).
  - apply Hpos.
Qed.

Lemma add_document_below (b b' : t) (d bound : Z) (url title text : string) :
  add_document b d url title text = Some b' ->
  bound <= d ->
  postings_below bound (inverted_index_ b) ->
  postings_below (d + 1) (inverted_index_ b').
Proof.
  intros Hadd Hbound Hinv. apply add_document_index in Hadd as [_ ->].
  intros term pl. rewrite append_postings_lookup.
  assert (Hweaken : forall old, Forall (fun p => doc_id p < bound) old ->
                                Forall (fun p => doc_id p < d + 1) old).
  { intros old Hold. eapply Forall_impl; [exact Hold|]. intros p Hp. cbn in Hp. lia. }
  destruct (term_freqs_of (Tokenizer.tokenize text) !! term) as [n|] eqn:E.
  - intros [= <-].
    destruct (inverted_index_ b !! term) as [old|] eqn:E'; cbn [default].
    + destruct (Hinv _ _ E') as [Hs Hb]. split.
      * rewrite map_app. cbn [map doc_id]. apply sorted_snoc; [exact Hs|].
        apply Forall_map. eapply Forall_impl; [exact Hb|]. intros p Hp. cbn in *. lia.
      * apply Forall_app. split; [auto|]. constructor; [cbn; lia|constructor].
    + split.
      * cbn. repeat constructor.
      * constructor; [cbn; lia|constructor].
  - intros Hold. destruct (Hinv _ _ Hold) as [Hs Hb]. split; auto.
Qed.

Lemma add_documents_positive (docs : list Document) (b b' : t) :
  add_documents b docs = Some b' ->
  postings_positive (inverted_index_ b) -> postings_positive (inverted_index_ b').
Proof.
  revert b. induction docs as [|doc docs IH]; intros b Hadd Hpos; cbn in Hadd.
  - injection Hadd as <-. exact Hpos.
  - destruct (add_document b _ _ _ _) as [b1|] eqn:E; [|discriminate].
    eapply IH; [exact Hadd|]. eapply add_document_positive; eassumption.
Qed.

Lemma add_documents_below (docs : list Document) (b b' : t) (bound : Z) :
  add_documents b docs = Some b' ->
  StronglySorted Z.lt (map document_id docs) ->
  Forall (fun doc => bound <= document_id doc) docs ->
  postings_below bound (inverted_index_ b) ->
  exists bound', postings_below bound' (inverted_index_ b').
Proof.
  revert b bound. induction docs as [|doc docs IH]; intros b bound Hadd Hs Hge Hinv;
    cbn in Hadd.
  - exists bound. injection Hadd as <-. exact Hinv.
  - destruct (add_document b _ _ _ _) as [b1|] eqn:E; [|discriminate].
    cbn [map] in Hs. apply StronglySorted_inv in Hs as [Hs Hhead].
    apply Forall_cons in Hge as [Hd Hge].
    eapply (IH b1 (document_id doc + 1)); [exact Hadd|exact Hs| |].
    + apply Forall_forall. intros doc' Hin.
      rewrite Forall_forall in Hhead.
      assert (document_id doc < document_id doc'); [|lia].
      apply Hhead. apply list_elem_of_fmap. exists doc'. split; [reflexivity|exact Hin].
    + eapply add_document_below; eassumption.
Qed.

Lemma new_postings_below (bound : Z) : postings_below bound (inverted_index_ new).
Proof. intros term pl. cbn. rewrite lookup_empty. discriminate. Qed.

Lemma new_postings_positive : postings_positive (inverted_index_ new).
Proof. intros term pl. cbn. rewrite lookup_empty. discriminate. Qed.

Lemma saved_entries_lookup (b : t) (term : string) (posting_list : list Posting) :
  (term, posting_list) ∈ saved_entries b <->
  inverted_index_ b !! term = Some posting_list.
Proof. unfold saved_entries. apply elem_of_map_to_list. Qed.

End Builder.

(** C2, as the code has it.  [save_index] writes every posting list in the
    order in which [add_document] appended to it.  Every saved [tf] is at
    least 1 whatever the order of the calls; a saved posting list is strictly
    ascending by doc_id when the calls came with strictly increasing
    doc_ids. *)
Theorem saved_postings_invariant (docs : list Document) (b : IndexBuilder.t) :
  add_documents IndexBuilder.new docs = Some b ->
  forall term posting_list,
    (term, posting_list) ∈ IndexBuilder.saved_entries b ->
    positive_tfs posting_list = true /\
    (increasing_ids docs = true -> ascending_postings posting_list = true).
Proof.
  intros Hadd term pl Hin. apply saved_entries_lookup in Hin. split.
  - pose proof (add_documents_positive _ _ _ Hadd new_postings_positive _ _ Hin) as H.
    unfold positive_tfs. apply forallb_forall. intros p Hp.
    rewrite Forall_forall in H. apply Z.leb_le, H, list_elem_of_In, Hp.
  - unfold increasing_ids, ascending_postings. intros Hinc.
    apply andb_prop in Hinc as [Hs Hge].
    apply strictly_ascending_sorted in Hs.
    assert (Hge' : Forall (fun doc => 0 <= document_id doc) docs).
    { apply Forall_forall. intros doc Hdoc.
      rewrite forallb_forall in Hge. apply Z.leb_le, Hge, list_elem_of_In, Hdoc. }
    destruct (add_documents_below docs _ _ 0 Hadd Hs Hge' (new_postings_below 0))
      as [bound Hinv].
    apply strictly_ascending_sorted. apply (Hinv _ _ Hin).
Qed.

Lemma saved_postings_invariant_witness :
  positive_tfs [mkPosting 0 2; mkPosting 2 2] = true /\
  (increasing_ids corpus = true ->
   ascending_postings [mkPosting 0 2; mkPosting 2 2] = true).
Proof.
  apply (saved_postings_invariant corpus corpus_builder) with (term := "vault").
  - vm_compute. reflexivity.
  - apply saved_entries_lookup. vm_compute. reflexivity.
Defined.

(** C2 as stated fails: [save_index] does not sort.  Two documents that
    share a word, added with doc_ids 1 then 0, are saved with the posting
    list [(1,1); (0,1)]. *)
Lemma saved_postings_counterexample :
  exists b,
    add_documents IndexBuilder.new out_of_order = Some b /\
    IndexBuilder.saved_entries b = [("vault", [mkPosting 1 1; mkPosting 0 1])] /\
    IndexBuilder.index_bin_of b = [2; 1; 1; 0; 1] /\
    ascending_postings [mkPosting 1 1; mkPosting 0 1] = false.
Proof.
  eexists. split; [vm_compute; reflexivity|].
  split; [vm_compute; reflexivity|].
  split; vm_compute; reflexivity.
Qed.

(** The same doc_id added twice leaves two postings for it. *)
Example saved_postings_repeated_id :
  exists b,
    add_documents IndexBuilder.new
      [mkDocument 0 "u0" "Zero" "vault"; mkDocument 0 "u0" "Zero" "vault"] = Some b /\
    IndexBuilder.saved_entries b = [("vault", [mkPosting 0 1; mkPosting 0 1])].
Proof. eexists. split; vm_compute; reflexivity. Qed.

(** * [build_from_jsonl] *)

(** C9: a line whose [doc_id] value is not a number is not skipped:
    [std::stoi] throws on it and the exception ends the build.  The line
    before it was added; the line after it is never read. *)
Theorem build_aborts_on_bad_doc_id :
  let good := json_record "7" "u7" "Seven" long_text in
  let bad := json_record "null" "u" "t" long_text in
  IndexBuilder.process_line bad = IndexBuilder.Throw /\
  exists b,
    IndexBuilder.build_from_jsonl IndexBuilder.new
      (good ++ end_of_line ++ bad ++ end_of_line ++ good ++ end_of_line)
    = IndexBuilder.Thrown b bad /\
    IndexBuilder.doc_urls_ b = [EmptyString; EmptyString; EmptyString; EmptyString; EmptyString; EmptyString; EmptyString; "u7"].
Proof.
  cbv zeta. split; [vm_compute; reflexivity|].
  eexists. split; vm_compute; reflexivity.
Qed.

(** A negative [doc_id] is not skipped either: [add_document] does not
    return. *)
Example build_aborts_on_negative_doc_id :
  let bad := json_record "-1" "u" "t" long_text in
  IndexBuilder.process_line bad = IndexBuilder.Add (-1) "u" "t" long_text /\
  IndexBuilder.build_from_jsonl IndexBuilder.new (bad ++ end_of_line)
  = IndexBuilder.Thrown IndexBuilder.new bad.
Proof. cbv zeta. split; vm_compute; reflexivity. Qed.

(** The three soft skips the loop does have. *)
Example build_skips :
  IndexBuilder.process_line "{not json}" = IndexBuilder.Skip /\
  IndexBuilder.process_line
    (json_record EmptyString "u" "t" long_text) = IndexBuilder.Skip /\
  IndexBuilder.process_line
    ("{" ++ json_string "url" ++ ": " ++ json_string "u" ++ ", "
         ++ json_string "text" ++ ": " ++ json_string long_text ++ "}")
  = IndexBuilder.Skip /\
  IndexBuilder.process_line
    (json_record "3" "u" "a title long enough to pass the line test" "too short")
  = IndexBuilder.Skip.
Proof. repeat split; vm_compute; reflexivity. Qed.

(** * The order of binary64 values *)

Section FloatOrder.

Lemma SFcompare_key (x y : spec_float) :
  SFcompare x y =
  match order_key x, order_key y with
  | Some a, Some b => Some (lex_compare a b)
  | _, _ => None
  end.
Proof.
  destruct x as [[]|[]| |[] m1 e1], y as [[]|[]| |[] m2 e2]; try reflexivity; cbn.
  rewrite Z.compare_opp, (Z.compare_antisym e1 e2).
  destruct (e1 ?= e2); reflexivity.
Qed.

Lemma lex_compare_lt (a b : Z * Z * Z) :
  lex_compare a b = Lt <->
  a.1.1 < b.1.1 \/
  (a.1.1 = b.1.1 /\ (a.1.2 < b.1.2 \/ (a.1.2 = b.1.2 /\ a.2 < b.2))).
Proof.
  destruct a as [[a1 a2] a3], b as [[b1 b2] b3]. cbn.
  destruct (Z.compare_spec a1 b1); [destruct (Z.compare_spec a2 b2)| |];
    rewrite ?Z.compare_lt_iff; split; intros; try discriminate; try lia.
  all: reflexivity.
Qed.

Lemma lex_compare_eq (a b : Z * Z * Z) : lex_compare a b = Eq <-> a = b.
Proof.
  destruct a as [[a1 a2] a3], b as [[b1 b2] b3]. cbn.
  destruct (Z.compare_spec a1 b1); [destruct (Z.compare_spec a2 b2)| |];
    rewrite ?Z.compare_eq_iff; split; intros H'; try discriminate;
    try (injection H' as -> -> ->); try lia; try congruence.
Qed.

Lemma float_ltb_key (x y : float) :
  (x <? y)%float = true <->
  exists a b, float_key x = Some a /\ float_key y = Some b /\ lex_compare a b = Lt.
Proof.
  rewrite FloatAxioms.ltb_spec. unfold SFltb, float_key. rewrite SFcompare_key.
  destruct (order_key (Prim2SF x)) as [a|], (order_key (Prim2SF y)) as [b|].
  - split.
    + intros H. exists a, b. destruct (lex_compare a b); try discriminate. auto.
    + intros (a' & b' & Ha & Hb & Hlt). injection Ha as ->. injection Hb as ->.
      rewrite Hlt. reflexivity.
  - split; [discriminate|]. intros (a' & b' & _ & H & _). discriminate.
  - split; [discriminate|]. intros (a' & b' & H & _). discriminate.
  - split; [discriminate|]. intros (a' & b' & H & _). discriminate.
Qed.

Lemma float_eqb_key (x y : float) :
  (x =? y)%float = true <->
  exists a, float_key x = Some a /\ float_key y = Some a.
Proof.
  rewrite FloatAxioms.eqb_spec. unfold SFeqb, float_key. rewrite SFcompare_key.
  destruct (order_key (Prim2SF x)) as [a|], (order_key (Prim2SF y)) as [b|].
  - split.
    + intros H. exists a. split; [reflexivity|]. f_equal. symmetry.
      apply lex_compare_eq. destruct (lex_compare a b); try discriminate. reflexivity.
    + intros (a' & Ha & Hb). injection Ha as ->. injection Hb as ->.
      rewrite (proj2 (lex_compare_eq _ _) eq_refl). reflexivity.
  - split; [discriminate|]. intros (a' & _ & H). discriminate.
  - split; [discriminate|]. intros (a' & H & _). discriminate.
  - split; [discriminate|]. intros (a' & H & _). discriminate.
Qed.

Ltac float_keys :=
  rewrite ?float_ltb_key, ?float_eqb_key in *;
  repeat match goal with
         | H : exists _, _ |- _ => destruct H
         | H : _ /\ _ |- _ => destruct H
         end;
  repeat match goal with
         | H : float_key ?x = Some ?a, H' : float_key ?x = Some ?b |- _ =>
             rewrite H in H'; injection H' as <-
         end.

Lemma float_ltb_trans (x y z : float) :
  (x <? y)%float = true -> (y <? z)%float = true -> (x <? z)%float = true.
Proof.
  intros H1 H2. float_keys. do 2 eexists.
  split; [eassumption|]. split; [eassumption|].
  rewrite lex_compare_lt in *. lia.
Qed.

Lemma float_ltb_irrefl (x : float) : (x <? x)%float = false.
Proof.
  destruct (x <? x)%float eqn:E; [|reflexivity]. float_keys.
  rewrite lex_compare_lt in *. lia.
Qed.

Lemma float_eqb_trans (x y z : float) :
  (x =? y)%float = true -> (y =? z)%float = true -> (x =? z)%float = true.
Proof.
  intros H1 H2. float_keys. eexists. split; eassumption.
Qed.

Lemma float_eqb_sym (x y : float) : (x =? y)%float = true -> (y =? x)%float = true.
Proof. intros H. float_keys. eexists. split; eassumption. Qed.

Lemma float_eqb_ltb_l (x y z : float) :
  (x =? y)%float = true -> (x <? z)%float = true -> (y <? z)%float = true.
Proof.
  intros H1 H2. float_keys. do 2 eexists.
  split; [eassumption|]. split; eassumption.
Qed.

Lemma float_eqb_ltb_r (x y z : float) :
  (x =? y)%float = true -> (z <? x)%float = true -> (z <? y)%float = true.
Proof.
  intros H1 H2. float_keys. do 2 eexists.
  split; [eassumption|]. split; eassumption.
Qed.

(** Two values that are not NaN compare one way or the other. *)
Lemma float_total (x y : float) :
  (x =? x)%float = true -> (y =? y)%float = true ->
  (x <? y)%float = true \/ (x =? y)%float = true \/ (y <? x)%float = true.
Proof.
  intros Hx Hy. apply float_eqb_key in Hx as (a & Ha & _).
  apply float_eqb_key in Hy as (b & Hb & _).
  rewrite !float_ltb_key, float_eqb_key.
  destruct (lex_compare a b) eqn:E.
  - right. left. apply lex_compare_eq in E. subst b. exists a. tauto.
  - left. exists a, b. tauto.
  - right. right. exists b, a. split; [assumption|]. split; [assumption|].
    destruct a as [[a1 a2] a3], b as [[b1 b2] b3]. cbn in *.
    rewrite (Z.compare_antisym a1 b1), (Z.compare_antisym a2 b2),
      (Z.compare_antisym a3 b3).
    destruct (a1 ?= b1); cbn in *; try discriminate; try reflexivity.
    destruct (a2 ?= b2); cbn in *; try discriminate; try reflexivity.
    rewrite E. reflexivity.
Qed.

Lemma ranks_before_irrefl (score : Z -> float) (a : Z) :
  ranks_before score a a = false.
Proof.
  unfold ranks_before. rewrite float_ltb_irrefl, Z.ltb_irrefl, andb_false_r.
  reflexivity.
Qed.

Lemma ranks_before_trans (score : Z -> float) (a b c : Z) :
  ranks_before score a b = true -> ranks_before score b c = true ->
  ranks_before score a c = true.
Proof.
  unfold ranks_before. intros H1 H2.
  apply orb_prop in H1 as [H1|H1]; apply orb_prop in H2 as [H2|H2];
    try (apply andb_prop in H1 as [H1 H1']);
    try (apply andb_prop in H2 as [H2 H2']);
    apply orb_true_iff.
  - left. eapply float_ltb_trans; eassumption.
  - left. eapply float_eqb_ltb_l; eassumption.
  - left. eapply float_eqb_ltb_r; [apply float_eqb_sym|]; eassumption.
  - right. apply andb_true_intro. split.
    + eapply float_eqb_trans; eassumption.
    + apply Z.ltb_lt. apply Z.ltb_lt in H1', H2'. lia.
Qed.

End FloatOrder.

(** * The selection loop of [search] *)

Section Ranking.

Import SearchEngine.

Variable score : Z -> float.

Lemma nth_map_score (ids : list Z) (k : nat) :
  (k < length ids)%nat -> nth k (map score ids) 0%float = score (nth k ids 0).
Proof.
  revert k. induction ids as [|x ids IH]; intros [|k] H; cbn in *; try lia.
  - reflexivity.
  - apply IH. lia.
Qed.

Lemma goes_before_ranks (ids : list Z) (j b : nat) :
  (j < length ids)%nat -> (b < length ids)%nat ->
  goes_before ids (map score ids) j b
  = ranks_before score (nth j ids 0) (nth b ids 0).
Proof.
  intros Hj Hb. unfold goes_before, ranks_before.
  rewrite !nth_map_score by assumption. reflexivity.
Qed.

(** The inner loop returns a row of [i .. size) that no row of that range
    goes before. *)
Lemma select_best_spec (ids : list Z) (remaining j best i : nat) :
  (j + remaining = length ids)%nat -> (i <= best < j)%nat ->
  (forall p, (i <= p < j)%nat ->
             ranks_before score (nth p ids 0) (nth best ids 0) = false) ->
  let b := select_best ids (map score ids) remaining j best in
  (i <= b < length ids)%nat /\
  forall p, (i <= p < length ids)%nat ->
            ranks_before score (nth p ids 0) (nth b ids 0) = false.
Proof.
  revert j best. induction remaining as [|remaining IH]; intros j best Hn Hb Hmin; cbn.
  - split; [lia|]. intros p Hp. apply Hmin. lia.
  - rewrite goes_before_ranks by lia.
    destruct (ranks_before score (nth j ids 0) (nth best ids 0)) eqn:E.
    + apply IH; [lia|lia|]. intros p Hp.
      destruct (decide (p = j)) as [->|Hne]; [apply ranks_before_irrefl|].
      destruct (ranks_before score (nth p ids 0) (nth j ids 0)) eqn:E2; [|reflexivity].
      pose proof (ranks_before_trans _ _ _ _ E2 E) as Hbad.
      rewrite Hmin in Hbad by lia. discriminate.
    + apply IH; [lia|lia|]. intros p Hp.
      destruct (decide (p = j)) as [->|Hne]; [exact E|]. apply Hmin. lia.
Qed.

Lemma lookup_nth {A : Type} (l : list A) (k : nat) (d : A) :
  (k < length l)%nat -> l !! k = Some (nth k l d).
Proof. intros H. destruct (nth_lookup_or_length l k d); [assumption|lia]. Qed.

Lemma swap_length {A : Type} (l : list A) (i j : nat) (d : A) :
  length (swap l i j d) = length l.
Proof. unfold swap. rewrite !length_insert. reflexivity. Qed.

Lemma swap_nth {A : Type} (l : list A) (i j k : nat) (d : A) :
  (i < length l)%nat -> (j < length l)%nat ->
  nth k (swap l i j d) d =
  if (k =? j)%nat then nth i l d
  else if (k =? i)%nat then nth j l d
  else nth k l d.
Proof.
  intros Hi Hj. unfold swap. rewrite (nth_lookup _ k).
  destruct (Nat.eqb_spec k j) as [->|Hkj].
  - rewrite list_lookup_insert_eq by (rewrite length_insert; lia). reflexivity.
  - rewrite list_lookup_insert_ne by congruence.
    destruct (Nat.eqb_spec k i) as [->|Hki].
    + rewrite list_lookup_insert_eq by lia. reflexivity.
    + rewrite list_lookup_insert_ne by congruence. rewrite <- nth_lookup. reflexivity.
Qed.

Lemma swap_map (ids : list Z) (i j : nat) :
  (i < length ids)%nat -> (j < length ids)%nat ->
  swap (map score ids) i j 0%float = map score (swap ids i j 0).
Proof.
  intros Hi Hj. apply (nth_ext _ _ 0%float 0%float).
  - rewrite swap_length, !List.length_map, swap_length. reflexivity.
  - intros k Hk. rewrite swap_length, List.length_map in Hk.
    rewrite swap_nth by (rewrite List.length_map; assumption).
    rewrite (nth_map_score (swap ids i j 0)) by (rewrite swap_length; assumption).
    rewrite swap_nth by assumption.
    rewrite !nth_map_score by assumption.
    destruct (k =? j)%nat; [reflexivity|]. destruct (k =? i)%nat; reflexivity.
Qed.

Lemma insert_head_perm {A : Type} (l : list A) (j : nat) (c x : A) :
  l !! j = Some c -> c :: <[j := x]> l ≡ₚ x :: l.
Proof.
  revert j. induction l as [|y l IH]; intros [|j] H; cbn in *; try discriminate.
  - injection H as ->. apply perm_swap.
  - rewrite (perm_swap y c). rewrite (IH _ H). apply perm_swap.
Qed.

Lemma swap_perm {A : Type} (l : list A) (i j : nat) (d : A) :
  (i < j)%nat -> (j < length l)%nat -> swap l i j d ≡ₚ l.
Proof.
  revert i j. induction l as [|y l IH]; intros i j Hij Hj; cbn in Hj; [lia|].
  destruct j as [|j]; [lia|]. destruct i as [|i].
  - unfold swap. cbn. apply insert_head_perm. apply lookup_nth. lia.
  - change (swap (y :: l) (S i) (S j) d) with (y :: swap l i j d).
    apply perm_skip. apply IH; lia.
Qed.

(** The outer loop: the rows before [i] are in their final order. *)
Lemma selection_loop_spec (remaining i : nat) (ids : list Z) :
  (i + remaining = length ids)%nat ->
  (forall p q, (p < i)%nat -> (p < q < length ids)%nat ->
               ranks_before score (nth q ids 0) (nth p ids 0) = false) ->
  exists ids',
    selection_loop remaining i ids (map score ids) = (ids', map score ids') /\
    ids' ≡ₚ ids /\
    forall p q, (p < q < length ids')%nat ->
                ranks_before score (nth q ids' 0) (nth p ids' 0) = false.
Proof.
  revert i ids. induction remaining as [|remaining IH]; intros i ids Hn Hinv.
  - exists ids. split; [reflexivity|]. split; [reflexivity|].
    intros p q Hpq. apply Hinv; lia.
  - cbn [selection_loop].
    destruct (select_best_spec ids remaining (S i) i i) as [Hb Hmin]; [lia|lia| |].
    { intros p Hp. assert (p = i) as -> by lia. apply ranks_before_irrefl. }
    set (b := select_best ids (map score ids) remaining (S i) i) in *.
    destruct (Nat.eqb_spec b i) as [Hbi|Hbi]; cbn [negb].
    + apply IH; [lia|]. intros p q Hp Hq.
      destruct (decide (p = i)) as [->|Hpi].
      * specialize (Hmin q). rewrite Hbi in Hmin. apply Hmin. lia.
      * apply Hinv; lia.
    + rewrite swap_map by lia.
      destruct (IH (S i) (swap ids i b 0)) as (ids' & Hloop & Hperm & Hsorted).
      * rewrite swap_length. lia.
      * rewrite swap_length. intros p q Hp Hq.
        rewrite !swap_nth by lia.
        destruct (Nat.eqb_spec p b) as [Hpb|Hpb]; [lia|].
        destruct (Nat.eqb_spec p i) as [->|Hpi].
        -- destruct (Nat.eqb_spec q b); [apply Hmin; lia|].
           destruct (Nat.eqb_spec q i); [lia|]. apply Hmin. lia.
        -- destruct (Nat.eqb_spec q b); [apply Hinv; lia|].
           destruct (Nat.eqb_spec q i); apply Hinv; lia.
      * exists ids'. split; [exact Hloop|]. split; [|exact Hsorted].
        rewrite Hperm. apply swap_perm; lia.
Qed.

Lemma sorted_of_nth (R : Z -> Z -> Prop) (l : list Z) :
  (forall p q, (p < q < length l)%nat -> R (nth p l 0) (nth q l 0)) ->
  StronglySorted R l.
Proof.
  induction l as [|x l IH]; intros H; constructor.
  - apply IH. intros p q Hpq. apply (H (S p) (S q)). cbn. lia.
  - apply Forall_lookup. intros k y Hk.
    pose proof (lookup_lt_Some _ _ _ Hk) as Hlt.
    rewrite <- (nth_lookup_Some _ _ 0 _ Hk).
    apply (H O (S k)). cbn. lia.
Qed.

(** [rank] permutes the rows and leaves them in ranking order. *)
Lemma rank_spec (ids : list Z) :
  exists ranked,
    rank ids (map score ids) = (ranked, map score ranked) /\
    ranked ≡ₚ ids /\
    StronglySorted (fun a b => ranks_before score b a = false) ranked.
Proof.
  unfold rank.
  destruct (selection_loop_spec (length ids) 0 ids) as (ranked & Hloop & Hperm & Hs).
  - reflexivity.
  - intros p q Hp. lia.
  - exists ranked. split; [exact Hloop|]. split; [exact Hperm|].
    apply sorted_of_nth. exact Hs.
Qed.

(** Without NaN scores the ranking order is: greater score first, and among
    equal scores smaller doc_id first. *)
Lemma ranks_before_total (a b : Z) :
  (score a =? score a)%float = true -> (score b =? score b)%float = true ->
  ranks_before score b a = false ->
  (score b <? score a)%float = true \/
  ((score a =? score b)%float = true /\ a <= b).
Proof.
  intros Ha Hb H. unfold ranks_before in H.
  apply orb_false_elim in H as [Hlt Heq].
  destruct (float_total (score a) (score b) Ha Hb) as [H|[H|H]].
  - congruence.
  - right. split; [exact H|]. apply float_eqb_sym in H. rewrite H in Heq.
    cbn in Heq. apply Z.ltb_ge in Heq. exact Heq.
  - left. exact H.
Qed.

End Ranking.

(** * [search] *)

Section Search.

Import SearchEngine.

Variable log : float -> float.

Lemma collect_ids (e : t) (l : list Z) :
  map result_doc_id (collect e l) = List.filter (in_range e) l.
Proof.
  induction l as [|d l IH]; cbn; [reflexivity|].
  destruct (in_range e d); cbn; rewrite IH; reflexivity.
Qed.

Lemma collect_length (e : t) (l : list Z) : (length (collect e l) <= length l)%nat.
Proof.
  induction l as [|d l IH]; cbn; [lia|].
  destruct (in_range e d); cbn; lia.
Qed.

Lemma collect_rows (e : t) (l : list Z) :
  Forall (fun r =>
            in_range e (result_doc_id r) = true /\
            result_url r = nth (Z.to_nat (result_doc_id r)) (doc_urls_ e) EmptyString /\
            result_title r = nth (Z.to_nat (result_doc_id r)) (doc_titles_ e) EmptyString)
         (collect e l).
Proof.
  induction l as [|d l IH]; cbn; [constructor|].
  destruct (in_range e d) eqn:E; [|exact IH].
  constructor; [|exact IH]. cbn. auto.
Qed.

Lemma candidates_no_tokens (e : t) (query : string) :
  query_tokens_of query = [] -> candidates e query = [].
Proof. unfold candidates. intros ->. reflexivity. Qed.

(** [search] in one equation: rank the candidates, keep the first 100,
    drop the rows out of range. *)
Lemma search_unfold (e : t) (query : string) :
  let score := fun d =>
    compute_doc_score log e d (extract_query_terms (query_tokens_of query)) in
  exists ranked,
    ranked ≡ₚ candidates e query /\
    StronglySorted (fun a b => ranks_before score b a = false) ranked /\
    search log e query = (collect e (take 100 ranked), length (candidates e query)).
Proof.
  intros score. unfold search.
  destruct (query_tokens_of query) as [|tok toks] eqn:E.
  - exists []. rewrite (candidates_no_tokens e query E).
    split; [reflexivity|]. split; [constructor|reflexivity].
  - unfold candidates. rewrite E.
    destruct (rank_spec score (eval_rpn e (to_rpn (tok :: toks))))
      as (ranked & Hrank & Hperm & Hsorted).
    exists ranked. split; [exact Hperm|]. split; [exact Hsorted|].
    unfold score in Hrank. rewrite ?E in Hrank. rewrite Hrank. reflexivity.
Qed.

Lemma in_range_bounds (e : t) (d : Z) :
  in_range e d = true <-> 0 <= d < Z.of_nat (length (doc_urls_ e)).
Proof. unfold in_range. rewrite andb_true_iff, Z.leb_le, Z.ltb_lt. reflexivity. Qed.

(** Every index [load_index] returns has as many titles as URLs. *)
Lemma load_documents_sizes (lines : list string) (e e' : t) :
  load_documents lines e = Some e' ->
  length (doc_titles_ e) = length (doc_urls_ e) ->
  length (doc_titles_ e') = length (doc_urls_ e').
Proof.
  revert e. induction lines as [|line lines IH]; intros e Hload Hsize; cbn in Hload.
  - injection Hload as <-. exact Hsize.
  - destruct (document_fields line) as [[[d url] title]|]; [|discriminate].
    destruct (d <? 0); [discriminate|].
    apply IH in Hload; [exact Hload|]. cbn [doc_titles_ doc_urls_].
    rewrite !length_insert, !length_app, !length_replicate, Hsize. reflexivity.
Qed.

Lemma load_index_sizes (files : IndexFiles) (e : t) :
  load_index new files = Some e ->
  length (doc_titles_ e) = length (doc_urls_ e).
Proof.
  unfold load_index. destruct (load_vocabulary _ _ _) as [index|]; [|discriminate].
  destruct (load_documents _ _) as [e'|] eqn:E; [|discriminate].
  intros [= <-]. cbn [doc_titles_ doc_urls_].
  apply (load_documents_sizes _ _ _ E). reflexivity.
Qed.

End Search.

(** C7. [search] ranks the boolean candidates by the selection loop: the
    ranked list is a permutation of the candidates in which no later row
    goes before an earlier one (greater score first, and among equal scores
    smaller doc_id first; spelled out when no score is a NaN).  The results
    are the in-range rows among the first 100 of the ranked list, so there
    are at most 100, and the reported total is the number of candidates. *)
Theorem search_ordering_truncation (log : float -> float) (e : SearchEngine.t)
    (query : string) :
  let score := fun d =>
    SearchEngine.compute_doc_score log e d
      (SearchEngine.extract_query_terms (SearchEngine.query_tokens_of query)) in
  let results := fst (SearchEngine.search log e query) in
  exists ranked,
    ranked ≡ₚ candidates e query /\
    StronglySorted (fun a b => ranks_before score b a = false) ranked /\
    (comparable_scores score (candidates e query) = true ->
     StronglySorted
       (fun a b => (score b <? score a)%float = true \/
                   ((score a =? score b)%float = true /\ a <= b)) ranked) /\
    map SearchEngine.result_doc_id results
    = List.filter (SearchEngine.in_range e) (take 100 ranked) /\
    (length results <= 100)%nat /\
    snd (SearchEngine.search log e query) = length (candidates e query).
Proof.
  intros score results.
  destruct (search_unfold log e query) as (ranked & Hperm & Hsorted & Hsearch).
  exists ranked. unfold results. rewrite Hsearch. cbn [fst snd].
  split; [exact Hperm|]. split; [exact Hsorted|]. split; [|split; [|split]].
  - intros Hcmp. unfold comparable_scores in Hcmp. rewrite forallb_forall in Hcmp.
    assert (Hnan : forall d, d ∈ ranked -> (score d =? score d)%float = true).
    { intros d Hd. apply Hcmp. apply list_elem_of_In. rewrite <- Hperm. exact Hd. }
    clear Hcmp Hperm Hsearch.
    induction Hsorted as [|a l Hl IH Hall]; constructor.
    + apply IH. intros d Hd. apply Hnan. apply elem_of_cons. auto.
    + apply Forall_forall. intros b Hb. rewrite Forall_forall in Hall.
      apply ranks_before_total.
      * apply Hnan. apply elem_of_cons. auto.
      * apply Hnan. apply elem_of_cons. auto.
      * apply Hall. exact Hb.
  - apply collect_ids.
  - etransitivity; [apply collect_length|]. rewrite length_take. lia.
  - reflexivity.
Qed.

(** C10. Every result of [search] has a doc_id inside the document table
    and carries the URL and title stored there; the reported total counts
    every boolean candidate; a candidate outside the table is never among
    the results. *)
Theorem search_results_in_range (log : float -> float) (e : SearchEngine.t)
    (query : string) :
  length (SearchEngine.doc_titles_ e) = length (SearchEngine.doc_urls_ e) ->
  Forall (fun r =>
            0 <= SearchEngine.result_doc_id r
              < Z.of_nat (length (SearchEngine.doc_urls_ e)) /\
            SearchEngine.doc_urls_ e !! Z.to_nat (SearchEngine.result_doc_id r)
              = Some (SearchEngine.result_url r) /\
            SearchEngine.doc_titles_ e !! Z.to_nat (SearchEngine.result_doc_id r)
              = Some (SearchEngine.result_title r))
         (fst (SearchEngine.search log e query)) /\
  snd (SearchEngine.search log e query) = length (candidates e query) /\
  forall d,
    d ∈ candidates e query ->
    ~ (0 <= d < Z.of_nat (length (SearchEngine.doc_urls_ e))) ->
    d ∉ map SearchEngine.result_doc_id (fst (SearchEngine.search log e query)).
Proof.
  intros Hsize.
  destruct (search_unfold log e query) as (ranked & Hperm & Hsorted & Hsearch).
  rewrite Hsearch. cbn [fst snd].
  assert (Hrows :
    Forall (fun r =>
              0 <= SearchEngine.result_doc_id r
                < Z.of_nat (length (SearchEngine.doc_urls_ e)) /\
              SearchEngine.doc_urls_ e !! Z.to_nat (SearchEngine.result_doc_id r)
                = Some (SearchEngine.result_url r) /\
              SearchEngine.doc_titles_ e !! Z.to_nat (SearchEngine.result_doc_id r)
                = Some (SearchEngine.result_title r))
           (SearchEngine.collect e (take 100 ranked))).
  { eapply Forall_impl; [apply collect_rows|].
    intros r (Hin & Hurl & Htitle). apply in_range_bounds in Hin.
    split; [exact Hin|]. rewrite Hurl, Htitle.
    split; apply lookup_nth; lia. }
  split; [exact Hrows|]. split; [reflexivity|].
  intros d _ Hout Hd. apply list_elem_of_fmap in Hd as (r & -> & Hr).
  rewrite Forall_forall in Hrows. apply Hout, (Hrows r Hr).
Qed.

Lemma search_results_in_range_witness :
  SearchEngine.search sample_log stray_engine "vault"
  = ([SearchEngine.mkResult 0 "u0" "Vault"], 3%nat) /\
  candidates stray_engine "vault" = [-3; 0; 7] /\
  Forall (fun r =>
            0 <= SearchEngine.result_doc_id r
              < Z.of_nat (length (SearchEngine.doc_urls_ stray_engine)) /\
            SearchEngine.doc_urls_ stray_engine !! Z.to_nat (SearchEngine.result_doc_id r)
              = Some (SearchEngine.result_url r) /\
            SearchEngine.doc_titles_ stray_engine !! Z.to_nat (SearchEngine.result_doc_id r)
              = Some (SearchEngine.result_title r))
         (fst (SearchEngine.search sample_log stray_engine "vault")).
Proof.
  split; [vm_compute; reflexivity|]. split; [vm_compute; reflexivity|].
  apply (search_results_in_range sample_log stray_engine "vault" eq_refl).
Defined.

(** Three candidates ranked (under the stand-in for [std::log]), and the
    empty query. *)
Example search_ranks_sample :
  SearchEngine.search sample_log sample_engine "vault OR nuka"
  = ([SearchEngine.mkResult 0 "u0" "Vault"; SearchEngine.mkResult 2 "u2" "Raiders";
      SearchEngine.mkResult 1 "u1" "Nuka"], 3%nat) /\
  SearchEngine.search sample_log sample_engine EmptyString = ([], 0%nat).
Proof. split; vm_compute; reflexivity. Qed.
(** * [compute_doc_score] *)

Section Score.

Import SearchEngine.

Variable log : float -> float.
Variable e : SearchEngine.t.

Lemma double_of_Z_nearest (n : Z) :
  0 <= n < 2 ^ 63 -> double_of_Z n = nearest_double n.
Proof.
  intros Hn. unfold double_of_Z, nearest_double.
  rewrite <- (SF2Prim_Prim2SF (of_uint63 (Uint63.of_Z n))).
  rewrite of_uint63_spec, Uint63.of_Z_spec.
  rewrite Z.mod_small; [reflexivity|].
  change wB with (2 ^ 63). exact Hn.
Qed.

Lemma term_tf_first_posting (posting_list : list Posting) (d : Z) :
  term_tf_for_doc posting_list d
  = match List.find (fun p => doc_id p =? d) posting_list with
    | Some p => tf p
    | None => 0
    end.
Proof.
  induction posting_list as [|p l IH]; cbn [term_tf_for_doc List.find]; [reflexivity|].
  destruct (doc_id p =? d); [reflexivity|exact IH].
Qed.

Lemma substring_shift (c : ascii) (s : string) (i n : nat) :
  String.substring (S i) n (String c s) = String.substring i n s.
Proof. reflexivity. Qed.

Lemma prefix_substring (t s : string) :
  String.prefix t s = String.eqb (String.substring 0 (String.length t) s) t.
Proof.
  destruct (String.eqb_spec (String.substring 0 (String.length t) s) t) as [Heq | Hne].
  - apply String.prefix_correct. exact Heq.
  - destruct (String.prefix t s) eqn:Hp; [|reflexivity].
    apply String.prefix_correct in Hp. contradiction.
Qed.

Lemma existsb_shift (f : nat -> bool) (l : list nat) :
  existsb f (List.map S l) = existsb (fun i => f (S i)) l.
Proof. induction l as [|x l IH]; [reflexivity|]. cbn. rewrite IH. reflexivity. Qed.

Lemma find_from_substring (t s : string) (here : nat) :
  match Str.find_from t s here with Some _ => true | None => false end
  = substring_of t s.
Proof.
  unfold substring_of. revert here. induction s as [|c s IH]; intros here.
  - cbn [Str.find_from String.length seq existsb]. rewrite prefix_substring.
    destruct (String.eqb _ t); reflexivity.
  - cbn [Str.find_from]. rewrite prefix_substring.
    change (seq 0 (S (String.length (String c s))))
      with (0%nat :: seq 1 (S (String.length s))).
    cbn [existsb].
    destruct (String.eqb (String.substring 0 (String.length t) (String c s)) t);
      [reflexivity|].
    cbn [orb]. rewrite (IH (S here)). rewrite <- seq_shift, existsb_shift. reflexivity.
Qed.

Lemma contains_substring (s t : string) : Str.contains s t = substring_of t s.
Proof.
  unfold Str.contains, Str.find. cbn [Nat.leb Str.drop].
  apply find_from_substring.
Qed.

Lemma tolower_lowercase_letter (c : ascii) : Chars.tolower c = lowercase_letter c.
Proof.
  destruct c as [[] [] [] [] [] [] [] []]; reflexivity.
Qed.

Lemma to_lower_lowercased (s : string) : to_lower_ascii s = lowercased s.
Proof.
  unfold to_lower_ascii, lowercased.
  induction s as [|c s IH]; [reflexivity|].
  cbn [Str.map list_ascii_of_string List.map string_of_list_ascii].
  rewrite tolower_lowercase_letter, IH. reflexivity.
Qed.

Lemma machine_sized_slots :
  machine_sized e = true -> 0 <= slots e < 2 ^ 63.
Proof.
  unfold machine_sized, slots. intros Hm.
  apply andb_prop in Hm as [Hm _]. apply andb_prop in Hm as [Hm _].
  apply Z.ltb_lt in Hm. lia.
Qed.

Lemma machine_sized_length (d : Z) :
  machine_sized e = true -> - 2 ^ 31 <= length_of e d < 2 ^ 31.
Proof.
  unfold machine_sized, length_of. intros Hm.
  apply andb_prop in Hm as [Hm _]. apply andb_prop in Hm as [_ Hm].
  destruct (doc_lengths_ e !! Z.to_nat d) as [len|] eqn:Hlen; cbn [default]; unfold id;
    [|lia].
  rewrite forallb_forall in Hm.
  specialize (Hm len). unfold int_range in Hm.
  assert (Hin : In len (doc_lengths_ e)).
  { apply list_elem_of_In. eapply list_elem_of_lookup_2. exact Hlen. }
  specialize (Hm Hin). apply andb_prop in Hm as [Hlow Hhigh].
  apply Z.leb_le in Hlow. apply Z.ltb_lt in Hhigh. lia.
Qed.

Lemma machine_sized_postings (t : string) (posting_list : list Posting) :
  machine_sized e = true -> inverted_index_ e !! t = Some posting_list ->
  Z.of_nat (length posting_list) < 2 ^ 63 /\
  forall p, In p posting_list -> - 2 ^ 31 <= tf p < 2 ^ 31.
Proof.
  unfold machine_sized. intros Hm Hlook.
  apply andb_prop in Hm as [_ Hm]. rewrite forallb_forall in Hm.
  specialize (Hm (t, posting_list)).
  assert (Hin : In (t, posting_list) (map_to_list (inverted_index_ e))).
  { apply list_elem_of_In, elem_of_map_to_list. exact Hlook. }
  specialize (Hm Hin). cbn [snd] in Hm. apply andb_prop in Hm as [Hlen Htf].
  apply Z.ltb_lt in Hlen.
  split; [exact Hlen|]. intros p Hp. rewrite forallb_forall in Htf.
  specialize (Htf p Hp). unfold int_range in Htf. apply andb_prop in Htf as [Hlow Hhigh].
  apply Z.leb_le in Hlow. apply Z.ltb_lt in Hhigh. lia.
Qed.

(** One turn of the loop over the query terms adds the summand of a term
    with [tf >= 1] and nothing for any other term. *)
Lemma score_term_summand (d : Z) (sum : float) (t : string) :
  machine_sized e = true ->
  score_term log e d
    (to_lower_ascii (nth (Z.to_nat d) (doc_titles_ e) EmptyString))
    (to_lower_ascii (nth (Z.to_nat d) (doc_urls_ e) EmptyString)) sum t
  = if 1 <=? tf_of e t d then add_summand log e d sum t else sum.
Proof.
  intros Hm. unfold score_term, tf_of, first_posting, postings_of.
  destruct (inverted_index_ e !! t) as [pl|] eqn:Hlook; cbn [default]; unfold id;
    [|reflexivity].
  rewrite term_tf_first_posting.
  destruct (machine_sized_postings t pl Hm Hlook) as [Hlen Htfs].
  destruct (List.find (fun p => doc_id p =? d) pl) as [p|] eqn:Hfind; [|reflexivity].
  pose proof (find_some _ _ Hfind) as [Hin _]. specialize (Htfs p Hin).
  destruct (Z.leb_spec (tf p) 0) as [Hle | Hgt];
    destruct (Z.leb_spec 1 (tf p)) as [Hge | Hlt]; try lia; [reflexivity|].
  unfold add_summand, weight, title_has, url_has, tf_of, df_of, first_posting, postings_of.
  rewrite Hlook. cbn [default]. unfold id. rewrite Hfind.
  rewrite !nth_lookup, !to_lower_lowercased, !contains_substring.
  pose proof (machine_sized_slots Hm) as Hslots. unfold slots in *.
  rewrite !double_of_Z_nearest by lia. reflexivity.
Qed.

Lemma score_loop_formula (d : Z) (terms : list string) (sum : float) :
  machine_sized e = true ->
  foldl (score_term log e d
           (to_lower_ascii (nth (Z.to_nat d) (doc_titles_ e) EmptyString))
           (to_lower_ascii (nth (Z.to_nat d) (doc_urls_ e) EmptyString)))
        sum terms
  = foldl (add_summand log e d) sum (List.filter (fun t => 1 <=? tf_of e t d) terms).
Proof.
  intros Hm. revert sum. induction terms as [|t terms IH]; intros sum; [reflexivity|].
  cbn [foldl List.filter]. rewrite score_term_summand by exact Hm.
  destruct (1 <=? tf_of e t d); cbn [foldl]; apply IH.
Qed.

End Score.

(** C4, as the code has it.  For a document slot [d], [compute_doc_score]
    is the ranking formula taken over the query terms with [tf(t,d) >= 1]:
    the sum of [(1 + ln tf) * (ln((N+1)/(df+1)) + 1)], plus 0.35 and 0.15 for
    a term found in the lower-cased title and URL, divided by
    [sqrt(length(d))] when [length(d) > 0]; for any other [d] it is [-1].
    The formula is stated with a linear search, a substring test, a case
    folding and a conversion to [double] of its own; the arithmetic is that
    of [double], in the order of the query terms. *)
Theorem compute_doc_score_formula (log : float -> float) (e : SearchEngine.t)
    (d : Z) (terms : list string) :
  machine_sized e = true ->
  SearchEngine.compute_doc_score log e d terms = score_formula log e d terms.
Proof.
  intros Hm. unfold SearchEngine.compute_doc_score, score_formula, SearchEngine.in_range.
  fold (slots e).
  destruct ((0 <=? d) && (d <? slots e)) eqn:Hin; cbn [negb]; [|reflexivity].
  unfold normalized_sum. rewrite score_loop_formula by exact Hm.
  pose proof (machine_sized_length e d Hm) as Hlen. unfold length_of in *.
  destruct (SearchEngine.doc_lengths_ e !! Z.to_nat d) as [len|]; cbn [default] in *;
    unfold id in *; [|reflexivity].
  destruct (Z.ltb_spec 0 len) as [Hpos | Hle]; [|reflexivity].
  rewrite double_of_Z_nearest by lia. reflexivity.
Qed.

Lemma compute_doc_score_formula_witness :
  machine_sized sample_engine = true /\
  SearchEngine.compute_doc_score sample_log sample_engine 2 ["nuka"; "vault"; "raider"]
  = score_formula sample_log sample_engine 2 ["nuka"; "vault"; "raider"].
Proof.
  split; [reflexivity|].
  apply (compute_doc_score_formula sample_log sample_engine 2 ["nuka"; "vault"; "raider"]).
  reflexivity.
Defined.

(** C4 as stated fails in two places.  A candidate outside the document
    table (here doc_id 7, named by a posting of "vault") scores [-1], not
    the sum of its terms; and a posting with [tf = 0] is passed over, with
    its title bonus, although the posting list contains the document. *)
Lemma compute_doc_score_counterexample :
  (occurs_in stray_engine 7 "vault" = true /\
   SearchEngine.compute_doc_score sample_log stray_engine 7 ["vault"] = (-1)%float /\
   claimed_score sample_log stray_engine 7 ["vault"] = 0.5%float /\
   SearchEngine.compute_doc_score sample_log stray_engine 7 ["vault"]
   <> claimed_score sample_log stray_engine 7 ["vault"]) /\
  (occurs_in zero_tf_engine 0 "vault" = true /\
   SearchEngine.compute_doc_score sample_log zero_tf_engine 0 ["vault"] = 0%float /\
   SearchEngine.compute_doc_score sample_log zero_tf_engine 0 ["vault"]
   <> claimed_score sample_log zero_tf_engine 0 ["vault"]).
Proof.
  split.
  - split; [reflexivity|]. split; [reflexivity|]. split; [vm_compute; reflexivity|].
    intros Heq. apply (f_equal Prim2SF) in Heq. vm_compute in Heq. discriminate.
  - split; [reflexivity|]. split; [vm_compute; reflexivity|].
    intros Heq. apply (f_equal Prim2SF) in Heq. vm_compute in Heq. discriminate.
Qed.

(** * The characters of tokens and stems *)

Section StemCharacters.

Import PorterStemmer.

Lemma str_all_substring (p : ascii -> bool) (s : string) (n m : nat) :
  Str.all p s = true -> Str.all p (String.substring n m s) = true.
Proof.
  revert n m. induction s as [|c s IH]; intros n m H.
  - destruct n, m; reflexivity.
  - cbn in H. apply andb_prop in H as [Hc Hs].
    destruct n as [|n]; [destruct m as [|m]|]; cbn.
    + reflexivity.
    + rewrite Hc. cbn. apply IH. exact Hs.
    + apply IH. exact Hs.
Qed.

Lemma str_all_replace (p : ascii -> bool) (s t : string) (pos len : Z) :
  Str.all p s = true -> Str.all p t = true -> Str.all p (Str.replace s pos len t) = true.
Proof.
  intros Hs Ht. unfold Str.replace, Str.substr.
  rewrite !str_all_app, Ht, !str_all_substring by exact Hs. reflexivity.
Qed.

Lemma lower_term_char (s : string) :
  Str.all Chars.is_lower s = true -> Str.all term_char s = true.
Proof.
  apply str_all_impl. intros c Hc. unfold term_char. rewrite Hc. reflexivity.
Qed.

Lemma clean_set_k (st : t) (k : Z) : clean st -> clean (set_k st k).
Proof. exact (fun H => H). Qed.

Lemma clean_set_j (st : t) (j : Z) : clean st -> clean (set_j st j).
Proof. exact (fun H => H). Qed.

Lemma clean_ends (s : string) (st st' : t) :
  ends s st = Some st' -> clean st -> clean st'.
Proof.
  unfold ends. intros H Hc.
  repeat match type of H with
         | (if ?b then _ else _) = _ => destruct b; [try discriminate|try discriminate]
         end.
  injection H as <-. exact Hc.
Qed.

Lemma clean_set_to (s : string) (st : t) :
  Str.all Chars.is_lower s = true -> clean st -> clean (set_to s st).
Proof.
  intros Hs Hc. unfold clean, set_to. cbn.
  apply str_all_replace; [exact Hc|apply lower_term_char; exact Hs].
Qed.

Lemma clean_r (s : string) (st : t) :
  Str.all Chars.is_lower s = true -> clean st -> clean (r s st).
Proof.
  intros Hs Hc. unfold r. destruct (0 <? measure st); [|exact Hc].
  apply clean_set_to; assumption.
Qed.

Lemma clean_poke (st : t) (c : ascii) :
  Chars.is_lower c = true -> clean st -> clean (poke st c).
Proof.
  intros Hl Hc. unfold clean, poke. cbn.
  apply str_all_replace; [exact Hc|]. cbn. unfold term_char. rewrite Hl. reflexivity.
Qed.

Lemma clean_rules (l : list (string * string)) (st : t) :
  forallb (fun rule => Str.all Chars.is_lower (snd rule)) l = true ->
  clean st -> clean (rules l st).
Proof.
  induction l as [|[s u] l IH]; intros Hl Hc; cbn in *; [exact Hc|].
  apply andb_prop in Hl as [Hu Hl].
  destruct (ends s st) as [st'|] eqn:E.
  - apply clean_r; [exact Hu|]. eapply clean_ends; eassumption.
  - apply IH; assumption.
Qed.

Lemma clean_suffixes (l : list string) (st : t) :
  clean st -> clean (snd (suffixes l st)).
Proof.
  induction l as [|s l IH]; intros Hc; cbn; [exact Hc|].
  destruct (ends s st) as [st'|] eqn:E; [|apply IH; exact Hc].
  cbn. eapply clean_ends; eassumption.
Qed.

Ltac clean_step :=
  match goal with
  | |- clean (set_k _ _) => apply clean_set_k
  | |- clean (set_j _ _) => apply clean_set_j
  | |- clean (set_to _ _) => apply clean_set_to; [reflexivity|]
  | |- clean (poke _ _) => apply clean_poke; [reflexivity|]
  | |- clean (rules _ _) => apply clean_rules; [reflexivity|]
  | |- clean (snd (suffixes _ _)) => apply clean_suffixes
  | |- clean (match ends ?s ?st with _ => _ end) =>
      let E := fresh "E" in
      destruct (ends s st) eqn:E;
      [apply clean_ends in E; [|assumption]|]
  | |- clean (if ?b then _ else _) => destruct b
  | |- clean (let _ := _ in _) => cbv zeta
  | |- clean _ => assumption
  end.

Lemma clean_step1ab (st : t) : clean st -> clean (step1ab st).
Proof.
  intros Hc. unfold step1ab.
  assert (H1 : clean
    (if Ascii.eqb (Str.at_ (word_ st) (k_ st)) "s"
     then match ends "sses" st with
          | Some st0 => set_k st0 (k_ st0 - 2)
          | None =>
              match ends "ies" st with
              | Some st0 => set_to "i" st0
              | None =>
                  if negb (Ascii.eqb (Str.at_ (word_ st) (k_ st - 1)) "s")
                  then set_k st (k_ st - 1)
                  else st
              end
          end
     else st)).
  { repeat clean_step. }
  revert H1. generalize
    (if Ascii.eqb (Str.at_ (word_ st) (k_ st)) "s"
     then match ends "sses" st with
          | Some st0 => set_k st0 (k_ st0 - 2)
          | None =>
              match ends "ies" st with
              | Some st0 => set_to "i" st0
              | None =>
                  if negb (Ascii.eqb (Str.at_ (word_ st) (k_ st - 1)) "s")
                  then set_k st (k_ st - 1)
                  else st
              end
          end
     else st).
  clear st Hc. intros st Hc. cbv zeta.
  destruct (ends "eed" st) as [st1|] eqn:E1.
  { apply clean_ends in E1; [|assumption]. repeat clean_step. }
  destruct (ends "ed" st) as [st1|] eqn:E2.
  { apply clean_ends in E2; [|assumption]. repeat clean_step. }
  destruct (ends "ing" st) as [st1|] eqn:E3; [|assumption].
  apply clean_ends in E3; [|assumption]. repeat clean_step.
Qed.

Lemma clean_step1c (st : t) : clean st -> clean (step1c st).
Proof. intros Hc. unfold step1c. repeat clean_step. Qed.

Lemma clean_step2 (st : t) : clean st -> clean (step2 st).
Proof. intros Hc. unfold step2. repeat clean_step. Qed.

Lemma clean_step3 (st : t) : clean st -> clean (step3 st).
Proof. intros Hc. unfold step3. repeat clean_step. Qed.

Lemma clean_step4_switch (c : ascii) (st : t) :
  clean st -> clean (snd (step4_switch c st)).
Proof.
  intros Hc. unfold step4_switch.
  repeat match goal with
         | |- clean (snd (if ?b then _ else _)) => destruct b
         | |- clean (snd (suffixes _ _)) => apply clean_suffixes; assumption
         | |- clean (snd (match ends ?s ?st with _ => _ end)) =>
             let E := fresh "E" in
             destruct (ends s st) eqn:E; [apply clean_ends in E; [|assumption]|]
         | |- clean (snd (_, _)) => cbn [snd]; assumption
         end.
Qed.

Lemma clean_step4 (st : t) : clean st -> clean (step4 st).
Proof.
  intros Hc. unfold step4.
  pose proof (clean_step4_switch (Str.at_ (word_ st) (k_ st - 1)) st Hc) as H.
  destruct (step4_switch _ st) as [[] st']; cbn [snd] in H; repeat clean_step.
Qed.

Lemma clean_step5 (st : t) : clean st -> clean (step5 st).
Proof. intros Hc. unfold step5. repeat clean_step. Qed.

(** A stem of a word of token characters is made of token characters. *)
Lemma stem_term_chars (word : string) :
  Str.all term_char word = true -> Str.all term_char (stem word) = true.
Proof.
  intros H. unfold stem, stem_from. cbn [k_ word_].
  destruct (Str.size word - 1 <=? 1); cbn [snd]; [exact H|].
  unfold Str.substr. apply str_all_substring.
  apply clean_step5, clean_step4, clean_step3, clean_step2, clean_step1c, clean_step1ab.
  exact H.
Qed.

(** [step4] reads [word_[k_ - 1]] without the guard [step2] has.  When
    [k_ = 0] that position is outside the buffer, and whatever byte is read
    there, no arm of the [switch] changes anything: every suffix is longer
    than the one letter left. *)
Lemma ends_short (s : string) (st : t) :
  k_ st + 1 < Str.size s -> ends s st = None.
Proof.
  intros H. unfold ends.
  destruct (negb _); [reflexivity|].
  destruct (Z.ltb_spec (k_ st + 1) (Str.size s)); [reflexivity|lia].
Qed.

Lemma step4_switch_short (c : ascii) (st : t) :
  k_ st = 0 -> step4_switch c st = (false, st).
Proof.
  intros Hk. unfold step4_switch.
  repeat match goal with
         | |- context [if Ascii.eqb c ?x then _ else _] => destruct (Ascii.eqb c x)
         end;
    cbn [suffixes]; rewrite ?ends_short by (rewrite Hk; reflexivity); reflexivity.
Qed.

End StemCharacters.

(** * [PorterStemmer::stem] does not depend on the object's previous state

    The field [j_] survives from one call of [stem] to the next, but every
    step writes it (through a successful [ends], or in [step5]) before it
    reads it. *)

Section StemState.

Import PorterStemmer.

Lemma same_refl (st : t) : same_buffer st st.
Proof. split; reflexivity. Qed.

Lemma ends_same (s : string) (st st' : t) :
  same_buffer st st' ->
  (ends s st = None /\ ends s st' = None) \/
  (exists st1, ends s st = Some st1 /\ ends s st' = Some st1).
Proof.
  destruct st as [w k j], st' as [w' k' j']. intros [Hw Hk]. cbn in Hw, Hk. subst w' k'.
  unfold ends, set_j. cbn [word_ k_ j_].
  destruct (negb _); [left; tauto|].
  destruct (_ <? _); [left; tauto|].
  destruct (negb _); [left; tauto|].
  right. eexists. split; reflexivity.
Qed.

Lemma same_set_k (st st' : t) (n : Z) :
  same_buffer st st' -> same_buffer (set_k st n) (set_k st' n).
Proof. intros [Hw Hk]. split; [exact Hw|reflexivity]. Qed.

Lemma same_at (st st' : t) :
  same_buffer st st' ->
  word_ st = word_ st' /\ k_ st = k_ st'.
Proof. exact (fun H => H). Qed.

Ltac both_ends s st st' H :=
  let E1 := fresh "E" in
  let E2 := fresh "E" in
  let st1 := fresh "st" in
  destruct (ends_same s st st' H) as [[E1 E2] | (st1 & E1 & E2)];
  rewrite E1, E2.

Lemma step1ab_same (st st' : t) :
  same_buffer st st' -> same_buffer (step1ab st) (step1ab st').
Proof.
  intros H. unfold step1ab.
  assert (H1 : same_buffer
    (if Ascii.eqb (Str.at_ (word_ st) (k_ st)) "s"
     then match ends "sses" st with
          | Some st0 => set_k st0 (k_ st0 - 2)
          | None =>
              match ends "ies" st with
              | Some st0 => set_to "i" st0
              | None =>
                  if negb (Ascii.eqb (Str.at_ (word_ st) (k_ st - 1)) "s")
                  then set_k st (k_ st - 1)
                  else st
              end
          end
     else st)
    (if Ascii.eqb (Str.at_ (word_ st') (k_ st')) "s"
     then match ends "sses" st' with
          | Some st0 => set_k st0 (k_ st0 - 2)
          | None =>
              match ends "ies" st' with
              | Some st0 => set_to "i" st0
              | None =>
                  if negb (Ascii.eqb (Str.at_ (word_ st') (k_ st' - 1)) "s")
                  then set_k st' (k_ st' - 1)
                  else st'
              end
          end
     else st')).
  { destruct (same_at _ _ H) as [Hw Hk]. rewrite <- Hw, <- Hk.
    destruct (Ascii.eqb _ "s"); [|exact H].
    both_ends "sses" st st' H; [|apply same_refl].
    both_ends "ies" st st' H; [|apply same_refl].
    destruct (negb _); [|exact H]. apply same_set_k. exact H. }
  revert H1.
  generalize
    (if Ascii.eqb (Str.at_ (word_ st) (k_ st)) "s"
     then match ends "sses" st with
          | Some st0 => set_k st0 (k_ st0 - 2)
          | None =>
              match ends "ies" st with
              | Some st0 => set_to "i" st0
              | None =>
                  if negb (Ascii.eqb (Str.at_ (word_ st) (k_ st - 1)) "s")
                  then set_k st (k_ st - 1)
                  else st
              end
          end
     else st).
  generalize
    (if Ascii.eqb (Str.at_ (word_ st') (k_ st')) "s"
     then match ends "sses" st' with
          | Some st0 => set_k st0 (k_ st0 - 2)
          | None =>
              match ends "ies" st' with
              | Some st0 => set_to "i" st0
              | None =>
                  if negb (Ascii.eqb (Str.at_ (word_ st') (k_ st' - 1)) "s")
                  then set_k st' (k_ st' - 1)
                  else st'
              end
          end
     else st').
  clear st st' H. intros b a H. cbv zeta.
  both_ends "eed" a b H; [|apply same_refl].
  both_ends "ed" a b H; [|apply same_refl].
  both_ends "ing" a b H; [exact H|apply same_refl].
Qed.

Lemma step1c_same (st st' : t) :
  same_buffer st st' -> same_buffer (step1c st) (step1c st').
Proof.
  intros H. unfold step1c. both_ends "y" st st' H; [exact H|apply same_refl].
Qed.

Lemma rules_same (l : list (string * string)) (st st' : t) :
  same_buffer st st' -> same_buffer (rules l st) (rules l st').
Proof.
  intros H. induction l as [|[s u] l IH]; cbn [rules]; [exact H|].
  both_ends s st st' H; [exact IH|apply same_refl].
Qed.

Lemma step2_same (st st' : t) :
  same_buffer st st' -> same_buffer (step2 st) (step2 st').
Proof.
  intros H. unfold step2. destruct (same_at _ _ H) as [Hw Hk]. rewrite <- Hw, <- Hk.
  destruct (k_ st =? 0); [exact H|]. cbv zeta.
  repeat match goal with
         | |- same_buffer (if ?c then _ else _) _ => destruct c
         | |- same_buffer (rules _ _) (rules _ _) => apply rules_same; exact H
         end.
  exact H.
Qed.

Lemma step3_same (st st' : t) :
  same_buffer st st' -> same_buffer (step3 st) (step3 st').
Proof.
  intros H. unfold step3. destruct (same_at _ _ H) as [Hw Hk]. rewrite <- Hw, <- Hk.
  cbv zeta.
  repeat match goal with
         | |- same_buffer (if ?c then _ else _) _ => destruct c
         | |- same_buffer (rules _ _) (rules _ _) => apply rules_same; exact H
         end.
  exact H.
Qed.

Lemma suffixes_same (l : list string) (st st' : t) :
  same_buffer st st' -> same_outcome (suffixes l st) (suffixes l st').
Proof.
  intros H. induction l as [|s l IH]; cbn [suffixes].
  - right. cbn. tauto.
  - both_ends s st st' H; [exact IH|]. left. split; reflexivity.
Qed.

Lemma same_outcome_refl_or (x : bool * t) : same_outcome x x.
Proof.
  destruct x as [[] st]; [left; split; reflexivity|].
  right. cbn. split; [reflexivity|]. split; [reflexivity|apply same_refl].
Qed.

Lemma step4_switch_same (c : ascii) (st st' : t) :
  same_buffer st st' -> same_outcome (step4_switch c st) (step4_switch c st').
Proof.
  intros H. unfold step4_switch.
  repeat match goal with
         | |- same_outcome (if Ascii.eqb c ?x then _ else _) _ => destruct (Ascii.eqb c x)
         | |- same_outcome (suffixes _ _) (suffixes _ _) => apply suffixes_same; exact H
         end.
  - both_ends "ion" st st' H; [apply suffixes_same; exact H|].
    apply same_outcome_refl_or.
  - right. cbn. tauto.
Qed.

Lemma step4_same (st st' : t) :
  same_buffer st st' -> same_buffer (step4 st) (step4 st').
Proof.
  intros H. unfold step4. destruct (same_at _ _ H) as [Hw Hk]. rewrite <- Hw, <- Hk.
  destruct (step4_switch_same (Str.at_ (word_ st) (k_ st - 1)) st st' H)
    as [[Heq Hbreak]|(Hx & Hy & Hsame)].
  - rewrite <- Heq. apply same_refl.
  - destruct (step4_switch _ st) as [bx x], (step4_switch _ st') as [by' y].
    cbn in Hx, Hy, Hsame. subst bx by'. exact Hsame.
Qed.

Lemma step5_same (st st' : t) : same_buffer st st' -> step5 st = step5 st'.
Proof.
  intros [Hw Hk]. unfold step5.
  assert (E : set_j st (k_ st) = set_j st' (k_ st')).
  { unfold set_j. rewrite Hw, Hk. reflexivity. }
  rewrite E. reflexivity.
Qed.

(** [stem] returns the same string whatever state the object is in. *)
Lemma stem_from_any_state (st0 : t) (word : string) :
  snd (stem_from st0 word) = stem word.
Proof.
  unfold stem, stem_from. cbn [k_ word_].
  destruct (Str.size word - 1 <=? 1); [reflexivity|]. cbn [snd].
  rewrite (step5_same
             (step4 (step3 (step2 (step1c (step1ab (mk word (Str.size word - 1) (j_ st0)))))))
             (step4 (step3 (step2 (step1c (step1ab (mk word (Str.size word - 1) (j_ init)))))))).
  - reflexivity.
  - apply step4_same, step3_same, step2_same, step1c_same, step1ab_same.
    split; reflexivity.
Qed.

End StemState.

(** * The loops run to their end

    The index loops of the source are modelled with a bound on the number
    of iterations.  In each case the bound used is enough: a larger one
    gives the same result. *)

Section Fuel.

Lemma measure_loop_enough (st : PorterStemmer.t) (fuel extra : nat)
    (ph : PorterStemmer.scan) (i n : Z) :
  PorterStemmer.j_ st + 1 - i < Z.of_nat fuel ->
  PorterStemmer.measure_loop st (fuel + extra) ph i n
  = PorterStemmer.measure_loop st fuel ph i n.
Proof.
  revert ph i n. induction fuel as [|fuel IH]; intros ph i n H.
  - destruct extra as [|extra]; [reflexivity|]. cbn.
    destruct (Z.ltb_spec (PorterStemmer.j_ st) i); [reflexivity|lia].
  - cbn [Nat.add PorterStemmer.measure_loop].
    destruct (PorterStemmer.j_ st <? i); [reflexivity|].
    destruct ph;
      repeat match goal with
             | |- context [if ?c then _ else _] => destruct c
             end; apply IH; lia.
Qed.

Lemma measure_fuel (st : PorterStemmer.t) (extra : nat) :
  0 <= PorterStemmer.j_ st + 2 ->
  PorterStemmer.measure_loop st (Z.to_nat (PorterStemmer.j_ st + 2) + extra)
    PorterStemmer.Leading 0 0
  = PorterStemmer.measure st.
Proof. intros H. apply measure_loop_enough. lia. Qed.

Lemma trim_left_enough (lowered : string) (fuel extra : nat) (left_pos : Z) :
  Str.size lowered - left_pos <= Z.of_nat fuel ->
  SearchEngine.trim_left lowered (fuel + extra) left_pos
  = SearchEngine.trim_left lowered fuel left_pos.
Proof.
  revert left_pos. induction fuel as [|fuel IH]; intros left_pos H.
  - destruct extra as [|extra]; [reflexivity|]. cbn.
    destruct (Z.ltb_spec left_pos (Str.size lowered)); [lia|reflexivity].
  - cbn [Nat.add SearchEngine.trim_left].
    destruct (_ && _); [|reflexivity]. apply IH. lia.
Qed.

Lemma trim_right_enough (lowered : string) (fuel extra : nat) (left_pos right_pos : Z) :
  right_pos - left_pos <= Z.of_nat fuel ->
  SearchEngine.trim_right lowered (fuel + extra) left_pos right_pos
  = SearchEngine.trim_right lowered fuel left_pos right_pos.
Proof.
  revert right_pos. induction fuel as [|fuel IH]; intros right_pos H.
  - destruct extra as [|extra]; [reflexivity|]. cbn.
    destruct (Z.ltb_spec left_pos right_pos); [lia|reflexivity].
  - cbn [Nat.add SearchEngine.trim_right].
    destruct (_ && _); [|reflexivity]. apply IH. lia.
Qed.

Lemma skip_ws_shorter (s : string) :
  (String.length (Stream.skip_ws s) <= String.length s)%nat.
Proof.
  induction s as [|c s IH]; cbn; [lia|].
  destruct (Chars.isspace c); cbn; lia.
Qed.

Lemma get_digits_shorter (s : string) (acc : Z) :
  (String.length (snd (Stream.get_digits s acc)) <= String.length s)%nat.
Proof.
  revert acc. induction s as [|c s IH]; intros acc; cbn; [lia|].
  destruct (Chars.is_digit c); cbn; [|lia]. specialize (IH (10 * acc + Stream.digit_value c)).
  lia.
Qed.

Lemma get_digits_consumes (s : string) (acc : Z) :
  Stream.starts_with_digit s = true ->
  (String.length (snd (Stream.get_digits s acc)) < String.length s)%nat.
Proof.
  destruct s as [|c s]; [discriminate|]. cbn. intros ->.
  pose proof (get_digits_shorter s (10 * acc + Stream.digit_value c)). lia.
Qed.

Lemma get_int_consumes (s rest : string) (v : Z) :
  Stream.get_int s = Some (v, rest) -> (String.length rest < String.length s)%nat.
Proof.
  unfold Stream.get_int. pose proof (skip_ws_shorter s) as Hs.
  destruct (Stream.skip_ws s) as [|c r] eqn:E; [discriminate|].
  destruct (Ascii.eqb c "-").
  { destruct (Stream.starts_with_digit r) eqn:Hd; [|discriminate].
    pose proof (get_digits_consumes r 0 Hd) as Hr.
    destruct (Stream.get_digits r 0) as [v' rest']. intros [= <- <-].
    cbn in *. lia. }
  destruct (Ascii.eqb c "+").
  { destruct (Stream.starts_with_digit r) eqn:Hd; [|discriminate].
    pose proof (get_digits_consumes r 0 Hd) as Hr.
    destruct (Stream.get_digits r 0) as [v' rest']. intros [= <- <-].
    cbn in *. lia. }
  destruct (Chars.is_digit c) eqn:Hd; [|discriminate].
  pose proof (get_digits_consumes (String c r) 0 Hd) as Hr.
  destruct (Stream.get_digits (String c r) 0) as [v' rest']. intros [= <- <-].
  cbn in *. lia.
Qed.

Lemma get_ints_enough (fuel extra : nat) (s : string) :
  (String.length s <= fuel)%nat ->
  Stream.get_ints (fuel + extra) s = Stream.get_ints fuel s.
Proof.
  revert s. induction fuel as [|fuel IH]; intros s H.
  - destruct s; [|cbn in H; lia]. destruct extra; reflexivity.
  - cbn [Nat.add Stream.get_ints].
    destruct (Stream.get_int s) as [[v rest]|] eqn:E; [|reflexivity].
    apply get_int_consumes in E. f_equal. apply IH. lia.
Qed.

End Fuel.

(** * Reading back what was written *)

Section Streams.

Import Stream.

Lemma digit_facts (c : ascii) :
  Chars.is_digit c = true ->
  Chars.isspace c = false /\ Ascii.eqb c "-" = false /\ Ascii.eqb c "+" = false
  /\ not_newline c = true /\ not_tab c = true.
Proof.
  destruct c as [[] [] [] [] [] [] [] []]; vm_compute; intros H;
    first [discriminate H | repeat split; reflexivity].
Qed.

Lemma term_char_facts (c : ascii) :
  term_char c = true ->
  Chars.isspace c = false /\ not_newline c = true /\ not_tab c = true.
Proof.
  destruct c as [[] [] [] [] [] [] [] []]; vm_compute; intros H;
    first [discriminate H | repeat split; reflexivity].
Qed.

Lemma get_digits_stop (rest : string) (acc : Z) :
  starts_with_digit rest = false -> get_digits rest acc = (acc, rest).
Proof. destruct rest as [|c r]; cbn; [reflexivity|]. intros ->. reflexivity. Qed.

Ltac digit_case IHd acc :=
  rewrite str_app_cons; cbn [get_digits];
  match goal with
  | |- context [Chars.is_digit ?c] => change (Chars.is_digit c) with true
  end;
  cbv iota;
  match goal with
  | |- get_digits _ ?v = (Z.of_nat (Nat.of_uint_acc _ ?a), _) =>
      replace v with (Z.of_nat a)
        by (rewrite Nat.tail_mul_spec; unfold digit_value;
            match goal with
            | |- context [Z.of_N (Chars.code ?c)] =>
                let n := eval vm_compute in (Z.of_N (Chars.code c)) in
                change (Z.of_N (Chars.code c)) with n
            end; lia)
  end;
  apply IHd.

Lemma get_digits_uint (d : Decimal.uint) (rest : string) (acc : nat) :
  starts_with_digit rest = false ->
  get_digits (NilEmpty.string_of_uint d ++ rest) (Z.of_nat acc)
  = (Z.of_nat (Nat.of_uint_acc d acc), rest).
Proof.
  intros Hrest. revert acc.
  induction d as [|d IHd|d IHd|d IHd|d IHd|d IHd|d IHd|d IHd|d IHd|d IHd|d IHd];
    intros acc; cbn [NilEmpty.string_of_uint Nat.of_uint_acc].
  - rewrite str_app_nil_l. apply get_digits_stop. exact Hrest.
  - digit_case IHd acc.
  - digit_case IHd acc.
  - digit_case IHd acc.
  - digit_case IHd acc.
  - digit_case IHd acc.
  - digit_case IHd acc.
  - digit_case IHd acc.
  - digit_case IHd acc.
  - digit_case IHd acc.
  - digit_case IHd acc.
Qed.

Lemma uint_digits (d : Decimal.uint) :
  Str.all Chars.is_digit (NilEmpty.string_of_uint d) = true.
Proof. induction d; cbn; auto. Qed.

Lemma put_nat_digits (n : nat) : Str.all Chars.is_digit (put_nat n) = true.
Proof.
  unfold put_nat, NilZero.string_of_uint.
  destruct (Nat.to_uint n) eqn:E; try (rewrite <- E; apply uint_digits).
  reflexivity.
Qed.

Lemma put_nat_nonempty (n : nat) : Str.empty (put_nat n) = false.
Proof.
  unfold put_nat, NilZero.string_of_uint. destruct (Nat.to_uint n); reflexivity.
Qed.

Lemma get_digits_put_nat (n : nat) (rest : string) :
  starts_with_digit rest = false ->
  get_digits (put_nat n ++ rest) 0 = (Z.of_nat n, rest).
Proof.
  intros Hrest. pose proof (DecimalNat.Unsigned.of_to n) as Hn.
  unfold put_nat, NilZero.string_of_uint. unfold Nat.of_uint in Hn.
  destruct (Nat.to_uint n) eqn:E; cbv iota.
  1: { cbn in Hn. subst n. rewrite str_app_cons, str_app_nil_l. cbn [get_digits].
       change (Chars.is_digit "0") with true. cbv iota.
       change (10 * 0 + digit_value "0") with 0. apply get_digits_stop. exact Hrest. }
  all: rewrite (get_digits_uint _ rest O Hrest), Hn; reflexivity.
Qed.

Lemma starts_with_digit_app (s rest : string) :
  Str.empty s = false -> Str.all Chars.is_digit s = true ->
  starts_with_digit (s ++ rest) = true.
Proof.
  destruct s as [|c s]; [discriminate|]. intros _ H. cbn in H.
  apply andb_prop in H as [Hc _]. rewrite str_app_cons. exact Hc.
Qed.

Lemma get_int_digits (s : string) :
  starts_with_digit s = true -> get_int s = Some (get_digits s 0).
Proof.
  destruct s as [|c r]; [discriminate|]. cbn [starts_with_digit]. intros Hc.
  pose proof (digit_facts c Hc) as (Hsp & Hminus & Hplus & _).
  unfold get_int. cbn [skip_ws]. rewrite Hsp, Hminus, Hplus, Hc. reflexivity.
Qed.

Lemma get_int_put_nat (n : nat) (rest : string) :
  starts_with_digit rest = false ->
  get_int (put_nat n ++ rest) = Some (Z.of_nat n, rest).
Proof.
  intros Hrest. rewrite get_int_digits.
  - rewrite get_digits_put_nat by exact Hrest. reflexivity.
  - apply starts_with_digit_app; [apply put_nat_nonempty|apply put_nat_digits].
Qed.

Lemma get_int_space (c : ascii) (s : string) :
  Chars.isspace c = true -> get_int (String c s) = get_int s.
Proof. intros H. unfold get_int. cbn [skip_ws]. rewrite H. reflexivity. Qed.

Lemma put_int_nonneg (v : Z) : 0 <= v -> put_int v = put_nat (Z.to_nat v).
Proof. intros H. unfold put_int. destruct (Z.ltb_spec v 0); [lia|reflexivity]. Qed.

(** ** Lines *)

Lemma lines_loop_body (body rest line : string) :
  Str.all not_newline body = true ->
  lines_loop (body ++ String Chars.newline rest) line
  = (line ++ body)%string :: lines_loop rest EmptyString.
Proof.
  revert line. induction body as [|c body IH]; intros line H.
  - rewrite str_app_nil_l, str_app_nil_r. cbn [lines_loop].
    rewrite Ascii.eqb_refl. reflexivity.
  - cbn in H. apply andb_prop in H as [Hc Hb]. unfold not_newline in Hc.
    apply negb_true_iff in Hc. rewrite str_app_cons. cbn [lines_loop].
    rewrite Hc, (IH _ Hb), str_push_app. reflexivity.
Qed.

Lemma lines_of_bodies (bodies : list string) :
  Forall (fun body => Str.all not_newline body = true) bodies ->
  lines (concat_strings
           (map (fun body => (body ++ String Chars.newline EmptyString)%string) bodies))
  = bodies.
Proof.
  unfold lines. induction 1 as [|body bodies Hb Hall IH]; [reflexivity|].
  cbn [map concat_strings fold_right]. rewrite str_app_assoc, str_app_cons, str_app_nil_l.
  rewrite lines_loop_body by exact Hb. rewrite str_app_nil_l. f_equal. exact IH.
Qed.

Lemma getline_loop_found (delim : ascii) (s rest line : string) :
  Str.all (fun c => negb (Ascii.eqb c delim)) s = true ->
  getline_loop delim (s ++ String delim rest) line = ((line ++ s)%string, Some rest).
Proof.
  revert line. induction s as [|c s IH]; intros line H.
  - rewrite str_app_nil_l, str_app_nil_r. cbn [getline_loop].
    rewrite Ascii.eqb_refl. reflexivity.
  - cbn in H. apply andb_prop in H as [Hc Hs]. apply negb_true_iff in Hc.
    rewrite str_app_cons. cbn [getline_loop]. rewrite Hc, (IH _ Hs), str_push_app.
    reflexivity.
Qed.

Lemma getline_loop_end (delim : ascii) (s line : string) :
  Str.all (fun c => negb (Ascii.eqb c delim)) s = true ->
  getline_loop delim s line = ((line ++ s)%string, None).
Proof.
  revert line. induction s as [|c s IH]; intros line H.
  - rewrite str_app_nil_r. reflexivity.
  - cbn in H. apply andb_prop in H as [Hc Hs]. apply negb_true_iff in Hc.
    cbn [getline_loop]. rewrite Hc, (IH _ Hs), str_push_app. reflexivity.
Qed.

Lemma get_word_loop_word (w rest word : string) :
  Str.all term_char w = true ->
  get_word_loop (w ++ String " " rest) word = ((word ++ w)%string, String " " rest).
Proof.
  revert word. induction w as [|c w IH]; intros word H.
  - rewrite str_app_nil_l, str_app_nil_r. reflexivity.
  - cbn in H. apply andb_prop in H as [Hc Hw].
    apply term_char_facts in Hc as (Hsp & _).
    rewrite str_app_cons. cbn [get_word_loop]. rewrite Hsp, (IH _ Hw), str_push_app.
    reflexivity.
Qed.

End Streams.

(** * What every built index satisfies *)

Section BuilderInvariants.

Import IndexBuilder.

Lemma raw_char_lower (c : ascii) :
  Chars.isalpha c || Ascii.eqb c Chars.apostrophe = true ->
  term_char (Chars.tolower c) = true.
Proof.
  destruct c as [[] [] [] [] [] [] [] []]; vm_compute; intros H;
    first [reflexivity | discriminate H].
Qed.

Lemma flush_term_chars (current : string) (tokens : list string) :
  Str.all raw_char current = true ->
  Forall (fun tok => Str.all term_char tok = true) tokens ->
  Forall (fun tok => Str.all term_char tok = true) (Tokenizer.flush current tokens).
Proof.
  intros Hc Htoks. unfold Tokenizer.flush.
  destruct (_ && _); [|exact Htoks].
  apply Forall_app. split; [exact Htoks|]. constructor; [|constructor].
  unfold Tokenizer.to_lower. rewrite str_all_map.
  eapply str_all_impl; [|exact Hc]. exact raw_char_lower.
Qed.

Lemma tokenize_loop_term_chars (text current : string) (tokens : list string) :
  Str.all raw_char current = true ->
  Forall (fun tok => Str.all term_char tok = true) tokens ->
  Forall (fun tok => Str.all term_char tok = true)
         (Tokenizer.tokenize_loop text current tokens).
Proof.
  revert current tokens. induction text as [|c text IH]; intros current tokens Hc Htoks;
    cbn [Tokenizer.tokenize_loop].
  - destruct (negb (Str.empty current)); [|exact Htoks].
    apply flush_term_chars; assumption.
  - destruct (Tokenizer.is_alpha c
              || Ascii.eqb c Chars.apostrophe && negb (Str.empty current)) eqn:E.
    + apply IH; [|exact Htoks]. unfold Str.push. rewrite str_all_app, Hc. cbn.
      rewrite andb_true_r. unfold raw_char. unfold Tokenizer.is_alpha in E.
      apply orb_prop in E as [E|E]; [rewrite E; reflexivity|].
      apply andb_prop in E as [E _]. rewrite E. apply orb_true_r.
    + destruct (negb (Str.empty current)).
      * apply IH; [reflexivity|]. apply flush_term_chars; assumption.
      * apply IH; assumption.
Qed.

Lemma tokenize_term_chars (text : string) :
  Forall (fun tok => Str.all term_char tok = true) (Tokenizer.tokenize text).
Proof. apply tokenize_loop_term_chars; [reflexivity|constructor]. Qed.

Lemma count_stem_keys (term_freqs : gmap string Z) (token : string) :
  Str.all term_char token = true -> keys_ok term_freqs ->
  keys_ok (count_stem term_freqs token).
Proof.
  intros Htok Hkeys. unfold count_stem.
  destruct (Str.empty (PorterStemmer.stem token)) eqn:He; [exact Hkeys|].
  assert (Hstem : term_ok (PorterStemmer.stem token) = true).
  { unfold term_ok. rewrite He, (stem_term_chars _ Htok). reflexivity. }
  destruct (term_freqs !! PorterStemmer.stem token);
    intros term v; rewrite lookup_insert;
    destruct (decide (PorterStemmer.stem token = term)) as [<-|Hne];
    try (intros _; exact Hstem); apply Hkeys.
Qed.

Lemma term_freqs_keys (tokens : list string) :
  Forall (fun tok => Str.all term_char tok = true) tokens ->
  keys_ok (term_freqs_of tokens).
Proof.
  unfold term_freqs_of.
  assert (G : forall m, keys_ok m ->
                        Forall (fun tok => Str.all term_char tok = true) tokens ->
                        keys_ok (foldl count_stem m tokens)).
  { induction tokens as [|tok tokens IH]; intros m Hm Htoks; [exact Hm|].
    apply Forall_cons in Htoks as [Htok Htoks].
    cbn [foldl]. apply IH; [|exact Htoks]. apply count_stem_keys; assumption. }
  intros H. apply G; [|exact H]. intros term v. rewrite lookup_empty. discriminate.
Qed.

Lemma new_ok : builder_ok new.
Proof.
  split; cbn; try reflexivity; try constructor.
  intros term v. rewrite lookup_empty. discriminate.
Qed.

Lemma grown_length {A : Type} (l : list A) (i : nat) (x d : A) (size : nat) (doc : Z) :
  length l = size -> i = Z.to_nat doc -> 0 <= doc ->
  length (<[i := x]> (l ++ replicate (missing_rows size doc) d))
  = Nat.max size (S i).
Proof.
  intros Hl -> Hd. rewrite length_insert, length_app, length_replicate.
  unfold missing_rows. lia.
Qed.

Lemma grown_Forall {A : Type} (P : A -> Prop) (l : list A) (i k : nat) (x d : A) :
  Forall P l -> P x -> P d -> Forall P (<[i := x]> (l ++ replicate k d)).
Proof.
  intros Hl Hx Hd. apply Forall_insert; [|exact Hx].
  apply Forall_app. split; [exact Hl|]. apply Forall_replicate. exact Hd.
Qed.

Lemma add_document_ok (b b' : t) (d : Z) (url title text : string) :
  add_document b d url title text = Some b' ->
  url_ok url = true -> title_ok title = true ->
  builder_ok b -> builder_ok b'.
Proof.
  unfold add_document. destruct (Z.ltb_spec d 0); [discriminate|].
  intros [= <-] Hurl Htitle [Ht Hl Hu Htc Hn Hk].
  split; cbn [doc_titles_ doc_urls_ doc_lengths_ inverted_index_].
  - rewrite (grown_length (doc_urls_ b) _ _ _ (length (doc_urls_ b)) d) by auto.
    rewrite (grown_length (doc_titles_ b) _ _ _ (length (doc_urls_ b)) d) by auto.
    reflexivity.
  - rewrite (grown_length (doc_urls_ b) _ _ _ (length (doc_urls_ b)) d) by auto.
    rewrite (grown_length (doc_lengths_ b) _ _ _ (length (doc_urls_ b)) d) by auto.
    reflexivity.
  - apply grown_Forall; auto.
  - apply grown_Forall; auto.
  - apply grown_Forall; auto; lia.
  - intros term pl. rewrite append_postings_lookup.
    destruct (term_freqs_of (Tokenizer.tokenize text) !! term) as [n|] eqn:E.
    + intros _. eapply term_freqs_keys; [apply tokenize_term_chars|exact E].
    + apply Hk.
Qed.

Lemma add_documents_ok (docs : list Document) (b b' : t) :
  add_documents b docs = Some b' ->
  forallb storable docs = true ->
  builder_ok b -> builder_ok b'.
Proof.
  revert b. induction docs as [|doc docs IH]; intros b Hadd Hst Hok; cbn in Hadd.
  - injection Hadd as <-. exact Hok.
  - destruct (add_document b _ _ _ _) as [b1|] eqn:E; [|discriminate].
    cbn [forallb] in Hst. apply andb_prop in Hst as [Hdoc Hst].
    unfold storable in Hdoc. apply andb_prop in Hdoc as [Hurl Htitle].
    eapply IH; [exact Hadd|exact Hst|]. eapply add_document_ok; eassumption.
Qed.

End BuilderInvariants.

(** * Saving an index and loading it back *)

Section RoundTrip.

Import Stream.

Lemma concat_strings_cons (x : string) (l : list string) :
  concat_strings (x :: l) = (x ++ concat_strings l)%string.
Proof. reflexivity. Qed.

(** ** [vocabulary.txt] and [index.bin] *)

Lemma vocabulary_line_body (term_id : nat) (entry : string * list Posting) :
  IndexBuilder.vocabulary_line term_id entry
  = (vocabulary_body term_id entry ++ String Chars.newline EmptyString)%string.
Proof.
  unfold IndexBuilder.vocabulary_line, vocabulary_body.
  rewrite !str_app_assoc, !str_app_cons, !str_app_nil_l, !str_app_assoc.
  rewrite !str_app_cons. reflexivity.
Qed.

Lemma digits_not_newline (s : string) :
  Str.all Chars.is_digit s = true -> Str.all not_newline s = true.
Proof. apply str_all_impl. intros c Hc. apply (digit_facts c Hc). Qed.

Lemma term_not_newline (s : string) :
  Str.all term_char s = true -> Str.all not_newline s = true.
Proof. apply str_all_impl. intros c Hc. apply (term_char_facts c Hc). Qed.

Lemma term_ok_inv (term : string) :
  term_ok term = true -> Str.empty term = false /\ Str.all term_char term = true.
Proof.
  unfold term_ok. intros H. apply andb_prop in H as [He Hc].
  apply negb_true_iff in He. tauto.
Qed.

Lemma vocabulary_body_one_line (term_id : nat) (entry : string * list Posting) :
  term_ok (fst entry) = true ->
  Str.all not_newline (vocabulary_body term_id entry) = true.
Proof.
  intros H. apply term_ok_inv in H as [_ Hc]. unfold vocabulary_body.
  rewrite str_all_app. cbn [Str.all]. rewrite str_all_app. cbn [Str.all].
  rewrite !(digits_not_newline _ (put_nat_digits _)), (term_not_newline _ Hc).
  reflexivity.
Qed.

Lemma get_word_term (term rest : string) :
  term_ok term = true ->
  get_word (String " " (term ++ String " " rest)) = (term, String " " rest).
Proof.
  intros H. apply term_ok_inv in H as [He Hc]. unfold get_word.
  assert (Hskip : skip_ws (String " " (term ++ String " " rest))
                  = (term ++ String " " rest)%string).
  { cbn [skip_ws]. change (Chars.isspace " ") with true. cbv iota.
    destruct term as [|c term]; [discriminate|].
    cbn in Hc. apply andb_prop in Hc as [Hc _].
    apply term_char_facts in Hc as (Hsp & _).
    rewrite str_app_cons. cbn [skip_ws]. rewrite Hsp. reflexivity. }
  rewrite Hskip, get_word_loop_word by exact Hc. rewrite str_app_nil_l. reflexivity.
Qed.

Lemma vocabulary_term_body (term_id : nat) (entry : string * list Posting) :
  term_ok (fst entry) = true ->
  SearchEngine.vocabulary_term (vocabulary_body term_id entry) = fst entry.
Proof.
  intros H. unfold SearchEngine.vocabulary_term, vocabulary_body.
  rewrite get_int_put_nat by reflexivity.
  rewrite get_word_term by exact H. reflexivity.
Qed.

Lemma read_postings_words (posting_list : list Posting) (rest : list Z) :
  SearchEngine.read_postings (length posting_list)
    (flat_map (fun p => [doc_id p; tf p]) posting_list ++ rest)
  = Some (posting_list, rest).
Proof.
  induction posting_list as [|[d f] l IH]; [reflexivity|].
  cbn [length flat_map doc_id tf app SearchEngine.read_postings].
  rewrite IH. reflexivity.
Qed.

Lemma load_vocabulary_entries (entries : list (string * list Posting))
    (ids : nat -> nat) (rest : list Z) (index : gmap string (list Posting)) :
  Forall (fun entry => term_ok (fst entry) = true) entries ->
  SearchEngine.load_vocabulary
    (imap (fun i => vocabulary_body (ids i)) entries)
    (flat_map (fun entry => IndexBuilder.posting_words (snd entry)) entries ++ rest)
    index
  = Some (foldl insert_entry index entries).
Proof.
  revert ids index. induction entries as [|entry entries IH]; intros ids index H.
  - reflexivity.
  - apply Forall_cons in H as [Hterm H].
    rewrite imap_cons. cbn [flat_map SearchEngine.load_vocabulary].
    rewrite vocabulary_term_body by exact Hterm.
    unfold IndexBuilder.posting_words at 1. rewrite <- app_assoc.
    cbn [app]. rewrite Nat2Z.id, read_postings_words.
    cbn [foldl]. apply (IH (ids ∘ S)). exact H.
Qed.

Lemma vocabulary_lines (entries : list (string * list Posting)) (ids : nat -> nat) :
  Forall (fun entry => term_ok (fst entry) = true) entries ->
  lines (concat_strings (imap (fun i => IndexBuilder.vocabulary_line (ids i)) entries))
  = imap (fun i => vocabulary_body (ids i)) entries.
Proof.
  unfold lines. revert ids. induction entries as [|entry entries IH]; intros ids H.
  - reflexivity.
  - apply Forall_cons in H as [Hterm H]. rewrite !imap_cons.
    cbn [concat_strings fold_right]. rewrite vocabulary_line_body, str_app_assoc.
    rewrite str_app_cons, str_app_nil_l.
    rewrite lines_loop_body by (apply vocabulary_body_one_line; exact Hterm).
    rewrite str_app_nil_l. f_equal. apply (IH (ids ∘ S)). exact H.
Qed.

Lemma foldl_insert_entry_other (entries : list (string * list Posting))
    (index : gmap string (list Posting)) (term : string) :
  term ∉ entries.*1 ->
  foldl insert_entry index entries !! term = index !! term.
Proof.
  revert index. induction entries as [|[t pl] entries IH]; intros index H; [reflexivity|].
  cbn [foldl]. rewrite fmap_cons in H. apply not_elem_of_cons in H as [Hne H].
  rewrite (IH _ H). unfold insert_entry. cbn in *. apply lookup_insert_ne. congruence.
Qed.

Lemma foldl_insert_entry_this (entries : list (string * list Posting))
    (index : gmap string (list Posting)) (term : string) (posting_list : list Posting) :
  NoDup entries.*1 -> (term, posting_list) ∈ entries ->
  foldl insert_entry index entries !! term = Some posting_list.
Proof.
  revert index. induction entries as [|[t pl] entries IH]; intros index Hnd Hin.
  - apply elem_of_nil in Hin. contradiction.
  - rewrite fmap_cons in Hnd. apply NoDup_cons in Hnd as [Hfresh Hnd].
    cbn [foldl]. apply elem_of_cons in Hin as [Heq|Hin].
    + injection Heq as -> ->. rewrite foldl_insert_entry_other by exact Hfresh.
      unfold insert_entry. cbn. apply lookup_insert_eq.
    + apply IH; assumption.
Qed.

Lemma foldl_insert_map_to_list (index : gmap string (list Posting)) :
  foldl insert_entry ∅ (map_to_list index) = index.
Proof.
  apply map_eq. intros term. destruct (index !! term) as [pl|] eqn:E.
  - apply foldl_insert_entry_this; [apply NoDup_fst_map_to_list|].
    apply elem_of_map_to_list. exact E.
  - rewrite foldl_insert_entry_other; [apply lookup_empty|].
    intros Hin. apply list_elem_of_fmap in Hin as ([t pl] & -> & Hin).
    apply elem_of_map_to_list in Hin. cbn in E. congruence.
Qed.

(** ** [documents.txt] *)

Lemma url_ok_inv (url : string) :
  url_ok url = true ->
  Str.all (fun c => negb (Ascii.eqb c Chars.tab)) url = true /\
  Str.all not_newline url = true.
Proof.
  unfold url_ok. intros H. split; (eapply str_all_impl; [|exact H]);
    intros c Hc; apply andb_prop in Hc as [H1 H2]; assumption.
Qed.

Lemma document_fields_body (doc : nat) (url title : string) :
  url_ok url = true -> title_ok title = true ->
  SearchEngine.document_fields (document_body doc url title)
  = Some (Z.of_nat doc, url, title).
Proof.
  intros Hurl Htitle. apply url_ok_inv in Hurl as [Hurl _].
  unfold SearchEngine.document_fields, document_body.
  rewrite get_int_put_nat by reflexivity.
  unfold getline. cbn [getline_loop]. rewrite Ascii.eqb_refl.
  rewrite getline_loop_found by exact Hurl. rewrite str_app_nil_l.
  rewrite getline_loop_end by exact Htitle. reflexivity.
Qed.

Lemma document_body_one_line (doc : nat) (url title : string) :
  url_ok url = true -> title_ok title = true ->
  Str.all not_newline (document_body doc url title) = true.
Proof.
  intros Hurl Htitle. apply url_ok_inv in Hurl as [_ Hurl]. unfold document_body.
  rewrite str_all_app. cbn [Str.all]. rewrite str_all_app. cbn [Str.all].
  unfold title_ok in Htitle.
  rewrite (digits_not_newline _ (put_nat_digits _)), Hurl, Htitle. reflexivity.
Qed.

Lemma document_line_body (titles : list string) (i : nat) (url : string) :
  IndexBuilder.document_line titles i url
  = (document_body i url (nth i titles EmptyString)
     ++ String Chars.newline EmptyString)%string.
Proof.
  unfold IndexBuilder.document_line, document_body.
  rewrite !str_app_assoc, !str_app_cons, !str_app_assoc, !str_app_cons. reflexivity.
Qed.

Lemma push_row {A : Type} (done : list A) (n : nat) (x d : A) :
  length done = n ->
  <[Z.to_nat (Z.of_nat n) := x]>
    (done ++ replicate (missing_rows n (Z.of_nat n)) d) = done ++ [x].
Proof.
  intros <-. unfold missing_rows.
  replace (Z.to_nat (Z.of_nat (length done) + 1) - length done)%nat with 1%nat by lia.
  rewrite Nat2Z.id. cbn [replicate].
  rewrite <- (Nat.add_0_r (length done)) at 1. rewrite insert_app_r. reflexivity.
Qed.

Lemma load_documents_rows (urls titles : list string) (n : nat)
    (index : gmap string (list Posting)) (done_urls done_titles : list string) :
  length done_urls = n -> length done_titles = n ->
  length titles = length urls ->
  Forall (fun url => url_ok url = true) urls ->
  Forall (fun title => title_ok title = true) titles ->
  SearchEngine.load_documents
    (imap (fun i url => document_body (n + i) url (nth i titles EmptyString)) urls)
    (SearchEngine.mk index done_urls done_titles (replicate n 0))
  = Some (SearchEngine.mk index (done_urls ++ urls) (done_titles ++ titles)
            (replicate (n + length urls) 0)).
Proof.
  revert titles n done_urls done_titles.
  induction urls as [|url urls IH]; intros titles n du dt Hdu Hdt Hlen Hurls Htitles.
  - destruct titles; [|discriminate]. cbn. rewrite !app_nil_r, Nat.add_0_r. reflexivity.
  - destruct titles as [|title titles]; [discriminate|].
    apply Forall_cons in Hurls as [Hurl Hurls].
    apply Forall_cons in Htitles as [Htitle Htitles].
    rewrite imap_cons. cbn [SearchEngine.load_documents nth].
    rewrite Nat.add_0_r, document_fields_body by assumption.
    destruct (Z.ltb_spec (Z.of_nat n) 0); [lia|].
    cbn [SearchEngine.doc_urls_ SearchEngine.doc_titles_ SearchEngine.doc_lengths_
         SearchEngine.inverted_index_].
    rewrite Hdu, (push_row du n url EmptyString Hdu),
      (push_row dt n title EmptyString Hdt).
    assert (Hzero : replicate n 0 ++ replicate (missing_rows n (Z.of_nat n)) 0
                    = replicate (S n) 0).
    { unfold missing_rows.
      replace (Z.to_nat (Z.of_nat n + 1) - n)%nat with 1%nat by lia.
      rewrite <- replicate_add. f_equal. lia. }
    rewrite Hzero.
    rewrite (imap_ext _ (fun i url => document_body (S n + i) url
                                        (nth i titles EmptyString))).
    + rewrite (IH titles (S n) (du ++ [url]) (dt ++ [title])).
      * rewrite <- !app_assoc. cbn [app length].
        replace (S n + length urls)%nat with (n + S (length urls))%nat by lia.
        reflexivity.
      * rewrite length_app. cbn. lia.
      * rewrite length_app. cbn. lia.
      * cbn in Hlen. lia.
      * exact Hurls.
      * exact Htitles.
    + intros i u _. cbn. f_equal. f_equal. lia.
Qed.

Lemma document_lines (titles urls : list string) (n : nat) :
  length titles = length urls ->
  Forall (fun url => url_ok url = true) urls ->
  Forall (fun title => title_ok title = true) titles ->
  lines_loop
    (concat_strings
       (imap (fun i url =>
                (document_body (n + i) url (nth i titles EmptyString)
                 ++ String Chars.newline EmptyString)%string) urls))
    EmptyString
  = imap (fun i url => document_body (n + i) url (nth i titles EmptyString)) urls.
Proof.
  revert titles n. induction urls as [|url urls IH]; intros titles n Hlen Hurls Htitles.
  - reflexivity.
  - destruct titles as [|title titles]; [discriminate|].
    apply Forall_cons in Hurls as [Hurl Hurls].
    apply Forall_cons in Htitles as [Htitle Htitles].
    rewrite !imap_cons, concat_strings_cons. cbn [nth].
    rewrite str_app_assoc, str_app_cons, str_app_nil_l.
    rewrite lines_loop_body by (apply document_body_one_line; assumption).
    rewrite str_app_nil_l. f_equal.
    rewrite (imap_ext _ (fun i url =>
               (document_body (S n + i) url (nth i titles EmptyString)
                ++ String Chars.newline EmptyString)%string)).
    + rewrite (IH titles (S n)); [|cbn in Hlen; lia|exact Hurls|exact Htitles].
      apply imap_ext. intros i u _. cbn. f_equal. lia.
    + intros i u _. cbn. f_equal. f_equal. lia.
Qed.

(** ** [doc_lengths.txt] *)

Lemma get_ints_skip_newline (fuel : nat) (s : string) :
  get_ints fuel (String Chars.newline s) = get_ints fuel s.
Proof.
  destruct fuel as [|fuel]; [reflexivity|].
  cbn [get_ints]. rewrite get_int_space by reflexivity. reflexivity.
Qed.

Lemma get_ints_lines (values : list Z) (fuel : nat) :
  Forall (fun n => 0 <= n) values -> (length values <= fuel)%nat ->
  get_ints fuel (concat_strings (map IndexBuilder.length_line values)) = values.
Proof.
  revert fuel. induction values as [|v values IH]; intros fuel Hpos Hfuel.
  - destruct fuel; reflexivity.
  - apply Forall_cons in Hpos as [Hv Hpos].
    destruct fuel as [|fuel]; [cbn in Hfuel; lia|].
    cbn [map]. rewrite concat_strings_cons. cbn [get_ints].
    unfold IndexBuilder.length_line at 1.
    rewrite put_int_nonneg by exact Hv.
    rewrite str_app_assoc, str_app_cons, str_app_nil_l.
    rewrite get_int_put_nat by reflexivity.
    rewrite Z2Nat.id by exact Hv. rewrite get_ints_skip_newline.
    f_equal. apply IH; [exact Hpos|]. cbn in Hfuel. lia.
Qed.

Lemma lengths_text_size (values : list Z) :
  (length values
   <= String.length (concat_strings (map IndexBuilder.length_line values)))%nat.
Proof.
  induction values as [|v values IH]; [cbn; lia|].
  cbn [map length]. rewrite concat_strings_cons, str_length_app.
  unfold IndexBuilder.length_line at 1.
  rewrite str_length_app. cbn [String.length]. lia.
Qed.

Lemma load_lengths_rows (values : list Z) (k : nat) (done : list Z) :
  length done = k ->
  SearchEngine.load_lengths values k (done ++ replicate (length values) 0)
  = done ++ values.
Proof.
  revert k done. induction values as [|v values IH]; intros k done Hk.
  - cbn. reflexivity.
  - cbn [SearchEngine.load_lengths length replicate].
    assert (Hmiss : missing_rows (length (done ++ 0 :: replicate (length values) 0))
                      (Z.of_nat k) = O).
    { unfold missing_rows. rewrite length_app. cbn. lia. }
    rewrite Hmiss. cbn [replicate]. rewrite app_nil_r.
    rewrite <- (Nat.add_0_r k) at 2. rewrite <- Hk at 2.
    rewrite insert_app_r. cbn [insert list_insert].
    rewrite (IH (S k) (done ++ [v])) || (
      replace (done ++ v :: replicate (length values) 0)
        with ((done ++ [v]) ++ replicate (length values) 0)
        by (rewrite <- app_assoc; reflexivity);
      rewrite (IH (S k) (done ++ [v]))).
    + rewrite <- app_assoc. reflexivity.
    + rewrite length_app. cbn. lia.
Qed.

End RoundTrip.

Section RoundTripTheorem.

Lemma load_saved_vocabulary (b : IndexBuilder.t) :
  builder_ok b ->
  SearchEngine.load_vocabulary
    (Stream.lines (vocabulary_txt (IndexBuilder.save_index b)))
    (index_bin (IndexBuilder.save_index b)) ∅
  = Some (IndexBuilder.inverted_index_ b).
Proof.
  intros Hok. cbn [IndexBuilder.save_index vocabulary_txt index_bin].
  assert (Hterms : Forall (fun entry : string * list Posting => term_ok (fst entry) = true)
                          (IndexBuilder.saved_entries b)).
  { apply Forall_forall. intros [term pl] Hin. apply saved_entries_lookup in Hin.
    exact (ok_terms b Hok _ _ Hin). }
  assert (Hlines : Stream.lines
                     (concat_strings
                        (imap IndexBuilder.vocabulary_line (IndexBuilder.saved_entries b)))
                   = imap (fun i => vocabulary_body i) (IndexBuilder.saved_entries b))
    by exact (vocabulary_lines _ (fun i => i) Hterms).
  rewrite Hlines. unfold IndexBuilder.index_bin_of.
  rewrite <- (app_nil_r (flat_map _ (IndexBuilder.saved_entries b))).
  rewrite (load_vocabulary_entries _ (fun i => i) [] ∅ Hterms).
  unfold IndexBuilder.saved_entries. rewrite foldl_insert_map_to_list. reflexivity.
Qed.

Lemma load_saved_documents (b : IndexBuilder.t) (index : gmap string (list Posting)) :
  builder_ok b ->
  SearchEngine.load_documents
    (Stream.lines (documents_txt (IndexBuilder.save_index b)))
    (SearchEngine.mk index [] [] [])
  = Some (SearchEngine.mk index (IndexBuilder.doc_urls_ b) (IndexBuilder.doc_titles_ b)
            (replicate (length (IndexBuilder.doc_urls_ b)) 0)).
Proof.
  intros Hok. cbn [IndexBuilder.save_index documents_txt].
  rewrite (imap_ext _ (fun i url =>
             (document_body (0 + i) url
                (nth i (IndexBuilder.doc_titles_ b) EmptyString)
              ++ String Chars.newline EmptyString)%string))
    by (intros i u _; apply document_line_body).
  unfold Stream.lines.
  rewrite document_lines;
    [|apply (ok_titles b Hok)|apply (ok_urls_clean b Hok)|apply (ok_titles_clean b Hok)].
  apply (load_documents_rows (IndexBuilder.doc_urls_ b) (IndexBuilder.doc_titles_ b)
           O index [] []);
    [reflexivity|reflexivity|apply (ok_titles b Hok)|apply (ok_urls_clean b Hok)
    |apply (ok_titles_clean b Hok)].
Qed.

Lemma load_saved_lengths (b : IndexBuilder.t) (text : string) :
  builder_ok b ->
  doc_lengths_txt (IndexBuilder.save_index b) = Some text ->
  SearchEngine.load_lengths (Stream.get_ints (String.length text) text) 0
    (replicate (length (IndexBuilder.doc_urls_ b)) 0)
  = IndexBuilder.doc_lengths_ b.
Proof.
  intros Hok. cbn [IndexBuilder.save_index doc_lengths_txt]. intros [= <-].
  rewrite get_ints_lines;
    [|apply (ok_lengths_nonneg b Hok)|apply lengths_text_size].
  rewrite <- (ok_lengths b Hok).
  apply (load_lengths_rows (IndexBuilder.doc_lengths_ b) O []). reflexivity.
Qed.

Lemma load_saved (b : IndexBuilder.t) :
  builder_ok b ->
  SearchEngine.load_index SearchEngine.new (IndexBuilder.save_index b)
  = Some (engine_of b).
Proof.
  intros Hok. unfold SearchEngine.load_index.
  cbn [SearchEngine.new SearchEngine.inverted_index_ SearchEngine.doc_urls_
       SearchEngine.doc_titles_ SearchEngine.doc_lengths_].
  rewrite (load_saved_vocabulary b Hok), (load_saved_documents b _ Hok).
  cbn [SearchEngine.inverted_index_ SearchEngine.doc_urls_
       SearchEngine.doc_titles_ SearchEngine.doc_lengths_].
  destruct (doc_lengths_txt (IndexBuilder.save_index b)) as [text|] eqn:E;
    [|discriminate E].
  rewrite (load_saved_lengths b text Hok E). reflexivity.
Qed.

End RoundTripTheorem.

(** C8, as the code has it.  For an index built by [add_document] calls
    whose URLs hold no tab and no newline and whose titles hold no newline,
    [load_index] on what [save_index] wrote yields the builder's inverted
    index (every posting list, in order) and its URL, title and length
    arrays. *)
Theorem save_load_round_trip (docs : list Document) (b : IndexBuilder.t) :
  add_documents IndexBuilder.new docs = Some b ->
  forallb storable docs = true ->
  exists e,
    SearchEngine.load_index SearchEngine.new (IndexBuilder.save_index b) = Some e /\
    SearchEngine.inverted_index_ e = IndexBuilder.inverted_index_ b /\
    SearchEngine.doc_urls_ e = IndexBuilder.doc_urls_ b /\
    SearchEngine.doc_titles_ e = IndexBuilder.doc_titles_ b /\
    SearchEngine.doc_lengths_ e = IndexBuilder.doc_lengths_ b.
Proof.
  intros Hadd Hst. exists (engine_of b).
  split; [|repeat split].
  apply load_saved. exact (add_documents_ok docs _ _ Hadd Hst new_ok).
Qed.

Lemma save_load_round_trip_witness :
  exists e,
    SearchEngine.load_index SearchEngine.new (IndexBuilder.save_index corpus_builder)
    = Some e /\
    SearchEngine.inverted_index_ e = IndexBuilder.inverted_index_ corpus_builder /\
    SearchEngine.doc_urls_ e = IndexBuilder.doc_urls_ corpus_builder /\
    SearchEngine.doc_titles_ e = IndexBuilder.doc_titles_ corpus_builder /\
    SearchEngine.doc_lengths_ e = IndexBuilder.doc_lengths_ corpus_builder.
Proof.
  apply (save_load_round_trip corpus corpus_builder).
  - vm_compute. reflexivity.
  - reflexivity.
Defined.

(** C8 as stated fails: a tab inside a URL is read back as the end of the
    URL.  The document [(0, "a<TAB>b", "t")] is saved as the line
    [0<TAB>a<TAB>b<TAB>t] and loaded as URL ["a"], title ["b<TAB>t"]. *)
Lemma save_load_counterexample :
  exists b e,
    add_documents IndexBuilder.new tabbed = Some b /\
    SearchEngine.load_index SearchEngine.new (IndexBuilder.save_index b) = Some e /\
    IndexBuilder.doc_urls_ b = [tabbed_url] /\
    SearchEngine.doc_urls_ e = ["a"] /\
    SearchEngine.doc_urls_ e <> IndexBuilder.doc_urls_ b /\
    SearchEngine.doc_titles_ e <> IndexBuilder.doc_titles_ b.
Proof.
  do 2 eexists. split; [vm_compute; reflexivity|].
  split; [vm_compute; reflexivity|].
  split; [vm_compute; reflexivity|].
  split; [vm_compute; reflexivity|].
  split; vm_compute; discriminate.
Qed.


(** * The tokenizer *)

Section TokenizerFacts.

Import Tokenizer.

Lemma raw_first_lower (c : ascii) :
  is_alpha c = true -> Chars.is_lower (Chars.tolower c) = true.
Proof.
  destruct c as [[] [] [] [] [] [] [] []]; vm_compute; intros H;
    first [reflexivity | discriminate H].
Qed.

Lemma surface_push (current : string) (c : ascii) :
  surface current ->
  is_alpha c || Ascii.eqb c Chars.apostrophe && negb (Str.empty current) = true ->
  surface (Str.push current c).
Proof.
  intros Hs Hc. destruct current as [|c0 r]; cbn in *.
  - rewrite andb_false_r, orb_false_r in Hc. split; [exact Hc|reflexivity].
  - destruct Hs as [H0 Hr]. split; [exact H0|].
    rewrite str_all_app, Hr. cbn. rewrite andb_true_r. unfold raw_char.
    rewrite andb_true_r in Hc. exact Hc.
Qed.

Lemma flush_token_ok (current : string) (tokens : list string) :
  surface current ->
  Forall (fun tok => token_ok tok = true) tokens ->
  Forall (fun tok => token_ok tok = true) (flush current tokens).
Proof.
  intros Hs Htoks. unfold flush.
  destruct (_ && _) eqn:E; [|exact Htoks].
  apply andb_prop in E as [Hlen Hstop].
  apply Forall_app. split; [exact Htoks|]. constructor; [|constructor].
  unfold token_ok. rewrite Hlen, Hstop, !andb_true_r.
  destruct current as [|c r]; [discriminate Hlen|].
  destruct Hs as [Hc Hr]. unfold to_lower. cbn [Str.map Str.all starts_with_letter].
  rewrite (raw_first_lower _ Hc), andb_true_r.
  rewrite str_all_map.
  assert (Hc' : term_char (Chars.tolower c) = true).
  { apply raw_char_lower. unfold is_alpha in Hc. rewrite Hc. reflexivity. }
  rewrite Hc'. cbn [andb].
  eapply str_all_impl; [|exact Hr]. exact raw_char_lower.
Qed.

Lemma tokenize_loop_token_ok (text current : string) (tokens : list string) :
  surface current ->
  Forall (fun tok => token_ok tok = true) tokens ->
  Forall (fun tok => token_ok tok = true) (tokenize_loop text current tokens).
Proof.
  revert current tokens. induction text as [|c text IH]; intros current tokens Hs Htoks;
    cbn [tokenize_loop].
  - destruct (negb (Str.empty current)); [|exact Htoks].
    apply flush_token_ok; assumption.
  - destruct (is_alpha c || Ascii.eqb c Chars.apostrophe && negb (Str.empty current)) eqn:E.
    + apply IH; [|exact Htoks]. apply surface_push; assumption.
    + destruct (negb (Str.empty current)).
      * apply IH; [exact I|]. apply flush_token_ok; assumption.
      * apply IH; assumption.
Qed.

(** The loop with tokens already collected: they stay in front. *)
Lemma tokenize_loop_app (text current : string) (tokens : list string) :
  tokenize_loop text current tokens = tokens ++ tokenize_loop text current [].
Proof.
  revert current tokens. induction text as [|c text IH]; intros current tokens;
    cbn [tokenize_loop].
  - unfold flush. destruct (negb (Str.empty current)); [|symmetry; apply app_nil_r].
    destruct (_ && _); [reflexivity|symmetry; apply app_nil_r].
  - destruct (is_alpha c || Ascii.eqb c Chars.apostrophe && negb (Str.empty current)).
    + apply IH.
    + destruct (negb (Str.empty current)).
      * rewrite IH. rewrite (IH _ (flush current [])).
        unfold flush. destruct (_ && _); cbn [app]; rewrite <- ?app_assoc; reflexivity.
      * apply IH.
Qed.

(** A separator closes the token under construction as the end of the text
    does. *)
Lemma tokenize_loop_separator (a b : string) (c : ascii) (current : string)
    (tokens : list string) :
  separator c = true ->
  tokenize_loop (a ++ String c b) current tokens
  = tokenize_loop a current tokens ++ tokenize b.
Proof.
  intros Hc. unfold separator in Hc. apply andb_prop in Hc as [Halpha Hap].
  apply negb_true_iff in Halpha, Hap.
  revert current tokens. induction a as [|x a IH]; intros current tokens.
  - rewrite str_app_nil_l. cbn [tokenize_loop]. rewrite Halpha, Hap. cbn [orb andb].
    unfold tokenize. destruct current; cbn [Str.empty negb]; apply tokenize_loop_app.
  - rewrite str_app_cons. cbn [tokenize_loop].
    destruct (is_alpha x || Ascii.eqb x Chars.apostrophe && negb (Str.empty current)).
    + apply IH.
    + destruct (negb (Str.empty current)); apply IH.
Qed.

Lemma term_char_raw (c : ascii) : term_char c = true -> raw_char c = true.
Proof.
  destruct c as [[] [] [] [] [] [] [] []]; vm_compute; intros H;
    first [reflexivity | discriminate H].
Qed.

Lemma term_char_tolower (c : ascii) : term_char c = true -> Chars.tolower c = c.
Proof.
  destruct c as [[] [] [] [] [] [] [] []]; vm_compute; intros H;
    first [reflexivity | discriminate H].
Qed.

Lemma lower_is_alpha (c : ascii) : Chars.is_lower c = true -> is_alpha c = true.
Proof.
  destruct c as [[] [] [] [] [] [] [] []]; vm_compute; intros H;
    first [reflexivity | discriminate H].
Qed.

Lemma to_lower_term_chars (s : string) :
  Str.all term_char s = true -> to_lower s = s.
Proof.
  unfold to_lower. induction s as [|c s IH]; cbn; [reflexivity|].
  intros H. apply andb_prop in H as [Hc Hs].
  rewrite (term_char_tolower _ Hc), (IH Hs). reflexivity.
Qed.

(** Inside a token the loop only extends the token under construction. *)
Lemma tokenize_loop_raw (w rest current : string) (tokens : list string) :
  Str.all raw_char w = true -> Str.empty current = false ->
  tokenize_loop (w ++ rest) current tokens = tokenize_loop rest (current ++ w) tokens.
Proof.
  revert current. induction w as [|c w IH]; intros current Hw Hne.
  - rewrite str_app_nil_l, str_app_nil_r. reflexivity.
  - cbn in Hw. apply andb_prop in Hw as [Hc Hw].
    rewrite str_app_cons. cbn [tokenize_loop]. rewrite Hne. cbn [negb].
    rewrite andb_true_r. unfold raw_char in Hc. unfold is_alpha. rewrite Hc.
    rewrite IH; [rewrite str_push_app; reflexivity|exact Hw|].
    unfold Str.push. rewrite str_empty_app, Hne. reflexivity.
Qed.

Lemma token_ok_inv (token : string) :
  token_ok token = true ->
  exists c r, token = String c r /\ is_alpha c = true /\ Str.all raw_char r = true /\
              Str.all term_char token = true /\ (2 <= String.length token)%nat /\
              is_stop_word token = false.
Proof.
  unfold token_ok. intros H.
  apply andb_prop in H as [H Hstop]. apply andb_prop in H as [H Hlen].
  apply andb_prop in H as [Hall Hfirst].
  apply negb_true_iff in Hstop. apply Nat.leb_le in Hlen.
  destruct token as [|c r]; [discriminate Hfirst|].
  exists c, r. cbn in Hfirst. repeat split; try assumption.
  - apply lower_is_alpha. exact Hfirst.
  - cbn in Hall. apply andb_prop in Hall as [_ Hr].
    eapply str_all_impl; [|exact Hr]. exact term_char_raw.
Qed.

Lemma tokenize_loop_token (token rest : string) (tokens : list string) :
  token_ok token = true ->
  tokenize_loop (token ++ rest) EmptyString tokens
  = tokenize_loop rest token tokens.
Proof.
  intros H. apply token_ok_inv in H as (c & r & -> & Hc & Hr & _).
  rewrite str_app_cons. cbn [tokenize_loop]. rewrite Hc. cbn [orb].
  rewrite tokenize_loop_raw; [reflexivity|exact Hr|reflexivity].
Qed.

Lemma flush_token (token : string) (tokens : list string) :
  token_ok token = true -> flush token tokens = tokens ++ [token].
Proof.
  intros H. apply token_ok_inv in H as (c & r & -> & _ & _ & Hall & Hlen & Hstop).
  unfold flush. rewrite (to_lower_term_chars _ Hall), Hstop.
  destruct (Nat.leb_spec 2 (String.length (String c r))); [reflexivity|lia].
Qed.

Lemma token_nonempty (token : string) : token_ok token = true -> Str.empty token = false.
Proof. intros H. apply token_ok_inv in H as (c & r & -> & _). reflexivity. Qed.

Lemma tokenize_loop_tokens (toks : list string) (tokens : list string) :
  forallb token_ok toks = true ->
  tokenize_loop (sentence toks) EmptyString tokens = tokens ++ toks.
Proof.
  revert tokens. induction toks as [|w ws IH]; intros tokens H.
  - cbn. rewrite app_nil_r. reflexivity.
  - cbn [forallb] in H. apply andb_prop in H as [Hw Hws].
    pose proof (token_nonempty _ Hw) as Hne.
    destruct ws as [|w' ws'].
    + cbn [sentence]. rewrite <- (str_app_nil_r w) at 1.
      rewrite tokenize_loop_token by exact Hw.
      cbn [tokenize_loop]. rewrite Hne. cbn [negb]. apply flush_token. exact Hw.
    + change (sentence (w :: w' :: ws'))
        with (w ++ String " " (sentence (w' :: ws')))%string.
      rewrite tokenize_loop_token by exact Hw.
      cbn [tokenize_loop]. change (is_alpha " ") with false.
      change (Ascii.eqb " " Chars.apostrophe) with false. cbn [orb andb].
      rewrite Hne. cbn [negb]. rewrite (IH _ Hws), flush_token by exact Hw.
      rewrite <- app_assoc. reflexivity.
Qed.

Lemma tolower_idem (c : ascii) : Chars.tolower (Chars.tolower c) = Chars.tolower c.
Proof. destruct c as [[] [] [] [] [] [] [] []]; reflexivity. Qed.

Lemma is_alpha_tolower (c : ascii) : is_alpha (Chars.tolower c) = is_alpha c.
Proof. destruct c as [[] [] [] [] [] [] [] []]; reflexivity. Qed.

Lemma apostrophe_tolower (c : ascii) :
  Ascii.eqb (Chars.tolower c) Chars.apostrophe = Ascii.eqb c Chars.apostrophe.
Proof. destruct c as [[] [] [] [] [] [] [] []]; reflexivity. Qed.

Lemma to_lower_idem (s : string) : to_lower (to_lower s) = to_lower s.
Proof.
  unfold to_lower. induction s as [|c s IH]; cbn; [reflexivity|].
  rewrite tolower_idem, IH. reflexivity.
Qed.

Lemma to_lower_push (s : string) (c : ascii) :
  to_lower (Str.push s c) = Str.push (to_lower s) (Chars.tolower c).
Proof. unfold to_lower, Str.push. rewrite str_map_app. reflexivity. Qed.

Lemma flush_lowered (current : string) (tokens : list string) :
  flush (to_lower current) tokens = flush current tokens.
Proof. unfold flush. rewrite to_lower_idem. reflexivity. Qed.

Lemma empty_to_lower (s : string) : Str.empty (to_lower s) = Str.empty s.
Proof. destruct s; reflexivity. Qed.

Lemma tokenize_loop_lowered (text current : string) (tokens : list string) :
  tokenize_loop (to_lower text) (to_lower current) tokens
  = tokenize_loop text current tokens.
Proof.
  revert current tokens. induction text as [|c text IH]; intros current tokens.
  - cbn [to_lower Str.map tokenize_loop]. rewrite empty_to_lower, flush_lowered.
    reflexivity.
  - change (to_lower (String c text)) with (String (Chars.tolower c) (to_lower text)).
    cbn [tokenize_loop].
    rewrite is_alpha_tolower, apostrophe_tolower, empty_to_lower, flush_lowered.
    destruct (is_alpha c || Ascii.eqb c Chars.apostrophe && negb (Str.empty current)).
    + rewrite <- to_lower_push. apply IH.
    + destruct (negb (Str.empty current)).
      * apply (IH EmptyString).
      * apply IH.
Qed.

End TokenizerFacts.

(** Every token [tokenize] returns is made of lower-case letters and
    apostrophes, starts with a letter, has at least two characters and is no
    stop word. *)
Theorem tokenize_tokens_ok (text : string) :
  Forall (fun token => token_ok token = true) (Tokenizer.tokenize text).
Proof. apply tokenize_loop_token_ok; [exact I|constructor]. Qed.

(** A character that is neither a letter nor an apostrophe splits the text:
    the tokens of [a ++ c ++ b] are the tokens of [a] followed by the tokens
    of [b]. *)
Theorem tokenize_separator (a b : string) (c : ascii) :
  separator c = true ->
  Tokenizer.tokenize (a ++ String c b) = Tokenizer.tokenize a ++ Tokenizer.tokenize b.
Proof. intros Hc. apply tokenize_loop_separator. exact Hc. Qed.

Lemma tokenize_separator_witness :
  separator "-" = true /\
  Tokenizer.tokenize ("pip" ++ String "-" "boy")
  = Tokenizer.tokenize "pip" ++ Tokenizer.tokenize "boy".
Proof. split; [reflexivity|apply tokenize_separator; reflexivity]. Defined.

(** Tokenizing its own output again changes nothing: the tokens of a text,
    joined by single spaces, tokenize to themselves. *)
Theorem tokenize_idempotent (text : string) :
  Tokenizer.tokenize (sentence (Tokenizer.tokenize text)) = Tokenizer.tokenize text.
Proof.
  unfold Tokenizer.tokenize at 1. rewrite tokenize_loop_tokens; [reflexivity|].
  apply forallb_forall. intros tok Hin.
  pose proof (tokenize_loop_token_ok text EmptyString [] I ltac:(constructor)) as H.
  rewrite List.Forall_forall in H. apply H. exact Hin.
Qed.

(** The tokenizer does not see the case of letters. *)
Theorem tokenize_case_insensitive (text : string) :
  Tokenizer.tokenize (Tokenizer.to_lower text) = Tokenizer.tokenize text.
Proof. apply (tokenize_loop_lowered text EmptyString []). Qed.


(** * The stemmer never lengthens a word and never empties it *)

Section StemBounds.

Import PorterStemmer.

Lemma substring_length (s : string) (n m : nat) :
  String.length (String.substring n m s) = Nat.min m (String.length s - n).
Proof.
  revert n m. induction s as [|c s IH]; intros n m.
  - destruct n, m; reflexivity.
  - destruct n as [|n]; [destruct m as [|m]|]; cbn [String.substring String.length].
    + reflexivity.
    + rewrite IH. cbn. rewrite Nat.sub_0_r. reflexivity.
    + rewrite IH. reflexivity.
Qed.

Lemma substr_size (s : string) (pos len : Z) :
  0 <= pos -> 0 <= len -> pos + len <= Str.size s ->
  Str.size (Str.substr s pos len) = len.
Proof.
  unfold Str.size, Str.substr. intros Hp Hl Hs. rewrite substring_length. lia.
Qed.

Lemma str_size_app (a b : string) : Str.size (a ++ b) = Str.size a + Str.size b.
Proof. unfold Str.size. rewrite str_length_app. lia. Qed.

Lemma replace_size (s t : string) (pos len : Z) :
  0 <= pos -> 0 <= len -> pos + len <= Str.size s ->
  Str.size (Str.replace s pos len t) = Str.size s - len + Str.size t.
Proof.
  intros Hp Hl Hs. unfold Str.replace.
  rewrite !str_size_app, !substr_size; unfold Str.size in *; lia.
Qed.

Lemma ends_inv (s : string) (st st' : t) :
  ends s st = Some st' ->
  word_ st' = word_ st /\ k_ st' = k_ st /\ j_ st' = k_ st - Str.size s /\
  0 <= Str.size s <= k_ st + 1.
Proof.
  unfold ends. intros H.
  destruct (negb _); [discriminate|].
  destruct (Z.ltb_spec (k_ st + 1) (Str.size s)); [discriminate|].
  destruct (negb _); [discriminate|].
  injection H as <-. cbn. repeat split; unfold Str.size in *; lia.
Qed.

Lemma set_to_shape (s : string) (st : t) :
  -1 <= j_ st <= k_ st -> k_ st < Str.size (word_ st) ->
  k_ (set_to s st) = j_ st + Str.size s /\
  Str.size (word_ (set_to s st)) = Str.size (word_ st) - (k_ st - j_ st) + Str.size s.
Proof.
  intros Hj Hk. unfold set_to. cbn [k_ word_]. split; [reflexivity|].
  rewrite replace_size; lia.
Qed.

Lemma measure_positive (st : t) : 0 < measure st -> 1 <= j_ st.
Proof.
  unfold measure. intros H.
  destruct (Z.le_gt_cases 1 (j_ st)) as [|Hj]; [assumption|exfalso].
  destruct (Z.lt_ge_cases (j_ st) 0) as [Hneg|Hpos].
  - replace (Z.to_nat (j_ st + 2)) with (Z.to_nat (j_ st + 2)) in H by reflexivity.
    destruct (Z.to_nat (j_ st + 2)); cbn in H; [lia|].
    destruct (Z.ltb_spec (j_ st) 0); lia.
  - assert (Hz : j_ st = 0) by lia. rewrite Hz in H.
    change (Z.to_nat (0 + 2)) with 2%nat in H. cbn [measure_loop] in H.
    rewrite Hz in H. change (0 <? 0 + 1) with true in H. cbn [Z.ltb] in H.
    change (0 <? 0) with false in H.
    destruct (is_consonant st 0); cbn [negb] in H; lia.
Qed.

Lemma vowel_in_stem_nonneg (st : t) : vowel_in_stem st = true -> 0 <= j_ st.
Proof.
  unfold vowel_in_stem. intros H.
  destruct (Z.le_gt_cases 0 (j_ st)) as [|Hj]; [assumption|exfalso].
  replace (Z.to_nat (j_ st + 1)) with O in H by lia. discriminate H.
Qed.

Lemma double_consonant_positive (st : t) (i : Z) :
  double_consonant st i = true -> 1 <= i.
Proof.
  unfold double_consonant. destruct (Z.ltb_spec i 1); [discriminate|lia].
Qed.

Lemma poke_shape (st : t) (c : ascii) :
  0 <= k_ st < Str.size (word_ st) ->
  k_ (poke st c) = k_ st /\ Str.size (word_ (poke st c)) = Str.size (word_ st).
Proof.
  intros Hk. unfold poke. cbn [k_ word_ set_word]. split; [reflexivity|].
  rewrite replace_size by lia. change (Str.size (String c EmptyString)) with 1. lia.
Qed.

(** A successful [ends] followed by [r]. *)
Lemma rule_bounded (bound : Z) (s u : string) (st st' : t) :
  Str.size u <= Str.size s ->
  ends s st = Some st' -> bounded bound st -> bounded bound (r u st').
Proof.
  intros Hsize E [Hk Hw]. apply ends_inv in E as (Ew & Ek & Ej & Hs).
  unfold r. destruct (Z.ltb_spec 0 (measure st')) as [Hm|_].
  - apply measure_positive in Hm.
    destruct (set_to_shape u st') as [Hk' Hw']; [lia|rewrite Ew; lia|].
    unfold bounded. rewrite Hk', Hw', Ew.
    pose proof (Zle_0_nat (String.length u)). unfold Str.size in *. lia.
  - unfold bounded. rewrite Ew, Ek. split; assumption.
Qed.

Lemma rules_bounded (bound : Z) (l : list (string * string)) (st : t) :
  forallb (fun rule => Str.size (snd rule) <=? Str.size (fst rule)) l = true ->
  bounded bound st -> bounded bound (rules l st).
Proof.
  induction l as [|[s u] l IH]; intros Hl Hb; cbn [rules]; [exact Hb|].
  cbn [forallb fst snd] in Hl. apply andb_prop in Hl as [Hsu Hl].
  apply Z.leb_le in Hsu.
  destruct (ends s st) as [st'|] eqn:E.
  - eapply rule_bounded; eassumption.
  - apply IH; assumption.
Qed.

Lemma step1ab_bounded (bound : Z) (st : t) :
  2 <= k_ st -> bounded bound st -> bounded bound (step1ab st).
Proof.
  intros H2 Hb. unfold step1ab.
  assert (H1 : let st1 :=
    (if Ascii.eqb (Str.at_ (word_ st) (k_ st)) "s"
     then match ends "sses" st with
          | Some st0 => set_k st0 (k_ st0 - 2)
          | None =>
              match ends "ies" st with
              | Some st0 => set_to "i" st0
              | None =>
                  if negb (Ascii.eqb (Str.at_ (word_ st) (k_ st - 1)) "s")
                  then set_k st (k_ st - 1)
                  else st
              end
          end
     else st) in bounded bound st1).
  { cbv zeta. destruct Hb as [Hk Hw].
    destruct (Ascii.eqb _ "s"); [|split; assumption].
    destruct (ends "sses" st) as [st0|] eqn:E1.
    { apply ends_inv in E1 as (Ew & Ek & Ej & Hs). change (Str.size "sses") with 4 in *.
      unfold bounded. cbn [k_ word_ set_k]. rewrite Ew, Ek. lia. }
    destruct (ends "ies" st) as [st0|] eqn:E2.
    { apply ends_inv in E2 as (Ew & Ek & Ej & Hs). change (Str.size "ies") with 3 in *.
      destruct (set_to_shape "i" st0) as [Hk' Hw']; [lia|rewrite Ew; lia|].
      unfold bounded. rewrite Hk', Hw', Ew. change (Str.size "i") with 1. lia. }
    destruct (negb _); [|split; assumption].
    unfold bounded. cbn [k_ word_ set_k]. lia. }
  cbv zeta in H1. revert H1. generalize
    (if Ascii.eqb (Str.at_ (word_ st) (k_ st)) "s"
     then match ends "sses" st with
          | Some st0 => set_k st0 (k_ st0 - 2)
          | None =>
              match ends "ies" st with
              | Some st0 => set_to "i" st0
              | None =>
                  if negb (Ascii.eqb (Str.at_ (word_ st) (k_ st - 1)) "s")
                  then set_k st (k_ st - 1)
                  else st
              end
          end
     else st).
  clear st H2 Hb. intros st [Hk Hw]. cbv zeta.
  destruct (ends "eed" st) as [st1|] eqn:E1.
  { apply ends_inv in E1 as (Ew & Ek & Ej & Hs). change (Str.size "eed") with 3 in *.
    destruct (Z.ltb_spec 0 (measure st1)) as [Hm|_].
    - apply measure_positive in Hm. unfold bounded. cbn [k_ word_ set_k].
      rewrite Ew, Ek. lia.
    - unfold bounded. rewrite Ew, Ek. lia. }
  assert (Hstrip : forall st1,
    word_ st1 = word_ st -> k_ st1 = k_ st -> j_ st1 <= k_ st - 2 ->
    bounded bound
      (if vowel_in_stem st1 then
         let st := set_k st1 (j_ st1) in
         match ends "at" st with
         | Some st => set_to "ate" st
         | None =>
         match ends "bl" st with
         | Some st => set_to "ble" st
         | None =>
         match ends "iz" st with
         | Some st => set_to "ize" st
         | None =>
             if double_consonant st (k_ st) then
               let st := set_k st (k_ st - 1) in
               let ch := Str.at_ (word_ st) (k_ st) in
               if Ascii.eqb ch "l" || Ascii.eqb ch "s" || Ascii.eqb ch "z"
               then set_k st (k_ st + 1)
               else st
             else if (measure st =? 1) && cvc st (k_ st)
                  then set_to "e" st
                  else st
         end end end
       else st1)).
  { intros st1 Ew Ek Ej.
    destruct (vowel_in_stem st1) eqn:Hv; [|unfold bounded; rewrite Ew, Ek; lia].
    apply vowel_in_stem_nonneg in Hv. cbv zeta.
    assert (Hsuffix : forall s u st2,
      ends s (set_k st1 (j_ st1)) = Some st2 ->
      Str.size s = 2 -> Str.size u = 3 -> bounded bound (set_to u st2)).
    { intros s u st2 E Hs Hu. apply ends_inv in E as (Ew2 & Ek2 & Ej2 & Hs2).
      cbn [k_ word_ set_k] in *.
      destruct (set_to_shape u st2) as [Hk' Hw']; [lia|rewrite Ew2, Ew; lia|].
      unfold bounded. rewrite Hk', Hw', Ew2, Ew. lia. }
    destruct (ends "at" _) as [st2|] eqn:Eat; [eapply Hsuffix; [exact Eat|reflexivity..]|].
    destruct (ends "bl" _) as [st2|] eqn:Ebl; [eapply Hsuffix; [exact Ebl|reflexivity..]|].
    destruct (ends "iz" _) as [st2|] eqn:Eiz; [eapply Hsuffix; [exact Eiz|reflexivity..]|].
    destruct (double_consonant _ _) eqn:Hd.
    - apply double_consonant_positive in Hd. cbn [k_ word_ set_k] in *.
      destruct (_ || _); unfold bounded; cbn [k_ word_ set_k]; rewrite Ew; lia.
    - destruct (_ && _).
      + destruct (set_to_shape "e" (set_k st1 (j_ st1))) as [Hk' Hw'];
          [cbn [k_ j_ set_k]; lia|cbn [k_ word_ set_k]; rewrite Ew; lia|].
        unfold bounded. rewrite Hk', Hw'. cbn [k_ j_ word_ set_k]. rewrite Ew.
        change (Str.size "e") with 1. lia.
      + unfold bounded. cbn [k_ word_ set_k]. rewrite Ew. lia. }
  destruct (ends "ed" st) as [st1|] eqn:E2.
  { apply ends_inv in E2 as (Ew & Ek & Ej & Hs). change (Str.size "ed") with 2 in *.
    apply Hstrip; [assumption..|lia]. }
  destruct (ends "ing" st) as [st1|] eqn:E3.
  { apply ends_inv in E3 as (Ew & Ek & Ej & Hs). change (Str.size "ing") with 3 in *.
    apply Hstrip; [assumption..|lia]. }
  split; assumption.
Qed.

Lemma step1c_bounded (bound : Z) (st : t) : bounded bound st -> bounded bound (step1c st).
Proof.
  intros [Hk Hw]. unfold step1c.
  destruct (ends "y" st) as [st1|] eqn:E; [|split; assumption].
  apply ends_inv in E as (Ew & Ek & Ej & Hs).
  destruct (vowel_in_stem st1); [|unfold bounded; rewrite Ew, Ek; lia].
  destruct (poke_shape st1 "i") as [Hk' Hw']; [rewrite Ew, Ek; lia|].
  unfold bounded. rewrite Hk', Hw', Ew, Ek. lia.
Qed.

Ltac by_rules :=
  repeat match goal with
         | |- bounded _ (if ?b then _ else _) => destruct b
         | |- bounded _ (rules _ _) => apply rules_bounded; [reflexivity|assumption]
         | |- bounded _ _ => assumption
         end.

Lemma step2_bounded (bound : Z) (st : t) : bounded bound st -> bounded bound (step2 st).
Proof. intros Hb. unfold step2. cbv zeta. by_rules. Qed.

Lemma step3_bounded (bound : Z) (st : t) : bounded bound st -> bounded bound (step3 st).
Proof. intros Hb. unfold step3. cbv zeta. by_rules. Qed.

Lemma suffixes_shape (l : list string) (st st' : t) (found : bool) :
  suffixes l st = (found, st') ->
  word_ st' = word_ st /\ k_ st' = k_ st /\ (found = true -> j_ st' <= k_ st).
Proof.
  induction l as [|s l IH]; cbn [suffixes]; intros H.
  - injection H as <- <-. repeat split. discriminate.
  - destruct (ends s st) as [st1|] eqn:E; [|apply IH; exact H].
    injection H as <- <-. apply ends_inv in E as (Ew & Ek & Ej & Hs).
    repeat split; try assumption. intros _. unfold Str.size in *. lia.
Qed.

Lemma step4_switch_shape (c : ascii) (st st' : t) (found : bool) :
  step4_switch c st = (found, st') ->
  word_ st' = word_ st /\ k_ st' = k_ st /\ (found = true -> j_ st' <= k_ st).
Proof.
  unfold step4_switch.
  repeat match goal with
         | |- context [if Ascii.eqb c ?x then _ else _] => destruct (Ascii.eqb c x)
         end;
    try apply suffixes_shape.
  - destruct (ends "ion" st) as [st1|] eqn:E; [|apply suffixes_shape].
    apply ends_inv in E as (Ew & Ek & Ej & Hs).
    destruct (_ && _).
    + intros H. injection H as <- <-. repeat split; try assumption.
      intros _. unfold Str.size in *. lia.
    + intros H. apply suffixes_shape in H as (Ew' & Ek' & Hj').
      rewrite Ew, Ek in *. repeat split; assumption.
  - intros H. injection H as <- <-. repeat split. discriminate.
Qed.

Lemma step4_bounded (bound : Z) (st : t) : bounded bound st -> bounded bound (step4 st).
Proof.
  intros [Hk Hw]. unfold step4.
  destruct (step4_switch _ st) as [found st'] eqn:E.
  apply step4_switch_shape in E as (Ew & Ek & Hj).
  destruct found.
  - specialize (Hj eq_refl). destruct (Z.ltb_spec 1 (measure st')) as [Hm|_].
    + assert (Hpos : 1 <= j_ st') by (apply measure_positive; lia).
      unfold bounded. cbn [k_ word_ set_k]. rewrite Ew. lia.
    + unfold bounded. rewrite Ew, Ek. lia.
  - unfold bounded. rewrite Ew, Ek. lia.
Qed.

Lemma step5_bounded (bound : Z) (st : t) : bounded bound st -> bounded bound (step5 st).
Proof.
  intros [Hk Hw]. unfold step5. cbv zeta.
  assert (H1 : bounded bound
    (if Ascii.eqb (Str.at_ (word_ (set_j st (k_ st))) (k_ (set_j st (k_ st)))) "e"
     then if (1 <? measure (set_j st (k_ st)))
             || (measure (set_j st (k_ st)) =? 1)
                && negb (cvc (set_j st (k_ st)) (k_ (set_j st (k_ st)) - 1))
          then set_k (set_j st (k_ st)) (k_ (set_j st (k_ st)) - 1)
          else set_j st (k_ st)
     else set_j st (k_ st))).
  { destruct (Ascii.eqb _ "e"); [|split; assumption].
    destruct (_ || _) eqn:Hm; [|split; assumption].
    assert (Hpos : 0 < measure (set_j st (k_ st))).
    { apply orb_prop in Hm as [Hm|Hm].
      - apply Z.ltb_lt in Hm. lia.
      - apply andb_prop in Hm as [Hm _]. apply Z.eqb_eq in Hm. lia. }
    apply measure_positive in Hpos. cbn [j_ set_j] in Hpos.
    unfold bounded. cbn [k_ word_ set_k set_j]. lia. }
  revert H1. generalize
    (if Ascii.eqb (Str.at_ (word_ (set_j st (k_ st))) (k_ (set_j st (k_ st)))) "e"
     then if (1 <? measure (set_j st (k_ st)))
             || (measure (set_j st (k_ st)) =? 1)
                && negb (cvc (set_j st (k_ st)) (k_ (set_j st (k_ st)) - 1))
          then set_k (set_j st (k_ st)) (k_ (set_j st (k_ st)) - 1)
          else set_j st (k_ st)
     else set_j st (k_ st)).
  clear st Hk Hw. intros st [Hk Hw].
  destruct (_ && _) eqn:Hl; [|split; assumption].
  apply andb_prop in Hl as [Hl _]. apply andb_prop in Hl as [_ Hd].
  apply double_consonant_positive in Hd.
  unfold bounded. cbn [k_ word_ set_k]. lia.
Qed.

(** The stem of a word of three or more characters: the first [k + 1]
    characters of the final buffer, with [0 <= k] below the word's size. *)
Lemma stem_shape (word : string) :
  (3 <= String.length word)%nat ->
  exists st, bounded (Str.size word - 1) st /\
             stem word = Str.substr (word_ st) 0 (k_ st + 1).
Proof.
  intros Hlen. unfold stem, stem_from. cbn [k_ word_ j_].
  destruct (Z.leb_spec (Str.size word - 1) 1) as [Hk|Hk];
    [unfold Str.size in Hk; lia|].
  cbn [snd]. eexists. split; [|reflexivity].
  apply step5_bounded, step4_bounded, step3_bounded, step2_bounded, step1c_bounded.
  apply step1ab_bounded; [cbn [k_]; lia|].
  unfold bounded. cbn [k_ word_]. lia.
Qed.

Lemma stem_short (word : string) :
  (String.length word <= 2)%nat -> stem word = word.
Proof.
  intros Hlen. unfold stem, stem_from. cbn [k_ word_ j_].
  destruct (Z.leb_spec (Str.size word - 1) 1) as [Hk|Hk];
    [reflexivity|unfold Str.size in Hk; lia].
Qed.

Lemma stem_length (word : string) :
  (3 <= String.length word)%nat ->
  (1 <= String.length (stem word) <= String.length word)%nat.
Proof.
  intros Hlen. destruct (stem_shape word Hlen) as (st & [Hk Hw] & ->).
  unfold Str.substr. rewrite substring_length. unfold Str.size in *. lia.
Qed.

Lemma stem_empty (word : string) : Str.empty (stem word) = Str.empty word.
Proof.
  destruct (Nat.le_gt_cases (String.length word) 2) as [Hshort|Hlong].
  - rewrite stem_short by exact Hshort. reflexivity.
  - assert (H : (1 <= String.length (stem word))%nat) by (apply stem_length; lia).
    destruct (stem word); [cbn in H; lia|].
    destruct word; [cbn in Hlong; lia|reflexivity].
Qed.

Lemma stem_le (word : string) :
  (String.length (stem word) <= String.length word)%nat.
Proof.
  destruct (Nat.le_gt_cases (String.length word) 2) as [Hshort|Hlong].
  - rewrite stem_short by exact Hshort. reflexivity.
  - apply stem_length. lia.
Qed.

End StemBounds.

(** A stem is never longer than its word. *)
Theorem stem_no_longer (word : string) :
  (String.length (PorterStemmer.stem word) <= String.length word)%nat.
Proof. apply stem_le. Qed.

(** The stemmer never empties a word: the stem is empty only for the empty
    word (so the builder's test [stem.empty()] never fires on a token). *)
Theorem stem_empty_iff (word : string) :
  Str.empty (PorterStemmer.stem word) = Str.empty word.
Proof. apply stem_empty. Qed.


(** * The shunting-yard conversion *)

Section ShuntingYard.

Import SearchEngine.

Lemma operator_cases (tok : string) :
  is_operator_token tok = true -> tok = "and" \/ tok = "or" \/ tok = "not".
Proof.
  unfold is_operator_token. intros H.
  apply orb_prop in H as [H|H]; [apply orb_prop in H as [H|H]|];
    apply String.eqb_eq in H; auto.
Qed.

Lemma operator_token_is_operator (op : operator) :
  is_operator_token (operator_token op) = true.
Proof. destruct op; reflexivity. Qed.

Lemma operator_kept (tok : string) :
  is_operator_token tok = true ->
  Str.empty tok = false /\ String.eqb tok "(" = false /\ String.eqb tok ")" = false.
Proof. intros H. destruct (operator_cases _ H) as [-> | [-> | ->]]; repeat split. Qed.

Lemma term_token_inv (tok : string) :
  is_term_token tok = true ->
  Str.empty tok = false /\ is_operator_token tok = false /\
  String.eqb tok "(" = false /\ String.eqb tok ")" = false.
Proof.
  unfold is_term_token. intros H. apply negb_true_iff in H.
  apply orb_false_elim in H as [H H4]. apply orb_false_elim in H as [H H3].
  apply orb_false_elim in H as [H1 H2]. auto.
Qed.

Lemma rpn_step_term (tok : string) (op_stack output : list string) :
  is_term_token tok = true ->
  rpn_step (op_stack, output) tok = (op_stack, output ++ [tok]).
Proof.
  intros H. apply term_token_inv in H as (H1 & H2 & H3 & H4).
  unfold rpn_step. rewrite H1, H2, H3, H4. reflexivity.
Qed.

Lemma rpn_step_operator (tok : string) (op_stack output : list string) :
  is_operator_token tok = true ->
  rpn_step (op_stack, output) tok
  = (tok :: fst (pop_operators tok op_stack output),
     snd (pop_operators tok op_stack output)).
Proof.
  intros H. pose proof (operator_kept _ H) as (H1 & H3 & H4).
  unfold rpn_step. rewrite H1, H, H3, H4. cbn [negb].
  destruct (pop_operators tok op_stack output). reflexivity.
Qed.

Lemma pop_operators_guarded (level : Z) (tok : string) (op_stack output : list string) :
  guarded level op_stack -> pending level tok ->
  pop_operators tok op_stack output = (op_stack, output).
Proof.
  intros Hg [Hop Hlevel]. destruct op_stack as [|top below]; [reflexivity|].
  cbn [pop_operators]. destruct (is_operator_token top) eqn:Etop; [|reflexivity].
  destruct (Hg Etop) as [Hlt | [-> H3]].
  - destruct (Z.ltb_spec (operator_precedence tok) (operator_precedence top)); [lia|].
    destruct (Z.eqb_spec (operator_precedence top) (operator_precedence tok)); [lia|].
    reflexivity.
  - destruct (operator_cases _ Hop) as [-> | [-> | ->]]; cbn in Hlevel; try lia.
    reflexivity.
Qed.

(** The operators waiting above a guarded stack are all popped by an
    operator they outrank. *)
Lemma pop_operators_pending (op : operator) (waiting op_stack output : list string) :
  Forall (pending (left_level op)) waiting ->
  guarded (operator_precedence (operator_token op)) op_stack ->
  pop_operators (operator_token op) (waiting ++ op_stack) output
  = (op_stack, output ++ waiting).
Proof.
  intros Hw Hg. revert output. induction Hw as [|top waiting [Htop Hlevel] _ IH];
    intros output.
  - cbn [app]. rewrite app_nil_r. eapply pop_operators_guarded; [exact Hg|].
    split; [apply operator_token_is_operator|lia].
  - cbn [app pop_operators]. rewrite Htop.
    assert (Hpop : (operator_precedence (operator_token op) <? operator_precedence top)
                   || (operator_precedence top =? operator_precedence (operator_token op))
                      && is_left_associative (operator_token op) = true).
    { destruct (operator_cases _ Htop) as [-> | [-> | ->]]; destruct op;
        cbn in Hlevel |- *; first [reflexivity|lia]. }
    rewrite Hpop, IH, <- app_assoc. reflexivity.
Qed.

Lemma pop_to_paren_pending (level : Z) (waiting below output : list string) :
  Forall (pending level) waiting ->
  pop_to_paren (waiting ++ "(" :: below) output = ("(" :: below, output ++ waiting).
Proof.
  intros Hw. revert output. induction Hw as [|top waiting [Htop _] _ IH]; intros output.
  - cbn. rewrite app_nil_r. reflexivity.
  - cbn [app pop_to_paren]. destruct (operator_kept _ Htop) as (_ & -> & _).
    cbn [negb]. rewrite IH, <- app_assoc. reflexivity.
Qed.

Lemma drain_pending (level : Z) (waiting output : list string) :
  Forall (pending level) waiting -> drain waiting output = output ++ waiting.
Proof.
  intros Hw. revert output. induction Hw as [|top waiting [Htop _] _ IH]; intros output.
  - cbn. rewrite app_nil_r. reflexivity.
  - cbn [drain]. destruct (operator_kept _ Htop) as (_ & -> & _).
    cbn [negb]. rewrite IH, <- app_assoc. reflexivity.
Qed.

Lemma pending_weaken (level level' : Z) (waiting : list string) :
  level' <= level -> Forall (pending level) waiting -> Forall (pending level') waiting.
Proof.
  intros Hle Hw. eapply Forall_impl; [exact Hw|].
  intros tok [Hop Hl]. split; [exact Hop|lia].
Qed.

Lemma levels (op : operator) :
  operator_precedence (operator_token op) <= right_level op /\
  operator_precedence (operator_token op) <= 3.
Proof. destruct op; cbn; lia. Qed.

Lemma guarded_operator (op : operator) (op_stack : list string) :
  guarded (right_level op) (operator_token op :: op_stack).
Proof. intros _. destruct op; cbn; first [left; lia|right; split; [reflexivity|lia]]. Qed.

(** Reading a well-formed query leaves the stack below untouched, puts the
    query's postfix form on the output, except for the operators still
    waiting on the stack, which follow in stack order. *)
Lemma rpn_steps_query (q : query) :
  forall (level : Z) (op_stack output : list string),
    well_formed level q = true -> guarded level op_stack ->
    exists waiting emitted,
      foldl rpn_step (op_stack, output) (infix q)
      = (waiting ++ op_stack, output ++ emitted) /\
      Forall (pending level) waiting /\
      emitted ++ waiting = postfix q.
Proof.
  induction q as [word|q IH|op l IHl r IHr|q IH]; intros level op_stack output Hwf Hg;
    cbn [infix postfix well_formed] in *.
  - exists [], [word]. cbn [foldl]. rewrite rpn_step_term by exact Hwf.
    split; [reflexivity|split; [constructor|reflexivity]].
  - destruct (IH 0 ("(" :: op_stack) output Hwf) as (waiting & emitted & Hrun & Hw & Hpost).
    { intros Hop. discriminate Hop. }
    exists [], (emitted ++ waiting).
    split; [|split; [constructor|rewrite app_nil_r; exact Hpost]].
    cbn [foldl]. change (rpn_step (op_stack, output) "(") with ("(" :: op_stack, output).
    rewrite foldl_app, Hrun. cbn [foldl]. unfold rpn_step.
    change (Str.empty ")") with false. change (String.eqb ")" "(") with false.
    change (String.eqb ")" ")") with true. cbv iota.
    rewrite (pop_to_paren_pending 0) by exact Hw.
    rewrite String.eqb_refl, <- app_assoc. reflexivity.
  - apply andb_prop in Hwf as [Hwf Hr]. apply andb_prop in Hwf as [Hlevel Hl].
    apply Z.leb_le in Hlevel.
    assert (Hgl : guarded (left_level op) op_stack).
    { destruct op_stack as [|top below]; [exact I|]. intros Hop.
      destruct (Hg Hop) as [Hlt | [-> H3]].
      - left. destruct op; cbn in Hlevel |- *; lia.
      - right. split; [reflexivity|]. destruct op; cbn in Hlevel |- *; lia. }
    destruct (IHl _ op_stack output Hl Hgl) as (wl & el & Hrunl & Hwl & Hpostl).
    assert (Hgo : guarded (operator_precedence (operator_token op)) op_stack).
    { destruct op_stack as [|top below]; [exact I|]. intros Hop.
      destruct (Hg Hop) as [Hlt | [-> H3]].
      - left. lia.
      - right. split; [reflexivity|lia]. }
    destruct (IHr _ (operator_token op :: op_stack) (output ++ el ++ wl) Hr
                (guarded_operator op op_stack))
      as (wr & er & Hrunr & Hwr & Hpostr).
    exists (wr ++ [operator_token op]), (el ++ wl ++ er).
    split; [|split].
    + rewrite foldl_app, Hrunl. cbn [foldl].
      rewrite rpn_step_operator by apply operator_token_is_operator.
      rewrite pop_operators_pending by assumption. cbn [fst snd].
      rewrite <- (app_assoc output el wl), Hrunr, <- !app_assoc. reflexivity.
    + apply Forall_app. split.
      * eapply pending_weaken; [|exact Hwr]. pose proof (levels op). lia.
      * constructor; [|constructor]. split; [apply operator_token_is_operator|lia].
    + rewrite <- Hpostl, <- Hpostr, <- !app_assoc. reflexivity.
  - apply andb_prop in Hwf as [Hlevel Hq]. apply Z.leb_le in Hlevel.
    destruct (IH 3 ("not" :: op_stack) output Hq (guarded_operator OpNot op_stack))
      as (waiting & emitted & Hrun & Hw & Hpost).
    exists (waiting ++ ["not"]), emitted. split; [|split].
    + cbn [foldl]. rewrite rpn_step_operator by reflexivity.
      rewrite (pop_operators_guarded level "not" op_stack output Hg (conj eq_refl Hlevel)).
      cbn [fst snd]. rewrite Hrun, <- app_assoc. reflexivity.
    + apply Forall_app. split.
      * eapply pending_weaken; [exact Hlevel|exact Hw].
      * constructor; [|constructor]. split; [reflexivity|exact Hlevel].
    + rewrite app_assoc, Hpost. reflexivity.
Qed.

Lemma to_rpn_postfix (q : query) :
  well_formed 0 q = true -> to_rpn (infix q) = postfix q.
Proof.
  intros Hwf.
  destruct (rpn_steps_query q 0 [] [] Hwf I) as (waiting & emitted & Hrun & Hw & Hpost).
  unfold to_rpn. rewrite Hrun, app_nil_r. cbn [app].
  rewrite (drain_pending 0) by exact Hw. exact Hpost.
Qed.

(** Evaluating the postfix form of a query pushes its matches. *)
Lemma eval_postfix (e : t) (q : query) :
  forall (level : Z) (stack : list (list Z)),
    well_formed level q = true -> binary_only q = true ->
    foldl (eval_token e) stack (postfix q) = matches e q :: stack.
Proof.
  induction q as [word|q IH|op l IHl r IHr|q IH]; intros level stack Hwf Hb;
    cbn [postfix well_formed binary_only matches] in *.
  - apply term_token_inv in Hwf as (_ & Hop & _). cbn [foldl]. unfold eval_token.
    rewrite Hop. reflexivity.
  - eapply IH; eassumption.
  - apply andb_prop in Hwf as [Hwf Hr]. apply andb_prop in Hwf as [_ Hl].
    apply andb_prop in Hb as [Hbl Hbr].
    rewrite !foldl_app, (IHl _ _ Hl Hbl), (IHr _ _ Hr Hbr).
    destruct op; reflexivity.
  - discriminate Hb.
Qed.

(** What [to_rpn] does with any token list, well formed or not. *)

Lemma stack_tokens_push (tok : string) (op_stack : list string) :
  stack_tokens op_stack -> is_operator_token tok = true \/ tok = "(" ->
  stack_tokens (tok :: op_stack).
Proof. intros Hs Htok. constructor; assumption. Qed.

Lemma pop_to_paren_content (op_stack output : list string) :
  stack_tokens op_stack ->
  stack_tokens (fst (pop_to_paren op_stack output)) /\
  snd (pop_to_paren op_stack output)
    ++ List.filter is_operator_token (fst (pop_to_paren op_stack output))
  = output ++ List.filter is_operator_token op_stack.
Proof.
  intros Hs. revert output. induction Hs as [|top below Htop Hs IH]; intros output.
  - split; [constructor|reflexivity].
  - cbn [pop_to_paren]. destruct Htop as [Hop| ->].
    + destruct (operator_kept _ Hop) as (_ & -> & _). cbn [negb].
      destruct (IH (output ++ [top])) as [IH1 IH2]. split; [exact IH1|].
      rewrite IH2. cbn [List.filter]. rewrite Hop, <- app_assoc. reflexivity.
    + change (negb (String.eqb "(" "(")) with false. cbv iota. cbn [fst snd].
      split; [constructor; [right; reflexivity|exact Hs]|reflexivity].
Qed.

Lemma pop_operators_content (tok : string) (op_stack output : list string) :
  stack_tokens op_stack ->
  stack_tokens (fst (pop_operators tok op_stack output)) /\
  snd (pop_operators tok op_stack output)
    ++ List.filter is_operator_token (fst (pop_operators tok op_stack output))
  = output ++ List.filter is_operator_token op_stack.
Proof.
  intros Hs. revert output. induction Hs as [|top below Htop Hs IH]; intros output.
  - split; [constructor|reflexivity].
  - pose proof (stack_tokens_push top below Hs Htop) as Hstack.
    cbn [pop_operators]. destruct (is_operator_token top) eqn:Hop.
    + destruct (_ || _).
      * destruct (IH (output ++ [top])) as [IH1 IH2]. split; [exact IH1|].
        rewrite IH2. cbn [List.filter]. rewrite Hop, <- app_assoc. reflexivity.
      * cbn [fst snd]. split; [exact Hstack|reflexivity].
    + cbn [fst snd]. split; [exact Hstack|reflexivity].
Qed.

Lemma kept_operator (tok : string) :
  is_operator_token tok = true -> kept_token tok = true.
Proof.
  intros H. destruct (operator_kept _ H) as (H1 & H2 & H3).
  unfold kept_token. rewrite H1, H2, H3. reflexivity.
Qed.

(** One step of the loop: the tokens held (the output, and the operators on
    the stack) gain the token read when it is kept. *)
Lemma rpn_step_content (op_stack output : list string) (tok : string) :
  stack_tokens op_stack ->
  stack_tokens (fst (rpn_step (op_stack, output) tok)) /\
  snd (rpn_step (op_stack, output) tok)
    ++ List.filter is_operator_token (fst (rpn_step (op_stack, output) tok))
  ≡ₚ (output ++ List.filter is_operator_token op_stack)
      ++ List.filter kept_token [tok] /\
  List.filter is_operand (snd (rpn_step (op_stack, output) tok))
  = List.filter is_operand output ++ List.filter is_operand (List.filter kept_token [tok]).
Proof.
  intros Hs. unfold rpn_step, kept_token. cbn [List.filter].
  destruct (Str.empty tok) eqn:E0; cbn [negb andb fst snd].
  { rewrite !app_nil_r. auto. }
  destruct (String.eqb tok "(") eqn:E1; cbn [negb andb fst snd].
  { apply String.eqb_eq in E1 as ->. cbn [List.filter is_operator_token String.eqb orb].
    rewrite !app_nil_r. split; [|split; reflexivity].
    constructor; [right; reflexivity|exact Hs]. }
  destruct (String.eqb tok ")") eqn:E2; cbn [negb andb fst snd].
  { destruct (pop_to_paren_content op_stack output Hs) as [H1 H2].
    assert (H3 : List.filter is_operand (snd (pop_to_paren op_stack output))
                 = List.filter is_operand output).
    { clear H1 H2. revert output. induction Hs as [|top below Htop Hs IH]; intros output;
        [reflexivity|]. cbn [pop_to_paren]. destruct Htop as [Hop| ->].
      - destruct (operator_kept _ Hop) as (_ & -> & _). cbn [negb]. rewrite IH.
        rewrite List.filter_app. cbn [List.filter]. unfold is_operand. rewrite Hop.
        cbn [negb]. apply app_nil_r.
      - reflexivity. }
    destruct (pop_to_paren op_stack output) as [stack' output']. cbn [fst snd] in *.
    rewrite !app_nil_r. destruct stack' as [|top below].
    - cbn [fst snd]. rewrite <- H2. auto.
    - destruct (String.eqb top "(") eqn:Etop; cbn [fst snd].
      + apply String.eqb_eq in Etop as ->. cbn [List.filter] in H2.
        change (is_operator_token "(") with false in H2. cbv iota in H2. rewrite <- H2.
        inversion H1; subst. auto.
      + rewrite <- H2. auto. }
  destruct (is_operator_token tok) eqn:E3; cbn [negb fst snd].
  - destruct (pop_operators_content tok op_stack output Hs) as [H1 H2].
    assert (H3 : List.filter is_operand (snd (pop_operators tok op_stack output))
                 = List.filter is_operand output).
    { clear H1 H2. revert output. induction Hs as [|top below Htop Hs IH]; intros output;
        [reflexivity|]. cbn [pop_operators]. destruct (is_operator_token top) eqn:Hop;
        [|reflexivity]. destruct (_ || _); [|reflexivity].
      rewrite IH, List.filter_app. cbn [List.filter]. unfold is_operand. rewrite Hop.
      cbn [negb]. apply app_nil_r. }
    destruct (pop_operators tok op_stack output) as [stack' output']. cbn [fst snd] in *.
    split; [constructor; [left; exact E3|exact H1]|]. split.
    + cbn [List.filter]. rewrite E3, <- H2.
      rewrite <- app_assoc. apply Permutation_app_head.
      apply Permutation_cons_append.
    + rewrite H3. cbn [List.filter]. unfold is_operand at 3. rewrite E3. cbn [negb].
      rewrite app_nil_r. reflexivity.
  - split; [exact Hs|]. split.
    + rewrite <- !app_assoc. apply Permutation_app_head. apply Permutation_app_comm.
    + rewrite List.filter_app. cbn [List.filter]. unfold is_operand at 2 4. rewrite E3.
      reflexivity.
Qed.

Lemma rpn_steps_content (tokens : list string) (op_stack output : list string) :
  stack_tokens op_stack ->
  stack_tokens (fst (foldl rpn_step (op_stack, output) tokens)) /\
  snd (foldl rpn_step (op_stack, output) tokens)
    ++ List.filter is_operator_token (fst (foldl rpn_step (op_stack, output) tokens))
  ≡ₚ (output ++ List.filter is_operator_token op_stack) ++ List.filter kept_token tokens /\
  List.filter is_operand (snd (foldl rpn_step (op_stack, output) tokens))
  = List.filter is_operand output ++ List.filter is_operand (List.filter kept_token tokens).
Proof.
  revert op_stack output. induction tokens as [|tok tokens IH]; intros op_stack output Hs.
  - cbn [foldl fst snd List.filter]. rewrite !app_nil_r. auto.
  - cbn [foldl]. destruct (rpn_step_content op_stack output tok Hs) as (H1 & H2 & H3).
    destruct (rpn_step (op_stack, output) tok) as [stack' output']. cbn [fst snd] in *.
    destruct (IH stack' output' H1) as (G1 & G2 & G3).
    split; [exact G1|]. split.
    + rewrite G2, H2, <- !app_assoc. apply Permutation_app_head, Permutation_app_head.
      change (tok :: tokens) with ([tok] ++ tokens). rewrite List.filter_app. reflexivity.
    + rewrite G3, H3, <- app_assoc.
      change (tok :: tokens) with ([tok] ++ tokens). rewrite !List.filter_app. reflexivity.
Qed.

Lemma drain_content (op_stack output : list string) :
  stack_tokens op_stack ->
  drain op_stack output = output ++ List.filter is_operator_token op_stack.
Proof.
  intros Hs. revert output. induction Hs as [|top below Htop Hs IH]; intros output.
  - cbn. rewrite app_nil_r. reflexivity.
  - cbn [drain List.filter]. destruct Htop as [Hop| ->].
    + destruct (operator_kept _ Hop) as (_ & -> & _). cbn [negb].
      rewrite IH, Hop, <- app_assoc. reflexivity.
    + cbn. apply IH.
Qed.

Lemma to_rpn_content (tokens : list string) :
  to_rpn tokens ≡ₚ List.filter kept_token tokens /\
  List.filter is_operand (to_rpn tokens)
  = List.filter is_operand (List.filter kept_token tokens).
Proof.
  destruct (rpn_steps_content tokens [] [] ltac:(constructor)) as (H1 & H2 & H3).
  unfold to_rpn. destruct (foldl rpn_step ([], []) tokens) as [op_stack output].
  cbn [fst snd app] in *. rewrite drain_content by exact H1. split; [exact H2|].
  rewrite List.filter_app, H3.
  assert (Hnone : forall l, List.filter is_operand (List.filter is_operator_token l) = []).
  { induction l as [|x l IHl]; [reflexivity|]. cbn [List.filter].
    destruct (is_operator_token x) eqn:E; [|exact IHl].
    cbn [List.filter]. unfold is_operand at 1. rewrite E. exact IHl. }
  rewrite Hnone. apply app_nil_r.
Qed.

End ShuntingYard.

(** [to_rpn] turns every well-formed infix query into its postfix form:
    [and] binds tighter than [or], [not] tighter than both, [and] and [or]
    group to the left, [not] to the right, and parentheses group first. *)
Theorem to_rpn_well_formed (q : query) :
  well_formed 0 q = true -> SearchEngine.to_rpn (infix q) = postfix q.
Proof. apply to_rpn_postfix. Qed.

Lemma to_rpn_well_formed_witness :
  well_formed 0 sample_query = true /\
  SearchEngine.to_rpn (infix sample_query) = postfix sample_query.
Proof. split; [reflexivity|apply to_rpn_well_formed; reflexivity]. Defined.

(** Converting and evaluating a well-formed query whose [not]s all stand
    between two operands yields the merge its syntax tree stands for:
    [intersect] for [and], [union_lists] for [or], [difference] for
    [not]. *)
Theorem query_evaluation (e : SearchEngine.t) (q : query) :
  well_formed 0 q = true -> binary_only q = true ->
  SearchEngine.eval_rpn e (SearchEngine.to_rpn (infix q)) = matches e q.
Proof.
  intros Hwf Hb. rewrite to_rpn_postfix by exact Hwf.
  unfold SearchEngine.eval_rpn, SearchEngine.eval_stack.
  rewrite (eval_postfix e q 0 [] Hwf Hb). reflexivity.
Qed.

Lemma query_evaluation_witness :
  well_formed 0 sample_query = true /\ binary_only sample_query = true /\
  SearchEngine.eval_rpn sample_engine (SearchEngine.to_rpn (infix sample_query))
  = matches sample_engine sample_query.
Proof.
  split; [reflexivity|]. split; [reflexivity|].
  apply query_evaluation; reflexivity.
Defined.

(** [to_rpn] neither loses nor invents a token, whatever the input: its
    output holds exactly the tokens read that are neither empty nor a
    parenthesis. *)
Theorem to_rpn_permutation (tokens : list string) :
  SearchEngine.to_rpn tokens ≡ₚ List.filter kept_token tokens.
Proof. apply to_rpn_content. Qed.

(** [to_rpn] moves operators only: the operands leave in the order in which
    they were read. *)
Theorem to_rpn_operand_order (tokens : list string) :
  List.filter is_operand (SearchEngine.to_rpn tokens)
  = List.filter is_operand (List.filter kept_token tokens).
Proof. apply to_rpn_content. Qed.


(** * Evaluation over ascending posting lists *)

Section SortedEvaluation.

Import SearchEngine.

Lemma sorted_index_lookup (e : t) (term : string) (posting_list : list Posting) :
  sorted_index e = true ->
  inverted_index_ e !! term = Some posting_list ->
  StronglySorted Z.lt (map doc_id posting_list).
Proof.
  unfold sorted_index. rewrite forallb_forall. intros H Hlook.
  apply strictly_ascending_sorted.
  apply (H (term, posting_list)). apply list_elem_of_In, elem_of_map_to_list. exact Hlook.
Qed.

Lemma posting_doc_ids_sorted (e : t) (term : string) :
  sorted_index e = true -> StronglySorted Z.lt (posting_doc_ids e term).
Proof.
  intros H. unfold posting_doc_ids.
  destruct (inverted_index_ e !! term) as [pl|] eqn:E; [|constructor].
  eapply sorted_index_lookup; eassumption.
Qed.

Lemma eval_token_sorted (e : t) (stack : list (list Z)) (tok : string) :
  sorted_index e = true ->
  Forall (StronglySorted Z.lt) stack ->
  Forall (StronglySorted Z.lt) (eval_token e stack tok).
Proof.
  intros He Hs. unfold eval_token.
  destruct (negb (is_operator_token tok)).
  { constructor; [apply posting_doc_ids_sorted; exact He|exact Hs]. }
  destruct (String.eqb tok "not").
  { destruct Hs as [|right_list below Hr Hs]; [constructor|].
    destruct Hs as [|left_list below' Hl Hs].
    - constructor; [|constructor].
      apply difference_sorted; [apply document_ids_from_sorted|exact Hr].
    - constructor; [|exact Hs]. apply difference_sorted; assumption. }
  destruct Hs as [|right_list below Hr Hs]; [constructor|].
  destruct Hs as [|left_list below' Hl Hs]; [constructor; [exact Hr|constructor]|].
  destruct (String.eqb tok "and");
    [constructor; [apply intersect_sorted; assumption|exact Hs]|].
  destruct (String.eqb tok "or");
    [constructor; [apply union_sorted; assumption|exact Hs]|exact Hs].
Qed.

Lemma eval_stack_sorted (e : t) (rpn : list string) :
  sorted_index e = true -> Forall (StronglySorted Z.lt) (eval_stack e rpn).
Proof.
  intros He. unfold eval_stack.
  assert (G : forall stack, Forall (StronglySorted Z.lt) stack ->
                            Forall (StronglySorted Z.lt) (foldl (eval_token e) stack rpn)).
  { induction rpn as [|tok rpn IH]; intros stack Hs; [exact Hs|].
    cbn [foldl]. apply IH, eval_token_sorted; assumption. }
  apply G. constructor.
Qed.

Lemma eval_rpn_sorted (e : t) (rpn : list string) :
  sorted_index e = true -> StronglySorted Z.lt (eval_rpn e rpn).
Proof.
  intros He. unfold eval_rpn. pose proof (eval_stack_sorted e rpn He) as H.
  destruct (eval_stack e rpn) as [|top below]; [constructor|].
  apply Forall_inv in H. exact H.
Qed.

Lemma sorted_NoDup (l : list Z) : StronglySorted Z.lt l -> NoDup l.
Proof.
  induction 1 as [|x l Hl IH Hall]; constructor; [|exact IH].
  intros Hin. rewrite Forall_forall in Hall. specialize (Hall x Hin). lia.
Qed.

(** Two strictly ascending lists with the same elements are equal. *)
Lemma sorted_same_elements (a b : list Z) :
  StronglySorted Z.lt a -> StronglySorted Z.lt b ->
  (forall z, z ∈ a <-> z ∈ b) -> a = b.
Proof.
  intros Ha. revert b. induction Ha as [|x a Ha IH Hx]; intros b Hb Hsame.
  - destruct b as [|y b]; [reflexivity|].
    exfalso. apply (not_elem_of_nil y), Hsame. left.
  - rewrite Forall_forall in Hx. destruct Hb as [|y b Hb Hy].
    + exfalso. apply (not_elem_of_nil x), Hsame. left.
    + rewrite Forall_forall in Hy.
      assert (Hxy : x = y).
      { assert (Hx' : x ∈ y :: b) by (apply Hsame; left).
        assert (Hy' : y ∈ x :: a) by (apply Hsame; left).
        apply elem_of_cons in Hx' as [->|Hx']; [reflexivity|].
        apply elem_of_cons in Hy' as [->|Hy']; [reflexivity|].
        specialize (Hx _ Hy'). specialize (Hy _ Hx'). lia. }
      subst y. f_equal. apply IH; [exact Hb|].
      intros z. split; intros Hz.
      * assert (Hz' : z ∈ x :: b) by (apply Hsame; right; exact Hz).
        apply elem_of_cons in Hz' as [->|Hz']; [|exact Hz'].
        specialize (Hx _ Hz). lia.
      * assert (Hz' : z ∈ x :: a) by (apply Hsame; right; exact Hz).
        apply elem_of_cons in Hz' as [->|Hz']; [|exact Hz'].
        specialize (Hy _ Hz). lia.
Qed.

(** The terms collected so far stay without duplicates, and gain the stems
    of the operands read. *)
Lemma extract_term_spec (unique_terms : list string) (token : string) :
  NoDup unique_terms ->
  NoDup (extract_term unique_terms token) /\
  forall stem,
    stem ∈ extract_term unique_terms token <->
    stem ∈ unique_terms \/ (is_term_token token = true /\ PorterStemmer.stem token = stem).
Proof.
  intros Hnd. unfold extract_term, is_term_token.
  destruct (Str.empty token || is_operator_token token
            || String.eqb token "(" || String.eqb token ")") eqn:E; cbn [negb].
  { split; [exact Hnd|]. intros stem. split; [auto|]. intros [H|[H _]]; [exact H|discriminate]. }
  assert (Hne : Str.empty (PorterStemmer.stem token) = false).
  { rewrite stem_empty. apply orb_false_elim in E as [E _].
    apply orb_false_elim in E as [E _]. apply orb_false_elim in E as [E _]. exact E. }
  rewrite Hne.
  destruct (existsb _ unique_terms) eqn:Ex.
  - split; [exact Hnd|]. intros stem. split; [auto|].
    intros [H|[_ <-]]; [exact H|].
    apply existsb_exists in Ex as (u & Hu & Heq). apply String.eqb_eq in Heq as <-.
    apply list_elem_of_In. exact Hu.
  - assert (Hnew : PorterStemmer.stem token ∉ unique_terms).
    { intros Hin. apply list_elem_of_In in Hin.
      assert (existsb (fun u => String.eqb u (PorterStemmer.stem token)) unique_terms = true).
      { apply existsb_exists. eexists. split; [exact Hin|apply String.eqb_refl]. }
      congruence. }
    split.
    + apply NoDup_app. split; [exact Hnd|]. split.
      * intros x Hx Hx'. apply list_elem_of_singleton in Hx' as ->. contradiction.
      * apply NoDup_singleton.
    + intros stem. rewrite elem_of_app, list_elem_of_singleton. split.
      * intros [H| ->]; [left; exact H|right; split; reflexivity].
      * intros [H|[_ <-]]; [left; exact H|right; reflexivity].
Qed.

Lemma extract_terms_spec (tokens : list string) (unique_terms : list string) :
  NoDup unique_terms ->
  NoDup (foldl extract_term unique_terms tokens) /\
  forall stem,
    stem ∈ foldl extract_term unique_terms tokens <->
    stem ∈ unique_terms \/
    exists token, token ∈ tokens /\ is_term_token token = true /\
                  PorterStemmer.stem token = stem.
Proof.
  revert unique_terms. induction tokens as [|tok tokens IH]; intros unique_terms Hnd.
  - cbn [foldl]. split; [exact Hnd|]. intros stem. split; [auto|].
    intros [H|(token & Hin & _)]; [exact H|]. apply not_elem_of_nil in Hin. contradiction.
  - cbn [foldl]. destruct (extract_term_spec unique_terms tok Hnd) as [Hnd1 Hin1].
    destruct (IH _ Hnd1) as [Hnd2 Hin2]. split; [exact Hnd2|].
    intros stem. rewrite Hin2, Hin1. split.
    + intros [[H|[Ht Hs]]|(token & Hin & Ht & Hs)].
      * left. exact H.
      * right. exists tok. split; [left|auto].
      * right. exists token. split; [right; exact Hin|auto].
    + intros [H|(token & Hin & Ht & Hs)]; [left; left; exact H|].
      apply elem_of_cons in Hin as [->|Hin].
      * left. right. auto.
      * right. exists token. auto.
Qed.

End SortedEvaluation.

(** Over an index with strictly ascending posting lists, every RPN token
    sequence, well formed or not, evaluates to a strictly ascending list: no
    document is matched twice. *)
Theorem eval_rpn_ascending (e : SearchEngine.t) (rpn : list string) :
  sorted_index e = true -> strictly_ascending (SearchEngine.eval_rpn e rpn) = true.
Proof. intros He. apply strictly_ascending_sorted, eval_rpn_sorted. exact He. Qed.

Lemma eval_rpn_ascending_witness :
  sorted_index sample_engine = true /\
  strictly_ascending (SearchEngine.eval_rpn sample_engine ["vault"; "nuka"; "or"]) = true.
Proof. split; [vm_compute; reflexivity|apply eval_rpn_ascending; vm_compute; reflexivity]. Defined.

(** The merges obey the laws of sets on strictly ascending lists, as lists:
    [intersect] and [union_lists] commute and are idempotent, a list minus
    itself is empty, and removing what is not in [B] leaves the
    intersection. *)
Theorem set_operation_laws (A B : list Z) :
  strictly_ascending A = true -> strictly_ascending B = true ->
  SearchEngine.intersect A B = SearchEngine.intersect B A /\
  SearchEngine.union_lists A B = SearchEngine.union_lists B A /\
  SearchEngine.intersect A A = A /\
  SearchEngine.union_lists A A = A /\
  SearchEngine.difference A A = [] /\
  SearchEngine.difference A (SearchEngine.difference A B) = SearchEngine.intersect A B.
Proof.
  rewrite !strictly_ascending_sorted. intros HA HB.
  pose proof (difference_sorted A B HA HB) as HD.
  pose proof (intersect_sorted A B HA HB) as HI.
  split; [|split; [|split; [|split; [|split]]]].
  - apply sorted_same_elements; [exact HI|apply intersect_sorted; assumption|].
    intros z. rewrite !intersect_spec by assumption. tauto.
  - apply sorted_same_elements; [apply union_sorted; assumption..|].
    intros z. rewrite !union_spec. tauto.
  - apply sorted_same_elements; [apply intersect_sorted; assumption|exact HA|].
    intros z. rewrite intersect_spec by assumption. tauto.
  - apply sorted_same_elements; [apply union_sorted; assumption|exact HA|].
    intros z. rewrite union_spec. tauto.
  - apply sorted_same_elements; [apply difference_sorted; assumption|constructor|].
    intros z. rewrite difference_spec by assumption. rewrite elem_of_nil. tauto.
  - apply sorted_same_elements; [apply difference_sorted; assumption|exact HI|].
    intros z. rewrite !difference_spec, intersect_spec by assumption.
    destruct (decide (z ∈ B)); tauto.
Qed.

Lemma set_operation_laws_witness :
  SearchEngine.intersect [1; 3; 5] [3; 4] = SearchEngine.intersect [3; 4] [1; 3; 5] /\
  SearchEngine.difference [1; 3; 5] (SearchEngine.difference [1; 3; 5] [3; 4])
  = SearchEngine.intersect [1; 3; 5] [3; 4].
Proof.
  destruct (set_operation_laws [1; 3; 5] [3; 4] eq_refl eq_refl)
    as (H1 & _ & _ & _ & _ & H6).
  split; [exact H1|exact H6].
Defined.

(** [extract_query_terms] returns each stem once: the stems of the tokens
    that are operands, without duplicates. *)
Theorem extract_query_terms_distinct (tokens : list string) :
  NoDup (SearchEngine.extract_query_terms tokens) /\
  forall stem,
    stem ∈ SearchEngine.extract_query_terms tokens <->
    exists token, token ∈ tokens /\ is_term_token token = true /\
                  PorterStemmer.stem token = stem.
Proof.
  destruct (extract_terms_spec tokens [] NoDup_nil_2) as [Hnd Hin].
  split; [exact Hnd|]. intros stem. unfold SearchEngine.extract_query_terms.
  rewrite Hin. split; [|auto]. intros [H|H]; [|exact H].
  apply not_elem_of_nil in H. contradiction.
Qed.

(** Over an index with strictly ascending posting lists, [search] returns
    no document twice, and every result is one of the boolean matches. *)
Theorem search_results_distinct (log : float -> float) (e : SearchEngine.t)
    (query : string) :
  sorted_index e = true ->
  NoDup (map SearchEngine.result_doc_id (fst (SearchEngine.search log e query))) /\
  forall d,
    d ∈ map SearchEngine.result_doc_id (fst (SearchEngine.search log e query)) ->
    d ∈ candidates e query.
Proof.
  intros He.
  destruct (search_unfold log e query) as (ranked & Hperm & _ & Hsearch).
  rewrite Hsearch. cbn [fst]. rewrite collect_ids.
  assert (Hnd : NoDup ranked).
  { rewrite Hperm. apply sorted_NoDup, eval_rpn_sorted. exact He. }
  split.
  - apply NoDup_ListNoDup, List.NoDup_filter, NoDup_ListNoDup.
    eapply sublist_NoDup; [exact Hnd|apply sublist_take].
  - intros d Hd. apply list_elem_of_In, List.filter_In in Hd as [Hd _].
    apply list_elem_of_In in Hd. rewrite <- Hperm.
    apply elem_of_take in Hd as (i & Hi & _). eapply list_elem_of_lookup_2. exact Hi.
Qed.

Lemma search_results_distinct_witness :
  sorted_index sample_engine = true /\
  NoDup (map SearchEngine.result_doc_id
           (fst (SearchEngine.search sample_log sample_engine "vault OR raider"))).
Proof.
  split; [vm_compute; reflexivity|].
  apply (search_results_distinct sample_log sample_engine "vault OR raider").
  vm_compute. reflexivity.
Defined.


(** * Query tokens *)

Section QueryTokens.

Import SearchEngine.

Lemma trim_left_spec (lowered : string) (fuel : nat) (left_pos : Z) :
  0 <= left_pos <= Str.size lowered ->
  Str.size lowered - left_pos <= Z.of_nat fuel ->
  left_pos <= trim_left lowered fuel left_pos <= Str.size lowered /\
  (trim_left lowered fuel left_pos < Str.size lowered ->
   trimmed (Str.at_ lowered (trim_left lowered fuel left_pos)) = false).
Proof.
  revert left_pos. induction fuel as [|fuel IH]; intros left_pos Hpos Hfuel.
  - cbn [trim_left]. split; lia.
  - cbn [trim_left]. destruct (Z.ltb_spec left_pos (Str.size lowered)) as [Hlt|Hge];
      cbn [andb]; [|split; lia].
    destruct (trimmed (Str.at_ lowered left_pos)) eqn:E.
    + destruct (IH (left_pos + 1)) as [H1 H2]; [lia..|]. split; [lia|exact H2].
    + split; [lia|]. intros _. exact E.
Qed.

Lemma trim_right_spec (lowered : string) (fuel : nat) (left_pos right_pos : Z) :
  left_pos <= right_pos ->
  right_pos - left_pos <= Z.of_nat fuel ->
  left_pos <= trim_right lowered fuel left_pos right_pos <= right_pos /\
  (left_pos < trim_right lowered fuel left_pos right_pos ->
   trimmed (Str.at_ lowered (trim_right lowered fuel left_pos right_pos - 1)) = false).
Proof.
  revert right_pos. induction fuel as [|fuel IH]; intros right_pos Hpos Hfuel.
  - cbn [trim_right]. split; lia.
  - cbn [trim_right]. destruct (Z.ltb_spec left_pos right_pos) as [Hlt|Hge];
      cbn [andb]; [|split; lia].
    destruct (trimmed (Str.at_ lowered (right_pos - 1))) eqn:E.
    + destruct (IH (right_pos - 1)) as [H1 H2]; [lia..|]. split; [lia|exact H2].
    + split; [lia|]. intros _. exact E.
Qed.

Lemma at_substr (s : string) (pos len i : Z) :
  0 <= pos -> 0 <= i < len ->
  Str.at_ (Str.substr s pos len) i = Str.at_ s (pos + i).
Proof.
  intros Hpos Hi. unfold Str.at_, Str.substr.
  destruct (Z.ltb_spec i 0); [lia|]. destruct (Z.ltb_spec (pos + i) 0); [lia|].
  rewrite String.substring_correct1 by lia.
  replace (Z.to_nat i + Z.to_nat pos)%nat with (Z.to_nat (pos + i)) by lia.
  reflexivity.
Qed.

Lemma map_substring (f : ascii -> ascii) (s : string) (n m : nat) :
  Str.map f (String.substring n m s) = String.substring n m (Str.map f s).
Proof.
  revert n m. induction s as [|c s IH]; intros n m.
  - destruct n, m; reflexivity.
  - destruct n as [|n]; [destruct m as [|m]|]; cbn [String.substring Str.map].
    + reflexivity.
    + rewrite IH. reflexivity.
    + apply IH.
Qed.

Lemma to_lower_ascii_idem (s : string) : to_lower_ascii (to_lower_ascii s) = to_lower_ascii s.
Proof. apply to_lower_idem. Qed.

Lemma trimmed_paren (s : string) :
  trimmed (Str.at_ s 0) = false -> String.eqb s "(" || String.eqb s ")" = false.
Proof.
  intros H. apply orb_false_intro; apply String.eqb_neq; intros ->; discriminate H.
Qed.

(** A token that is lower-cased already, not empty, and starts and ends with
    a letter, a digit or an apostrophe is left as it is. *)
Lemma normalize_fixed (tok : string) :
  to_lower_ascii tok = tok -> 0 < Str.size tok ->
  trimmed (Str.at_ tok 0) = false ->
  trimmed (Str.at_ tok (Str.size tok - 1)) = false ->
  normalize_query_token tok = tok.
Proof.
  intros Hlow Hsize Hfirst Hlast. unfold normalize_query_token.
  rewrite (trimmed_paren _ Hfirst), Hlow.
  destruct tok as [|c r] eqn:Etok; [reflexivity|]. rewrite <- Etok in *.
  assert (Hne : Str.empty tok = false) by (rewrite Etok; reflexivity). rewrite Hne.
  assert (Hlen : String.length tok = S (String.length r)) by (rewrite Etok; reflexivity).
  rewrite Hlen. cbn [trim_left]. rewrite Hfirst, andb_false_r.
  cbn [trim_right]. rewrite Hlast, andb_false_r.
  destruct (Z.leb_spec (Str.size tok) 0); [lia|].
  unfold Str.substr. rewrite Z.sub_0_r. unfold Str.size. rewrite Nat2Z.id.
  change (Z.to_nat 0) with O. apply str_substring_all.
Qed.

Lemma normalize_idem (token : string) :
  normalize_query_token (normalize_query_token token) = normalize_query_token token.
Proof.
  unfold normalize_query_token at 2 3.
  destruct (String.eqb token "(" || String.eqb token ")") eqn:Eparen.
  { unfold normalize_query_token. rewrite Eparen. reflexivity. }
  set (lowered := to_lower_ascii token).
  destruct (Str.empty lowered) eqn:Eempty.
  { apply str_empty_iff in Eempty. rewrite Eempty. reflexivity. }
  set (left_pos := trim_left lowered (String.length lowered) 0).
  set (right_pos := trim_right lowered (String.length lowered) left_pos (Str.size lowered)).
  destruct (Z.leb_spec right_pos left_pos) as [Hle|Hlt]; [reflexivity|].
  destruct (trim_left_spec lowered (String.length lowered) 0) as [Hl1 Hl2];
    [unfold Str.size; lia..|]. fold left_pos in Hl1, Hl2.
  destruct (trim_right_spec lowered (String.length lowered) left_pos (Str.size lowered))
    as [Hr1 Hr2]; [unfold Str.size in *; lia..|]. fold right_pos in Hr1, Hr2.
  assert (Hsize : Str.size (Str.substr lowered left_pos (right_pos - left_pos))
                  = right_pos - left_pos).
  { apply substr_size; lia. }
  apply normalize_fixed.
  - unfold to_lower_ascii, Str.substr. rewrite map_substring.
    fold (to_lower_ascii lowered). unfold lowered. rewrite to_lower_ascii_idem. reflexivity.
  - lia.
  - rewrite at_substr by lia. rewrite Z.add_0_r. apply Hl2. lia.
  - rewrite Hsize, at_substr by lia.
    replace (left_pos + (right_pos - left_pos - 1)) with (right_pos - 1) by lia.
    apply Hr2. lia.
Qed.

(** ** Splitting the query line *)

Lemma prepare_query_app (a b : string) :
  prepare_query (a ++ b) = (prepare_query a ++ prepare_query b)%string.
Proof.
  induction a as [|c a IH]; [rewrite !str_app_nil_l; reflexivity|].
  rewrite str_app_cons. cbn [prepare_query].
  destruct (Ascii.eqb c "(" || Ascii.eqb c ")"); rewrite IH, ?str_app_cons; reflexivity.
Qed.

Lemma solid_inv (tok : string) :
  solid tok = true ->
  Str.empty tok = false /\ Str.all (fun c => negb (Chars.isspace c)) tok = true /\
  Str.all no_paren tok = true.
Proof.
  unfold solid. intros H. apply andb_prop in H as [Hne Hall].
  apply negb_true_iff in Hne. split; [exact Hne|]. split.
  - eapply str_all_impl; [|exact Hall]. intros c Hc. apply andb_prop in Hc. tauto.
  - eapply str_all_impl; [|exact Hall]. intros c Hc. apply andb_prop in Hc. tauto.
Qed.

Lemma words_loop_solid (w rest cur : string) (toks : list string) :
  Str.all (fun c => negb (Chars.isspace c)) w = true ->
  words_loop (w ++ rest) cur toks = words_loop rest (cur ++ w) toks.
Proof.
  revert cur. induction w as [|c w IH]; intros cur H.
  - rewrite str_app_nil_l, str_app_nil_r. reflexivity.
  - cbn in H. apply andb_prop in H as [Hc Hw]. apply negb_true_iff in Hc.
    rewrite str_app_cons. cbn [words_loop]. rewrite Hc.
    rewrite (IH _ Hw), str_push_app. reflexivity.
Qed.

(** One typed token, prepared, followed by a space or the end of the line,
    is read as itself. *)
Lemma words_loop_typed (tok rest : string) (toks : list string) :
  typed_token tok = true ->
  (rest = EmptyString \/ exists rest', rest = String " " rest') ->
  words_loop (prepare_query tok ++ rest) EmptyString toks
  = words_loop (match rest with String _ r => r | EmptyString => EmptyString end)
      EmptyString (toks ++ [tok]).
Proof.
  intros Htok Hrest. unfold typed_token in Htok.
  assert (Hcases : tok = "(" \/ tok = ")" \/ solid tok = true).
  { apply orb_prop in Htok as [Htok|Htok]; [apply orb_prop in Htok as [Htok|Htok]|].
    - left. apply String.eqb_eq. exact Htok.
    - right. left. apply String.eqb_eq. exact Htok.
    - right. right. apply andb_prop in Htok. tauto. }
  destruct Hcases as [-> | [-> | Hsolid]].
  - destruct Hrest as [-> | [rest' ->]]; reflexivity.
  - destruct Hrest as [-> | [rest' ->]]; reflexivity.
  - apply solid_inv in Hsolid as (Hne & Hsp & Hpar).
    rewrite prepare_query_no_paren by exact Hpar.
    rewrite words_loop_solid by exact Hsp. rewrite str_app_nil_l.
    destruct Hrest as [-> | [rest' ->]]; cbn [words_loop]; rewrite ?Hne; reflexivity.
Qed.

Lemma words_sentence (toks : list string) (done : list string) :
  forallb typed_token toks = true ->
  words_loop (prepare_query (sentence toks)) EmptyString done = done ++ toks.
Proof.
  revert done. induction toks as [|tok toks IH]; intros done H.
  - cbn. rewrite app_nil_r. reflexivity.
  - cbn [forallb] in H. apply andb_prop in H as [Htok Htoks].
    destruct toks as [|tok' toks'].
    + cbn [sentence]. rewrite <- (str_app_nil_r (prepare_query tok)).
      rewrite words_loop_typed; [reflexivity|exact Htok|left; reflexivity].
    + change (sentence (tok :: tok' :: toks'))
        with (tok ++ String " " (sentence (tok' :: toks')))%string.
      rewrite prepare_query_app.
      change (prepare_query (String " " (sentence (tok' :: toks'))))
        with (String " " (prepare_query (sentence (tok' :: toks')))).
      rewrite words_loop_typed; [|exact Htok|right; eexists; reflexivity].
      rewrite (IH _ Htoks), <- app_assoc. reflexivity.
Qed.

Lemma typed_token_normal (tok : string) :
  typed_token tok = true ->
  normalize_query_token tok = tok /\ Str.empty tok = false.
Proof.
  unfold typed_token. intros H.
  apply orb_prop in H as [H|H]; [apply orb_prop in H as [H|H]|].
  - apply String.eqb_eq in H as ->. split; reflexivity.
  - apply String.eqb_eq in H as ->. split; reflexivity.
  - apply andb_prop in H as [Hs Hn]. apply String.eqb_eq in Hn.
    apply solid_inv in Hs as (Hne & _). split; assumption.
Qed.

Lemma query_tokens_typed (toks : list string) :
  forallb typed_token toks = true -> query_tokens_of (sentence toks) = toks.
Proof.
  intros H. unfold query_tokens_of, words. rewrite words_sentence by exact H.
  rewrite app_nil_l. induction toks as [|tok toks IH]; [reflexivity|].
  cbn [forallb] in H. apply andb_prop in H as [Htok Htoks].
  destruct (typed_token_normal _ Htok) as [Hn Hne]. cbn [map]. rewrite Hn.
  rewrite filter_cons_True by (rewrite Hne; reflexivity).
  rewrite (IH Htoks). reflexivity.
Qed.

Lemma typed_infix (q : query) : typed q = true -> forallb typed_token (infix q) = true.
Proof.
  induction q as [word|q IH|op l IHl r IHr|q IH]; cbn [typed infix]; intros H.
  - cbn. rewrite H. reflexivity.
  - cbn [forallb]. rewrite forallb_app, (IH H). reflexivity.
  - apply andb_prop in H as [Hl Hr]. rewrite forallb_app. cbn [forallb].
    rewrite (IHl Hl), (IHr Hr). destruct op; reflexivity.
  - cbn [forallb]. rewrite (IH H). reflexivity.
Qed.

End QueryTokens.

(** [normalize_query_token] is idempotent: a normalized token is left as it
    is. *)
Theorem normalize_query_token_idempotent (token : string) :
  SearchEngine.normalize_query_token (SearchEngine.normalize_query_token token)
  = SearchEngine.normalize_query_token token.
Proof. apply normalize_idem. Qed.

(** [search] lexes a typed query into the tokens it was written with:
    tokens separated by single spaces, each a parenthesis or a normalized
    token without white space. *)
Theorem query_tokens_of_sentence (toks : list string) :
  forallb typed_token toks = true ->
  SearchEngine.query_tokens_of (sentence toks) = toks.
Proof. apply query_tokens_typed. Qed.

Lemma query_tokens_of_sentence_witness :
  forallb typed_token ["("; "pip-boy"; "or"; "nuka"; ")"; "and"; "vault"] = true /\
  SearchEngine.query_tokens_of
    (sentence ["("; "pip-boy"; "or"; "nuka"; ")"; "and"; "vault"])
  = ["("; "pip-boy"; "or"; "nuka"; ")"; "and"; "vault"].
Proof. split; [reflexivity|apply query_tokens_of_sentence; reflexivity]. Defined.

(** From the query line to the matches: for a well-formed query whose
    [not]s all stand between two operands, typed with single spaces between
    its tokens, the boolean matches [search] ranks are the merge its syntax
    tree stands for. *)
Theorem search_candidates (e : SearchEngine.t) (q : query) :
  well_formed 0 q = true -> binary_only q = true -> typed q = true ->
  candidates e (sentence (infix q)) = matches e q.
Proof.
  intros Hwf Hb Ht. unfold candidates.
  rewrite query_tokens_typed by (apply typed_infix; exact Ht).
  rewrite to_rpn_postfix by exact Hwf.
  unfold SearchEngine.eval_rpn, SearchEngine.eval_stack.
  rewrite (eval_postfix e q 0 [] Hwf Hb). reflexivity.
Qed.

Lemma search_candidates_witness :
  sentence (infix sample_query) = "vault and ( raider or nuka ) not nuka" /\
  candidates sample_engine "vault and ( raider or nuka ) not nuka"
  = matches sample_engine sample_query.
Proof.
  split; [reflexivity|].
  apply (search_candidates sample_engine sample_query); reflexivity.
Defined.


(** * The content of a built index *)

Section IndexContent.

Import IndexBuilder.

Lemma stem_count_in_cons (stem token : string) (tokens : list string) :
  stem_count_in stem (token :: tokens)
  = (if String.eqb (PorterStemmer.stem token) stem then 1 else 0)
    + stem_count_in stem tokens.
Proof.
  unfold stem_count_in. cbn [List.filter].
  destruct (String.eqb (PorterStemmer.stem token) stem); cbn [length]; lia.
Qed.

Lemma stem_count_in_nonneg (stem : string) (tokens : list string) :
  0 <= stem_count_in stem tokens.
Proof. unfold stem_count_in. lia. Qed.

(** The table [term_freqs] after the counting loop. *)
Lemma count_stems_lookup (tokens : list string) (term_freqs : gmap string Z) (stem : string) :
  Forall (fun token => Str.empty token = false) tokens ->
  foldl count_stem term_freqs tokens !! stem =
  match term_freqs !! stem with
  | Some c => Some (c + stem_count_in stem tokens)
  | None => if 0 <? stem_count_in stem tokens
            then Some (stem_count_in stem tokens) else None
  end.
Proof.
  intros Hne. revert term_freqs.
  induction Hne as [|token tokens Htok _ IH]; intros term_freqs.
  - cbn [foldl]. change (stem_count_in stem []) with 0.
    destruct (term_freqs !! stem); [f_equal; lia|reflexivity].
  - cbn [foldl]. rewrite IH, stem_count_in_cons.
    pose proof (stem_count_in_nonneg stem tokens) as Hn.
    unfold count_stem. rewrite stem_empty, Htok.
    destruct (String.eqb_spec (PorterStemmer.stem token) stem) as [->|Hneq].
    + destruct (term_freqs !! stem) as [c|] eqn:E.
      * rewrite lookup_insert_eq. f_equal. lia.
      * rewrite lookup_insert_eq.
        destruct (Z.ltb_spec 0 (1 + stem_count_in stem tokens)); [reflexivity|lia].
    + assert (Hother : forall v, <[PorterStemmer.stem token := v]> term_freqs !! stem
                                 = term_freqs !! stem).
      { intros v. apply lookup_insert_ne. exact Hneq. }
      destruct (term_freqs !! PorterStemmer.stem token); rewrite Hother; reflexivity.
Qed.

Lemma tokens_nonempty (text : string) :
  Forall (fun token => Str.empty token = false) (Tokenizer.tokenize text).
Proof.
  eapply Forall_impl; [apply (tokenize_loop_token_ok text EmptyString []);
                       [exact I|constructor]|].
  intros token H. apply token_nonempty. exact H.
Qed.

Lemma term_freqs_lookup (text stem : string) :
  term_freqs_of (Tokenizer.tokenize text) !! stem
  = if 0 <? stem_count stem text then Some (stem_count stem text) else None.
Proof.
  unfold term_freqs_of. rewrite count_stems_lookup by apply tokens_nonempty.
  rewrite lookup_empty. reflexivity.
Qed.

(** One call of [add_document] appends one posting to the list of each stem
    of the text, and touches no other list. *)
Lemma add_document_postings (b b' : t) (d : Z) (url title text stem : string) :
  add_document b d url title text = Some b' ->
  inverted_index_ b' !! stem =
  if 0 <? stem_count stem text
  then Some (builder_postings b stem ++ [mkPosting d (stem_count stem text)])
  else inverted_index_ b !! stem.
Proof.
  intros Hadd. apply add_document_index in Hadd as [_ ->].
  rewrite append_postings_lookup, term_freqs_lookup.
  destruct (0 <? stem_count stem text); reflexivity.
Qed.

Lemma add_documents_postings (docs : list Document) (b b' : t) (stem : string) :
  add_documents b docs = Some b' ->
  inverted_index_ b' !! stem =
  match expected_postings stem docs with
  | [] => inverted_index_ b !! stem
  | added => Some (builder_postings b stem ++ added)
  end.
Proof.
  revert b. induction docs as [|doc docs IH]; intros b Hadd; cbn in Hadd.
  - injection Hadd as <-. reflexivity.
  - destruct (add_document b _ _ _ _) as [b1|] eqn:E; [|discriminate].
    rewrite (IH _ Hadd). unfold builder_postings.
    rewrite (add_document_postings _ _ _ _ _ _ stem E).
    cbn [expected_postings flat_map]. fold (expected_postings stem docs).
    destruct (0 <? stem_count stem (document_text doc)); cbn [app default].
    + destruct (expected_postings stem docs) as [|p rest].
      * reflexivity.
      * unfold builder_postings, id. rewrite <- app_assoc. reflexivity.
    + reflexivity.
Qed.

End IndexContent.

(** The index a sequence of [add_document] calls builds from the empty
    builder holds, for every stem, exactly one posting per document whose
    text has the stem, in the order of the calls, with the number of the
    stem's occurrences as [tf]; a stem that occurs nowhere has no entry. *)
Theorem built_index_content (docs : list Document) (b : IndexBuilder.t) (stem : string) :
  add_documents IndexBuilder.new docs = Some b ->
  IndexBuilder.inverted_index_ b !! stem =
  match expected_postings stem docs with
  | [] => None
  | postings => Some postings
  end.
Proof.
  intros Hadd. rewrite (add_documents_postings docs _ _ stem Hadd).
  unfold builder_postings. cbn. rewrite lookup_empty. reflexivity.
Qed.

Lemma built_index_content_witness :
  add_documents IndexBuilder.new corpus = Some corpus_builder /\
  expected_postings "vault" corpus = [mkPosting 0 2; mkPosting 2 2] /\
  IndexBuilder.inverted_index_ corpus_builder !! "vault"
  = Some [mkPosting 0 2; mkPosting 2 2].
Proof.
  assert (H : add_documents IndexBuilder.new corpus = Some corpus_builder)
    by (vm_compute; reflexivity).
  split; [exact H|]. split; [vm_compute; reflexivity|].
  exact (built_index_content corpus corpus_builder "vault" H).
Defined.

Section OneWord.

Lemma expected_postings_ids (stem : string) (docs : list Document) :
  map doc_id (expected_postings stem docs) = documents_with stem docs.
Proof.
  unfold documents_with. induction docs as [|doc docs IH]; [reflexivity|].
  cbn [expected_postings flat_map List.filter]. fold (expected_postings stem docs).
  destruct (0 <? stem_count stem (document_text doc)); cbn [app map doc_id];
    rewrite IH; reflexivity.
Qed.

Lemma built_posting_doc_ids (docs : list Document) (b : IndexBuilder.t) (stem : string) :
  add_documents IndexBuilder.new docs = Some b ->
  SearchEngine.posting_doc_ids (engine_of b) stem = documents_with stem docs.
Proof.
  intros Hadd. unfold SearchEngine.posting_doc_ids, engine_of.
  cbn [SearchEngine.inverted_index_].
  rewrite (add_documents_postings docs _ _ stem Hadd), <- expected_postings_ids.
  unfold builder_postings. cbn [IndexBuilder.inverted_index_ IndexBuilder.new].
  rewrite lookup_empty. destruct (expected_postings stem docs); reflexivity.
Qed.

End OneWord.

(** A query of one word matches exactly the documents that have a token
    with the same stem, in the order in which they were added. *)
Theorem one_word_query (docs : list Document) (b : IndexBuilder.t) (word : string) :
  add_documents IndexBuilder.new docs = Some b ->
  typed_token word = true -> is_term_token word = true ->
  candidates (engine_of b) word = documents_with (PorterStemmer.stem word) docs.
Proof.
  intros Hadd Htyped Hterm. unfold candidates.
  change word with (sentence [word]) at 1.
  rewrite query_tokens_typed by (cbn [forallb]; rewrite Htyped; reflexivity).
  unfold SearchEngine.to_rpn. cbn [foldl]. rewrite rpn_step_term by exact Hterm.
  cbn [SearchEngine.drain app]. unfold SearchEngine.eval_rpn, SearchEngine.eval_stack.
  cbn [foldl]. unfold SearchEngine.eval_token.
  apply term_token_inv in Hterm as (_ & -> & _). cbn [negb].
  apply built_posting_doc_ids. exact Hadd.
Qed.

Lemma one_word_query_witness :
  add_documents IndexBuilder.new corpus = Some corpus_builder /\
  candidates (engine_of corpus_builder) "vaults" = [0; 2].
Proof.
  assert (H : add_documents IndexBuilder.new corpus = Some corpus_builder)
    by (vm_compute; reflexivity).
  split; [exact H|].
  rewrite (one_word_query corpus corpus_builder "vaults" H eq_refl eq_refl).
  vm_compute. reflexivity.
Defined.

(** * The document table *)

Section DocumentTable.

Import IndexBuilder.

Lemma grown_lookup {A : Type} (l : list A) (size : nat) (doc : Z) (x hole : A) (i : nat) :
  0 <= doc -> length l = size ->
  <[Z.to_nat doc := x]> (l ++ replicate (missing_rows size doc) hole) !! i
  = if decide (i = Z.to_nat doc) then Some x
    else if decide (i < size)%nat then l !! i
    else if decide (i < Z.to_nat doc)%nat then Some hole
    else None.
Proof.
  intros Hdoc Hlen. unfold missing_rows.
  destruct (decide (i = Z.to_nat doc)) as [->|Hne].
  - apply list_lookup_insert_eq. rewrite length_app, length_replicate. lia.
  - rewrite list_lookup_insert_ne by congruence.
    destruct (decide (i < size)%nat) as [Hin|Hout].
    + apply lookup_app_l. lia.
    + rewrite lookup_app_r by lia.
      destruct (decide (i < Z.to_nat doc)%nat) as [Hhole|Hbeyond].
      * apply lookup_replicate_2. lia.
      * apply lookup_replicate_None. lia.
Qed.

End DocumentTable.

(** [add_document] writes row [doc_id] of the three document arrays: the
    URL, the title and the number of tokens.  It keeps the rows that exist,
    and fills the rows between the old end and [doc_id] with holes (empty
    URL, empty title, length 0). *)
Theorem add_document_rows (b b' : IndexBuilder.t) (doc_id : Z) (url title text : string) :
  IndexBuilder.add_document b doc_id url title text = Some b' ->
  length (IndexBuilder.doc_titles_ b) = length (IndexBuilder.doc_urls_ b) ->
  length (IndexBuilder.doc_lengths_ b) = length (IndexBuilder.doc_urls_ b) ->
  forall i : nat,
    let row := fun b => (IndexBuilder.doc_urls_ b !! i, IndexBuilder.doc_titles_ b !! i,
                         IndexBuilder.doc_lengths_ b !! i) in
    row b' =
    if decide (i = Z.to_nat doc_id)
    then (Some url, Some title, Some (Z.of_nat (length (Tokenizer.tokenize text))))
    else if decide (i < length (IndexBuilder.doc_urls_ b))%nat then row b
    else if decide (i < Z.to_nat doc_id)%nat then (Some EmptyString, Some EmptyString, Some 0)
    else (None, None, None).
Proof.
  intros Hadd Htitles Hlengths i row. unfold row, IndexBuilder.add_document in *.
  destruct (Z.ltb_spec doc_id 0) as [|Hdoc]; [discriminate|].
  injection Hadd as <-.
  cbn [IndexBuilder.doc_urls_ IndexBuilder.doc_titles_ IndexBuilder.doc_lengths_].
  rewrite !grown_lookup by (try assumption; reflexivity).
  destruct (decide (i = Z.to_nat doc_id)); [reflexivity|].
  destruct (decide (i < length (IndexBuilder.doc_urls_ b))%nat); [reflexivity|].
  destruct (decide (i < Z.to_nat doc_id)%nat); reflexivity.
Qed.

Lemma add_document_rows_witness :
  IndexBuilder.add_document IndexBuilder.new 2 "u2" "Raiders" "vault raiders"
  = Some (IndexBuilder.mk
            (<["vault" := [mkPosting 2 1]]> (<["raider" := [mkPosting 2 1]]> ∅))
            [EmptyString; EmptyString; "u2"] [EmptyString; EmptyString; "Raiders"]
            [0; 0; 2]) /\
  (IndexBuilder.doc_urls_
     (IndexBuilder.mk
        (<["vault" := [mkPosting 2 1]]> (<["raider" := [mkPosting 2 1]]> ∅))
        [EmptyString; EmptyString; "u2"] [EmptyString; EmptyString; "Raiders"]
        [0; 0; 2]) !! 1%nat,
   IndexBuilder.doc_titles_
     (IndexBuilder.mk
        (<["vault" := [mkPosting 2 1]]> (<["raider" := [mkPosting 2 1]]> ∅))
        [EmptyString; EmptyString; "u2"] [EmptyString; EmptyString; "Raiders"]
        [0; 0; 2]) !! 1%nat,
   IndexBuilder.doc_lengths_
     (IndexBuilder.mk
        (<["vault" := [mkPosting 2 1]]> (<["raider" := [mkPosting 2 1]]> ∅))
        [EmptyString; EmptyString; "u2"] [EmptyString; EmptyString; "Raiders"]
        [0; 0; 2]) !! 1%nat)
  = (Some EmptyString, Some EmptyString, Some 0).
Proof.
  assert (H : IndexBuilder.add_document IndexBuilder.new 2 "u2" "Raiders" "vault raiders"
              = Some (IndexBuilder.mk
                        (<["vault" := [mkPosting 2 1]]> (<["raider" := [mkPosting 2 1]]> ∅))
                        [EmptyString; EmptyString; "u2"]
                        [EmptyString; EmptyString; "Raiders"] [0; 0; 2]))
    by (vm_compute; reflexivity).
  split; [exact H|].
  exact (add_document_rows _ _ _ _ _ _ H eq_refl eq_refl 1%nat).
Defined.


(** * Zipf statistics *)

Section Zipf.

Import ZipfAnalyzer.

Lemma exchange_swap (sorted : list TermFrequency) (i j : nat) :
  exchange sorted i j = SearchEngine.swap sorted i j default_entry.
Proof. reflexivity. Qed.


(** The inner loop leaves at [i] a row that no row after it exceeds, keeps
    the rows before [i], and brings no row from before [i] behind it. *)
Lemma inner_loop_spec (remaining j i : nat) (sorted : list TermFrequency) :
  (j + remaining = length sorted)%nat -> (i < j)%nat ->
  (forall q, (i < q < j)%nat -> frequency_at sorted q <= frequency_at sorted i) ->
  let sorted' := inner_loop remaining j i sorted in
  sorted' ≡ₚ sorted /\ length sorted' = length sorted /\
  (forall p, (p < i)%nat -> nth p sorted' default_entry = nth p sorted default_entry) /\
  (forall q, (i < q < length sorted)%nat -> frequency_at sorted' q <= frequency_at sorted' i) /\
  (forall bound, (forall q, (i <= q < length sorted)%nat -> frequency_at sorted q <= bound) ->
                 forall q, (i <= q < length sorted)%nat -> frequency_at sorted' q <= bound).
Proof.
  unfold frequency_at.
  revert j sorted. induction remaining as [|remaining IH]; intros j sorted Hn Hij Hmax;
    cbn [inner_loop]; cbv zeta.
  - split; [reflexivity|]. split; [reflexivity|]. split; [reflexivity|].
    split; [|auto]. intros q Hq. apply Hmax. lia.
  - destruct (Z.ltb_spec (frequency (nth i sorted default_entry))
                         (frequency (nth j sorted default_entry))) as [Hlt|Hge].
    + rewrite exchange_swap.
      destruct (IH (S j) (SearchEngine.swap sorted i j default_entry))
        as (Hperm & Hlen & Hkeep & Hbest & Hbound).
      * rewrite swap_length. lia.
      * lia.
      * intros q Hq. rewrite !swap_nth by lia.
        destruct (Nat.eqb_spec q j) as [->|Hqj].
        -- destruct (Nat.eqb_spec i j); [lia|]. rewrite !Nat.eqb_refl. lia.
        -- destruct (Nat.eqb_spec q i); [lia|].
           destruct (Nat.eqb_spec i j); [lia|]. rewrite !Nat.eqb_refl.
           specialize (Hmax q). lia.
      * rewrite swap_length in *. split; [|split; [|split; [|split]]].
        -- rewrite Hperm. apply swap_perm; lia.
        -- exact Hlen.
        -- intros p Hp. rewrite Hkeep by exact Hp. rewrite swap_nth by lia.
           destruct (Nat.eqb_spec p j); [lia|]. destruct (Nat.eqb_spec p i); [lia|].
           reflexivity.
        -- exact Hbest.
        -- intros bound Hb. apply Hbound. intros q Hq. rewrite swap_nth by lia.
           destruct (Nat.eqb_spec q j); [apply Hb; lia|].
           destruct (Nat.eqb_spec q i); apply Hb; lia.
    + apply IH; [lia|lia|]. intros q Hq.
      destruct (decide (q = j)) as [->|Hne]; [lia|]. apply Hmax. lia.
Qed.

Lemma outer_loop_spec (remaining i : nat) (sorted : list TermFrequency) :
  (i + remaining = length sorted)%nat ->
  (forall p q, (p < i)%nat -> (p < q < length sorted)%nat ->
               frequency_at sorted q <= frequency_at sorted p) ->
  let sorted' := outer_loop remaining i sorted in
  sorted' ≡ₚ sorted /\ length sorted' = length sorted /\
  forall p q, (p < q < length sorted)%nat -> frequency_at sorted' q <= frequency_at sorted' p.
Proof.
  pose proof inner_loop_spec as Hinner. unfold frequency_at in *.
  revert i sorted. induction remaining as [|remaining IH]; intros i sorted Hn Hinv;
    cbn [outer_loop]; cbv zeta in *.
  - split; [reflexivity|]. split; [reflexivity|]. intros p q Hpq. apply Hinv; lia.
  - destruct (Hinner remaining (S i) i sorted)
      as (Hperm & Hlen & Hkeep & Hbest & Hbound); [lia|lia|intros q Hq; lia|].
    set (sorted1 := inner_loop remaining (S i) i sorted) in *.
    destruct (IH (S i) sorted1) as (Hperm' & Hlen' & Hsorted').
    + lia.
    + rewrite Hlen. intros p q Hp Hq.
      destruct (decide (p = i)) as [->|Hpi].
      * apply Hbest. lia.
      * rewrite (Hkeep p) by lia.
        destruct (Nat.lt_ge_cases q i) as [Hqi|Hqi].
        -- rewrite (Hkeep q) by lia. apply Hinv; lia.
        -- apply Hbound; [|lia]. intros q' Hq'. apply Hinv; lia.
    + split; [rewrite Hperm'; exact Hperm|]. split; [lia|].
      rewrite Hlen in Hsorted'. exact Hsorted'.
Qed.

Lemma sorted_of_rows (l : list TermFrequency) :
  (forall p q, (p < q < length l)%nat -> frequency_at l q <= frequency_at l p) ->
  StronglySorted by_frequency l.
Proof.
  unfold frequency_at.
  induction l as [|x l IH]; intros H; constructor.
  - apply IH. intros p q Hpq. apply (H (S p) (S q)). cbn. lia.
  - apply Forall_lookup. intros k y Hk.
    pose proof (lookup_lt_Some _ _ _ Hk) as Hlt.
    rewrite <- (nth_lookup_Some _ _ default_entry _ Hk).
    apply (H O (S k)). cbn. lia.
Qed.

Lemma assign_ranks_lookup (sorted : list TermFrequency) (i : nat) :
  assign_ranks sorted !! i
  = (fun entry => mkTermFrequency (term entry) (frequency entry) (Z.of_nat i + 1))
      <$> sorted !! i.
Proof. unfold assign_ranks. apply list_lookup_imap. Qed.

Lemma assign_ranks_rows (sorted : list TermFrequency) :
  map (fun entry => (term entry, frequency entry)) (assign_ranks sorted)
  = map (fun entry => (term entry, frequency entry)) sorted.
Proof.
  apply list_eq. intros i. rewrite !list_lookup_fmap, assign_ranks_lookup.
  destruct (sorted !! i); reflexivity.
Qed.

Lemma rows_sorted (a b : list TermFrequency) :
  map frequency a = map frequency b ->
  StronglySorted by_frequency b -> StronglySorted by_frequency a.
Proof.
  revert b. induction a as [|x a IH]; intros [|y b] Heq Hs; try discriminate;
    [constructor|].
  cbn in Heq. injection Heq as Hxy Heq. apply StronglySorted_inv in Hs as [Hs Hy].
  constructor; [eapply IH; eassumption|].
  apply Forall_forall. intros z Hz.
  assert (Hin : frequency z ∈ map frequency b).
  { rewrite <- Heq. apply list_elem_of_fmap. eauto. }
  apply list_elem_of_fmap in Hin as (z' & Hz' & Hin).
  rewrite Forall_forall in Hy. specialize (Hy z' Hin). unfold by_frequency in *.
  rewrite Hxy, Hz'. exact Hy.
Qed.

Lemma sort_by_frequency_spec (z : t) :
  map (fun entry => (term entry, frequency entry)) (sorted_terms_ (sort_by_frequency z))
  ≡ₚ map_to_list (term_frequencies_ z) /\
  StronglySorted by_frequency (sorted_terms_ (sort_by_frequency z)) /\
  forall i entry,
    sorted_terms_ (sort_by_frequency z) !! i = Some entry -> rank entry = Z.of_nat i + 1.
Proof.
  unfold sort_by_frequency. cbn [sorted_terms_].
  set (entries := map (fun entry => mkTermFrequency (fst entry) (snd entry) 0)
                      (map_to_list (term_frequencies_ z))).
  destruct (outer_loop_spec (length entries) 0 entries) as (Hperm & Hlen & Hsorted);
    [reflexivity|intros p q Hp; lia|].
  split; [|split].
  - rewrite assign_ranks_rows, Hperm. unfold entries. rewrite map_map. cbn.
    rewrite <- (map_id (map_to_list (term_frequencies_ z))) at 2.
    apply Permutation_refl'. apply map_ext. intros [k v]. reflexivity.
  - eapply rows_sorted; [|apply sorted_of_rows; rewrite Hlen; exact Hsorted].
    apply list_eq. intros i. rewrite !list_lookup_fmap, assign_ranks_lookup.
    destruct (outer_loop (length entries) 0 entries !! i); reflexivity.
  - intros i entry. rewrite assign_ranks_lookup.
    destruct (outer_loop (length entries) 0 entries !! i); [|discriminate].
    intros [= <-]. reflexivity.
Qed.

(** ** Totals *)

Lemma table_total_insert_new (table : gmap string Z) (key : string) (v : Z) :
  table !! key = None -> table_total (<[key := v]> table) = v + table_total table.
Proof.
  intros Hnone. unfold table_total.
  assert (Hsum : forall l l' : list (string * Z), l ≡ₚ l' ->
            foldr (fun entry total => snd entry + total) 0 l
            = foldr (fun entry total => snd entry + total) 0 l').
  { induction 1; cbn; lia. }
  rewrite (Hsum _ _ (map_to_list_insert table key v Hnone)). reflexivity.
Qed.

Lemma table_total_update (table : gmap string Z) (key : string) (c v : Z) :
  table !! key = Some c -> table_total (<[key := v]> table) = table_total table - c + v.
Proof.
  intros Hsome.
  rewrite <- (insert_delete_eq table key v).
  rewrite table_total_insert_new by apply lookup_delete_eq.
  rewrite <- (insert_delete_id table key c Hsome) at 2.
  rewrite table_total_insert_new by apply lookup_delete_eq. lia.
Qed.

Lemma add_term_total (z : t) (term : string) :
  table_total (term_frequencies_ (add_term z term))
  = table_total (term_frequencies_ z) + 1.
Proof.
  unfold add_term. destruct (term_frequencies_ z !! term) as [c|] eqn:E; cbn.
  - rewrite (table_total_update _ _ c) by exact E. lia.
  - rewrite table_total_insert_new by exact E. lia.
Qed.

Lemma add_term_dom (z : t) (term : string) :
  dom (term_frequencies_ (add_term z term)) = {[term]} ∪ dom (term_frequencies_ z).
Proof.
  unfold add_term. destruct (term_frequencies_ z !! term); cbn; apply dom_insert_L.
Qed.

Lemma add_term_sorted (z : t) (term : string) :
  sorted_terms_ (add_term z term) = sorted_terms_ z.
Proof. unfold add_term. destruct (term_frequencies_ z !! term); reflexivity. Qed.

Lemma total_terms_sum (l : list TermFrequency) (start : Z) :
  foldl (fun total entry => total + frequency entry) start l
  = start + foldr (fun entry total => snd entry + total) 0
                  (map (fun entry => (term entry, frequency entry)) l).
Proof.
  revert start. induction l as [|x l IH]; intros start; cbn; [lia|].
  rewrite IH. lia.
Qed.

Lemma finalize_totals (z : t) :
  total_terms (finalize z) = table_total (term_frequencies_ z) /\
  vocabulary_size (finalize z) = size (term_frequencies_ z).
Proof.
  destruct (sort_by_frequency_spec z) as (Hperm & _ & _).
  unfold total_terms, vocabulary_size, finalize. split.
  - rewrite total_terms_sum, Z.add_0_l. unfold table_total.
    assert (Hsum : forall l l' : list (string * Z), l ≡ₚ l' ->
              foldr (fun entry total => snd entry + total) 0 l
              = foldr (fun entry total => snd entry + total) 0 l').
    { induction 1; cbn; lia. }
    apply Hsum. exact Hperm.
  - rewrite <- (length_map (fun entry => (term entry, frequency entry))).
    rewrite Hperm. apply length_map_to_list.
Qed.

Lemma add_terms_spec (terms : list string) (z : t) :
  table_total (term_frequencies_ (foldl add_term z terms))
  = table_total (term_frequencies_ z) + Z.of_nat (length terms) /\
  dom (term_frequencies_ (foldl add_term z terms))
  = list_to_set terms ∪ dom (term_frequencies_ z) /\
  sorted_terms_ (foldl add_term z terms) = sorted_terms_ z.
Proof.
  revert z. induction terms as [|term terms IH]; intros z; cbn [foldl length list_to_set].
  - split; [lia|]. split; [rewrite union_empty_l_L; reflexivity|reflexivity].
  - destruct (IH (add_term z term)) as (H1 & H2 & H3).
    rewrite H1, H2, H3, add_term_total, add_term_dom, add_term_sorted.
    split; [lia|]. split; [|reflexivity].
    rewrite (assoc_L (∪)), (comm_L (∪) (list_to_set terms)). reflexivity.
Qed.

End Zipf.

(** [finalize] sorts the frequency table: the rows are the entries of the
    table, each once, in order of descending frequency, and row [i] has rank
    [i + 1]. *)
Theorem zipf_finalize_sorted (z : ZipfAnalyzer.t) :
  map (fun entry => (ZipfAnalyzer.term entry, ZipfAnalyzer.frequency entry))
      (ZipfAnalyzer.sorted_terms_ (ZipfAnalyzer.finalize z))
  ≡ₚ map_to_list (ZipfAnalyzer.term_frequencies_ z) /\
  StronglySorted by_frequency (ZipfAnalyzer.sorted_terms_ (ZipfAnalyzer.finalize z)) /\
  forall i entry,
    ZipfAnalyzer.sorted_terms_ (ZipfAnalyzer.finalize z) !! i = Some entry ->
    ZipfAnalyzer.rank entry = Z.of_nat i + 1.
Proof. apply sort_by_frequency_spec. Qed.

(** After [finalize], [total_terms] is the number of [add_term] calls and
    [vocabulary_size] the number of different terms; before it both read
    zero. *)
Theorem zipf_totals (terms : list string) :
  let z := foldl ZipfAnalyzer.add_term ZipfAnalyzer.new terms in
  ZipfAnalyzer.total_terms (ZipfAnalyzer.finalize z) = Z.of_nat (length terms) /\
  ZipfAnalyzer.vocabulary_size (ZipfAnalyzer.finalize z)
  = size (list_to_set terms : gset string) /\
  ZipfAnalyzer.total_terms z = 0 /\ ZipfAnalyzer.vocabulary_size z = O.
Proof.
  intros z.
  destruct (add_terms_spec terms ZipfAnalyzer.new) as (H1 & H2 & H3).
 fold z in H1, H2, H3.
  destruct (finalize_totals z) as [Ht Hv].
  split; [|split; [|split]].
  - rewrite Ht, H1. reflexivity.
  - rewrite Hv, <- (size_dom (D := gset string)), H2. cbn. rewrite dom_empty_L, union_empty_r_L. reflexivity.
  - unfold ZipfAnalyzer.total_terms. rewrite H3. reflexivity.
  - unfold ZipfAnalyzer.vocabulary_size. rewrite H3. reflexivity.
Qed.

(** * The builder's statistics *)

Section Report.

Import BuildReport.

Lemma foldl_sum_shift {A : Type} (f : A -> Z) (l : list A) (start : Z) :
  foldl (fun total x => total + f x) start l
  = start + foldl (fun total x => total + f x) 0 l.
Proof.
  revert start. induction l as [|x l IH]; intros start; cbn [foldl]; [lia|].
  rewrite IH, (IH (0 + f x)). lia.
Qed.

Lemma stem_chars_cons (token : string) (tokens : list string) :
  stem_chars (token :: tokens)
  = Z.of_nat (String.length (PorterStemmer.stem token)) + stem_chars tokens.
Proof. unfold stem_chars. cbn [foldl]. rewrite foldl_sum_shift. lia. Qed.

Lemma token_chars_cons (token : string) (tokens : list string) :
  token_chars (token :: tokens) = Z.of_nat (String.length token) + token_chars tokens.
Proof. unfold token_chars. cbn [foldl]. rewrite foldl_sum_shift. lia. Qed.

Lemma stem_chars_bounds (tokens : list string) :
  0 <= stem_chars tokens <= token_chars tokens.
Proof.
  induction tokens as [|token tokens IH]; [cbn; lia|].
  rewrite stem_chars_cons, token_chars_cons. pose proof (stem_le token). lia.
Qed.

(** The stemming loop: every token is counted as a stem. *)
Lemma note_stems_spec (tokens : list string) (zipf : ZipfAnalyzer.t) (stats : BuildStats.t) :
  Forall (fun token => Str.empty token = false) tokens ->
  foldl note_stem (zipf, stats) tokens
  = (foldl ZipfAnalyzer.add_term zipf (map PorterStemmer.stem tokens),
     BuildStats.mk (BuildStats.total_tokens stats)
                   (BuildStats.total_stems stats + Z.of_nat (length tokens))
                   (BuildStats.total_token_chars stats)
                   (BuildStats.total_stem_chars stats + stem_chars tokens)
                   (BuildStats.total_text_bytes stats)
                   (BuildStats.doc_count stats)).
Proof.
  intros Hne. revert zipf stats. induction Hne as [|token tokens Htok _ IH];
    intros zipf stats.
  - cbn [foldl map length]. destruct stats. cbn. f_equal. f_equal; lia.
  - cbn [foldl map]. unfold note_stem at 2. rewrite stem_empty, Htok.
    rewrite IH. cbn [BuildStats.total_tokens BuildStats.total_stems
                     BuildStats.total_token_chars BuildStats.total_stem_chars
                     BuildStats.total_text_bytes BuildStats.doc_count].
    rewrite stem_chars_cons. f_equal. f_equal; cbn [length]; lia.
Qed.

Lemma term_freqs_dom (text : string) :
  dom (IndexBuilder.term_freqs_of (Tokenizer.tokenize text))
  = (list_to_set (map PorterStemmer.stem (Tokenizer.tokenize text)) : gset string).
Proof.
  apply set_eq. intros stem. rewrite elem_of_dom, term_freqs_lookup.
  rewrite elem_of_list_to_set, list_elem_of_fmap.
  unfold stem_count, stem_count_in.
  destruct (Z.ltb_spec 0 (Z.of_nat (length (List.filter
             (fun token => String.eqb (PorterStemmer.stem token) stem)
             (Tokenizer.tokenize text))))) as [Hpos|Hzero].
  - split; [intros _|intros _; eexists; reflexivity].
    destruct (List.filter _ _) as [|token rest] eqn:E; [cbn in Hpos; lia|].
    assert (Hin : In token (List.filter
                    (fun token => String.eqb (PorterStemmer.stem token) stem)
                    (Tokenizer.tokenize text))) by (rewrite E; left; reflexivity).
    apply List.filter_In in Hin as [Hin Heq]. apply String.eqb_eq in Heq.
    exists token. split; [symmetry; exact Heq|apply list_elem_of_In; exact Hin].
  - split; [intros [x Hx]; discriminate|].
    intros (token & -> & Hin). exfalso.
    assert (Hin' : In token (List.filter
                     (fun token0 => String.eqb (PorterStemmer.stem token0)
                                               (PorterStemmer.stem token))
                     (Tokenizer.tokenize text))).
    { apply List.filter_In. split; [apply list_elem_of_In; exact Hin|apply String.eqb_refl]. }
    destruct (List.filter _ _); [contradiction|cbn in Hzero; lia].
Qed.

Lemma append_postings_dom (d : Z) (index : gmap string (list Posting))
    (term_freqs : gmap string Z) :
  dom (map_fold (IndexBuilder.append_posting d) index term_freqs)
  = (dom term_freqs ∪ dom index : gset string).
Proof.
  apply set_eq. intros stem. rewrite elem_of_union, !elem_of_dom, append_postings_lookup.
  destruct (term_freqs !! stem) as [n|].
  - split; [intros _; left; eexists; reflexivity|intros _; eexists; reflexivity].
  - split; [intros H; right; exact H|].
    intros [[x Hx]|H]; [discriminate|exact H].
Qed.

Lemma add_document_report (b b' : t) (d : Z) (url title text : string) :
  add_document b d url title text = Some b' ->
  report_ok b ->
  report_ok b' /\
  IndexBuilder.add_document (index_ b) d url title text = Some (index_ b') /\
  BuildStats.total_tokens (stats_ b')
  = BuildStats.total_tokens (stats_ b) + Z.of_nat (length (Tokenizer.tokenize text)).
Proof.
  unfold add_document. intros Hadd Hok.
  destruct (IndexBuilder.add_document (index_ b) d url title text) as [index|] eqn:E;
    [|discriminate].
  rewrite note_stems_spec in Hadd by apply tokens_nonempty.
  injection Hadd as <-. cbn [index_ zipf_ stats_].
  split; [|split; [reflexivity|reflexivity]].
  destruct Hok as [Hterms Hcount Hstems Hchars Hsorted].
  destruct (add_terms_spec (map PorterStemmer.stem (Tokenizer.tokenize text)) (zipf_ b))
    as (H1 & H2 & H3).
  pose proof (stem_chars_bounds (Tokenizer.tokenize text)) as Hbounds.
  constructor; cbn [index_ zipf_ stats_ BuildStats.total_tokens BuildStats.total_stems
                    BuildStats.total_token_chars BuildStats.total_stem_chars].
  - rewrite H2. apply add_document_index in E as [_ ->].
    rewrite append_postings_dom, term_freqs_dom, Hterms. reflexivity.
  - rewrite H1, length_map, Hcount. reflexivity.
  - lia.
  - lia.
  - rewrite H3. exact Hsorted.
Qed.

Lemma new_report_ok : report_ok new.
Proof.
  constructor; cbn.
  - rewrite !dom_empty_L. reflexivity.
  - unfold table_total. rewrite map_to_list_empty. reflexivity.
  - reflexivity.
  - lia.
  - reflexivity.
Qed.

Lemma add_documents_report_spec (docs : list Document) (b b' : t) :
  add_documents_report b docs = Some b' ->
  report_ok b ->
  report_ok b' /\
  add_documents (index_ b) docs = Some (index_ b') /\
  BuildStats.total_tokens (stats_ b')
  = BuildStats.total_tokens (stats_ b) + Z.of_nat (length (corpus_tokens docs)).
Proof.
  revert b. induction docs as [|doc docs IH]; intros b Hadd Hok; cbn in Hadd.
  - injection Hadd as <-. split; [exact Hok|]. split; [reflexivity|cbn; lia].
  - destruct (add_document b _ _ _ _) as [b1|] eqn:E; [|discriminate].
    destruct (add_document_report _ _ _ _ _ _ E Hok) as (Hok1 & Hindex1 & Htok1).
    destruct (IH _ Hadd Hok1) as (Hok' & Hindex' & Htok').
    split; [exact Hok'|]. split.
    + cbn [add_documents]. rewrite Hindex1. exact Hindex'.
    + rewrite Htok', Htok1. cbn [corpus_tokens flat_map]. rewrite length_app.
      fold (corpus_tokens docs). lia.
Qed.

End Report.

(** The counters of a build: every token was stemmed to a stem that is not
    empty, so [total_stems] equals [total_tokens], the number of tokens of
    all documents; the stems have no more characters than the tokens, so
    the reported length reduction is never negative. *)
Theorem build_stats_totals (docs : list Document) (b : BuildReport.t) :
  add_documents_report BuildReport.new docs = Some b ->
  let stats := BuildReport.stats b in
  BuildStats.total_tokens stats = Z.of_nat (length (corpus_tokens docs)) /\
  BuildStats.total_stems stats = BuildStats.total_tokens stats /\
  0 <= BuildStats.total_stem_chars stats <= BuildStats.total_token_chars stats.
Proof.
  intros Hadd stats.
  destruct (add_documents_report_spec docs _ _ Hadd new_report_ok) as (Hok & _ & Htok).
  destruct Hok as [_ _ Hstems Hchars _]. unfold stats, BuildReport.stats.
  split; [rewrite Htok; cbn; lia|]. split; assumption.
Qed.

Lemma build_stats_totals_witness :
  add_documents_report BuildReport.new corpus = Some corpus_report /\
  BuildStats.total_stems (BuildReport.stats corpus_report)
  = BuildStats.total_tokens (BuildReport.stats corpus_report).
Proof.
  assert (H : add_documents_report BuildReport.new corpus = Some corpus_report)
    by (vm_compute; reflexivity).
  split; [exact H|]. apply (build_stats_totals corpus corpus_report H).
Defined.

(** The Zipf table agrees with the index and the counters: written by
    [save_zipf_analysis], it has one row per term of the index, and its
    frequencies add up to [total_stems]. *)
Theorem zipf_matches_index (docs : list Document) (b : BuildReport.t) :
  add_documents_report BuildReport.new docs = Some b ->
  let saved := fst (BuildReport.save_zipf_analysis b) in
  ZipfAnalyzer.vocabulary_size (BuildReport.zipf_ saved) = BuildReport.vocabulary_size b /\
  ZipfAnalyzer.total_terms (BuildReport.zipf_ saved)
  = BuildStats.total_stems (BuildReport.stats b) /\
  add_documents IndexBuilder.new docs = Some (BuildReport.index_ b).
Proof.
  intros Hadd saved.
  destruct (add_documents_report_spec docs _ _ Hadd new_report_ok) as (Hok & Hindex & _).
  destruct Hok as [Hterms Hcount _ _ _].
  destruct (finalize_totals (BuildReport.zipf_ b)) as [Ht Hv].
  unfold saved, BuildReport.save_zipf_analysis. cbn [fst BuildReport.zipf_].
  split; [|split; [|exact Hindex]].
  - rewrite Hv. unfold BuildReport.vocabulary_size.
    rewrite <- (size_dom (D := gset string)), Hterms, size_dom. reflexivity.
  - rewrite Ht. exact Hcount.
Qed.

Lemma zipf_matches_index_witness :
  add_documents_report BuildReport.new corpus = Some corpus_report /\
  ZipfAnalyzer.vocabulary_size
    (BuildReport.zipf_ (fst (BuildReport.save_zipf_analysis corpus_report)))
  = BuildReport.vocabulary_size corpus_report.
Proof.
  assert (H : add_documents_report BuildReport.new corpus = Some corpus_report)
    by (vm_compute; reflexivity).
  split; [exact H|]. apply (zipf_matches_index corpus corpus_report H).
Defined.


(** * Reading JSON lines *)

Section Json.

Import IndexBuilder.

Lemma find_from_unfold (t s : string) (here : nat) :
  Str.find_from t s here =
  if String.prefix t s then Some here
  else match s with
       | EmptyString => None
       | String _ r => Str.find_from t r (S here)
       end.
Proof. destruct s; reflexivity. Qed.

Lemma prefix_app (t rest : string) : String.prefix t (t ++ rest) = true.
Proof.
  induction t as [|c t IH]; [destruct rest; reflexivity|].
  rewrite str_app_cons. cbn [String.prefix].
  destruct (ascii_dec c c); [exact IH|contradiction].
Qed.

Lemma differs_prefix (t s rest : string) :
  differs t s = true -> String.prefix t (s ++ rest) = false.
Proof.
  revert s. induction t as [|a t IH]; intros [|b s] H; cbn in H; try discriminate.
  rewrite str_app_cons. cbn [String.prefix].
  destruct (ascii_dec a b) as [->|Hne].
  - rewrite Ascii.eqb_refl in H. apply IH. exact H.
  - reflexivity.
Qed.

Lemma find_from_clear (t p rest : string) (here : nat) :
  clear_of t p = true ->
  Str.find_from t (p ++ rest) here = Str.find_from t rest (here + String.length p).
Proof.
  revert here. induction p as [|c p IH]; intros here H.
  - rewrite str_app_nil_l, Nat.add_0_r. reflexivity.
  - cbn [clear_of] in H. apply andb_prop in H as [Hd Hc].
    rewrite find_from_unfold, (differs_prefix _ _ _ Hd), str_app_cons.
    rewrite (IH _ Hc). cbn [String.length]. f_equal. lia.
Qed.

Lemma find_from_here (t rest : string) (here : nat) :
  Str.find_from t (t ++ rest) here = Some here.
Proof. rewrite find_from_unfold, prefix_app. reflexivity. Qed.

(** A text without the first character of [t]. *)
Lemma clear_of_first (c : ascii) (t p : string) :
  Str.all (fun x => negb (Ascii.eqb c x)) p = true -> clear_of (String c t) p = true.
Proof.
  induction p as [|x p IH]; [reflexivity|]. cbn [Str.all clear_of differs]. intros H.
  apply andb_prop in H as [Hx Hp]. apply negb_true_iff in Hx. rewrite Hx, (IH Hp).
  reflexivity.
Qed.

(** ** No key inside a value *)

Lemma quote_app (s : string) : (quote ++ s)%string = String Chars.dquote s.
Proof. reflexivity. Qed.

Lemma json_key_cons (name : string) :
  json_key name = String Chars.dquote (name ++ String Chars.dquote ":").
Proof. reflexivity. Qed.

Lemma name_char_facts (c : ascii) :
  name_char c = true ->
  c <> Chars.dquote /\ c <> Chars.backslash /\ c <> ":"%char /\ c <> ","%char /\
  c <> "}"%char /\ c <> " "%char /\ c <> Chars.tab.
Proof.
  destruct c as [[] [] [] [] [] [] [] []]; vm_compute; intros H;
    first [discriminate H | repeat split; discriminate].
Qed.

Lemma prefix_cons (a b : ascii) (t s : string) :
  String.prefix (String a t) (String b s)
  = if Ascii.eqb a b then String.prefix t s else false.
Proof.
  cbn [String.prefix]. destruct (ascii_dec a b) as [->|Hne].
  - rewrite Ascii.eqb_refl. reflexivity.
  - apply Ascii.eqb_neq in Hne. rewrite Hne. reflexivity.
Qed.

(** The rest of a key, after its opening quote, is not what a value and its
    closing quote begin with. *)
Lemma key_tail_not_in_value (name value rest : string) :
  Str.all name_char name = true -> well_escaped value = true ->
  closes_value rest = true ->
  String.prefix (name ++ String Chars.dquote ":") (value ++ String Chars.dquote rest)
  = false.
Proof.
  intros Hname. revert value. induction name as [|n name IH]; intros value Hv Hrest.
  - rewrite str_app_nil_l. destruct value as [|x value].
    + rewrite str_app_nil_l, prefix_cons, Ascii.eqb_refl.
      destruct rest as [|c rest]; [discriminate|]. rewrite prefix_cons.
      cbn [closes_value] in Hrest.
      destruct (Ascii.eqb_spec ":" c) as [<-|]; [discriminate Hrest|reflexivity].
    + rewrite str_app_cons, prefix_cons.
      destruct (Ascii.eqb_spec Chars.dquote x) as [<-|]; [|reflexivity].
      discriminate Hv.
  - cbn [Str.all] in Hname. apply andb_prop in Hname as [Hn Hname].
    apply name_char_facts in Hn as (Hq & Hb & _).
    rewrite str_app_cons. destruct value as [|x value].
    + rewrite str_app_nil_l, prefix_cons.
      destruct (Ascii.eqb_spec n Chars.dquote); [contradiction|reflexivity].
    + rewrite str_app_cons, prefix_cons.
      destruct (Ascii.eqb_spec n x) as [<-|]; [|reflexivity].
      apply IH; [exact Hname| |exact Hrest].
      cbn [well_escaped] in Hv.
      destruct (Ascii.eqb_spec n Chars.backslash); [contradiction|].
      apply andb_prop in Hv. tauto.
Qed.

Lemma key_tail_not_at_close (name rest : string) :
  Str.all name_char name = true -> closes_value rest = true ->
  String.prefix (name ++ String Chars.dquote ":") rest = false.
Proof.
  intros Hname Hrest. destruct rest as [|c rest]; [discriminate|].
  cbn [closes_value] in Hrest. destruct name as [|n name].
  - rewrite str_app_nil_l, prefix_cons.
    destruct (Ascii.eqb_spec Chars.dquote c) as [<-|]; [discriminate Hrest|reflexivity].
  - cbn [Str.all] in Hname. apply andb_prop in Hname as [Hn _].
    apply name_char_facts in Hn as (_ & _ & _ & Hcomma & Hbrace & _).
    rewrite str_app_cons, prefix_cons.
    destruct (Ascii.eqb_spec n c) as [<-|]; [|reflexivity].
    apply orb_prop in Hrest as [H|H]; apply Ascii.eqb_eq in H; contradiction.
Qed.

Lemma key_not_at (c : ascii) (name s : string) :
  c <> Chars.dquote -> String.prefix (json_key name) (String c s) = false.
Proof.
  intros Hc. rewrite json_key_cons, prefix_cons.
  destruct (Ascii.eqb_spec Chars.dquote c) as [<-|]; [contradiction|reflexivity].
Qed.

Lemma key_at_quote (name s : string) :
  String.prefix (json_key name) (String Chars.dquote s)
  = String.prefix (name ++ String Chars.dquote ":") s.
Proof. rewrite json_key_cons, prefix_cons, Ascii.eqb_refl. reflexivity. Qed.

(** Scanning an escaped value and its closing quote. *)
Lemma find_from_escaped (fuel : nat) (name value rest : string) (here : nat) :
  (String.length value <= fuel)%nat ->
  Str.all name_char name = true -> well_escaped value = true ->
  closes_value rest = true ->
  Str.find_from (json_key name) (value ++ String Chars.dquote rest) here
  = Str.find_from (json_key name) rest (here + String.length value + 1).
Proof.
  intros Hfuel Hname. revert value here Hfuel.
  induction fuel as [|fuel IH]; intros value here Hfuel Hv Hrest.
  - destruct value; [|cbn in Hfuel; lia]. rewrite str_app_nil_l.
    rewrite find_from_unfold, key_at_quote, key_tail_not_at_close by assumption.
    cbn [String.length]. f_equal. lia.
  - destruct value as [|x value].
    { rewrite str_app_nil_l.
      rewrite find_from_unfold, key_at_quote, key_tail_not_at_close by assumption.
      cbn [String.length]. f_equal. lia. }
    cbn [well_escaped] in Hv. cbn [String.length] in Hfuel |- *.
    rewrite str_app_cons, find_from_unfold.
    destruct (Ascii.eqb_spec x Chars.backslash) as [->|Hnb].
    + rewrite key_not_at by discriminate.
      destruct value as [|y value]; [discriminate|]. cbn [String.length] in Hfuel |- *.
      rewrite str_app_cons, find_from_unfold.
      assert (Hy : String.prefix (json_key name)
                     (String y (value ++ String Chars.dquote rest)) = false).
      { destruct (Ascii.eqb_spec y Chars.dquote) as [->|Hy].
        - rewrite key_at_quote. apply key_tail_not_in_value; assumption.
        - apply key_not_at. exact Hy. }
      rewrite Hy, IH by (try assumption; lia). f_equal. lia.
    + apply andb_prop in Hv as [Hq Hv]. apply negb_true_iff, Ascii.eqb_neq in Hq.
      rewrite key_not_at by exact Hq. rewrite IH by (try assumption; lia). f_equal. lia.
Qed.

(** A whole string value, from its opening quote to its closing quote. *)
Lemma find_from_value (name value rest : string) (here : nat) :
  Str.all name_char name = true -> well_escaped value = true ->
  closes_value rest = true ->
  Str.find_from (json_key name)
    (String Chars.dquote (value ++ String Chars.dquote rest)) here
  = Str.find_from (json_key name) rest (here + String.length value + 2).
Proof.
  intros Hname Hv Hrest.
  rewrite find_from_unfold, key_at_quote, key_tail_not_in_value by assumption.
  rewrite (find_from_escaped (String.length value)) by (try assumption; lia).
  f_equal. lia.
Qed.

Lemma escape_well_escaped (s : string) : well_escaped (escape s) = true.
Proof.
  induction s as [|c s IH]; [reflexivity|]. cbn [escape].
  repeat match goal with
         | |- context [if Ascii.eqb c ?x then _ else _] =>
             destruct (Ascii.eqb_spec c x) as [->|?]
         end;
    cbn [well_escaped]; rewrite ?Ascii.eqb_refl; try exact IH.
  destruct (Ascii.eqb_spec c Chars.backslash); [contradiction|].
  destruct (Ascii.eqb_spec c Chars.dquote); [contradiction|exact IH].
Qed.

(** The escape loop of [extract_json_field] undoes [escape]. *)
Lemma unescape_escape (s rest : string) :
  unescape (escape s ++ String Chars.dquote rest) = s.
Proof.
  induction s as [|c s IH].
  - rewrite str_app_nil_l. reflexivity.
  - cbn [escape].
    repeat match goal with
           | |- context [if Ascii.eqb c ?x then _ else _] =>
               destruct (Ascii.eqb_spec c x) as [->|?]
           end;
      rewrite !str_app_cons; cbn [unescape]; rewrite ?Ascii.eqb_refl;
      try (cbv iota; rewrite IH; reflexivity).
    destruct (Ascii.eqb_spec c Chars.backslash); [contradiction|].
    destruct (Ascii.eqb_spec c Chars.dquote); [contradiction|].
    rewrite IH. reflexivity.
Qed.

(** ** Positions *)

Lemma drop_app (a b : string) : Str.drop (String.length a) (a ++ b) = b.
Proof. induction a as [|c a IH]; [destruct b; reflexivity|exact IH]. Qed.

Lemma drop_app_plus (a b : string) (n : nat) :
  Str.drop (String.length a + n) (a ++ b) = Str.drop n b.
Proof. induction a as [|c a IH]; [reflexivity|exact IH]. Qed.

Lemma drop_zero (s : string) : Str.drop 0 s = s.
Proof. destruct s; reflexivity. Qed.

Lemma get_drop (s : string) (n : nat) :
  String.get n s
  = match Str.drop n s with String c _ => Some c | EmptyString => None end.
Proof.
  revert n. induction s as [|c s IH]; intros [|n]; try reflexivity. apply IH.
Qed.

Lemma at_drop (s : string) (n : nat) :
  Str.at_ s (Z.of_nat n)
  = match Str.drop n s with String c _ => c | EmptyString => Chars.nul end.
Proof.
  unfold Str.at_. destruct (Z.ltb_spec (Z.of_nat n) 0); [lia|].
  rewrite Nat2Z.id, get_drop. destruct (Str.drop n s); reflexivity.
Qed.

Lemma drop_step (s : string) (n : nat) (c : ascii) (r : string) :
  Str.drop n s = String c r -> Str.drop (S n) s = r.
Proof.
  revert n. induction s as [|x s IH]; intros [|n] H; cbn in *; try discriminate.
  - injection H as _ <-. destruct s; reflexivity.
  - apply IH. exact H.
Qed.

Lemma substring_app_middle (a v b : string) :
  String.substring (String.length a) (String.length v) (a ++ v ++ b) = v.
Proof.
  induction a as [|c a IH]; [|exact IH]. rewrite str_app_nil_l. cbn [String.length].
  revert b. induction v as [|x v IHv]; intros b.
  - rewrite str_app_nil_l. destruct b; reflexivity.
  - rewrite str_app_cons. cbn [String.length String.substring]. rewrite IHv. reflexivity.
Qed.

Lemma json_key_length (name : string) :
  String.length (json_key name) = (String.length name + 3)%nat.
Proof. rewrite json_key_cons. cbn [String.length]. rewrite str_length_app. cbn. lia. Qed.

Lemma find_le (s t : string) (pos : nat) :
  (pos <= String.length s)%nat -> Str.find s t pos = Str.find_from t (Str.drop pos s) pos.
Proof. intros H. unfold Str.find. destruct (Nat.leb_spec pos (String.length s)); [reflexivity|lia]. Qed.

(** The colon of a key. *)
Lemma find_colon (name rest : string) (here : nat) :
  Str.all name_char name = true ->
  Str.find_from ":" (json_key name ++ rest) here = Some (here + String.length name + 2)%nat.
Proof.
  intros Hname. rewrite json_key_cons.
  change (String Chars.dquote (name ++ String Chars.dquote ":"))
    with ((String Chars.dquote EmptyString) ++ (name ++ String Chars.dquote ":"))%string.
  rewrite !str_app_assoc.
  rewrite find_from_clear by reflexivity.
  rewrite find_from_clear.
  - change (String Chars.dquote ":" ++ rest)%string
      with (String Chars.dquote EmptyString ++ (":" ++ rest))%string.
    rewrite find_from_clear by reflexivity. rewrite find_from_here. cbn. f_equal. lia.
  - apply clear_of_first. eapply str_all_impl; [|exact Hname].
    intros c Hc. apply name_char_facts in Hc as (_ & _ & Hcolon & _).
    apply negb_true_iff, Ascii.eqb_neq. congruence.
Qed.

(** ** One field *)

(** A string field: the value between the quotes, with its escapes
    undone. *)
Lemma extract_string_field (pre name value rest : string) :
  Str.all name_char name = true ->
  let json :=
    (pre ++ json_key name ++ String " " (String Chars.dquote
       (escape value ++ String Chars.dquote rest)))%string in
  Str.find_from (json_key name) json 0 = Some (String.length pre) ->
  extract_json_field json name 0 = value.
Proof.
  intros Hname json Hfind. unfold extract_json_field.
  change (quote ++ name ++ quote ++ ":")%string with (json_key name).
  rewrite find_le by lia. rewrite drop_zero, Hfind.
  assert (Hlen : (String.length pre <= String.length json)%nat).
  { unfold json. rewrite str_length_app. lia. }
  assert (Hpre : Str.drop (String.length pre) json
                 = (json_key name ++ String " " (String Chars.dquote
                      (escape value ++ String Chars.dquote rest)))%string).
  { unfold json. apply drop_app. }
  rewrite find_le by exact Hlen. rewrite Hpre, find_colon by exact Hname.
  set (value_start := S (String.length pre + String.length name + 2)).
  assert (Hdrop : Str.drop value_start json
                  = String " " (String Chars.dquote (escape value ++ String Chars.dquote rest))).
  { unfold value_start, json.
    replace (S (String.length pre + String.length name + 2))
      with (String.length pre + (String.length (json_key name) + 0))%nat
      by (rewrite json_key_length; lia).
    rewrite !drop_app_plus. reflexivity. }
  rewrite Hdrop. cbn [skip_blanks]. rewrite Ascii.eqb_refl. cbn [orb].
  change (Ascii.eqb Chars.dquote " " || Ascii.eqb Chars.dquote Chars.tab) with false.
  cbv iota. rewrite at_drop.
  pose proof (drop_step _ _ _ _ Hdrop) as Hdrop1.
  rewrite Hdrop1, Ascii.eqb_refl. cbn [negb].
  pose proof (drop_step _ _ _ _ Hdrop1) as Hdrop2.
  rewrite Hdrop2. apply unescape_escape.
Qed.

(** A value without quotes: the characters up to the comma. *)
Lemma extract_bare_field (pre name value rest : string) :
  Str.all name_char name = true ->
  Str.all bare_char value = true -> Str.empty value = false ->
  let json := (pre ++ json_key name ++ String " " (value ++ String "," rest))%string in
  Str.find_from (json_key name) json 0 = Some (String.length pre) ->
  extract_json_field json name 0 = value.
Proof.
  intros Hname Hvalue Hne json Hfind. unfold extract_json_field.
  change (quote ++ name ++ quote ++ ":")%string with (json_key name).
  rewrite find_le by lia. rewrite drop_zero, Hfind.
  assert (Hlen : (String.length pre <= String.length json)%nat).
  { unfold json. rewrite str_length_app. lia. }
  assert (Hpre : Str.drop (String.length pre) json
                 = (json_key name ++ String " " (value ++ String "," rest))%string).
  { unfold json. apply drop_app. }
  rewrite find_le by exact Hlen. rewrite Hpre, find_colon by exact Hname.
  set (value_start := S (String.length pre + String.length name + 2)).
  assert (Hdrop : Str.drop value_start json = String " " (value ++ String "," rest)).
  { unfold value_start, json.
    replace (S (String.length pre + String.length name + 2))
      with (String.length pre + (String.length (json_key name) + 0))%nat
      by (rewrite json_key_length; lia).
    rewrite !drop_app_plus. reflexivity. }
  pose proof (drop_step _ _ _ _ Hdrop) as Hdrop1.
  destruct value as [|c value]; [discriminate|].
  cbn [Str.all] in Hvalue. apply andb_prop in Hvalue as [Hc Hvalue].
  unfold bare_char in Hc. apply andb_prop in Hc as [Hc Htab].
  apply andb_prop in Hc as [Hc Hspace]. apply andb_prop in Hc as [Hquote Hcomma].
  apply negb_true_iff in Htab, Hspace, Hquote, Hcomma.
  rewrite Hdrop. rewrite str_app_cons in *. cbn [skip_blanks].
  rewrite Ascii.eqb_refl. cbn [orb]. rewrite Hspace, Htab. cbn [orb].
  rewrite at_drop, Hdrop1, Hquote. cbn [negb].
  assert (Hsize : (S value_start <= String.length json)%nat).
  { unfold value_start, json. rewrite !str_length_app, json_key_length.
    cbn [String.length]. lia. }
  rewrite find_le by exact Hsize. rewrite Hdrop1.
  assert (Hfound : Str.find_from "," (String c (value ++ String "," rest)) (S value_start)
                   = Some (S value_start + String.length (String c value))%nat).
  { change (String c (value ++ String "," rest))
      with (String c EmptyString ++ (value ++ String "," rest))%string.
    rewrite <- str_app_assoc. rewrite find_from_clear.
    - change (String "," rest) with ("," ++ rest)%string. rewrite find_from_here.
      reflexivity.
    - apply clear_of_first. rewrite str_app_cons, str_app_nil_l. cbn [Str.all].
      rewrite Ascii.eqb_sym, Hcomma. cbn [negb andb].
      eapply str_all_impl; [|exact Hvalue]. intros x Hx. unfold bare_char in Hx.
      apply andb_prop in Hx as [Hx _]. apply andb_prop in Hx as [Hx _].
      apply andb_prop in Hx as [_ Hx]. rewrite Ascii.eqb_sym. exact Hx. }
  rewrite Hfound.
  replace (S value_start + String.length (String c value) - S value_start)%nat
    with (String.length (String c value)) by lia.
  replace (S value_start) with (String.length (pre ++ json_key name ++ " ")).
  - assert (Hjson : json = ((pre ++ json_key name ++ " ")
                            ++ String c value ++ String "," rest)%string).
    { unfold json. rewrite !str_app_assoc. reflexivity. }
    rewrite Hjson. apply substring_app_middle.
  - unfold value_start. rewrite !str_length_app, json_key_length. cbn. lia.
Qed.

(** ** A whole record *)

Lemma json_record_shape (doc_id_value url title text : string) :
  json_record doc_id_value url title text
  = String "{" (json_key "doc_id" ++ String " "
      (doc_id_value ++ after_doc_id url title text)).
Proof.
  unfold json_record, json_string, after_doc_id, string_field, json_key, quote.
  rewrite !str_app_assoc. reflexivity.
Qed.

Lemma find_skip_char (name : string) (c : ascii) (s : string) (here : nat) :
  c <> Chars.dquote ->
  Str.find_from (json_key name) (String c s) here
  = Str.find_from (json_key name) s (S here).
Proof. intros Hc. rewrite find_from_unfold, key_not_at by exact Hc. reflexivity. Qed.

Lemma find_skip_field (name other value rest : string) (here : nat) :
  clear_of (json_key name) (json_key other ++ " ") = true ->
  Str.all name_char name = true -> well_escaped value = true ->
  closes_value rest = true ->
  Str.find_from (json_key name) (string_field other value rest) here
  = Str.find_from (json_key name) rest
      (here + String.length other + String.length value + 6).
Proof.
  intros Hclear Hname Hv Hrest. unfold string_field.
  change (json_key other ++ String " " (String Chars.dquote (value ++ String Chars.dquote rest)))%string
    with (json_key other ++ (" " ++ String Chars.dquote (value ++ String Chars.dquote rest)))%string.
  rewrite <- str_app_assoc, find_from_clear by exact Hclear.
  rewrite find_from_value by assumption.
  rewrite str_length_app, json_key_length. cbn [String.length]. f_equal. lia.
Qed.

Lemma escape_length (s : string) : (String.length s <= String.length (escape s))%nat.
Proof.
  induction s as [|c s IH]; [reflexivity|]. cbn [escape].
  repeat match goal with
         | |- context [if ?b then _ else _] => destruct b
         end; cbn [String.length]; lia.
Qed.

Lemma digits_bare (s : string) :
  Str.all Chars.is_digit s = true -> Str.all bare_char s = true.
Proof.
  apply str_all_impl. intros c Hc.
  destruct c as [[] [] [] [] [] [] [] []]; first [discriminate Hc | reflexivity].
Qed.

Lemma digits_no_quote (s : string) :
  Str.all Chars.is_digit s = true ->
  Str.all (fun x => negb (Ascii.eqb Chars.dquote x)) s = true.
Proof.
  apply str_all_impl. intros c Hc.
  destruct c as [[] [] [] [] [] [] [] []]; first [discriminate Hc | reflexivity].
Qed.

Ltac lengths :=
  repeat first [rewrite str_length_app | rewrite json_key_length
               | progress cbn [String.length]].

Section Record.

Variables (n : nat) (url title text : string).


Lemma record_doc_id : extract_json_field (record_line n url title text) "doc_id" 0 = (Stream.put_nat n).
Proof.
  unfold record_line. rewrite json_record_shape.
  apply (extract_bare_field "{" "doc_id" (Stream.put_nat n)).
  - reflexivity.
  - apply digits_bare, put_nat_digits.
  - apply put_nat_nonempty.
  - change (("{" ++ json_key "doc_id" ++ String " " ((Stream.put_nat n) ++ _))%string)
      with (String "{" (json_key "doc_id"
              ++ String " " ((Stream.put_nat n) ++ after_doc_id (escape url) (escape title) (escape text)))).
    rewrite find_skip_char by discriminate. apply find_from_here.
Qed.

(** The scan up to the first field after the [doc_id] (Stream.put_nat n). *)
Lemma record_scan (name : string) :
  clear_of (json_key name) (json_key "doc_id" ++ " ") = true ->
  Str.find_from (json_key name) (record_line n url title text) 0
  = Str.find_from (json_key name)
      (string_field "url" (escape url) (after_url (escape title) (escape text)))
      (String.length (Stream.put_nat n) + 13).
Proof.
  intros Hclear. unfold record_line. rewrite json_record_shape.
  rewrite find_skip_char by discriminate.
  change (json_key "doc_id" ++ String " " ((Stream.put_nat n) ++ after_doc_id (escape url) (escape title) (escape text)))%string
    with (json_key "doc_id" ++ (" " ++ ((Stream.put_nat n) ++ after_doc_id (escape url) (escape title) (escape text))))%string.
  rewrite <- str_app_assoc, find_from_clear by exact Hclear.
  rewrite find_from_clear
    by (rewrite json_key_cons; apply clear_of_first, digits_no_quote, put_nat_digits).
  unfold after_doc_id. rewrite !find_skip_char by discriminate.
  f_equal. change (String.length (json_key "doc_id" ++ " ")) with 10%nat. lia.
Qed.

Lemma record_url : extract_json_field (record_line n url title text) "url" 0 = url.
Proof.
  assert (Hjson : (record_line n url title text) = (String "{" (json_key "doc_id" ++ String " " ((Stream.put_nat n) ++ ", "))
                          ++ json_key "url" ++ String " " (String Chars.dquote
                               (escape url ++ String Chars.dquote
                                  (after_url (escape title) (escape text)))))%string).
  { unfold record_line. rewrite json_record_shape. unfold after_doc_id, string_field.
    repeat (rewrite str_app_cons || rewrite str_app_assoc || rewrite str_app_nil_l).
    reflexivity. }
  rewrite Hjson. apply extract_string_field; [reflexivity|]. rewrite <- Hjson.
  rewrite record_scan by reflexivity. unfold string_field at 1.
  rewrite find_from_here. f_equal. lengths. lia.
Qed.

Lemma record_title : extract_json_field (record_line n url title text) "title" 0 = title.
Proof.
  assert (Hjson : (record_line n url title text) = (String "{" (json_key "doc_id" ++ String " "
                            ((Stream.put_nat n) ++ String "," (String " " (json_key "url" ++ String " "
                               (String Chars.dquote (escape url ++ String Chars.dquote ", "))))))
                          ++ json_key "title" ++ String " " (String Chars.dquote
                               (escape title ++ String Chars.dquote
                                  (after_title (escape text)))))%string).
  { unfold record_line. rewrite json_record_shape. unfold after_doc_id, after_url, string_field.
    repeat (rewrite str_app_cons || rewrite str_app_assoc || rewrite str_app_nil_l).
    reflexivity. }
  rewrite Hjson. apply extract_string_field; [reflexivity|]. rewrite <- Hjson.
  rewrite record_scan by reflexivity.
  rewrite find_skip_field
    by (first [reflexivity | apply escape_well_escaped]).
  unfold after_url. rewrite !find_skip_char by discriminate. unfold string_field at 1.
  rewrite find_from_here. f_equal. lengths. lia.
Qed.

Lemma record_text : extract_json_field (record_line n url title text) "text" 0 = text.
Proof.
  assert (Hjson : (record_line n url title text) = (String "{" (json_key "doc_id" ++ String " "
                            ((Stream.put_nat n) ++ String "," (String " " (json_key "url" ++ String " "
                               (String Chars.dquote (escape url ++ String Chars.dquote
                                  (String "," (String " " (json_key "title" ++ String " "
                                     (String Chars.dquote
                                        (escape title ++ String Chars.dquote ", ")))))))))))
                          ++ json_key "text" ++ String " " (String Chars.dquote
                               (escape text ++ String Chars.dquote "}")))%string).
  { unfold record_line. rewrite json_record_shape.
    unfold after_doc_id, after_url, after_title, string_field.
    repeat (rewrite str_app_cons || rewrite str_app_assoc || rewrite str_app_nil_l).
    reflexivity. }
  rewrite Hjson. apply extract_string_field; [reflexivity|]. rewrite <- Hjson.
  rewrite record_scan by reflexivity.
  rewrite find_skip_field by (first [reflexivity | apply escape_well_escaped]).
  unfold after_url. rewrite !find_skip_char by discriminate.
  rewrite find_skip_field by (first [reflexivity | apply escape_well_escaped]).
  unfold after_title. rewrite !find_skip_char by discriminate. unfold string_field at 1.
  rewrite find_from_here. f_equal. lengths. lia.
Qed.

Lemma record_length : (String.length text <= String.length (record_line n url title text))%nat.
Proof.
  unfold record_line. rewrite json_record_shape.
  unfold after_doc_id, after_url, after_title, string_field.
  lengths. pose proof (escape_length text). lia.
Qed.

Lemma record_one_line : Str.all not_newline (record_line n url title text) = true.
Proof.
  assert (Hescape : forall s, Str.all not_newline (escape s) = true).
  { induction s as [|c s IH]; [reflexivity|]. cbn [escape].
    repeat match goal with
           | |- context [if Ascii.eqb c ?x then _ else _] =>
               destruct (Ascii.eqb_spec c x) as [->|?]
           end; cbn [Str.all]; rewrite ?IH; try reflexivity.
    unfold not_newline. destruct (Ascii.eqb_spec c Chars.newline); [contradiction|].
    reflexivity. }
  unfold record_line. rewrite json_record_shape.
  unfold after_doc_id, after_url, after_title, string_field.
  assert (Hvalue : Str.all not_newline (Stream.put_nat n) = true).
  { eapply str_all_impl; [|apply put_nat_digits]. intros c Hc.
    destruct c as [[] [] [] [] [] [] [] []]; first [discriminate Hc | reflexivity]. }
  repeat first [rewrite str_all_app | rewrite Hescape | rewrite Hvalue
               | progress cbn [Str.all]].
  reflexivity.
Qed.

End Record.

Lemma json_line_record (d : Document) :
  0 <= document_id d ->
  json_line d = record_line (Z.to_nat (document_id d)) (document_url d)
                  (document_title d) (document_text d).
Proof. intros H. unfold json_line, record_line. rewrite put_int_nonneg by exact H. reflexivity. Qed.

Lemma stoi_put_nat (n : nat) :
  Z.of_nat n <= 2147483647 -> stoi (Stream.put_nat n) = stoi_value (Z.of_nat n).
Proof.
  intros Hn. unfold stoi. rewrite <- (str_app_nil_r (Stream.put_nat n)).
  rewrite get_int_put_nat by reflexivity.
  destruct (Z.leb_spec (-2147483648) (Z.of_nat n)); [|lia].
  destruct (Z.leb_spec (Z.of_nat n) 2147483647); [reflexivity|lia].
Qed.

Lemma indexable_inv (d : Document) :
  indexable d = true ->
  0 <= document_id d <= 2147483647 /\ (50 <= String.length (document_text d))%nat.
Proof.
  unfold indexable. intros H. apply andb_prop in H as [H Hlen].
  apply andb_prop in H as [Hlo Hhi].
  apply Z.leb_le in Hlo, Hhi. apply Nat.leb_le in Hlen. lia.
Qed.

Lemma process_record (d : Document) :
  indexable d = true ->
  process_line (json_line d)
  = Add (document_id d) (document_url d) (document_title d) (document_text d).
Proof.
  intros Hd. apply indexable_inv in Hd as [Hid Hlen].
  rewrite json_line_record by lia. unfold process_line.
  pose proof (record_length (Z.to_nat (document_id d)) (document_url d)
                (document_title d) (document_text d)) as Hline.
  set (line := record_line _ _ _ _) in *.
  assert (Hne : Str.empty line = false) by (destruct line; [cbn in Hline; lia|reflexivity]).
  rewrite Hne. destruct (Nat.ltb_spec (String.length line) 50); [lia|]. cbn [orb].
  unfold line. rewrite record_doc_id, record_url, record_title, record_text.
  rewrite put_nat_nonempty, stoi_put_nat by lia. rewrite Z2Nat.id by lia.
  assert (Hne' : Str.empty (document_text d) = false)
    by (destruct (document_text d); [cbn in Hlen; lia|reflexivity]).
  rewrite Hne'. destruct (Nat.ltb_spec (String.length (document_text d)) 50); [lia|].
  reflexivity.
Qed.

Lemma build_lines_records (docs : list Document) (b : t) :
  forallb indexable docs = true ->
  exists b', add_documents b docs = Some b' /\
             build_lines b (map json_line docs) = Returned b'.
Proof.
  revert b. induction docs as [|d docs IH]; intros b H.
  - exists b. split; reflexivity.
  - cbn [forallb] in H. apply andb_prop in H as [Hd Hdocs].
    cbn [map build_lines add_documents]. rewrite process_record by exact Hd.
    apply indexable_inv in Hd as [Hid _].
    destruct (add_document b (document_id d) (document_url d) (document_title d)
                (document_text d)) as [b1|] eqn:E.
    + apply IH. exact Hdocs.
    + unfold add_document in E. destruct (Z.ltb_spec (document_id d) 0); [lia|discriminate].
Qed.

Lemma lines_jsonl (docs : list Document) :
  forallb indexable docs = true -> Stream.lines (jsonl docs) = map json_line docs.
Proof.
  intros H. unfold jsonl.
  rewrite <- (map_map json_line (fun body => (body ++ end_of_line)%string)).
  apply lines_of_bodies. apply Forall_map, Forall_forall. intros d Hin.
  rewrite forallb_forall in H. apply list_elem_of_In, H, indexable_inv in Hin as [Hid _].
  rewrite json_line_record by lia. apply record_one_line.
Qed.

End Json.

(** [extract_json_field] reads a record back: from the line written for a
    document (strings escaped, doc_id as a number) it returns the doc_id's
    digits, the URL, the title and the text, with the escapes undone. *)
Theorem extract_json_field_record (d : Document) :
  0 <= document_id d ->
  IndexBuilder.extract_json_field (json_line d) "doc_id" 0
  = Stream.put_int (document_id d) /\
  IndexBuilder.extract_json_field (json_line d) "url" 0 = document_url d /\
  IndexBuilder.extract_json_field (json_line d) "title" 0 = document_title d /\
  IndexBuilder.extract_json_field (json_line d) "text" 0 = document_text d.
Proof.
  intros Hid. rewrite json_line_record by exact Hid.
  rewrite record_doc_id, record_url, record_title, record_text.
  rewrite put_int_nonneg by exact Hid. auto.
Qed.

Lemma extract_json_field_record_witness :
  0 <= document_id sample_document /\
  IndexBuilder.extract_json_field (json_line sample_document) "title" 0
  = document_title sample_document.
Proof.
  split; [vm_compute; discriminate|].
  apply (extract_json_field_record sample_document). vm_compute. discriminate.
Defined.

(** [build_from_jsonl] on a file of well-formed records (doc_ids that are
    non-negative [int]s, texts of 50 bytes or more) returns, and builds what
    the same sequence of [add_document] calls builds. *)
Theorem build_from_jsonl_records (docs : list Document) (b : IndexBuilder.t) :
  forallb indexable docs = true ->
  exists b', add_documents b docs = Some b' /\
             IndexBuilder.build_from_jsonl b (jsonl docs) = IndexBuilder.Returned b'.
Proof.
  intros H. unfold IndexBuilder.build_from_jsonl. rewrite lines_jsonl by exact H.
  apply build_lines_records. exact H.
Qed.

Lemma build_from_jsonl_records_witness :
  forallb indexable [sample_document] = true /\
  exists b', add_documents IndexBuilder.new [sample_document] = Some b' /\
             IndexBuilder.build_from_jsonl IndexBuilder.new (jsonl [sample_document])
             = IndexBuilder.Returned b'.
Proof.
  split; [reflexivity|]. apply build_from_jsonl_records. reflexivity.
Defined.


(** ** The growable array *)

Section DynamicArrayFacts.

Context {T : Type} {inhabited_T : Inhabited T}.

Local Open Scope nat_scope.

Lemma copy_loop_spec (source target : list T) (count : nat) :
  count <= length source -> count <= length target ->
  exists copied,
    DynamicArray.copy_loop source target count = DynamicArray.Returns copied /\
    length copied = length target /\ take count copied = take count source.
Proof.
  intros Hsource Htarget. unfold DynamicArray.copy_loop.
  induction count as [|count IH].
  - exists target. split; [reflexivity|]. split; [reflexivity|].
    rewrite !take_0. reflexivity.
  - destruct (IH ltac:(lia) ltac:(lia)) as (copied & Hrun & Hlen & Htake).
    rewrite seq_S, foldl_app, Hrun. cbn [foldl Nat.add DynamicArray.bind].
    destruct (Nat.ltb_spec count (length source)) as [_ | Hge]; [|lia].
    destruct (Nat.ltb_spec count (length copied)) as [_ | Hge]; [|lia].
    cbn [andb]. eexists. split; [reflexivity|].
    split; [rewrite length_insert; exact Hlen|].
    assert (Hx : source !! count = Some (nth count source inhabitant)).
    { destruct (lookup_lt_is_Some_2 source count ltac:(lia)) as [x Hx].
      rewrite Hx. f_equal. symmetry.
      apply nth_lookup_Some with (d := inhabitant) in Hx. exact Hx. }
    rewrite (take_S_r source count _ Hx).
    rewrite (take_S_r _ count (nth count source inhabitant)).
    + rewrite take_insert_ge by lia. rewrite Htake. reflexivity.
    + apply list_lookup_insert_eq. lia.
Qed.

Lemma resize_holds (a : DynamicArray.t T) (l : list T) (new_capacity : nat) :
  DynamicArray.holds a l -> DynamicArray.size_ a <= new_capacity ->
  exists a',
    DynamicArray.resize a new_capacity = DynamicArray.Returns a' /\
    DynamicArray.holds a' l /\
    DynamicArray.size_ a' = DynamicArray.size_ a /\
    DynamicArray.capacity_ a' = new_capacity.
Proof.
  intros (Hlen & Hsize & Hl) Hnew. unfold DynamicArray.resize.
  destruct (copy_loop_spec (DynamicArray.data_ a) (replicate new_capacity inhabitant)
              (DynamicArray.size_ a)) as (copied & -> & Hlen' & Htake).
  { lia. }
  { rewrite length_replicate. exact Hnew. }
  cbn [DynamicArray.bind]. eexists. split; [reflexivity|].
  rewrite length_replicate in Hlen'.
  split; [|split; reflexivity].
  split; [exact Hlen'|]. split; [exact Hnew|].
  unfold DynamicArray.elements. cbn. rewrite Htake. exact Hl.
Qed.

Lemma holds_length (a : DynamicArray.t T) (l : list T) :
  DynamicArray.holds a l -> length l = DynamicArray.size_ a.
Proof.
  intros (Hlen & Hsize & <-). unfold DynamicArray.elements.
  rewrite length_take. lia.
Qed.

Lemma apply_holds (a : DynamicArray.t T) (l : list T) (op : DynamicArray.operation T) :
  DynamicArray.holds a l ->
  exists a', DynamicArray.apply a op = DynamicArray.Returns a' /\
             DynamicArray.holds a' (DynamicArray.list_apply l op).
Proof.
  intros Hholds. pose proof (holds_length a l Hholds) as Hl.
  destruct op as [value| | |new_capacity|]; cbn [DynamicArray.apply DynamicArray.list_apply].
  - unfold DynamicArray.push_back.
    assert (Hgrown : exists a1,
               (if DynamicArray.size_ a =? DynamicArray.capacity_ a
                then DynamicArray.resize a
                       (if DynamicArray.capacity_ a =? 0 then 8
                        else DynamicArray.capacity_ a * 2)
                else DynamicArray.Returns a) = DynamicArray.Returns a1 /\
               DynamicArray.holds a1 l /\
               DynamicArray.size_ a1 = DynamicArray.size_ a /\
               DynamicArray.size_ a1 < DynamicArray.capacity_ a1).
    { destruct (Nat.eqb_spec (DynamicArray.size_ a) (DynamicArray.capacity_ a)) as [Hfull | Hroom].
      - destruct (resize_holds a l (if DynamicArray.capacity_ a =? 0 then 8
                                    else DynamicArray.capacity_ a * 2) Hholds)
          as (a1 & Hres & Hholds1 & Hsize1 & Hcap1).
        { destruct (Nat.eqb_spec (DynamicArray.capacity_ a) 0); lia. }
        exists a1. split; [exact Hres|]. split; [exact Hholds1|]. split; [exact Hsize1|].
        rewrite Hcap1, Hsize1. destruct (Nat.eqb_spec (DynamicArray.capacity_ a) 0); lia.
      - exists a. split; [reflexivity|]. split; [exact Hholds|]. split; [reflexivity|].
        destruct Hholds as (_ & Hle & _). lia. }
    destruct Hgrown as (a1 & -> & (Hlen1 & Hle1 & Hl1) & Hsize1 & Hroom1).
    cbn [DynamicArray.bind].
    destruct (Nat.ltb_spec (DynamicArray.size_ a1) (length (DynamicArray.data_ a1)))
      as [Hin | Hout]; [|lia].
    eexists. split; [reflexivity|].
    split; [cbn; rewrite length_insert; exact Hlen1|]. split; [cbn; lia|].
    unfold DynamicArray.elements in *. cbn [DynamicArray.data_ DynamicArray.size_].
    rewrite Nat.add_1_r.
    rewrite (take_S_r _ (DynamicArray.size_ a1) value)
      by (apply list_lookup_insert_eq; exact Hin).
    rewrite take_insert_ge by lia. rewrite Hl1. reflexivity.
  - eexists. split; [reflexivity|]. unfold DynamicArray.pop_back.
    destruct Hholds as (Hlen & Hle & Hel).
    destruct (Nat.ltb_spec 0 (DynamicArray.size_ a)) as [Hpos | Hzero].
    + split; [exact Hlen|]. split; [cbn; lia|].
      unfold DynamicArray.elements in *. cbn [DynamicArray.data_ DynamicArray.size_].
      rewrite Hl, <- Hel, take_take. f_equal. lia.
    + split; [exact Hlen|]. split; [exact Hle|].
      rewrite Hel, Hl. replace (DynamicArray.size_ a - 1) with 0 by lia.
      rewrite take_0. apply length_zero_iff_nil. lia.
  - eexists. split; [reflexivity|].
    destruct Hholds as (Hlen & Hle & Hel).
    split; [exact Hlen|]. split; [cbn; lia|]. reflexivity.
  - unfold DynamicArray.reserve.
    destruct (Nat.ltb_spec (DynamicArray.capacity_ a) new_capacity) as [Hgrow | Hkeep].
    + destruct (resize_holds a l new_capacity Hholds) as (a1 & Hres & Hholds1 & _).
      { destruct Hholds as (_ & Hle & _). lia. }
      exists a1. split; assumption.
    + exists a. split; [reflexivity|exact Hholds].
  - destruct (resize_holds a l (DynamicArray.capacity_ a) Hholds) as (a1 & Hres & Hholds1 & _).
    { destruct Hholds as (_ & Hle & _). exact Hle. }
    exists a1. split; [exact Hres|exact Hholds1].
Qed.

Lemma run_holds (ops : list (DynamicArray.operation T)) :
  forall (a : DynamicArray.t T) (l : list T),
    DynamicArray.holds a l ->
    exists a', DynamicArray.run a ops = DynamicArray.Returns a' /\
               DynamicArray.holds a' (foldl DynamicArray.list_apply l ops).
Proof.
  induction ops as [|op ops IH]; intros a l Hholds.
  - exists a. split; [reflexivity|exact Hholds].
  - destruct (apply_holds a l op Hholds) as (a1 & Happly & Hholds1).
    destruct (IH a1 _ Hholds1) as (a' & Hrun & Hholds').
    exists a'. split; [|exact Hholds'].
    unfold DynamicArray.run in *. cbn [foldl DynamicArray.bind]. rewrite Happly. exact Hrun.
Qed.

(** [DynamicArray] is a list.  Whatever sequence of [push_back],
    [pop_back], [clear], [reserve] and copies is made on a new array, no
    call leaves the block or throws, and the array then holds the list the
    same calls make: the elements are those of the list, [size] is its
    length, [at] returns its [index]-th element and throws exactly from
    its length on, and [operator[]] reads the same element below [size]. *)
Theorem dynamic_array_refines_list (ops : list (DynamicArray.operation T)) :
  exists a,
    DynamicArray.run DynamicArray.new ops = DynamicArray.Returns a /\
    DynamicArray.elements a = foldl DynamicArray.list_apply [] ops /\
    DynamicArray.size a = length (foldl DynamicArray.list_apply [] ops) /\
    DynamicArray.size a <= DynamicArray.capacity a /\
    forall index,
      DynamicArray.at_ a index
      = match foldl DynamicArray.list_apply [] ops !! index with
        | Some x => DynamicArray.Returns x
        | None => DynamicArray.Throws
        end /\
      (index < DynamicArray.size a ->
       DynamicArray.get a index = DynamicArray.at_ a index).
Proof.
  destruct (run_holds ops DynamicArray.new []) as (a & Hrun & Hholds).
  { split; [reflexivity|]. split; [cbn; lia|reflexivity]. }
  pose proof (holds_length _ _ Hholds) as Hl.
  destruct Hholds as (Hlen & Hle & Hel).
  exists a. split; [exact Hrun|]. split; [exact Hel|]. split; [symmetry; exact Hl|].
  split; [exact Hle|].
  intros index. unfold DynamicArray.at_, DynamicArray.size.
  destruct (Nat.leb_spec (DynamicArray.size_ a) index) as [Hout | Hin].
  - split; [|lia]. rewrite lookup_ge_None_2 by lia. reflexivity.
  - split; [|reflexivity]. unfold DynamicArray.get.
    destruct (Nat.ltb_spec index (length (DynamicArray.data_ a))) as [_ | Hge]; [|lia].
    rewrite <- Hel. unfold DynamicArray.elements.
    rewrite lookup_take_lt by exact Hin.
    destruct (lookup_lt_is_Some_2 (DynamicArray.data_ a) index ltac:(lia)) as [x Hx].
    rewrite Hx. f_equal.
    apply nth_lookup_Some with (d := inhabitant) in Hx. exact Hx.
Qed.

End DynamicArrayFacts.


(** ** The hash table *)

Section HashMapFacts.

Context {K V : Type} `{Countable K} {inhabited_K : Inhabited K} {inhabited_V : Inhabited V}.
Variable hasher : K -> nat.

Local Open Scope nat_scope.

Lemma slot_lt (c o d : nat) : 0 < c -> HashMap.slot c o d < c.
Proof. intros Hc. unfold HashMap.slot. apply Nat.mod_upper_bound. lia. Qed.

Lemma slot_zero (c o : nat) : HashMap.slot c o 0 = o mod c.
Proof. unfold HashMap.slot. rewrite Nat.add_0_r. reflexivity. Qed.

Lemma slot_next (c o d : nat) :
  0 < c -> (HashMap.slot c o d + 1) mod c = HashMap.slot c o (d + 1).
Proof.
  intros Hc. unfold HashMap.slot.
  rewrite Nat.Div0.add_mod_idemp_l. f_equal. lia.
Qed.

Lemma slot_inj (c o d1 d2 : nat) :
  d1 < c -> d2 < c -> HashMap.slot c o d1 = HashMap.slot c o d2 -> d1 = d2.
Proof.
  intros Hlt1 Hlt2. unfold HashMap.slot. intros Heq.
  assert (Hc : c <> 0) by lia.
  pose proof (Nat.div_mod_eq (o + d1) c) as E1.
  pose proof (Nat.div_mod_eq (o + d2) c) as E2.
  rewrite Heq in E1.
  set (q1 := (o + d1) / c) in *. set (q2 := (o + d2) / c) in *.
  set (r := (o + d2) mod c) in *.
  destruct (Nat.lt_trichotomy q1 q2) as [Hlt | [Heq' | Hgt]]; nia.
Qed.

Lemma slot_surj (c o j : nat) :
  j < c -> exists d, d < c /\ HashMap.slot c o d = j.
Proof.
  intros Hj. unfold HashMap.slot.
  assert (Hc : c <> 0) by lia.
  pose proof (Nat.mod_upper_bound o c Hc) as Ho.
  destruct (le_lt_dec (o mod c) j) as [Hle | Hlt].
  - exists (j - o mod c). split; [lia|].
    rewrite <- Nat.Div0.add_mod_idemp_l.
    replace (o mod c + (j - o mod c)) with j by lia.
    apply Nat.mod_small. exact Hj.
  - exists (j + c - o mod c). split; [lia|].
    rewrite <- Nat.Div0.add_mod_idemp_l.
    replace (o mod c + (j + c - o mod c)) with (j + 1 * c) by lia.
    rewrite Nat.Div0.mod_add. apply Nat.mod_small. exact Hj.
Qed.

Lemma slot_wrap (c o d : nat) :
  d < c -> (HashMap.slot c o (d + 1) =? o mod c) = (d + 1 =? c).
Proof.
  intros Hd. destruct (Nat.eqb_spec (d + 1) c) as [Heq | Hne].
  - apply Nat.eqb_eq. unfold HashMap.slot. rewrite Heq.
    replace (o + c) with (o + 1 * c) by lia. apply Nat.Div0.mod_add.
  - apply Nat.eqb_neq. rewrite <- slot_zero. intros Heq.
    apply slot_inj in Heq; lia.
Qed.

Lemma nth_insert {A : Type} (l : list A) (i j : nat) (x d : A) :
  nth j (<[i := x]> l) d = if decide (j = i /\ i < length l) then x else nth j l d.
Proof.
  revert i j. induction l as [|a l IH]; intros i j.
  - cbn. destruct (decide _) as [[_ Hlt] | _]; [cbn in Hlt; lia|reflexivity].
  - destruct i as [|i]; destruct j as [|j]; cbn.
    + destruct (decide _) as [_ | Hn]; [reflexivity|]. exfalso. apply Hn. split; lia.
    + destruct (decide _) as [[Heq _] | _]; [lia|reflexivity].
    + destruct (decide _) as [[Heq _] | _]; [lia|reflexivity].
    + rewrite IH. destruct (decide (j = i /\ i < length l)) as [[-> Hlt] | Hn];
        destruct (decide _) as [[Heq Hlt'] | Hn']; try reflexivity.
      * exfalso. apply Hn'. split; lia.
      * exfalso. apply Hn. split; lia.
Qed.

Lemma entry_beyond (m : HashMap.t K V) (i : nat) :
  length (HashMap.table_ m) <= i -> HashMap.entry m i = HashMap.fresh.
Proof. intros Hi. unfold HashMap.entry. apply nth_overflow. exact Hi. Qed.

Lemma entry_elem (m : HashMap.t K V) (e : HashMap.Entry K V) :
  e ∈ HashMap.table_ m <->
  exists i, i < length (HashMap.table_ m) /\ HashMap.entry m i = e.
Proof.
  rewrite list_elem_of_In. unfold HashMap.entry. split.
  - intros Hin. destruct (In_nth _ _ HashMap.fresh Hin) as (i & Hi & Heq).
    exists i. split; assumption.
  - intros (i & Hi & <-). apply nth_In. exact Hi.
Qed.

Lemma live_occupied (e : HashMap.Entry K V) :
  HashMap.live e = true -> HashMap.occupied e = true.
Proof. unfold HashMap.live. intros Hl. apply andb_true_iff in Hl. tauto. Qed.

Lemma live_unique (m : HashMap.t K V) (i j : nat) :
  HashMap.well_formed m -> HashMap.reachable hasher m ->
  i < HashMap.capacity_ m -> j < HashMap.capacity_ m ->
  HashMap.live (HashMap.entry m i) = true -> HashMap.live (HashMap.entry m j) = true ->
  HashMap.key (HashMap.entry m i) = HashMap.key (HashMap.entry m j) ->
  i = j.
Proof.
  intros Hwf Hreach Hi Hj Hli Hlj Hkey.
  destruct (slot_surj (HashMap.capacity_ m) (hasher (HashMap.key (HashMap.entry m i))) i Hi)
    as (di & Hdi & Ei).
  destruct (slot_surj (HashMap.capacity_ m) (hasher (HashMap.key (HashMap.entry m i))) j Hj)
    as (dj & Hdj & Ej).
  destruct (Nat.lt_trichotomy di dj) as [Hlt | [Heq | Hgt]].
  - exfalso.
    assert (Hp : HashMap.passed hasher m (HashMap.key (HashMap.entry m i)) dj).
    { apply Hreach; [exact Hdj| |]; rewrite Ej; [exact Hlj|symmetry; exact Hkey]. }
    destruct (Hp di Hlt) as [_ Hne]. rewrite Ei in Hne. apply Hne; [exact Hli|reflexivity].
  - subst dj. congruence.
  - exfalso.
    assert (Hp : HashMap.passed hasher m (HashMap.key (HashMap.entry m i)) di).
    { apply Hreach; [exact Hdi| |]; rewrite Ei; [exact Hli|reflexivity]. }
    destruct (Hp dj Hgt) as [_ Hne]. rewrite Ej in Hne. apply Hne; [exact Hlj|symmetry; exact Hkey].
Qed.

Lemma holds_unique (m : HashMap.t K V) (k : K) (v1 v2 : V) :
  HashMap.well_formed m -> HashMap.reachable hasher m ->
  HashMap.holds m k v1 -> HashMap.holds m k v2 -> v1 = v2.
Proof.
  intros Hwf Hreach (i & Hi & Hli & Hki & Hvi) (j & Hj & Hlj & Hkj & Hvj).
  assert (i = j) by (apply (live_unique m); try assumption; congruence).
  subst j. congruence.
Qed.

(** The probe finds the live entry of the key, or there is none. *)
Lemma locate_spec (m : HashMap.t K V) (k : K) (steps d : nat) :
  HashMap.well_formed m -> HashMap.reachable hasher m ->
  steps + d = HashMap.capacity_ m -> 0 < steps ->
  HashMap.passed hasher m k d ->
  exists r,
    HashMap.locate steps m k (hasher k mod HashMap.capacity_ m)
                   (HashMap.slot (HashMap.capacity_ m) (hasher k) d) = HashMap.Returns r /\
    match r with
    | Some i => i < HashMap.capacity_ m /\ HashMap.live (HashMap.entry m i) = true /\
                HashMap.key (HashMap.entry m i) = k
    | None => forall i, i < HashMap.capacity_ m ->
                        HashMap.live (HashMap.entry m i) = true ->
                        HashMap.key (HashMap.entry m i) <> k
    end.
Proof.
  intros Hwf Hreach. revert d.
  induction steps as [|steps IH]; intros d Hsum Hpos Hpassed; [lia|].
  assert (Hc : 0 < HashMap.capacity_ m) by lia.
  assert (Hd : d < HashMap.capacity_ m) by lia.
  cbn [HashMap.locate].
  set (e := HashMap.entry m (HashMap.slot (HashMap.capacity_ m) (hasher k) d)).
  assert (Hnone : HashMap.occupied e = false \/
                  (HashMap.live e = true -> HashMap.key e <> k) /\ d + 1 = HashMap.capacity_ m ->
                  forall i, i < HashMap.capacity_ m ->
                            HashMap.live (HashMap.entry m i) = true ->
                            HashMap.key (HashMap.entry m i) <> k).
  { intros Hcase i Hi Hli Hki.
    destruct (slot_surj (HashMap.capacity_ m) (hasher k) i Hi) as (D & HD & Ei).
    destruct (Nat.lt_trichotomy D d) as [Hlt | [Heq | Hgt]].
    - destruct (Hpassed D Hlt) as [_ Hne]. rewrite Ei in Hne. apply Hne; assumption.
    - subst D. fold e in Ei. rewrite <- Ei in Hli, Hki.
      destruct Hcase as [Hocc | [Hne _]].
      + apply live_occupied in Hli. fold e in Hli. congruence.
      + apply Hne; assumption.
    - destruct Hcase as [Hocc | [_ Hlast]]; [|lia].
      assert (Hp : HashMap.passed hasher m k D).
      { apply Hreach; [exact HD| |]; rewrite Ei; assumption. }
      destruct (Hp d Hgt) as [Hocc' _]. fold e in Hocc'. congruence. }
  destruct (HashMap.occupied e) eqn:Hocc.
  - destruct (negb (HashMap.deleted e) && bool_decide (HashMap.key e = k)) eqn:Htest.
    + apply andb_true_iff in Htest. destruct Htest as [Hdel Hkey].
      apply bool_decide_eq_true in Hkey.
      exists (Some (HashMap.slot (HashMap.capacity_ m) (hasher k) d)).
      split; [reflexivity|]. fold e. split; [apply slot_lt; exact Hc|].
      split; [unfold HashMap.live; rewrite Hocc, Hdel; reflexivity|exact Hkey].
    + assert (Hne : HashMap.live e = true -> HashMap.key e <> k).
      { unfold HashMap.live. rewrite Hocc. cbn. intros Hdel Hkey.
        rewrite Hdel in Htest. cbn in Htest.
        apply bool_decide_eq_false in Htest. contradiction. }
      rewrite slot_next by exact Hc. rewrite slot_wrap by exact Hd.
      destruct (Nat.eqb_spec (d + 1) (HashMap.capacity_ m)) as [Hlast | Hmore].
      * exists None. split; [reflexivity|]. apply Hnone. right. split; assumption.
      * apply IH; [lia|lia|].
        intros d' Hd'. destruct (decide (d' = d)) as [-> | Hneq].
        -- fold e. split; [exact Hocc|exact Hne].
        -- apply Hpassed. lia.
  - exists None. split; [reflexivity|]. apply Hnone. left. reflexivity.
Qed.

Lemma find_loop_locate (m : HashMap.t K V) (k : K) (steps o index : nat) :
  HashMap.find_loop steps m k o index =
  HashMap.bind (HashMap.locate steps m k o index)
    (fun r => HashMap.Returns (option_map (fun i => HashMap.value (HashMap.entry m i)) r)).
Proof.
  revert index. induction steps as [|steps IH]; intros index; [reflexivity|].
  cbn [HashMap.find_loop HashMap.locate].
  destruct (HashMap.occupied _); [|reflexivity].
  destruct (_ && _); [reflexivity|].
  destruct (_ =? _); [reflexivity|]. apply IH.
Qed.

Lemma remove_loop_locate (m : HashMap.t K V) (k : K) (steps o index : nat) :
  HashMap.remove_loop steps m k o index =
  HashMap.bind (HashMap.locate steps m k o index)
    (fun r => HashMap.Returns match r with
                              | Some i => HashMap.mark_deleted m i
                              | None => m
                              end).
Proof.
  revert index. induction steps as [|steps IH]; intros index; [reflexivity|].
  cbn [HashMap.remove_loop HashMap.locate].
  destruct (HashMap.occupied _) eqn:Hocc; [|reflexivity].
  destruct (_ && _).
  - cbn [HashMap.bind]. unfold HashMap.mark_deleted. rewrite Hocc. reflexivity.
  - destruct (_ =? _); [reflexivity|]. apply IH.
Qed.

Lemma passed_zero (m : HashMap.t K V) (k : K) : HashMap.passed hasher m k 0.
Proof. intros d' Hd'. lia. Qed.

Lemma hash_returns (m : HashMap.t K V) (k : K) :
  HashMap.well_formed m ->
  HashMap.hash hasher m k = HashMap.Returns (hasher k mod HashMap.capacity_ m).
Proof.
  intros [_ Hc]. unfold HashMap.hash.
  destruct (Nat.eqb_spec (HashMap.capacity_ m) 0) as [Heq | _]; [lia|reflexivity].
Qed.

Lemma locate_start (m : HashMap.t K V) (k : K) :
  HashMap.well_formed m -> HashMap.reachable hasher m ->
  exists r,
    HashMap.locate (HashMap.capacity_ m) m k (hasher k mod HashMap.capacity_ m)
                   (hasher k mod HashMap.capacity_ m) = HashMap.Returns r /\
    match r with
    | Some i => i < HashMap.capacity_ m /\ HashMap.live (HashMap.entry m i) = true /\
                HashMap.key (HashMap.entry m i) = k
    | None => forall i, i < HashMap.capacity_ m ->
                        HashMap.live (HashMap.entry m i) = true ->
                        HashMap.key (HashMap.entry m i) <> k
    end.
Proof.
  intros Hwf Hreach.
  pose proof (locate_spec m k (HashMap.capacity_ m) 0 Hwf Hreach) as Hspec.
  rewrite slot_zero in Hspec. apply Hspec; [lia|apply Hwf|apply passed_zero].
Qed.

(** [find] returns the value the table holds for the key, if any. *)
Lemma find_spec (m : HashMap.t K V) (k : K) :
  HashMap.well_formed m -> HashMap.reachable hasher m ->
  exists r, HashMap.find hasher m k = HashMap.Returns r /\
            forall v, r = Some v <-> HashMap.holds m k v.
Proof.
  intros Hwf Hreach. unfold HashMap.find.
  rewrite hash_returns by exact Hwf. cbn [HashMap.bind].
  rewrite find_loop_locate.
  destruct (locate_start m k Hwf Hreach) as (r & -> & Hr). cbn [HashMap.bind].
  eexists. split; [reflexivity|]. intros v.
  destruct r as [i|]; cbn [option_map].
  - destruct Hr as (Hi & Hli & Hki). split.
    + intros [= <-]. exists i. repeat split; assumption.
    + intros Hholds. f_equal. apply (holds_unique m k); try assumption.
      exists i. repeat split; assumption.
  - split; [discriminate|]. intros (i & Hi & Hli & Hki & _). exfalso.
    apply (Hr i); assumption.
Qed.

(** *** Writing one entry *)

Lemma count_insert {A : Type} (f : A -> bool) (l : list A) (i : nat) (x d : A) :
  i < length l ->
  length (List.filter f (<[i := x]> l)) + (if f (nth i l d) then 1 else 0)
  = length (List.filter f l) + (if f x then 1 else 0).
Proof.
  revert i. induction l as [|a l IH]; intros i Hi; [cbn in Hi; lia|].
  destruct i as [|i].
  - cbn. destruct (f x), (f a); cbn; lia.
  - cbn in Hi. specialize (IH i ltac:(lia)).
    change (<[S i := x]> (a :: l)) with (a :: <[i := x]> l).
    cbn [List.filter nth]. destruct (f a); cbn [length]; lia.
Qed.

Lemma entry_update (m : HashMap.t K V) (idx : nat) (x : HashMap.Entry K V) (s j : nat) :
  idx < length (HashMap.table_ m) ->
  HashMap.entry (HashMap.mk (<[idx := x]> (HashMap.table_ m)) (HashMap.capacity_ m) s) j
  = if decide (j = idx) then x else HashMap.entry m j.
Proof.
  intros Hidx. unfold HashMap.entry. cbn [HashMap.table_].
  rewrite nth_insert.
  destruct (decide (j = idx /\ idx < length (HashMap.table_ m))) as [[-> _] | Hn];
    destruct (decide _) as [Heq | Hne]; try reflexivity; try contradiction.
  exfalso. apply Hn. split; assumption.
Qed.

Lemma well_formed_update (m : HashMap.t K V) (idx : nat) (x : HashMap.Entry K V) (s : nat) :
  HashMap.well_formed m ->
  HashMap.well_formed
    (HashMap.mk (<[idx := x]> (HashMap.table_ m)) (HashMap.capacity_ m) s).
Proof.
  intros [Hlen Hc]. split; cbn; [rewrite length_insert; exact Hlen|exact Hc].
Qed.

Lemma not_held (m : HashMap.t K V) (k : K) (d : nat) :
  HashMap.reachable hasher m ->
  d < HashMap.capacity_ m ->
  HashMap.passed hasher m k d ->
  HashMap.occupied (HashMap.entry m (HashMap.slot (HashMap.capacity_ m) (hasher k) d)) = false ->
  forall v, ~ HashMap.holds m k v.
Proof.
  intros Hreach Hd Hpassed Hfree v (i & Hi & Hli & Hki & _).
  destruct (slot_surj (HashMap.capacity_ m) (hasher k) i Hi) as (D & HD & Ei).
  destruct (Nat.lt_trichotomy D d) as [Hlt | [Heq | Hgt]].
  - destruct (Hpassed D Hlt) as [_ Hne]. rewrite Ei in Hne. apply Hne; assumption.
  - subst D. rewrite Ei in Hfree. apply live_occupied in Hli. congruence.
  - assert (Hp : HashMap.passed hasher m k D).
    { apply Hreach; [exact HD| |]; rewrite Ei; assumption. }
    destruct (Hp d Hgt) as [Hocc' _]. congruence.
Qed.

(** An entry written over a live one with the same key. *)
Lemma update_value (m : HashMap.t K V) (idx : nat) (v : V) :
  HashMap.invariant hasher m -> HashMap.clean m ->
  idx < HashMap.capacity_ m ->
  HashMap.live (HashMap.entry m idx) = true ->
  let e := HashMap.entry m idx in
  let m' := HashMap.store m idx
              (HashMap.mkEntry (HashMap.key e) v (HashMap.occupied e) (HashMap.deleted e)) in
  HashMap.invariant hasher m' /\ HashMap.clean m' /\
  HashMap.capacity_ m' = HashMap.capacity_ m /\
  HashMap.size_ m' = HashMap.size_ m /\
  forall k' v',
    HashMap.holds m' k' v' <->
    (k' = HashMap.key e /\ v' = v) \/ (k' <> HashMap.key e /\ HashMap.holds m k' v').
Proof.
  intros [Hwf Hreach Hcount] Hclean Hidx Hlive e m'.
  assert (Hlen : idx < length (HashMap.table_ m)) by (destruct Hwf as [-> _]; exact Hidx).
  assert (Hentry : forall j, HashMap.entry m' j
                             = if decide (j = idx)
                               then HashMap.mkEntry (HashMap.key e) v (HashMap.occupied e)
                                                    (HashMap.deleted e)
                               else HashMap.entry m j).
  { intros j. apply entry_update. exact Hlen. }
  assert (Hshape : forall j,
             HashMap.occupied (HashMap.entry m' j) = HashMap.occupied (HashMap.entry m j) /\
             HashMap.deleted (HashMap.entry m' j) = HashMap.deleted (HashMap.entry m j) /\
             HashMap.key (HashMap.entry m' j) = HashMap.key (HashMap.entry m j)).
  { intros j. rewrite Hentry. destruct (decide (j = idx)) as [-> | _]; cbn; auto. }
  assert (Hlive' : forall j, HashMap.live (HashMap.entry m' j) = HashMap.live (HashMap.entry m j)).
  { intros j. unfold HashMap.live. destruct (Hshape j) as (-> & -> & _). reflexivity. }
  split; [split|split; [|split; [|split]]].
  - apply well_formed_update. exact Hwf.
  - intros k d Hd Hl Hk d' Hd'. cbn [HashMap.capacity_ m' HashMap.store] in *.
    rewrite Hlive' in Hl. destruct (Hshape (HashMap.slot (HashMap.capacity_ m) (hasher k) d))
      as (_ & _ & Hkey). rewrite Hkey in Hk.
    destruct (Hreach k d Hd Hl Hk d' Hd') as [Hocc Hne].
    destruct (Hshape (HashMap.slot (HashMap.capacity_ m) (hasher k) d')) as (-> & _ & ->).
    rewrite Hlive'. split; assumption.
  - unfold HashMap.counted. cbn [HashMap.size_ HashMap.table_ m' HashMap.store].
    pose proof (count_insert HashMap.live (HashMap.table_ m) idx
                  (HashMap.mkEntry (HashMap.key e) v (HashMap.occupied e) (HashMap.deleted e))
                  HashMap.fresh Hlen) as Hc.
    change (nth idx (HashMap.table_ m) HashMap.fresh) with e in Hc.
    change (HashMap.live (HashMap.mkEntry (HashMap.key e) v (HashMap.occupied e)
                                          (HashMap.deleted e)))
      with (HashMap.live e) in Hc.
    fold e in Hlive. rewrite Hlive in Hc. rewrite Hcount. lia.
  - intros j. destruct (Hshape j) as (_ & -> & _). apply Hclean.
  - reflexivity.
  - reflexivity.
  - intros k' v'. split.
    + intros (j & Hj & Hlj & Hkj & Hvj). cbn [HashMap.capacity_ m' HashMap.store] in Hj.
      rewrite Hlive' in Hlj. rewrite Hentry in Hkj, Hvj.
      destruct (decide (j = idx)) as [-> | Hne]; cbn in Hkj, Hvj.
      * left. split; congruence.
      * right. split.
        -- intros ->. apply Hne. apply (live_unique m); assumption.
        -- exists j. repeat split; assumption.
    + intros [[-> ->] | [Hne (j & Hj & Hlj & Hkj & Hvj)]].
      * exists idx. cbn [HashMap.capacity_ m' HashMap.store].
        rewrite Hlive', Hentry. destruct (decide (idx = idx)); [|contradiction].
        repeat split; [exact Hidx|exact Hlive].
      * exists j. cbn [HashMap.capacity_ m' HashMap.store].
        rewrite Hlive', Hentry.
        destruct (decide (j = idx)) as [-> | _]; [exfalso; apply Hne; symmetry; exact Hkj|].
        repeat split; assumption.
Qed.

(** An entry written into a free slot at the end of the probe. *)
Lemma place_entry (m : HashMap.t K V) (k : K) (v : V) (d : nat) :
  HashMap.invariant hasher m -> HashMap.clean m ->
  d < HashMap.capacity_ m ->
  HashMap.passed hasher m k d ->
  let idx := HashMap.slot (HashMap.capacity_ m) (hasher k) d in
  HashMap.live (HashMap.entry m idx) = false ->
  let m' := HashMap.mk (<[idx := HashMap.mkEntry k v true false]> (HashMap.table_ m))
                       (HashMap.capacity_ m) (HashMap.size_ m + 1) in
  HashMap.invariant hasher m' /\ HashMap.clean m' /\
  forall k' v',
    HashMap.holds m' k' v' <->
    (k' = k /\ v' = v) \/ (k' <> k /\ HashMap.holds m k' v').
Proof.
  intros [Hwf Hreach Hcount] Hclean Hd Hpassed idx Hfree m'.
  assert (Hc : 0 < HashMap.capacity_ m) by apply Hwf.
  assert (Hidx : idx < HashMap.capacity_ m) by (apply slot_lt; exact Hc).
  assert (Hlen : idx < length (HashMap.table_ m)) by (destruct Hwf as [-> _]; exact Hidx).
  assert (Hocc : HashMap.occupied (HashMap.entry m idx) = false).
  { unfold HashMap.live in Hfree. rewrite (Hclean idx) in Hfree. cbn in Hfree.
    rewrite andb_true_r in Hfree. exact Hfree. }
  assert (Hentry : forall j, HashMap.entry m' j
                             = if decide (j = idx) then HashMap.mkEntry k v true false
                               else HashMap.entry m j).
  { intros j. apply entry_update. exact Hlen. }
  assert (Habsent : forall v', ~ HashMap.holds m k v').
  { apply (not_held m k d); assumption. }
  split; [split|split].
  - apply well_formed_update. exact Hwf.
  - intros k' d' Hd' Hl Hk d'' Hd''. cbn [HashMap.capacity_ m'] in *.
    rewrite Hentry in Hl, Hk.
    destruct (decide (HashMap.slot (HashMap.capacity_ m) (hasher k') d' = idx)) as [Heq | Hne].
    + cbn in Hk. subst k'. apply slot_inj in Heq; [|assumption..]. subst d'.
      rewrite Hentry.
      destruct (decide (HashMap.slot (HashMap.capacity_ m) (hasher k) d'' = idx)) as [Heq | _].
      * apply slot_inj in Heq; [lia|lia|assumption].
      * apply Hpassed. exact Hd''.
    + destruct (Hreach k' d' Hd' Hl Hk d'' Hd'') as [Hocc'' Hne''].
      rewrite Hentry.
      destruct (decide (HashMap.slot (HashMap.capacity_ m) (hasher k') d'' = idx)) as [Heq | _].
      * rewrite Heq in Hocc''. congruence.
      * split; assumption.
  - unfold HashMap.counted. cbn [HashMap.size_ HashMap.table_ m'].
    pose proof (count_insert HashMap.live (HashMap.table_ m) idx
                  (HashMap.mkEntry k v true false) HashMap.fresh Hlen) as Hcnt.
    change (nth idx (HashMap.table_ m) HashMap.fresh) with (HashMap.entry m idx) in Hcnt.
    rewrite Hfree in Hcnt. cbn [HashMap.live HashMap.occupied HashMap.deleted andb negb] in Hcnt.
    rewrite Hcount. lia.
  - intros j. rewrite Hentry. destruct (decide (j = idx)); [reflexivity|apply Hclean].
  - intros k' v'. split.
    + intros (j & Hj & Hlj & Hkj & Hvj). cbn [HashMap.capacity_ m'] in Hj.
      rewrite Hentry in Hlj, Hkj, Hvj.
      destruct (decide (j = idx)) as [-> | Hne]; cbn in Hkj, Hvj.
      * left. split; congruence.
      * right. split.
        -- intros ->. apply (Habsent v'). exists j. repeat split; assumption.
        -- exists j. repeat split; assumption.
    + intros [[-> ->] | [Hne (j & Hj & Hlj & Hkj & Hvj)]].
      * exists idx. cbn [HashMap.capacity_ m'].
        rewrite Hentry. destruct (decide (idx = idx)); [|contradiction].
        repeat split. exact Hidx.
      * exists j. cbn [HashMap.capacity_ m'].
        rewrite Hentry.
        destruct (decide (j = idx)) as [-> | _]; [congruence|].
        repeat split; assumption.
Qed.

(** *** [insert] *)

Lemma filter_all {A : Type} (f : A -> bool) (l : list A) (d : A) :
  (forall i, i < length l -> f (nth i l d) = true) -> List.filter f l = l.
Proof.
  induction l as [|a l IH]; intros Hall; [reflexivity|].
  cbn [List.filter]. pose proof (Hall 0 ltac:(cbn; lia)) as Hhead. cbn [nth] in Hhead.
  rewrite Hhead. f_equal.
  apply IH. intros i Hi. apply (Hall (S i)). cbn. lia.
Qed.

Lemma full_table (m : HashMap.t K V) :
  HashMap.invariant hasher m ->
  (forall i, i < HashMap.capacity_ m -> HashMap.live (HashMap.entry m i) = true) ->
  HashMap.size_ m = HashMap.capacity_ m.
Proof.
  intros [[Hlen Hc] _ Hcount] Hall. rewrite Hcount.
  rewrite (filter_all _ _ HashMap.fresh); [exact Hlen|].
  intros i Hi. apply Hall. lia.
Qed.

Lemma insert_loop_spec (f : HashMap.t K V -> K -> V -> HashMap.outcome (HashMap.t K V))
    (m : HashMap.t K V) (k : K) (v : V) (steps d : nat) :
  HashMap.invariant hasher m -> HashMap.clean m ->
  steps + d = HashMap.capacity_ m -> 0 < steps ->
  HashMap.passed hasher m k d ->
  (exists m',
      HashMap.insert_loop f steps m k v (hasher k mod HashMap.capacity_ m)
                          (HashMap.slot (HashMap.capacity_ m) (hasher k) d)
      = HashMap.Returns m' /\
      HashMap.capacity_ m' = HashMap.capacity_ m /\ HashMap.inserted hasher m m' k v)
  \/ (HashMap.size_ m = HashMap.capacity_ m /\
      HashMap.insert_loop f steps m k v (hasher k mod HashMap.capacity_ m)
                          (HashMap.slot (HashMap.capacity_ m) (hasher k) d)
      = HashMap.bind (HashMap.rehash f m (HashMap.capacity_ m * 2))
                     (fun m => f m k v)).
Proof.
  intros Hinv Hclean. revert d.
  induction steps as [|steps IH]; intros d Hsum Hpos Hpassed; [lia|].
  assert (Hc : 0 < HashMap.capacity_ m) by lia.
  assert (Hd : d < HashMap.capacity_ m) by lia.
  cbn [HashMap.insert_loop].
  set (idx := HashMap.slot (HashMap.capacity_ m) (hasher k) d).
  change (HashMap.occupied (HashMap.entry m idx) && negb (HashMap.deleted (HashMap.entry m idx)))
    with (HashMap.live (HashMap.entry m idx)).
  assert (Hidx : idx < HashMap.capacity_ m) by (apply slot_lt; exact Hc).
  destruct (HashMap.live (HashMap.entry m idx)) eqn:Hlive.
  - destruct (bool_decide (HashMap.key (HashMap.entry m idx) = k)) eqn:Hkey.
    + apply bool_decide_eq_true in Hkey. left.
      destruct (update_value m idx v Hinv Hclean Hidx Hlive)
        as (Hinv' & Hclean' & Hcap & Hsize & Hrel).
      eexists. split; [reflexivity|]. split; [exact Hcap|].
      split; [exact Hinv'|]. split; [exact Hclean'|]. split; [lia|].
      intros k' v'. rewrite (Hrel k' v'), Hkey. reflexivity.
    + apply bool_decide_eq_false in Hkey.
      unfold idx. rewrite slot_next by exact Hc. rewrite slot_wrap by exact Hd.
      assert (Hpassed' : HashMap.passed hasher m k (d + 1)).
      { intros d' Hd'. destruct (decide (d' = d)) as [-> | Hneq].
        - fold idx. split; [apply live_occupied; exact Hlive|intros _; exact Hkey].
        - apply Hpassed. lia. }
      destruct (Nat.eqb_spec (d + 1) (HashMap.capacity_ m)) as [Hlast | Hmore].
      * right. split; [|reflexivity].
        apply full_table; [exact Hinv|]. intros i Hi.
        destruct (slot_surj (HashMap.capacity_ m) (hasher k) i Hi) as (D & HD & <-).
        destruct (Hpassed' D ltac:(lia)) as [Hocc _].
        unfold HashMap.live. rewrite Hocc, Hclean. reflexivity.
      * apply IH; [lia|lia|exact Hpassed'].
  - left. destruct (place_entry m k v d Hinv Hclean Hd Hpassed Hlive)
      as (Hinv' & Hclean' & Hrel).
    eexists. split; [reflexivity|]. split; [reflexivity|].
    split; [exact Hinv'|]. split; [exact Hclean'|]. split; [cbn; lia|exact Hrel].
Qed.

Lemma insert_unfold (fuel : nat) (m : HashMap.t K V) (k : K) (v : V) :
  HashMap.insert hasher (S fuel) m k v =
  HashMap.bind (if HashMap.load_factor_exceeded (HashMap.size_ m) (HashMap.capacity_ m)
                then HashMap.rehash (HashMap.insert hasher fuel) m (HashMap.capacity_ m * 2)
                else HashMap.Returns m)
    (fun m => HashMap.bind (HashMap.hash hasher m k) (fun index =>
       HashMap.insert_loop (HashMap.insert hasher fuel) (HashMap.capacity_ m) m k v
                           index index)).
Proof. reflexivity. Qed.

(** The probe of [insert] on a table that is not full. *)
Lemma insert_probe (f : HashMap.t K V -> K -> V -> HashMap.outcome (HashMap.t K V))
    (m : HashMap.t K V) (k : K) (v : V) :
  HashMap.invariant hasher m -> HashMap.clean m ->
  HashMap.size_ m < HashMap.capacity_ m ->
  exists m',
    HashMap.bind (HashMap.hash hasher m k) (fun index =>
      HashMap.insert_loop f (HashMap.capacity_ m) m k v index index) = HashMap.Returns m' /\
    HashMap.capacity_ m' = HashMap.capacity_ m /\ HashMap.inserted hasher m m' k v.
Proof.
  intros Hinv Hclean Hroom.
  rewrite hash_returns by apply Hinv. cbn [HashMap.bind].
  pose proof (insert_loop_spec f m k v (HashMap.capacity_ m) 0 Hinv Hclean) as Hspec.
  rewrite slot_zero in Hspec.
  destruct Hspec as [Hdone | [Hfull _]]; [lia|apply Hinv|apply passed_zero| |lia].
  exact Hdone.
Qed.

(** [insert] where the load-factor test does not fire and the table is not
    full: no rehash. *)
Lemma insert_simple (fuel : nat) (m : HashMap.t K V) (k : K) (v : V) :
  HashMap.invariant hasher m -> HashMap.clean m ->
  HashMap.load_factor_exceeded (HashMap.size_ m) (HashMap.capacity_ m) = false ->
  HashMap.size_ m < HashMap.capacity_ m ->
  exists m',
    HashMap.insert hasher (S fuel) m k v = HashMap.Returns m' /\
    HashMap.capacity_ m' = HashMap.capacity_ m /\ HashMap.inserted hasher m m' k v.
Proof.
  intros Hinv Hclean Hload Hroom. rewrite insert_unfold, Hload. cbn [HashMap.bind].
  apply insert_probe; assumption.
Qed.

(** *** [rehash] and the full [insert] *)

Lemma nth_replicate_same {A : Type} (n i : nat) (x : A) : nth i (replicate n x) x = x.
Proof.
  revert i. induction n as [|n IH]; intros [|i]; cbn; try reflexivity. apply IH.
Qed.

Lemma entry_with_capacity (n i : nat) :
  HashMap.entry (HashMap.with_capacity n : HashMap.t K V) i = HashMap.fresh.
Proof. unfold HashMap.entry, HashMap.with_capacity. cbn. apply nth_replicate_same. Qed.

Lemma filter_replicate_fresh (n : nat) :
  List.filter HashMap.live (replicate n (HashMap.fresh : HashMap.Entry K V)) = [].
Proof. induction n as [|n IH]; [reflexivity|]. cbn. exact IH. Qed.

Lemma with_capacity_spec (n : nat) :
  0 < n ->
  HashMap.invariant hasher (HashMap.with_capacity n : HashMap.t K V) /\
  HashMap.clean (HashMap.with_capacity n : HashMap.t K V) /\
  forall k v, ~ HashMap.holds (HashMap.with_capacity n : HashMap.t K V) k v.
Proof.
  intros Hn. split; [split|split].
  - split; cbn; [apply length_replicate|exact Hn].
  - intros k d _ Hlive. rewrite entry_with_capacity in Hlive. discriminate.
  - unfold HashMap.counted. cbn. rewrite filter_replicate_fresh. reflexivity.
  - intros i. rewrite entry_with_capacity. reflexivity.
  - intros k v (i & _ & Hlive & _). rewrite entry_with_capacity in Hlive. discriminate.
Qed.

Lemma rehash_spec (fuel : nat) (m : HashMap.t K V) (new_capacity bound : nat) :
  HashMap.half_load_safe bound ->
  HashMap.invariant hasher m ->
  0 < new_capacity <= bound ->
  2 * HashMap.capacity_ m <= new_capacity ->
  exists m',
    HashMap.rehash (HashMap.insert hasher (S fuel)) m new_capacity = HashMap.Returns m' /\
    HashMap.invariant hasher m' /\ HashMap.clean m' /\
    HashMap.capacity_ m' = new_capacity /\
    HashMap.size_ m' <= HashMap.capacity_ m /\
    forall k v, HashMap.holds m' k v <-> HashMap.holds m k v.
Proof.
  intros Hsafe Hinv Hnew Hdouble. unfold HashMap.rehash.
  set (step := fun (acc : HashMap.outcome (HashMap.t K V)) (i : nat) =>
                 HashMap.bind acc (fun m' =>
                   if HashMap.occupied (HashMap.entry m i)
                      && negb (HashMap.deleted (HashMap.entry m i))
                   then HashMap.insert hasher (S fuel) m'
                          (HashMap.key (HashMap.entry m i))
                          (HashMap.value (HashMap.entry m i))
                   else HashMap.Returns m')).
  assert (Hfold : forall n, n <= HashMap.capacity_ m ->
            exists m',
              foldl step (HashMap.Returns (HashMap.with_capacity new_capacity)) (seq 0 n)
              = HashMap.Returns m' /\
              HashMap.invariant hasher m' /\ HashMap.clean m' /\
              HashMap.capacity_ m' = new_capacity /\
              HashMap.size_ m' <= n /\
              forall k v,
                HashMap.holds m' k v <->
                exists i, i < n /\ HashMap.live (HashMap.entry m i) = true /\
                          HashMap.key (HashMap.entry m i) = k /\
                          HashMap.value (HashMap.entry m i) = v).
  { induction n as [|n IH]; intros Hn.
    - destruct (with_capacity_spec new_capacity ltac:(lia)) as (Hinv0 & Hclean0 & Hnone).
      eexists. split; [reflexivity|]. split; [exact Hinv0|]. split; [exact Hclean0|].
      split; [reflexivity|]. split; [cbn; lia|].
      intros k v. split; [intros Hh; exfalso; exact (Hnone k v Hh)|].
      intros (i & Hi & _). lia.
    - destruct (IH ltac:(lia)) as (m1 & Hrun & Hinv1 & Hclean1 & Hcap1 & Hsize1 & Hrel1).
      rewrite seq_S, foldl_app, Hrun. cbn [foldl Nat.add]. unfold step at 1.
      cbn [HashMap.bind].
      change (HashMap.occupied (HashMap.entry m n) && negb (HashMap.deleted (HashMap.entry m n)))
        with (HashMap.live (HashMap.entry m n)).
      destruct (HashMap.live (HashMap.entry m n)) eqn:Hlive.
      + destruct (insert_simple fuel m1 (HashMap.key (HashMap.entry m n))
                    (HashMap.value (HashMap.entry m n)) Hinv1 Hclean1)
          as (m2 & Hins & Hcap2 & Hinv2 & Hclean2 & Hsize2 & Hrel2).
        { apply Hsafe; lia. }
        { lia. }
        exists m2. split; [exact Hins|]. split; [exact Hinv2|]. split; [exact Hclean2|].
        split; [lia|]. split; [lia|].
        intros k v. rewrite Hrel2. split.
        * intros [[-> ->] | [Hne Hold]].
          -- exists n. repeat split; [lia|exact Hlive].
          -- apply Hrel1 in Hold. destruct Hold as (i & Hi & Hrest).
             exists i. split; [lia|exact Hrest].
        * intros (i & Hi & Hli & Hki & Hvi).
          destruct (decide (i = n)) as [-> | Hne].
          -- left. split; congruence.
          -- right. split.
             ++ intros Heq. apply Hne.
                apply (live_unique m); try assumption; try apply Hinv; try lia.
                congruence.
             ++ apply Hrel1. exists i. repeat split; [lia|assumption..].
      + exists m1. split; [reflexivity|]. split; [exact Hinv1|]. split; [exact Hclean1|].
        split; [exact Hcap1|]. split; [lia|].
        intros k v. rewrite Hrel1. split.
        * intros (i & Hi & Hrest). exists i. split; [lia|exact Hrest].
        * intros (i & Hi & Hli & Hrest).
          destruct (decide (i = n)) as [-> | Hne]; [congruence|].
          exists i. repeat split; [lia|tauto..]. }
  destruct (Hfold (HashMap.capacity_ m) ltac:(lia))
    as (m' & Hrun & Hinv' & Hclean' & Hcap' & Hsize' & Hrel').
  exists m'. split; [exact Hrun|]. split; [exact Hinv'|]. split; [exact Hclean'|].
  split; [exact Hcap'|]. split; [exact Hsize'|].
  intros k v. rewrite Hrel'. reflexivity.
Qed.

(** [insert] returns, keeps the invariant, and adds or replaces the key. *)
Lemma insert_spec (fuel : nat) (m : HashMap.t K V) (k : K) (v : V) (bound : nat) :
  HashMap.half_load_safe bound ->
  HashMap.invariant hasher m -> HashMap.clean m ->
  HashMap.capacity_ m <= bound -> 4 * HashMap.size_ m <= bound ->
  exists m',
    HashMap.insert hasher (S (S (S fuel))) m k v = HashMap.Returns m' /\
    HashMap.invariant hasher m' /\ HashMap.clean m' /\
    HashMap.capacity_ m' <= bound /\
    forall k' v',
      HashMap.holds m' k' v' <-> (k' = k /\ v' = v) \/ (k' <> k /\ HashMap.holds m k' v').
Proof.
  intros Hsafe Hinv Hclean Hcap Hsize.
  assert (Hc : 0 < HashMap.capacity_ m) by apply Hinv.
  rewrite insert_unfold.
  destruct (HashMap.load_factor_exceeded (HashMap.size_ m) (HashMap.capacity_ m)) eqn:Hload.
  - assert (Hhalf : HashMap.capacity_ m < 2 * HashMap.size_ m).
    { destruct (le_lt_dec (2 * HashMap.size_ m) (HashMap.capacity_ m)) as [Hle | Hlt];
        [|exact Hlt].
      rewrite (Hsafe (HashMap.size_ m) (HashMap.capacity_ m)) in Hload by lia.
      discriminate. }
    destruct (rehash_spec (S fuel) m (HashMap.capacity_ m * 2) bound Hsafe Hinv)
      as (m1 & -> & Hinv1 & Hclean1 & Hcap1 & Hsize1 & Hrel1); [lia|lia|].
    cbn [HashMap.bind].
    destruct (insert_probe (HashMap.insert hasher (S (S fuel))) m1 k v Hinv1 Hclean1)
      as (m2 & -> & Hcap2 & Hinv2 & Hclean2 & _ & Hrel2); [lia|].
    exists m2. split; [reflexivity|]. split; [exact Hinv2|]. split; [exact Hclean2|].
    split; [lia|]. intros k' v'. rewrite Hrel2, Hrel1. reflexivity.
  - cbn [HashMap.bind]. rewrite hash_returns by apply Hinv. cbn [HashMap.bind].
    pose proof (insert_loop_spec (HashMap.insert hasher (S (S fuel))) m k v
                  (HashMap.capacity_ m) 0 Hinv Hclean) as Hspec.
    rewrite slot_zero in Hspec.
    destruct Hspec as [(m' & -> & Hcap' & Hinv' & Hclean' & _ & Hrel') | [Hfull ->]];
      [lia|exact Hc|apply passed_zero| |].
    + exists m'. split; [reflexivity|]. split; [exact Hinv'|]. split; [exact Hclean'|].
      split; [lia|exact Hrel'].
    + destruct (rehash_spec (S fuel) m (HashMap.capacity_ m * 2) bound Hsafe Hinv)
        as (m1 & -> & Hinv1 & Hclean1 & Hcap1 & Hsize1 & Hrel1); [lia|lia|].
      cbn [HashMap.bind].
      destruct (insert_simple (S fuel) m1 k v Hinv1 Hclean1)
        as (m2 & -> & Hcap2 & Hinv2 & Hclean2 & _ & Hrel2).
      { apply Hsafe; lia. }
      { lia. }
      exists m2. split; [reflexivity|]. split; [exact Hinv2|]. split; [exact Hclean2|].
      split; [lia|]. intros k' v'. rewrite Hrel2, Hrel1. reflexivity.
Qed.

(** *** [remove] *)

Lemma mark_deleted_spec (m : HashMap.t K V) (idx : nat) :
  HashMap.invariant hasher m ->
  idx < HashMap.capacity_ m ->
  HashMap.live (HashMap.entry m idx) = true ->
  HashMap.invariant hasher (HashMap.mark_deleted m idx) /\
  forall k' v',
    HashMap.holds (HashMap.mark_deleted m idx) k' v' <->
    k' <> HashMap.key (HashMap.entry m idx) /\ HashMap.holds m k' v'.
Proof.
  intros [Hwf Hreach Hcount] Hidx Hlive.
  assert (Hlen : idx < length (HashMap.table_ m)) by (destruct Hwf as [-> _]; exact Hidx).
  set (e := HashMap.entry m idx) in *.
  set (e' := HashMap.mkEntry (HashMap.key e) (HashMap.value e) (HashMap.occupied e) true).
  assert (Hentry : forall j, HashMap.entry (HashMap.mark_deleted m idx) j
                             = if decide (j = idx) then e' else HashMap.entry m j).
  { intros j. apply entry_update. exact Hlen. }
  assert (Hcap : HashMap.capacity_ (HashMap.mark_deleted m idx) = HashMap.capacity_ m)
    by reflexivity.
  assert (Hdead : HashMap.live e' = false).
  { unfold e', HashMap.live. cbn. apply andb_false_r. }
  split; [split|].
  - apply well_formed_update. exact Hwf.
  - intros k d Hd Hl Hk d' Hd'. rewrite Hcap in *. rewrite Hentry in Hl, Hk.
    destruct (decide (HashMap.slot (HashMap.capacity_ m) (hasher k) d = idx)) as [Heq | Hne];
      [congruence|].
    destruct (Hreach k d Hd Hl Hk d' Hd') as [Hocc Hkey].
    rewrite Hentry.
    destruct (decide (HashMap.slot (HashMap.capacity_ m) (hasher k) d' = idx)) as [Heq | _].
    + rewrite Heq in Hocc. fold e in Hocc. split; [exact Hocc|congruence].
    + split; assumption.
  - unfold HashMap.counted, HashMap.mark_deleted. cbn [HashMap.size_ HashMap.table_].
    pose proof (count_insert HashMap.live (HashMap.table_ m) idx e' HashMap.fresh Hlen) as Hcnt.
    change (nth idx (HashMap.table_ m) HashMap.fresh) with e in Hcnt.
    rewrite Hlive in Hcnt.
    rewrite Hdead in Hcnt. fold e. fold e'. rewrite Hcount. lia.
  - intros k' v'. split.
    + intros (j & Hj & Hlj & Hkj & Hvj). rewrite Hcap in Hj. rewrite Hentry in Hlj, Hkj, Hvj.
      destruct (decide (j = idx)) as [-> | Hne]; [congruence|].
      split.
      * intros ->. apply Hne. apply (live_unique m); assumption.
      * exists j. repeat split; assumption.
    + intros [Hne (j & Hj & Hlj & Hkj & Hvj)].
      exists j. rewrite Hcap, Hentry.
      destruct (decide (j = idx)) as [-> | _]; [exfalso; apply Hne; symmetry; exact Hkj|].
      repeat split; assumption.
Qed.

(** [remove] returns, keeps the invariant, and takes the key out. *)
Lemma remove_spec (m : HashMap.t K V) (k : K) :
  HashMap.invariant hasher m ->
  exists m',
    HashMap.remove hasher m k = HashMap.Returns m' /\
    HashMap.invariant hasher m' /\
    forall k' v', HashMap.holds m' k' v' <-> k' <> k /\ HashMap.holds m k' v'.
Proof.
  intros Hinv. unfold HashMap.remove.
  rewrite hash_returns by apply Hinv. cbn [HashMap.bind].
  rewrite remove_loop_locate.
  destruct (locate_start m k) as (r & -> & Hr); [apply Hinv..|]. cbn [HashMap.bind].
  destruct r as [i|].
  - destruct Hr as (Hi & Hli & Hki).
    destruct (mark_deleted_spec m i Hinv Hi Hli) as [Hinv' Hrel].
    eexists. split; [reflexivity|]. split; [exact Hinv'|].
    intros k' v'. rewrite Hrel, Hki. reflexivity.
  - exists m. split; [reflexivity|]. split; [exact Hinv|].
    intros k' v'. split; [|tauto]. intros Hh. split; [|exact Hh].
    intros ->. destruct Hh as (i & Hi & Hli & Hki & _). apply (Hr i); assumption.
Qed.

(** *** The iterator *)

Lemma entry_lookup (m : HashMap.t K V) (i : nat) :
  i < length (HashMap.table_ m) -> HashMap.table_ m !! i = Some (HashMap.entry m i).
Proof.
  intros Hi. unfold HashMap.entry.
  destruct (lookup_lt_is_Some_2 _ _ Hi) as [e He]. rewrite He. f_equal.
  symmetry. apply nth_lookup_Some with (d := HashMap.fresh) in He. exact He.
Qed.

Lemma not_live_skipped (e : HashMap.Entry K V) :
  negb (HashMap.occupied e) || HashMap.deleted e = negb (HashMap.live e).
Proof. unfold HashMap.live. destruct (HashMap.occupied e), (HashMap.deleted e); reflexivity. Qed.

Lemma advance_spec (m : HashMap.t K V) (steps start : nat) :
  steps + start = HashMap.capacity_ m ->
  let i := HashMap.advance steps m start in
  start <= i <= HashMap.capacity_ m /\
  (forall j, start <= j < i -> HashMap.live (HashMap.entry m j) = false) /\
  (i < HashMap.capacity_ m -> HashMap.live (HashMap.entry m i) = true).
Proof.
  revert start. induction steps as [|steps IH]; intros start Hsum; cbn [HashMap.advance].
  - cbn zeta. split; [lia|]. split; intros; lia.
  - rewrite not_live_skipped.
    destruct (Nat.ltb_spec start (HashMap.capacity_ m)) as [Hlt | Hge]; [|lia].
    cbn [andb]. destruct (HashMap.live (HashMap.entry m start)) eqn:Hlive; cbn [negb].
    + cbn zeta. split; [lia|]. split; [intros; lia|intros _; exact Hlive].
    + destruct (IH (start + 1) ltac:(lia)) as (Hrange & Hskip & Hstop).
      cbn zeta. split; [lia|]. split; [|exact Hstop].
      intros j Hj. destruct (decide (j = start)) as [-> | Hne]; [exact Hlive|].
      apply Hskip. lia.
Qed.

Lemma live_pairs_skip (m : HashMap.t K V) (start i : nat) :
  start <= i <= length (HashMap.table_ m) ->
  (forall j, start <= j < i -> HashMap.live (HashMap.entry m j) = false) ->
  HashMap.live_pairs (drop start (HashMap.table_ m))
  = HashMap.live_pairs (drop i (HashMap.table_ m)).
Proof.
  intros Hrange. induction i as [|i IH]; intros Hskip.
  - replace start with 0 by lia. reflexivity.
  - destruct (decide (start = S i)) as [-> | Hne]; [reflexivity|].
    rewrite IH by (try lia; intros j Hj; apply Hskip; lia).
    rewrite (drop_S _ (HashMap.entry m i) i) by (apply entry_lookup; lia).
    unfold HashMap.live_pairs. cbn [List.filter].
    rewrite (Hskip i) by lia. reflexivity.
Qed.

Lemma iterator_at_end (m : HashMap.t K V) :
  HashMap.iterator_at m (HashMap.capacity_ m) = HashMap.capacity_ m.
Proof. unfold HashMap.iterator_at. rewrite Nat.sub_diag. reflexivity. Qed.

Lemma visit_spec (m : HashMap.t K V) (steps start : nat) :
  HashMap.well_formed m ->
  start <= HashMap.capacity_ m -> HashMap.capacity_ m - start <= steps ->
  HashMap.visit steps m (HashMap.iterator_at m start)
  = HashMap.live_pairs (drop start (HashMap.table_ m)).
Proof.
  intros [Hlen Hc]. revert start.
  induction steps as [|steps IH]; intros start Hstart Hsteps.
  - replace start with (length (HashMap.table_ m)) by lia.
    rewrite drop_all. reflexivity.
  - cbn [HashMap.visit]. rewrite iterator_at_end.
    pose proof (advance_spec m (HashMap.capacity_ m - start) start ltac:(lia)) as Hadv.
    cbn zeta in Hadv. fold (HashMap.iterator_at m start) in Hadv.
    set (i := HashMap.iterator_at m start) in *.
    destruct Hadv as (Hrange & Hskip & Hstop).
    rewrite (live_pairs_skip m start i) by (rewrite ?Hlen; assumption || lia).
    destruct (Nat.eqb_spec i (HashMap.capacity_ m)) as [Heq | Hne].
    + rewrite Heq, <- Hlen, drop_all. reflexivity.
    + rewrite IH by lia.
      rewrite (drop_S _ (HashMap.entry m i) i) by (apply entry_lookup; lia).
      unfold HashMap.live_pairs. cbn [List.filter].
      rewrite Hstop by lia. cbn [map]. rewrite Nat.add_1_r. reflexivity.
Qed.

(** A loop over the iterator visits the live entries in slot order. *)
Lemma items_live_pairs (m : HashMap.t K V) :
  HashMap.well_formed m -> HashMap.items m = HashMap.live_pairs (HashMap.table_ m).
Proof.
  intros Hwf. unfold HashMap.items. rewrite visit_spec; [reflexivity|exact Hwf|lia|lia].
Qed.

Lemma live_pairs_nth (l : list (HashMap.Entry K V)) (k : K) (v : V) :
  (k, v) ∈ HashMap.live_pairs l <->
  exists i, i < length l /\ HashMap.live (nth i l HashMap.fresh) = true /\
            HashMap.key (nth i l HashMap.fresh) = k /\
            HashMap.value (nth i l HashMap.fresh) = v.
Proof.
  unfold HashMap.live_pairs. rewrite list_elem_of_In, in_map_iff. split.
  - intros (e & Heq & Hin). apply filter_In in Hin. destruct Hin as [Hin Hlive].
    destruct (In_nth _ _ HashMap.fresh Hin) as (i & Hi & <-).
    exists i. injection Heq as Hk Hv. repeat split; assumption.
  - intros (i & Hi & Hlive & Hk & Hv). exists (nth i l HashMap.fresh).
    split; [congruence|]. apply filter_In. split; [|exact Hlive].
    apply nth_In. exact Hi.
Qed.

Lemma live_pairs_elem (m : HashMap.t K V) (k : K) (v : V) :
  HashMap.well_formed m ->
  (k, v) ∈ HashMap.live_pairs (HashMap.table_ m) <-> HashMap.holds m k v.
Proof.
  intros [Hlen Hc]. rewrite live_pairs_nth. unfold HashMap.holds, HashMap.entry.
  rewrite Hlen. reflexivity.
Qed.

Lemma live_keys_nodup (l : list (HashMap.Entry K V)) :
  (forall i j, i < length l -> j < length l ->
     HashMap.live (nth i l HashMap.fresh) = true ->
     HashMap.live (nth j l HashMap.fresh) = true ->
     HashMap.key (nth i l HashMap.fresh) = HashMap.key (nth j l HashMap.fresh) -> i = j) ->
  NoDup (HashMap.live_pairs l).*1.
Proof.
  induction l as [|a l IH]; intros Hdistinct; [constructor|].
  assert (Htail : NoDup (HashMap.live_pairs l).*1).
  { apply IH. intros i j Hi Hj Hli Hlj Hk.
    assert (S i = S j) by (apply Hdistinct; cbn; try lia; assumption). lia. }
  unfold HashMap.live_pairs. cbn [List.filter].
  destruct (HashMap.live a) eqn:Hlive; [|exact Htail].
  cbn [map]. rewrite fmap_cons. apply NoDup_cons_2; [|exact Htail].
  cbn [fst]. intros Hin. apply list_elem_of_fmap in Hin.
  destruct Hin as ([k v] & Hk & Hin). cbn in Hk. subst k.
  apply live_pairs_nth in Hin. destruct Hin as (j & Hj & Hlj & Hkj & _).
  assert (0 = S j); [|lia].
  apply Hdistinct; cbn; try lia; try assumption. congruence.
Qed.

Lemma items_spec (m : HashMap.t K V) (M : gmap K V) :
  HashMap.invariant hasher m -> HashMap.represents m M ->
  HashMap.items m ≡ₚ map_to_list M /\ HashMap.size_ m = size M.
Proof.
  intros [Hwf Hreach Hcount] Hrep.
  assert (Hperm : HashMap.items m ≡ₚ map_to_list M).
  { rewrite items_live_pairs by exact Hwf. apply NoDup_Permutation.
    - apply (NoDup_fmap_1 fst). apply live_keys_nodup.
      intros i j Hi Hj Hli Hlj Hk. destruct Hwf as [Hlen Hc].
      apply (live_unique m); try assumption; try lia. split; assumption.
    - apply NoDup_map_to_list.
    - intros [k v]. rewrite live_pairs_elem by exact Hwf.
      rewrite elem_of_map_to_list. apply Hrep. }
  split; [exact Hperm|].
  rewrite Hcount. rewrite <- (length_map_to_list M).
  rewrite <- Hperm, items_live_pairs by exact Hwf.
  unfold HashMap.live_pairs. rewrite length_map. reflexivity.
Qed.

(** *** Sequences of calls *)

Lemma half_load_checked_safe (bound : nat) :
  HashMap.half_load_checked bound = true -> HashMap.half_load_safe bound.
Proof.
  unfold HashMap.half_load_checked. intros Hchecked size capacity Hcap Hhalf.
  rewrite forallb_forall in Hchecked.
  assert (Hin : In capacity (seq 1 bound)) by (apply in_seq; lia).
  specialize (Hchecked capacity Hin). rewrite forallb_forall in Hchecked.
  assert (Hin' : In size (seq 0 (capacity / 2 + 1))).
  { apply in_seq. split; [lia|].
    assert (size <= capacity / 2) by (apply Nat.div_le_lower_bound; lia). lia. }
  specialize (Hchecked size Hin'). apply negb_true_iff in Hchecked. exact Hchecked.
Qed.

Lemma half_load_safe_le (bound bound' : nat) :
  bound' <= bound -> HashMap.half_load_safe bound -> HashMap.half_load_safe bound'.
Proof. intros Hle Hsafe size capacity Hcap Hhalf. apply Hsafe; lia. Qed.

Lemma represents_insert (m m' : HashMap.t K V) (M : gmap K V) (k : K) (v : V) :
  HashMap.represents m M ->
  (forall k' v',
     HashMap.holds m' k' v' <-> (k' = k /\ v' = v) \/ (k' <> k /\ HashMap.holds m k' v')) ->
  HashMap.represents m' (<[k := v]> M).
Proof.
  intros Hrep Hrel k' v'. rewrite Hrel, lookup_insert_Some, (Hrep k' v').
  split; intros [[-> ->] | [Hne Hh]]; auto.
Qed.

Lemma represents_delete (m m' : HashMap.t K V) (M : gmap K V) (k : K) :
  HashMap.represents m M ->
  (forall k' v', HashMap.holds m' k' v' <-> k' <> k /\ HashMap.holds m k' v') ->
  HashMap.represents m' (delete k M).
Proof.
  intros Hrep Hrel k' v'. rewrite Hrel, lookup_delete_Some, (Hrep k' v').
  split; intros [Hne Hh]; auto.
Qed.

Lemma insert_all_spec (fuel bound : nat) (pairs : list (K * V)) :
  HashMap.half_load_safe bound ->
  forall (m : HashMap.t K V) (M : gmap K V),
    HashMap.invariant hasher m -> HashMap.clean m -> HashMap.represents m M ->
    HashMap.capacity_ m <= bound -> 4 * (size M + length pairs) <= bound ->
    exists m',
      HashMap.insert_all hasher (S (S (S fuel))) m pairs = HashMap.Returns m' /\
      HashMap.invariant hasher m' /\
      HashMap.represents m' (foldl (fun M kv => <[kv.1 := kv.2]> M) M pairs).
Proof.
  intros Hsafe. induction pairs as [|[k v] pairs IH]; intros m M Hinv Hclean Hrep Hcap Hsize.
  - exists m. split; [reflexivity|]. split; assumption.
  - destruct (items_spec m M Hinv Hrep) as [_ Hcount].
    destruct (insert_spec fuel m k v bound Hsafe Hinv Hclean Hcap)
      as (m1 & Hins & Hinv1 & Hclean1 & Hcap1 & Hrel1); [cbn in Hsize; lia|].
    assert (Hrep1 : HashMap.represents m1 (<[k := v]> M))
      by (apply (represents_insert m); assumption).
    destruct (IH m1 (<[k := v]> M) Hinv1 Hclean1 Hrep1 Hcap1) as (m' & Hrun & Hrest).
    { rewrite map_size_insert. cbn in Hsize. destruct (M !! k); unfold id; lia. }
    exists m'. split; [|exact Hrest].
    unfold HashMap.insert_all in *. cbn [foldl HashMap.bind fst snd].
    rewrite Hins. exact Hrun.
Qed.

Lemma remove_all_spec (keys : list K) :
  forall (m : HashMap.t K V) (M : gmap K V),
    HashMap.invariant hasher m -> HashMap.represents m M ->
    exists m',
      HashMap.remove_all hasher m keys = HashMap.Returns m' /\
      HashMap.invariant hasher m' /\
      HashMap.represents m' (foldl (fun M k => delete k M) M keys).
Proof.
  induction keys as [|k keys IH]; intros m M Hinv Hrep.
  - exists m. split; [reflexivity|]. split; assumption.
  - destruct (remove_spec m k Hinv) as (m1 & Hrem & Hinv1 & Hrel1).
    assert (Hrep1 : HashMap.represents m1 (delete k M))
      by (apply (represents_delete m); assumption).
    destruct (IH m1 (delete k M) Hinv1 Hrep1) as (m' & Hrun & Hrest).
    exists m'. split; [|exact Hrest].
    unfold HashMap.remove_all in *. cbn [foldl HashMap.bind].
    rewrite Hrem. exact Hrun.
Qed.

Lemma find_represents (m : HashMap.t K V) (M : gmap K V) (k : K) :
  HashMap.invariant hasher m -> HashMap.represents m M ->
  HashMap.find hasher m k = HashMap.Returns (M !! k).
Proof.
  intros Hinv Hrep.
  destruct (find_spec m k) as (r & -> & Hr); [apply Hinv..|]. f_equal.
  destruct r as [v|].
  - symmetry. apply Hrep, Hr. reflexivity.
  - destruct (M !! k) as [v|] eqn:Hlook; [|reflexivity].
    apply Hrep, Hr in Hlook. discriminate.
Qed.

(** A table filled by [insert] calls, from which keys are then taken by
    [remove] calls, is the finite map of these calls: every call returns,
    [find] looks the key up in the map, [size] is the number of its keys,
    and a loop over the iterator visits each of its entries once.  The
    premise is the arithmetic the code relies on: the load-factor test on
    [double]s does not fire at or below half load. *)
Theorem hash_map_refines_finite_map (pairs : list (K * V)) (keys : list K) (fuel : nat) :
  HashMap.half_load_safe (Nat.max 16 (4 * length pairs)) ->
  3 <= fuel ->
  exists m m',
    HashMap.insert_all hasher fuel HashMap.new pairs = HashMap.Returns m /\
    HashMap.remove_all hasher m keys = HashMap.Returns m' /\
    (forall k, HashMap.find hasher m' k
               = HashMap.Returns (HashMap.finite_map_of pairs keys !! k)) /\
    HashMap.size m' = size (HashMap.finite_map_of pairs keys) /\
    HashMap.items m' ≡ₚ map_to_list (HashMap.finite_map_of pairs keys).
Proof.
  intros Hsafe Hfuel.
  destruct fuel as [|[|[|fuel]]]; try lia.
  destruct (with_capacity_spec 16 ltac:(lia)) as (Hinv0 & Hclean0 & Hnone).
  assert (Hrep0 : HashMap.represents (HashMap.new : HashMap.t K V) ∅).
  { intros k v. rewrite lookup_empty. split; [|discriminate].
    intros Hh. exfalso. exact (Hnone k v Hh). }
  destruct (insert_all_spec fuel _ pairs Hsafe HashMap.new ∅ Hinv0 Hclean0 Hrep0)
    as (m & Hrun & Hinv & Hrep).
  { cbn. lia. }
  { rewrite map_size_empty. lia. }
  destruct (remove_all_spec keys m _ Hinv Hrep) as (m' & Hrun' & Hinv' & Hrep').
  exists m, m'. split; [exact Hrun|]. split; [exact Hrun'|].
  fold (HashMap.finite_map_of pairs keys) in Hrep'.
  destruct (items_spec m' _ Hinv' Hrep') as [Hperm Hsize].
  split; [|split; [exact Hsize|exact Hperm]].
  intros k. apply find_represents; assumption.
Qed.

(** *** A tombstone hides the key from [insert] *)

Lemma load_factor_small (size : nat) :
  size <= 2 -> HashMap.load_factor_exceeded size 16 = false.
Proof.
  intros Hsize. destruct size as [|[|[|size]]]; [vm_compute; reflexivity..|lia].
Qed.

(** [remove] does not always remove.  [insert] stops at the first tombstone
    without looking for the key behind it, so a key that was stored behind
    another one is stored a second time once that one is removed; [remove]
    then deletes one copy only.  For two keys [a] and [b] with the same slot
    in a new table, after [insert(a); insert(b); remove(a); insert(b);
    remove(b)] the table still finds [b], with its first value. *)
Theorem remove_leaves_stale_entry (a b : K) (va vb vb' : V) (fuel : nat) :
  a <> b -> hasher a mod 16 = hasher b mod 16 ->
  exists m,
    HashMap.reinsert_after_remove hasher (S fuel) a b va vb vb' = HashMap.Returns m /\
    HashMap.find hasher m b = HashMap.Returns (Some vb) /\
    HashMap.contains hasher m b = HashMap.Returns true /\
    HashMap.size m = 1.
Proof.
  intros Hne Hcoll.
  set (h := hasher a mod 16) in *.
  assert (Hh : h < 16) by (apply Nat.mod_upper_bound; lia).
  set (h1 := (h + 1) mod 16).
  assert (Hh1 : h1 < 16) by (apply Nat.mod_upper_bound; lia).
  assert (Hdiff : h1 <> h).
  { unfold h1. destruct (decide (h = 15)) as [-> | Hlast]; [cbn; lia|].
    rewrite Nat.mod_small by lia. lia. }
  assert (Hback : (h1 =? h) = false) by (apply Nat.eqb_neq; exact Hdiff).
  assert (Hab : bool_decide (a = b) = false) by (apply bool_decide_eq_false_2; exact Hne).
  assert (Hbb : bool_decide (b = b) = true) by (apply bool_decide_eq_true_2; reflexivity).
  assert (Haa : bool_decide (a = a) = true) by (apply bool_decide_eq_true_2; reflexivity).
  set (A := HashMap.mkEntry a va true false).
  set (B := HashMap.mkEntry b vb true false).
  set (T1 := <[h := A]> (replicate 16 (HashMap.fresh : HashMap.Entry K V))).
  set (T2 := <[h1 := B]> T1).
  set (T3 := <[h := HashMap.mkEntry a va true true]> T2).
  set (T4 := <[h := HashMap.mkEntry b vb' true false]> T3).
  set (T5 := <[h := HashMap.mkEntry b vb' true true]> T4).
  assert (L1 : length T1 = 16) by (unfold T1; rewrite length_insert; apply length_replicate).
  assert (L2 : length T2 = 16) by (unfold T2; rewrite length_insert; exact L1).
  assert (L3 : length T3 = 16) by (unfold T3; rewrite length_insert; exact L2).
  assert (L4 : length T4 = 16) by (unfold T4; rewrite length_insert; exact L3).
  assert (E0 : forall j, nth j (replicate 16 (HashMap.fresh : HashMap.Entry K V)) HashMap.fresh
                         = HashMap.fresh) by (intros j; apply nth_replicate_same).
  assert (E1h : nth h T1 HashMap.fresh = A).
  { unfold T1. rewrite nth_insert, length_replicate.
    destruct (decide _) as [_ | Hn]; [reflexivity|]. exfalso. apply Hn. split; [reflexivity|lia]. }
  assert (E1h1 : nth h1 T1 HashMap.fresh = HashMap.fresh).
  { unfold T1. rewrite nth_insert. destruct (decide _) as [[Heq _] | _]; [contradiction|apply E0]. }
  assert (E2h : nth h T2 HashMap.fresh = A).
  { unfold T2. rewrite nth_insert.
    destruct (decide _) as [[Heq _] | _]; [exfalso; apply Hdiff; symmetry; exact Heq|exact E1h]. }
  assert (E2h1 : nth h1 T2 HashMap.fresh = B).
  { unfold T2. rewrite nth_insert, L1.
    destruct (decide _) as [_ | Hn]; [reflexivity|]. exfalso. apply Hn. split; [reflexivity|lia]. }
  assert (E3h : nth h T3 HashMap.fresh = HashMap.mkEntry a va true true).
  { unfold T3. rewrite nth_insert, L2.
    destruct (decide _) as [_ | Hn]; [reflexivity|]. exfalso. apply Hn. split; [reflexivity|lia]. }
  assert (E4h : nth h T4 HashMap.fresh = HashMap.mkEntry b vb' true false).
  { unfold T4. rewrite nth_insert, L3.
    destruct (decide _) as [_ | Hn]; [reflexivity|]. exfalso. apply Hn. split; [reflexivity|lia]. }
  assert (E5h : nth h T5 HashMap.fresh = HashMap.mkEntry b vb' true true).
  { unfold T5. rewrite nth_insert, L4.
    destruct (decide _) as [_ | Hn]; [reflexivity|]. exfalso. apply Hn. split; [reflexivity|lia]. }
  assert (E5h1 : nth h1 T5 HashMap.fresh = B).
  { unfold T5, T4, T3. rewrite !nth_insert.
    repeat (destruct (decide _) as [[Heq _] | _]; [contradiction|]). exact E2h1. }
  assert (S1 : HashMap.insert hasher (S fuel) HashMap.new a va
               = HashMap.Returns (HashMap.mk T1 16 1)).
  { rewrite insert_unfold. change (HashMap.size_ HashMap.new) with 0.
    change (HashMap.capacity_ (HashMap.new : HashMap.t K V)) with 16.
    rewrite load_factor_small by lia. cbn [HashMap.bind].
    unfold HashMap.hash. change (HashMap.capacity_ (HashMap.new : HashMap.t K V)) with 16.
    cbn [Nat.eqb HashMap.bind]. fold h. cbn [HashMap.insert_loop].
    unfold HashMap.new. rewrite entry_with_capacity. reflexivity. }
  assert (S2 : HashMap.insert hasher (S fuel) (HashMap.mk T1 16 1) b vb
               = HashMap.Returns (HashMap.mk T2 16 2)).
  { rewrite insert_unfold. cbn [HashMap.size_ HashMap.capacity_].
    rewrite load_factor_small by lia. cbn [HashMap.bind].
    unfold HashMap.hash. cbn [HashMap.capacity_ Nat.eqb HashMap.bind]. rewrite <- Hcoll.
    cbn [HashMap.insert_loop]. unfold HashMap.entry. cbn [HashMap.table_ HashMap.capacity_].
    rewrite E1h. cbn [HashMap.occupied HashMap.deleted HashMap.key A andb negb].
    rewrite Hab. fold h1. rewrite Hback, E1h1. reflexivity. }
  assert (S3 : HashMap.remove hasher (HashMap.mk T2 16 2) a
               = HashMap.Returns (HashMap.mk T3 16 1)).
  { unfold HashMap.remove, HashMap.hash. cbn [HashMap.capacity_ Nat.eqb HashMap.bind].
    fold h. cbn [HashMap.remove_loop]. unfold HashMap.entry.
    cbn [HashMap.table_ HashMap.capacity_ HashMap.size_].
    rewrite E2h. cbn [HashMap.occupied HashMap.deleted HashMap.key HashMap.value A andb negb].
    rewrite Haa. reflexivity. }
  assert (S4 : HashMap.insert hasher (S fuel) (HashMap.mk T3 16 1) b vb'
               = HashMap.Returns (HashMap.mk T4 16 2)).
  { rewrite insert_unfold. cbn [HashMap.size_ HashMap.capacity_].
    rewrite load_factor_small by lia. cbn [HashMap.bind].
    unfold HashMap.hash. cbn [HashMap.capacity_ Nat.eqb HashMap.bind]. rewrite <- Hcoll.
    cbn [HashMap.insert_loop]. unfold HashMap.entry. cbn [HashMap.table_ HashMap.capacity_].
    rewrite E3h. reflexivity. }
  assert (S5 : HashMap.remove hasher (HashMap.mk T4 16 2) b
               = HashMap.Returns (HashMap.mk T5 16 1)).
  { unfold HashMap.remove, HashMap.hash. cbn [HashMap.capacity_ Nat.eqb HashMap.bind].
    rewrite <- Hcoll. cbn [HashMap.remove_loop]. unfold HashMap.entry.
    cbn [HashMap.table_ HashMap.capacity_ HashMap.size_].
    rewrite E4h. cbn [HashMap.occupied HashMap.deleted HashMap.key HashMap.value andb negb].
    rewrite Hbb. reflexivity. }
  assert (F : HashMap.find hasher (HashMap.mk T5 16 1) b = HashMap.Returns (Some vb)).
  { unfold HashMap.find, HashMap.hash. cbn [HashMap.capacity_ Nat.eqb HashMap.bind].
    rewrite <- Hcoll. cbn [HashMap.find_loop]. unfold HashMap.entry.
    cbn [HashMap.table_ HashMap.capacity_].
    rewrite E5h. cbn [HashMap.occupied HashMap.deleted andb negb].
    fold h1. rewrite Hback, E5h1.
    cbn [HashMap.occupied HashMap.deleted HashMap.key HashMap.value B andb negb].
    rewrite Hbb. reflexivity. }
  exists (HashMap.mk T5 16 1).
  unfold HashMap.reinsert_after_remove.
  rewrite S1. cbn [HashMap.bind]. rewrite S2. cbn [HashMap.bind].
  rewrite S3. cbn [HashMap.bind]. rewrite S4. cbn [HashMap.bind].
  split; [exact S5|]. split; [exact F|]. split; [|reflexivity].
  unfold HashMap.contains. rewrite F. reflexivity.
Qed.

End HashMapFacts.

Lemma hash_map_refines_finite_map_witness :
  HashMap.half_load_safe (Nat.max 16 (4 * length HashMap.sample_pairs)) /\
  (3 <= 3)%nat /\
  exists m m',
    HashMap.insert_all String.length 3 HashMap.new HashMap.sample_pairs = HashMap.Returns m /\
    HashMap.remove_all String.length m HashMap.sample_removed = HashMap.Returns m' /\
    (forall k, HashMap.find String.length m' k
               = HashMap.Returns
                   (HashMap.finite_map_of HashMap.sample_pairs HashMap.sample_removed !! k)) /\
    HashMap.size m' = size (HashMap.finite_map_of HashMap.sample_pairs HashMap.sample_removed) /\
    HashMap.items m'
    ≡ₚ map_to_list (HashMap.finite_map_of HashMap.sample_pairs HashMap.sample_removed).
Proof.
  split; [apply half_load_checked_safe; vm_compute; reflexivity|].
  split; [lia|].
  apply (hash_map_refines_finite_map String.length HashMap.sample_pairs
           HashMap.sample_removed 3).
  - apply half_load_checked_safe. vm_compute. reflexivity.
  - lia.
Defined.

Lemma remove_leaves_stale_entry_witness :
  "nuka" <> "cola" /\ (String.length "nuka" mod 16 = String.length "cola" mod 16)%nat /\
  exists m,
    HashMap.reinsert_after_remove String.length 1 "nuka" "cola" 1%Z 2%Z 3%Z
    = HashMap.Returns m /\
    HashMap.find String.length m "cola" = HashMap.Returns (Some 2%Z) /\
    HashMap.contains String.length m "cola" = HashMap.Returns true /\
    HashMap.size m = 1%nat.
Proof.
  split; [discriminate|]. split; [reflexivity|].
  apply (remove_leaves_stale_entry String.length "nuka" "cola" 1%Z 2%Z 3%Z 0);
    [discriminate|reflexivity].
Defined.
